(** * Rapid rooted Transfer Index computation (booster): a shallow embedding

    Rocq model of the rapid Transfer Index (TI) computation in
    [src/rapid_transfer.c], [src/heavy_paths.c] and the tree preparation in
    [src/tree.c].  C [int]s are modelled as [Z] (no value here comes near the
    [int] range), node pointers as node identifiers ([nat]), and the
    [NodeArray] leaf sets as lists that grow at their end ([addNodeNA]). *)

From Stdlib Require Import String Ascii.
From Stdlib Require Import ZArith List Lia Bool Arith PeanoNat Permutation.
Import ListNotations.

(** Outcome of a C routine: it returns normally, it ends the process through
    [Generic_Exit] with a diagnostic, or (for the model of an unbounded
    [while(1)] loop) it did not reach its exit within the iterations a
    well-formed tree needs. *)
Inductive outcome (A : Type) : Type :=
| Ok (a : A)
| Fatal (msg : string)
| NoTerm.
Arguments Ok {A} a.
Arguments Fatal {A} msg.
Arguments NoTerm {A}.

(** [min], [max], [min3], [max3] of [tree.c]. *)
Module CInt.
Definition min (i1 i2 : Z) : Z := if (i1 <? i2)%Z then i1 else i2.
Definition max (i1 i2 : Z) : Z := if (i1 >? i2)%Z then i1 else i2.
Definition min3 (i1 i2 i3 : Z) : Z := min (min i1 i2) i3.
Definition max3 (i1 i2 i3 : Z) : Z := max (max i1 i2) i3.

Lemma min_spec (a b : Z) : min a b = Z.min a b.
Proof. unfold min. destruct (Z.ltb_spec a b); lia. Qed.
Lemma max_spec (a b : Z) : max a b = Z.max a b.
Proof. unfold max. destruct (Z.gtb_spec a b); lia. Qed.
End CInt.

(** ** The AltIndex on a balanced alternative tree ([add_leaf], [reset_leaf])

    The alternative tree is given by its shape, as [tree.c] stores it: the
    neighbour array of every node (parent first for a non-root node), the
    depth and the subtree size.  The mutable TI variables of the nodes form a
    store indexed by node identifier. *)
Module Balanced.

Record vars := mkVars {
  d_lazy : Z;
  d_min : Z;
  d_max : Z;
  diff : Z;
  include : list nat;
  exclude : list nat
}.

Definition set_d_lazy (r : vars) (z : Z) : vars :=
  mkVars z (d_min r) (d_max r) (diff r) (include r) (exclude r).
Definition set_d_min (r : vars) (z : Z) : vars :=
  mkVars (d_lazy r) z (d_max r) (diff r) (include r) (exclude r).
Definition set_d_max (r : vars) (z : Z) : vars :=
  mkVars (d_lazy r) (d_min r) z (diff r) (include r) (exclude r).
Definition set_diff (r : vars) (z : Z) : vars :=
  mkVars (d_lazy r) (d_min r) (d_max r) z (include r) (exclude r).
Definition set_include (r : vars) (l : list nat) : vars :=
  mkVars (d_lazy r) (d_min r) (d_max r) (diff r) l (exclude r).
Definition set_exclude (r : vars) (l : list nat) : vars :=
  mkVars (d_lazy r) (d_min r) (d_max r) (diff r) (include r) l.

Definition store := nat -> vars.

Definition upd (st : store) (v : nat) (r : vars) : store :=
  fun w => if Nat.eqb w v then r else st w.

Definition leaf_msg : string := "Error: leaf not given to add_leaf()."%string.

Section AltTree.

Variable neigh : nat -> list nat.
Variable depth : nat -> nat.
Variable subtreesize : nat -> Z.

Definition nneigh (v : nat) : nat := length (neigh v).
Definition neigh_at (v j : nat) : nat := nth j (neigh v) 0%nat.

(** The state of a node in a freshly prepared tree ([prepare_rapid_TI_doer]). *)
Definition init (v : nat) : vars :=
  mkVars (subtreesize v) 1 (subtreesize v) 0 [] [].

(** [assert_is_leaf]. *)
Definition assert_is_leaf (leaf : nat) : outcome unit :=
  if Nat.eqb (nneigh leaf) 1 then Ok tt else Fatal leaf_msg.

(** [path_to_root]: [depth n + 1] nodes, following [neigh[0]]. *)
Fixpoint path_from (k : nat) (n : nat) : list nat :=
  match k with
  | O => [n]
  | S k' => n :: path_from k' (neigh_at n 0)
  end.
Definition path_to_root (n : nat) : list nat := path_from (depth n) n.

(** The first child index: 0 at the root, 1 elsewhere. *)
Definition startindex (p : nat) : nat := if Nat.eqb (depth p) 0 then 0 else 1.
Definition children (p : nat) : list nat := skipn (startindex p) (neigh p).

(** One iteration [i] of the downward loop of [add_leaf], with
    [p = path[i]] and [c = path[i-1]]. *)
Definition off_path_child (getset : bool) (leaf p c : nat) (st : store) (cj : nat)
  : store :=
  if Nat.eqb cj c then st
  else
    let r := st cj in
    let r1 := set_diff r (diff r + (diff (st p) + 1)) in
    upd st cj (if getset then set_include r1 (include r1 ++ [leaf]) else r1).

Definition down_step (getset : bool) (leaf : nat) (st : store) (pc : nat * nat)
  : store :=
  let (p, c) := pc in
  let st1 := upd st p (set_d_lazy (st p) (d_lazy (st p) + diff (st p) - 1)) in
  let st2 := if getset then upd st1 p (set_exclude (st1 p) (exclude (st1 p) ++ [leaf]))
             else st1 in
  let st3 := upd st2 c (set_diff (st2 c) (diff (st2 c) + diff (st2 p))) in
  let st4 := fold_left (off_path_child getset leaf p c) (children p) st3 in
  upd st4 p (set_diff (st4 p) 0).

(** The pairs [(path[i], path[i-1])] for [i = depth, ..., 1]. *)
Definition down_pairs (path : list nat) : list (nat * nat) :=
  rev (combine (tl path) path).

Definition leaf_step (getset : bool) (leaf : nat) (st : store) : store :=
  let st1 := upd st leaf (set_d_lazy (st leaf) (d_lazy (st leaf) + diff (st leaf) - 1)) in
  let st2 := upd st1 leaf (set_diff (st1 leaf) 0) in
  if getset then upd st2 leaf (set_exclude (st2 leaf) (exclude (st2 leaf) ++ [leaf]))
  else st2.

(** [update_dminmax_on_path]. *)
Definition dminmax_child (p : nat) (st : store) (c : nat) : store :=
  let r := st p in
  let r1 := set_d_min r (CInt.min (d_min r) (d_min (st c) + diff (st c))) in
  let st1 := upd st p r1 in
  let r2 := st1 p in
  upd st1 p (set_d_max r2 (CInt.max (d_max r2) (d_max (st1 c) + diff (st1 c)))).

Definition dminmax_node (st : store) (p : nat) : store :=
  let st1 := upd st p (set_d_min (st p) (d_lazy (st p))) in
  let st2 := upd st1 p (set_d_max (st1 p) (d_lazy (st1 p))) in
  fold_left (dminmax_child p) (children p) st2.

Definition update_dminmax_on_path (path : list nat) (st : store) : store :=
  match path with
  | [] => st
  | l :: rest =>
      let st1 := upd st l (set_d_min (st l) (d_lazy (st l))) in
      let st2 := upd st1 l (set_d_max (st1 l) (d_lazy (st1 l))) in
      fold_left dminmax_node rest st2
  end.

(** [add_leaf(leaf, getset)]. *)
Definition add_leaf (getset : bool) (leaf : nat) (st : store) : outcome store :=
  match assert_is_leaf leaf with
  | Ok _ =>
      let path := path_to_root leaf in
      let st1 := fold_left (down_step getset leaf) (down_pairs path) st in
      Ok (update_dminmax_on_path path (leaf_step getset leaf st1))
  | Fatal m => Fatal m
  | NoTerm => NoTerm
  end.

(** [reset_leaf(leaf, getset)]: the [while(1)] loop climbs from the leaf;
    [pathchild] is [NULL] ([None]) at first and then the node just moved
    to, as in the source. *)
Definition reset_vars (getset : bool) (n : nat) (r : vars) : vars :=
  mkVars (subtreesize n) 1 (subtreesize n) 0 (include r)
         (if getset then [] else exclude r).

Definition reset_child (getset : bool) (st : store) (c : nat) : store :=
  let r1 := set_diff (st c) 0 in
  upd st c (if getset then set_include r1 [] else r1).

Definition reset_other_child (getset : bool) (pathchild : option nat)
  (st : store) (c : nat) : store :=
  match pathchild with
  | Some pc => if Nat.eqb c pc then st else reset_child getset st c
  | None => reset_child getset st c
  end.

Fixpoint reset_loop (fuel : nat) (getset : bool) (n : nat)
  (pathchild : option nat) (st : store) : outcome store :=
  match fuel with
  | O => NoTerm
  | S fuel' =>
      let st1 := upd st n (reset_vars getset n (st n)) in
      if negb (Nat.eqb (nneigh n) 1) then
        let st2 := fold_left (reset_other_child getset pathchild) (tl (neigh n)) st1 in
        if Nat.eqb (depth n) 0 then Ok (reset_child getset st2 (neigh_at n 0))
        else reset_loop fuel' getset (neigh_at n 0) (Some (neigh_at n 0)) st2
      else reset_loop fuel' getset (neigh_at n 0) (Some (neigh_at n 0)) st1
  end.

Definition reset_leaf (getset : bool) (leaf : nat) (st : store) : outcome store :=
  match assert_is_leaf leaf with
  | Ok _ => reset_loop (S (depth leaf)) getset leaf None st
  | Fatal m => Fatal m
  | NoTerm => NoTerm
  end.

Fixpoint add_all (getset : bool) (ls : list nat) (st : store) : outcome store :=
  match ls with
  | [] => Ok st
  | l :: r => match add_leaf getset l st with
              | Ok st' => add_all getset r st'
              | Fatal m => Fatal m
              | NoTerm => NoTerm
              end
  end.

Fixpoint reset_all (getset : bool) (ls : list nat) (st : store) : outcome store :=
  match ls with
  | [] => Ok st
  | l :: r => match reset_leaf getset l st with
              | Ok st' => reset_all getset r st'
              | Fatal m => Fatal m
              | NoTerm => NoTerm
              end
  end.

(** Shape conditions on the chain of [neigh[0]] links from a node at depth
    [k]: depths decrease by one, the depth-0 node is not a leaf, and no node
    is its own neighbour. *)
Fixpoint chain_ok (k : nat) (n : nat) : bool :=
  Nat.eqb (depth n) k && negb (existsb (Nat.eqb n) (neigh n)) &&
  match k with
  | O => negb (Nat.eqb (nneigh n) 1)
  | S k' => Nat.leb 1 (nneigh n) && chain_ok k' (neigh_at n 0)
  end.

Definition leaf_ok (l : nat) : bool := Nat.eqb (nneigh l) 1 && chain_ok (depth l) l.

End AltTree.
End Balanced.

(** ** Node TI to edge TI ([nodeTI_to_edgeTI], [set_edge_TI])

    A reference-tree node carries its depth, the identifier of its edge
    [br[0]] (the edge above it) and the two values [ti_min], [ti_max]; the
    [transfer_index] fields of the edges form a store indexed by edge
    identifier. *)
Module EdgeTI.

Record node := mkNode { depth : nat; br0 : nat; ti_min : Z; ti_max : Z }.

Definition estore := nat -> Z.

Definition upd (es : estore) (e : nat) (z : Z) : estore :=
  fun e' => if Nat.eqb e' e then z else es e'.

Definition set_edge_TI (u : node) (n : Z) (es : estore) : estore :=
  if negb (Nat.eqb (depth u) 0) then upd es (br0 u) (CInt.min (ti_min u) (n - ti_max u))
  else es.

Definition nodeTI_to_edgeTI (a_nodes : list node) (nb_taxa : Z) (es : estore) : estore :=
  fold_left (fun es u => set_edge_TI u nb_taxa es) a_nodes es.

(** The edges above the non-root nodes. *)
Definition nonroot_edges (a_nodes : list node) : list nat :=
  map br0 (filter (fun u => negb (Nat.eqb (depth u) 0)) a_nodes).

End EdgeTI.

(** ** The leaf bijection ([set_leaf_bijection])

    A tree's sorted leaf array as the list of its leaves; the result is the
    list of the [other] links the loop sets, the pair [(a1[i], a2[i])] for
    every index [i] of [tree1]'s array.  Reading [tree2->leaves->a[i]] past
    the end of [tree2]'s array has no defined result in C: [None]. *)
Module Bijection.

Fixpoint bij_loop (a1 a2 : list nat) (i fuel : nat) : option (list (nat * nat)) :=
  match fuel with
  | O => Some []
  | S fuel' =>
      match nth_error a1 i, nth_error a2 i with
      | Some x, Some y =>
          match bij_loop a1 a2 (S i) fuel' with
          | Some r => Some ((x, y) :: r)
          | None => None
          end
      | Some _, None => None
      | None, _ => Some []
      end
  end.

Definition set_leaf_bijection (a1 a2 : list nat) : option (list (nat * nat)) :=
  bij_loop a1 a2 0 (length a1).

End Bijection.

(** ** Heavy child selection ([setup_heavy_light_subtrees], first part) *)
Module HeavyLight.
Section Shape.
Variable neigh : nat -> list nat.
Variable depth : nat -> nat.
Variable subtreesize : nat -> Z.

Definition nneigh (u : nat) : nat := length (neigh u).
Definition neigh_at (u j : nat) : nat := nth j (neigh u) 0.

(** The [for] loop, whose body ends in a second [i++]: [i] grows by two
    per iteration. *)
Fixpoint heavy_loop (u : nat) (fuel i hc : nat) : nat :=
  match fuel with
  | O => hc
  | S fuel' =>
      if Nat.ltb i (nneigh u) then
        let hc' := if (subtreesize hc <? subtreesize (neigh_at u i))%Z
                   then neigh_at u i else hc in
        heavy_loop u fuel' (S (S i)) hc'
      else hc
  end.

(** [Some c]: [u->heavychild] is [c]; [None]: it is [NULL]. *)
Definition heavychild (u : nat) : option nat :=
  if Nat.eqb (nneigh u) 1 then None
  else
    let startind := if Nat.eqb (depth u) 0 then 0 else 1 in
    Some (heavy_loop u (nneigh u) (S startind) (neigh_at u startind)).

(** The children of [u]: all its neighbours at the root, all but [neigh[0]]
    below it. *)
Definition children (u : nat) : list nat :=
  skipn (if Nat.eqb (depth u) 0 then 0 else 1) (neigh u).

End Shape.
End HeavyLight.

(** ** The heavy path tree (HPT) of the alternative tree ([heavy_paths.c])

    The alternative tree is a rooted tree whose internal nodes have two or
    three children (a tree read from an unrooted Newick string has three at
    its root); a leaf carries its taxon, which identifies the alternative
    leaf node (the taxa of a tree are distinct).  Its neighbour array is
    the parent, then the children in order, below the root, and the
    children at the root.  A [Path] is one of the kinds the code
    distinguishes: an internal node of a path tree (PT) ([node == NULL],
    with [left] and [right]), a PT leaf attached to an internal alternative
    node, whose [child_heavypaths] holds the PTs of its light children
    ([num_child_paths] is 1 at a node with two children, 2 at a node with
    three), and an HPT leaf attached to an alternative leaf.  The parent, sibling and
    [parent_heavypath] pointers are the position in the tree;
    [num_hpt_leaves], set at construction to the number of HPT leaves below
    and never changed, is computed by [num_hpt_leaves]. *)
Module HPT.

Local Open Scope Z_scope.

Inductive tree : Type :=
| Leaf (x : nat)
| Bin (l r : tree)
| Tri (a b c : tree).

(** [subtreesize] as [prepare_rapid_TI_doer] sets it. *)
Fixpoint subtreesize (t : tree) : Z :=
  match t with
  | Leaf _ => 1%Z
  | Bin l r => (subtreesize l + subtreesize r)%Z
  | Tri a b c => (subtreesize a + subtreesize b + subtreesize c)%Z
  end.

(** [setup_heavy_light_subtrees]: [neigh[startind]] is the first child,
    replaced by the second one only if it is strictly larger; the loop
    steps [i] twice per round, so a third child is never compared. *)
Definition heavychild (l r : tree) : tree :=
  if (subtreesize l <? subtreesize r)%Z then r else l.
Definition lightchild (l r : tree) : tree :=
  if (subtreesize l <? subtreesize r)%Z then l else r.

Fixpoint leaves (t : tree) : list nat :=
  match t with
  | Leaf x => [x]
  | Bin l r => leaves l ++ leaves r
  | Tri a b c => leaves a ++ leaves b ++ leaves c
  end.

(** All nodes of the subtree, in preorder. *)
Fixpoint nodes (t : tree) : list tree :=
  match t with
  | Leaf _ => [t]
  | Bin l r => t :: nodes l ++ nodes r
  | Tri a b c => t :: nodes a ++ nodes b ++ nodes c
  end.

Record pvars := mkP {
  diff_path : Z;
  diff_subtree : Z;
  d_min_path : Z;
  d_min_subtree : Z;
  d_max_path : Z;
  d_max_subtree : Z;
  include_path : list nat;
  include_subtree : list nat;
  exclude : list nat;
  exclude_path : list nat
}.

Inductive path : Type :=
| PT_node (f : pvars) (left right : path)
| PT_leaf (f : pvars) (node : tree) (child : path)
| PT_leaf2 (f : pvars) (node : tree) (child1 child2 : path)
| HPT_leaf (f : pvars) (node : tree).

Definition fields (p : path) : pvars :=
  match p with PT_node f _ _ | PT_leaf f _ _ | PT_leaf2 f _ _ _ | HPT_leaf f _ => f end.

Definition with_fields (p : path) (f : pvars) : path :=
  match p with
  | PT_node _ l r => PT_node f l r
  | PT_leaf _ v c => PT_leaf f v c
  | PT_leaf2 _ v c1 c2 => PT_leaf2 f v c1 c2
  | HPT_leaf _ v => HPT_leaf f v
  end.

Definition is_HPT_leaf (p : path) : bool :=
  match p with HPT_leaf _ _ => true | _ => false end.

(** The taxa of the HPT leaves below a Path. *)
Fixpoint hpt_leaves (p : path) : list nat :=
  match p with
  | PT_node _ l r => hpt_leaves l ++ hpt_leaves r
  | PT_leaf _ _ c => hpt_leaves c
  | PT_leaf2 _ _ c1 c2 => hpt_leaves c1 ++ hpt_leaves c2
  | HPT_leaf _ v => leaves v
  end.

Definition num_hpt_leaves (p : path) : nat := length (hpt_leaves p).

Definition has_leaf (x : nat) (p : path) : bool := existsb (Nat.eqb x) (hpt_leaves p).

(** Field updates. *)
Definition set_diffs (f : pvars) (dp ds : Z) : pvars :=
  mkP dp ds (d_min_path f) (d_min_subtree f) (d_max_path f) (d_max_subtree f)
      (include_path f) (include_subtree f) (exclude f) (exclude_path f).
Definition set_dpath (f : pvars) (dmp dMp : Z) : pvars :=
  mkP (diff_path f) (diff_subtree f) dmp (d_min_subtree f) dMp (d_max_subtree f)
      (include_path f) (include_subtree f) (exclude f) (exclude_path f).
Definition set_dsubtree (f : pvars) (dms dMs : Z) : pvars :=
  mkP (diff_path f) (diff_subtree f) (d_min_path f) dms (d_max_path f) dMs
      (include_path f) (include_subtree f) (exclude f) (exclude_path f).
Definition set_sets (f : pvars) (ip is ex ep : list nat) : pvars :=
  mkP (diff_path f) (diff_subtree f) (d_min_path f) (d_min_subtree f) (d_max_path f)
      (d_max_subtree f) ip is ex ep.

Definition INT_MAX : Z := 2147483647.
Definition INT_MIN : Z := -2147483648.

(** [new_Path]. *)
Definition new_Path : pvars := mkP 0 0 1 1 0 1 [] [] [] [].

(** *** Construction ([heavy_decomposition], [partition_heavypath],
    [heavypath_leaf]) *)

(** [get_heavypath]: the node and then its heavy child, down to a leaf. *)
Fixpoint get_heavypath (t : tree) : list tree :=
  match t with
  | Leaf _ => [t]
  | Bin l r => t :: get_heavypath (heavychild l r)
  | Tri a b c => t :: get_heavypath (heavychild a b)
  end.

(** The loop of [heavypath_leaf] over the child heavy paths, from
    [INT_MAX] and [INT_MIN]. *)
Definition dsubtree_of (cs : list path) : Z * Z :=
  fold_left (fun m c => (CInt.min3 (fst m) (d_min_path (fields c)) (d_min_subtree (fields c)),
                         CInt.max3 (snd m) (d_max_path (fields c)) (d_max_subtree (fields c))))
            cs (INT_MAX, INT_MIN).

(** [heavypath_leaf] for a node of a heavy path, given the heavy path
    decompositions of its light children (in neighbour order) when it is
    internal. *)
Definition heavypath_leaf (node : tree) (childpaths : list path) : path :=
  let m := dsubtree_of childpaths in
  let f := mkP 0 0 (subtreesize node) (fst m) (subtreesize node) (snd m) [] [] [] [] in
  match node, childpaths with
  | Bin _ _, [c] => PT_leaf f node c
  | Tri _ _ _, [c1; c2] => PT_leaf2 f node c1 c2
  | _, _ => HPT_leaf (set_dpath new_Path (d_min_path new_Path) (subtreesize node)) node
  end.

Definition dummy_item (t : tree) : tree * list path := (t, []).

(** [partition_heavypath] on the nodes [heavypath[0..length)], each paired
    with the decomposition of its light child; [l1 = ceil(length/2)] is
    computed on [int]s, where [length/2] already rounds down. *)
Fixpoint partition_heavypath (fuel : nat) (heavypath : list (tree * list path))
    (length : nat) : path :=
  match fuel with
  | O => HPT_leaf new_Path (Leaf 0)
  | S fuel' =>
      let l1 := Nat.div length 2 in
      let left :=
        if Nat.eqb l1 1 then
          let it := nth 0 heavypath (dummy_item (Leaf 0)) in heavypath_leaf (fst it) (snd it)
        else partition_heavypath fuel' (firstn l1 heavypath) l1 in
      let l2 := (length - l1)%nat in
      let right :=
        if Nat.eqb l2 1 then
          let it := nth l1 heavypath (dummy_item (Leaf 0)) in heavypath_leaf (fst it) (snd it)
        else partition_heavypath fuel' (skipn l1 heavypath) l2 in
      let lf := fields left in
      let rf := fields right in
      PT_node (mkP 0 0 (CInt.min (d_min_path lf) (d_min_path rf)) 1
                   (CInt.max (d_max_path lf) (d_max_path rf))
                   (CInt.max (d_max_subtree lf) (d_max_subtree rf)) [] [] [] [])
              left right
  end.

(** The root of a heavy path's PT: a single node is an HPT leaf, a longer
    path is partitioned. *)
Definition path_of_heavypath (heavypath : list (tree * list path)) : path :=
  if Nat.eqb (length heavypath) 1 then
    let it := nth 0 heavypath (dummy_item (Leaf 0)) in heavypath_leaf (fst it) (snd it)
  else partition_heavypath (length heavypath) heavypath (length heavypath).

(** The heavy path from [t], each node paired with the decompositions of
    its light children ([heavy_decomposition] of each [neigh[i] !=
    heavychild], in neighbour order). *)
Fixpoint heavypath_items (t : tree) : list (tree * list path) :=
  match t with
  | Leaf _ => [(t, [])]
  | Bin l r =>
      (t, [path_of_heavypath
             (heavypath_items (if (subtreesize l <? subtreesize r)%Z then l else r))])
        :: heavypath_items (if (subtreesize l <? subtreesize r)%Z then r else l)
  | Tri a b c =>
      (t, [path_of_heavypath
             (heavypath_items (if (subtreesize a <? subtreesize b)%Z then a else b));
           path_of_heavypath (heavypath_items c)])
        :: heavypath_items (if (subtreesize a <? subtreesize b)%Z then b else a)
  end.

Definition heavy_decomposition (root : tree) : path :=
  path_of_heavypath (heavypath_items root).

(** *** Values at a Path ([get_ti_min], [get_ti_max], [get_ti_*_mod]) *)

Definition get_ti_min (p : path) : Z :=
  let f := fields p in
  CInt.min (d_min_path f + diff_path f) (d_min_subtree f + diff_subtree f).

(** [path->node && path->num_child_paths == 0] holds exactly at HPT leaves. *)
Definition get_ti_max (p : path) : Z :=
  let f := fields p in
  if is_HPT_leaf p then d_max_path f + diff_path f
  else CInt.max (d_max_path f + diff_path f) (d_max_subtree f + diff_subtree f).

Definition get_ti_min_mod (p : path) (accum_path accum_subtree : Z) : Z :=
  let f := fields p in
  if is_HPT_leaf p then d_min_path f + diff_path f + accum_path
  else CInt.min (d_min_path f + diff_path f + accum_path)
                (d_min_subtree f + diff_subtree f + accum_subtree).

Definition get_ti_max_mod (p : path) (accum_path accum_subtree : Z) : Z :=
  let f := fields p in
  CInt.max (d_max_path f + diff_path f + accum_path)
           (d_max_subtree f + diff_subtree f + accum_subtree).

Definition get_ti_x_mod (p : path) (accum_path accum_subtree : Z) (usemax : bool) : Z :=
  if usemax then get_ti_max_mod p accum_path accum_subtree
  else get_ti_min_mod p accum_path accum_subtree.

(** *** [add_leaf_HPT]

    The loop down [path[pathlen-1] .. path[1]] (root to the parent of the
    leaf), the step at the HPT leaf [path[0]], and the loop back up
    [path[1] .. path[pathlen-1]], written as one recursion along the path
    from the root to the leaf: the step down at a Path, the recursion into
    the child on the path ([path[i-1]], the child that holds the leaf), the
    step up at the Path. *)

(** The step up at an internal PT node. *)
Definition up_PT_node (f : pvars) (l r : path) : path :=
  let lf := fields l in
  let rf := fields r in
  let dmp := CInt.min (d_min_path lf + diff_path lf) (d_min_path rf + diff_path rf) in
  let dMp := CInt.max (d_max_path lf + diff_path lf) (d_max_path rf + diff_path rf) in
  let f1 := set_dpath f dmp dMp in
  let f2 :=
    if is_HPT_leaf l then
      set_dsubtree f1 (d_min_subtree rf + diff_subtree rf) (d_max_subtree rf + diff_subtree rf)
    else if is_HPT_leaf r then
      set_dsubtree f1 (d_min_subtree lf + diff_subtree lf) (d_max_subtree lf + diff_subtree lf)
    else
      set_dsubtree f1
        (CInt.min (d_min_subtree lf + diff_subtree lf) (d_min_subtree rf + diff_subtree rf))
        (CInt.max (d_max_subtree lf + diff_subtree lf) (d_max_subtree rf + diff_subtree rf)) in
  PT_node f2 l r.

(** The step up at a PT leaf: the first value from [child_heavypaths[0]],
    then the loop over the child (the children for [up_PT_leaf2]). *)
Definition up_PT_leaf (f : pvars) (v : tree) (c : path) : path :=
  let cf := fields c in
  let dms0 := d_min_path cf + diff_path cf in
  let dMs0 := d_max_path cf + diff_path cf in
  let f1 :=
    if is_HPT_leaf c then
      set_dsubtree f (CInt.min dms0 (d_min_path cf + diff_path cf))
                     (CInt.max dMs0 (d_max_path cf + diff_path cf))
    else
      set_dsubtree f
        (CInt.min3 dms0 (d_min_path cf + diff_path cf) (d_min_subtree cf + diff_path cf))
        (CInt.max3 dMs0 (d_max_path cf + diff_path cf) (d_max_subtree cf + diff_path cf)) in
  PT_leaf f1 v c.

(** One round of that loop, on the pair [(d_min_subtree, d_max_subtree)]. *)
Definition up_child (m : Z * Z) (c : path) : Z * Z :=
  let cf := fields c in
  if is_HPT_leaf c then
    (CInt.min (fst m) (d_min_path cf + diff_path cf), CInt.max (snd m) (d_max_path cf + diff_path cf))
  else
    (CInt.min3 (fst m) (d_min_path cf + diff_path cf) (d_min_subtree cf + diff_path cf),
     CInt.max3 (snd m) (d_max_path cf + diff_path cf) (d_max_subtree cf + diff_path cf)).

Definition up_PT_leaf2 (f : pvars) (v : tree) (c1 c2 : path) : path :=
  let c1f := fields c1 in
  let m := up_child (up_child (d_min_path c1f + diff_path c1f, d_max_path c1f + diff_path c1f) c1) c2 in
  PT_leaf2 (set_dsubtree f (fst m) (snd m)) v c1 c2.

(** [push_path], [push_subtree]: the diffs [path[i]] adds to the child on
    the path, [path[i-1]->diff_path += ...], applied as the child's step
    begins. *)
Fixpoint add_leaf_rec (leaf : nat) (push_path push_subtree : Z) (p : path) : path :=
  match p with
  | PT_node f0 l r =>
      let f := set_diffs f0 (diff_path f0 + push_path) (diff_subtree f0 + push_subtree) in
      if has_leaf leaf r then
        (* the right child is [path[i-1]] *)
        let lf := fields l in
        let l1 := with_fields l
                    (set_sets (set_diffs lf (diff_path lf + (diff_path f - 1))
                                            (diff_subtree lf + (diff_subtree f + 1)))
                              (include_path lf) (include_subtree lf ++ [leaf])
                              (exclude lf) (exclude_path lf ++ [leaf])) in
        let f1 := set_diffs f 0 0 in
        up_PT_node f1 l1 (add_leaf_rec leaf (diff_path f) (diff_subtree f) r)
      else
        let rf := fields r in
        let r1 := with_fields r
                    (set_sets (set_diffs rf (diff_path rf + (diff_path f + 1))
                                            (diff_subtree rf + (diff_subtree f + 1)))
                              (include_path rf ++ [leaf]) (include_subtree rf ++ [leaf])
                              (exclude rf) (exclude_path rf)) in
        let f1 := set_diffs f 0 0 in
        up_PT_node f1 (add_leaf_rec leaf (diff_path f) (diff_subtree f) l) r1
  | PT_leaf f0 v c =>
      let f := set_diffs f0 (diff_path f0 + push_path) (diff_subtree f0 + push_subtree) in
      (* the child heavy path is [path[i-1]] *)
      let f1 := set_sets f (include_path f) (include_subtree f) (exclude f ++ [leaf])
                         (exclude_path f) in
      let dmp := d_min_path f1 + diff_path f1 - 1 in
      let f2 := set_diffs (set_dpath f1 dmp dmp) 0 0 in
      up_PT_leaf f2 v (add_leaf_rec leaf (diff_subtree f1) (diff_subtree f1) c)
  | PT_leaf2 f0 v c1 c2 =>
      let f := set_diffs f0 (diff_path f0 + push_path) (diff_subtree f0 + push_subtree) in
      let f1 := set_sets f (include_path f) (include_subtree f) (exclude f ++ [leaf])
                         (exclude_path f) in
      let dmp := d_min_path f1 + diff_path f1 - 1 in
      let f2 := set_diffs (set_dpath f1 dmp dmp) 0 0 in
      (* the child heavy path that is not [path[i-1]] *)
      let sib c := let cf := fields c in
                   with_fields c
                     (set_sets (set_diffs cf (diff_path cf + (diff_subtree f1 + 1))
                                             (diff_subtree cf + (diff_subtree f1 + 1)))
                               (include_path cf ++ [leaf]) (include_subtree cf ++ [leaf])
                               (exclude cf) (exclude_path cf)) in
      if has_leaf leaf c1 then
        up_PT_leaf2 f2 v (add_leaf_rec leaf (diff_subtree f1) (diff_subtree f1) c1) (sib c2)
      else
        up_PT_leaf2 f2 v (sib c1) (add_leaf_rec leaf (diff_subtree f1) (diff_subtree f1) c2)
  | HPT_leaf f0 v =>
      let f := set_diffs f0 (diff_path f0 + push_path) (diff_subtree f0 + push_subtree) in
      let f1 := set_sets f (include_path f) (include_subtree f) (exclude f ++ [leaf])
                         (exclude_path f) in
      let dmp := d_min_path f1 + diff_path f1 - 1 in
      HPT_leaf (set_diffs (set_dpath f1 dmp dmp) 0 0) v
  end.

Definition add_leaf_HPT (leaf : nat) (hpt_root : path) : path := add_leaf_rec leaf 0 0 hpt_root.

(** *** [reset_leaf_HPT]

    The walk from the leaf's Path up to the root, written as a recursion
    from the root: the Path on the way is reset after the one below it. *)

(** An internal PT node [w] reached from below ([w = w->parent]). *)
Definition reset_PT_node (f : pvars) (l r : path) : path :=
  let lf := fields l in
  let rf := fields r in
  let f1 := set_sets f (include_path f) (include_subtree f) [] (exclude_path f) in
  let f2 := set_diffs f1 0 0 in
  let f3 := set_dpath f2 (CInt.min (d_min_path lf) (d_min_path rf))
                         (CInt.max (d_max_path lf) (d_max_path rf)) in
  let f4 := set_dsubtree f3 1 (CInt.max (d_max_subtree lf) (d_max_subtree rf)) in
  let clear c := let cf := fields c in
                 with_fields c (set_sets (set_diffs cf 0 0) [] [] (exclude cf) []) in
  PT_node f4 (clear l) (clear r).

Fixpoint reset_leaf_rec (leaf : nat) (p : path) : path :=
  match p with
  | PT_node f l r =>
      if has_leaf leaf r then reset_PT_node f l (reset_leaf_rec leaf r)
      else reset_PT_node f (reset_leaf_rec leaf l) r
  | PT_leaf f v c =>
      (* [lastw] is the root of the child PT; no other child to clear *)
      let c1 := reset_leaf_rec leaf c in
      let cf := fields c1 in
      let f1 := set_dpath (set_diffs f 0 0) (subtreesize v) (subtreesize v) in
      let f2 := set_dsubtree f1 (CInt.min (d_min_path cf) (d_min_subtree cf))
                                (CInt.max (d_max_path cf) (d_max_subtree cf)) in
      PT_leaf (set_sets f2 (include_path f2) (include_subtree f2) [] (exclude_path f2)) v c1
  | PT_leaf2 f v c1 c2 =>
      (* [lastw] is the root of the child PT holding the leaf; the other
         child loses its diffs and include lists *)
      let clear c := let cf := fields c in
                     with_fields c (set_sets (set_diffs cf 0 0) [] [] (exclude cf) (exclude_path cf)) in
      let fin (lastw : path) :=
        let cf := fields lastw in
        let f1 := set_dpath (set_diffs f 0 0) (subtreesize v) (subtreesize v) in
        let f2 := set_dsubtree f1 (CInt.min (d_min_path cf) (d_min_subtree cf))
                                  (CInt.max (d_max_path cf) (d_max_subtree cf)) in
        set_sets f2 (include_path f2) (include_subtree f2) [] (exclude_path f2) in
      if has_leaf leaf c1 then
        let c1' := reset_leaf_rec leaf c1 in PT_leaf2 (fin c1') v c1' (clear c2)
      else
        let c2' := reset_leaf_rec leaf c2 in PT_leaf2 (fin c2') v (clear c1) c2'
  | HPT_leaf f v =>
      let f1 := set_dpath (set_diffs f 0 0) (subtreesize v) (subtreesize v) in
      HPT_leaf (set_sets f1 (include_path f1) (include_subtree f1) [] (exclude_path f1)) v
  end.

Definition reset_leaf_HPT (leaf : nat) (hpt_root : path) : path := reset_leaf_rec leaf hpt_root.

(** *** The transfer set ([get_transfer_set_HPT] and the functions it calls) *)

(** How [get_x_path] left a Path: to its [right], to its [left], or to its
    first or second child heavy path. *)
Inductive dir := DRight | DLeft | DChild | DChild2.

(** The descent of [get_x_path] from a Path with the accumulated diffs:
    the Paths it passes (with the way it went down) and the Path it stops
    at. *)
Fixpoint x_descend (usemax : bool) (target : Z) (p : path) (accum_path accum_subtree : Z)
    : list (path * dir) * path :=
  match p with
  | PT_node _ l r =>
      if Z.eqb (get_ti_x_mod r accum_path accum_subtree usemax) target then
        let '(ctx, n) := x_descend usemax target r (accum_path + diff_path (fields r))
                                    (accum_subtree + diff_subtree (fields r)) in
        ((p, DRight) :: ctx, n)
      else if Z.eqb (get_ti_x_mod l accum_path accum_subtree usemax) target then
        let '(ctx, n) := x_descend usemax target l (accum_path + diff_path (fields l))
                                    (accum_subtree + diff_subtree (fields l)) in
        ((p, DLeft) :: ctx, n)
      else ([], p)
  | PT_leaf _ _ c =>
      if Z.eqb (get_ti_x_mod c accum_subtree accum_subtree usemax) target then
        let '(ctx, n) := x_descend usemax target c (diff_path (fields c) + accum_subtree)
                                    (diff_subtree (fields c) + accum_subtree) in
        ((p, DChild) :: ctx, n)
      else ([], p)
  | PT_leaf2 _ _ c1 c2 =>
      (* the loop moves to the first matching child; the Path it moves to
         is the root of a PT, an internal PT node or an HPT leaf, whose
         [num_child_paths] is 0, so the loop stops there *)
      if Z.eqb (get_ti_x_mod c1 accum_subtree accum_subtree usemax) target then
        let '(ctx, n) := x_descend usemax target c1 (diff_path (fields c1) + accum_subtree)
                                    (diff_subtree (fields c1) + accum_subtree) in
        ((p, DChild) :: ctx, n)
      else if Z.eqb (get_ti_x_mod c2 accum_subtree accum_subtree usemax) target then
        let '(ctx, n) := x_descend usemax target c2 (diff_path (fields c2) + accum_subtree)
                                    (diff_subtree (fields c2) + accum_subtree) in
        ((p, DChild2) :: ctx, n)
      else ([], p)
  | HPT_leaf _ _ => ([], p)
  end.

Definition get_x_path (hptroot : path) (usemax : bool) : list (path * dir) * path :=
  let target := if usemax then get_ti_max hptroot else get_ti_min hptroot in
  x_descend usemax target hptroot (diff_path (fields hptroot)) (diff_subtree (fields hptroot)).

Fixpoint add_nonexcluded_from_HPT_subtree (n : path) : list nat :=
  if Nat.eqb (length (exclude (fields n))) (num_hpt_leaves n) then []
  else
    match n with
    | HPT_leaf _ v => leaves v
    | PT_node _ l r => add_nonexcluded_from_HPT_subtree l ++ add_nonexcluded_from_HPT_subtree r
    | PT_leaf _ _ c => add_nonexcluded_from_HPT_subtree c
    | PT_leaf2 _ _ c1 c2 =>
        add_nonexcluded_from_HPT_subtree c1 ++ add_nonexcluded_from_HPT_subtree c2
    end.

(** [get_path_to_root_HPT]: the Path and its ancestors, the root last;
    [ctx] lists the ancestors from the root down. *)
Definition path_to_root (ctx : list (path * dir)) (n : path) : list path :=
  n :: rev (map fst ctx).

Definition is_PT_leaf (p : path) : bool :=
  match p with PT_leaf _ _ _ | PT_leaf2 _ _ _ _ => true | _ => false end.

(** The loop of the two set functions over [path[0..total_depth]]: the
    entries met while [in_PT] holds, then the others. *)
Fixpoint split_in_PT (first : bool) (ps : list path) : list path * list path :=
  match ps with
  | [] => ([], [])
  | p :: ps' =>
      if andb (negb first) (is_PT_leaf p) then ([], ps)
      else let '(a, b) := split_in_PT false ps' in (p :: a, b)
  end.

(** The climb [while(n->sibling)] inside the PT of the node: for every
    ancestor step taken to a left child, the right sibling's leaves. *)
Fixpoint min_siblings (rctx : list (path * dir)) : list nat :=
  match rctx with
  | (PT_node _ _ r, DLeft) :: rctx' => add_nonexcluded_from_HPT_subtree r ++ min_siblings rctx'
  | (_, DChild) :: _ => []
  | (_, DChild2) :: _ => []
  | _ :: rctx' => min_siblings rctx'
  | [] => []
  end.

Definition get_min_transfer_set_for_node_HPT (ctx : list (path * dir)) (n : path) : list nat :=
  let '(inpt, outpt) := split_in_PT true (path_to_root ctx n) in
  flat_map (fun p => include_path (fields p)) inpt ++
  flat_map (fun p => include_subtree (fields p)) outpt ++
  add_nonexcluded_from_HPT_subtree n ++
  min_siblings (rev ctx).

(** [include_leaves_from_ancestral_subtrees], walking the ancestors from the
    node up ([rctx], nearest first). *)
Fixpoint include_ancestral (in_subtree : bool) (rctx : list (path * dir)) : list nat :=
  match rctx with
  | (PT_node _ l r, DRight) :: rctx' =>
      add_nonexcluded_from_HPT_subtree l ++ include_ancestral in_subtree rctx'
  | (PT_node _ l r, DLeft) :: rctx' =>
      (if in_subtree then [] else add_nonexcluded_from_HPT_subtree r)
        ++ include_ancestral in_subtree rctx'
  | (PT_leaf2 _ _ c1 c2, DChild) :: rctx' =>
      add_nonexcluded_from_HPT_subtree c2 ++ include_ancestral false rctx'
  | (PT_leaf2 _ _ c1 c2, DChild2) :: rctx' =>
      add_nonexcluded_from_HPT_subtree c1 ++ include_ancestral false rctx'
  | (_, _) :: rctx' => include_ancestral false rctx'
  | [] => []
  end.

Definition get_max_transfer_set_for_node_HPT (ctx : list (path * dir)) (n : path) : list nat :=
  let '(inpt, _) := split_in_PT true (path_to_root ctx n) in
  flat_map (fun p => exclude_path (fields p)) inpt ++
  exclude (fields n) ++
  include_ancestral true (rev ctx).

Definition assert_msg : string := "Assertion failed."%string.

Definition get_transfer_set_HPT (hptroot : path) (nb_taxa : Z) : outcome (list nat) :=
  let mn := get_ti_min hptroot in
  let mx := nb_taxa - get_ti_max hptroot in
  if (mn <=? mx)%Z then
    let '(ctx, n) := get_x_path hptroot false in
    let set := get_min_transfer_set_for_node_HPT ctx n in
    if Z.eqb (Z.of_nat (length set)) mn then Ok set else Fatal assert_msg
  else
    let '(ctx, n) := get_x_path hptroot true in
    let set := get_max_transfer_set_for_node_HPT ctx n in
    if Z.eqb (Z.of_nat (length set)) mx then Ok set else Fatal assert_msg.

(** *** The driver ([compute_transfer_indices_fast], [add_heavy_path],
    [reset_heavy_path] with [use_HPT] true)

    The reference tree is given by its shape as [tree.c] stores it after
    [prepare_rapid_TI]: neighbour arrays (parent first below the root),
    depths, heavy children, the [lightleaves] arrays, and the [other] link
    [set_leaf_bijection] sets on a reference leaf, here the taxon of its
    alternative leaf.  The values [ti_min], [ti_max] of the reference nodes
    form a store. *)
Section Driver.
Variable rneigh : nat -> list nat.
Variable rdepth : nat -> nat.
Variable rheavychild : nat -> nat.
Variable lightleaves : nat -> list nat.
Variable other : nat -> nat.

Definition rnneigh (u : nat) : nat := List.length (rneigh u).
Definition rneigh_at (u j : nat) : nat := nth j (rneigh u) 0%nat.

Definition tistore := nat -> Z * Z.

Definition upd_ti (tis : tistore) (u : nat) (v : Z * Z) : tistore :=
  fun w => if Nat.eqb w u then v else tis w.

(** The leaves [add_heavy_path] and [reset_heavy_path] hand to the HPT at
    [u]: [u->other] at a leaf, the [other] of [u->lightleaves] otherwise. *)
Definition leaves_at (u : nat) : list nat :=
  if Nat.eqb (rnneigh u) 1 then [other u] else map other (lightleaves u).

Definition heads_up (u : nat) : bool :=
  negb (Nat.eqb (rdepth u) 0) && Nat.eqb u (rheavychild (rneigh_at u 0)).

Fixpoint add_heavy_path_loop (fuel : nat) (getsets : bool) (nb_taxa : Z) (u : nat)
    (hpt : path) (tis : tistore) : outcome (path * tistore) :=
  match fuel with
  | O => NoTerm
  | S fuel' =>
      let hpt1 := fold_left (fun h x => add_leaf_HPT x h) (leaves_at u) hpt in
      let tis1 := upd_ti tis u (get_ti_min hpt1, get_ti_max hpt1) in
      let check :=
        if getsets then
          match get_transfer_set_HPT hpt1 nb_taxa with
          | Ok tset =>
              if Z.eqb (Z.of_nat (List.length tset))
                       (CInt.min (get_ti_min hpt1) (nb_taxa - get_ti_max hpt1))
              then Ok tt else Fatal assert_msg
          | Fatal m => Fatal m
          | NoTerm => NoTerm
          end
        else Ok tt in
      match check with
      | Ok _ =>
          if heads_up u then add_heavy_path_loop fuel' getsets nb_taxa (rneigh_at u 0) hpt1 tis1
          else Ok (hpt1, tis1)
      | Fatal m => Fatal m
      | NoTerm => NoTerm
      end
  end.

Fixpoint reset_heavy_path_loop (fuel : nat) (u : nat) (hpt : path) : outcome path :=
  match fuel with
  | O => NoTerm
  | S fuel' =>
      let hpt1 := fold_left (fun h x => reset_leaf_HPT x h) (leaves_at u) hpt in
      if heads_up u then reset_heavy_path_loop fuel' (rneigh_at u 0) hpt1 else Ok hpt1
  end.

(** One iteration of the loop over the reference leaves. *)
Definition ref_leaf_step (getsets : bool) (nb_taxa : Z) (st : outcome (path * tistore))
    (u : nat) : outcome (path * tistore) :=
  match st with
  | Ok (hpt, tis) =>
      match add_heavy_path_loop (S (rdepth u)) getsets nb_taxa u hpt tis with
      | Ok (hpt1, tis1) =>
          match reset_heavy_path_loop (S (rdepth u)) u hpt1 with
          | Ok hpt2 => Ok (hpt2, tis1)
          | Fatal m => Fatal m
          | NoTerm => NoTerm
          end
      | Fatal m => Fatal m
      | NoTerm => NoTerm
      end
  | Fatal m => Fatal m
  | NoTerm => NoTerm
  end.

(** [compute_transfer_indices_fast]: [ref_leaves] is [ref_tree->leaves],
    [a_nodes] the reference nodes with [br0] the edge above each,
    [a_edges] the edge array; the result is [transfer_indices]. *)
Definition compute_transfer_indices_fast (ref_leaves a_nodes a_edges : list nat)
    (br0 : nat -> nat) (alt : tree) (getsets : bool) (ti0 : tistore) : outcome (list Z) :=
  let nb_taxa := Z.of_nat (List.length ref_leaves) in
  let hpt0 := heavy_decomposition alt in
  match fold_left (ref_leaf_step getsets nb_taxa) ref_leaves (Ok (hpt0, ti0)) with
  | Ok (_, tis) =>
      let nodes := map (fun u => EdgeTI.mkNode (rdepth u) (br0 u) (fst (tis u)) (snd (tis u)))
                       a_nodes in
      let es := EdgeTI.nodeTI_to_edgeTI nodes nb_taxa (fun _ => 0) in
      Ok (map es a_edges)
  | Fatal m => Fatal m
  | NoTerm => NoTerm
  end.

End Driver.

End HPT.

(** * Proofs about the balanced AltIndex *)

(** ** Parsing utilities of [tree.c] for New Hampshire (Newick) strings

    The string is the list of its characters; [char_at] reads [in_str[i]]
    (the callers only read inside the string; a read outside it gives the
    character 0 here).  The [for] loops over [begin..end] run at most
    [end - begin + 1] times, which is their fuel. *)
Module Newick.
Local Open Scope Z_scope.

Definition char_at (in_str : list ascii) (i : Z) : ascii :=
  if 0 <=? i then nth (Z.to_nat i) in_str Ascii.zero else Ascii.zero.

(** The loop of [index_next_toplevel_comma], at index [i] and nesting
    [level]. *)
Fixpoint comma_loop (in_str : list ascii) (fuel : nat) (i end_ level : Z) : Z :=
  match fuel with
  | O => -1
  | S fuel' =>
      if i <=? end_ then
        let c := char_at in_str i in
        if Ascii.eqb c "(" then comma_loop in_str fuel' (i + 1) end_ (level + 1)
        else if Ascii.eqb c ")" then comma_loop in_str fuel' (i + 1) end_ (level - 1)
        else if Ascii.eqb c "," then
          (if level =? 0 then i else comma_loop in_str fuel' (i + 1) end_ level)
        else comma_loop in_str fuel' (i + 1) end_ level
      else -1
  end.

Definition index_next_toplevel_comma (in_str : list ascii) (begin end_ : Z) : Z :=
  comma_loop in_str (Z.to_nat (end_ - begin + 1)) begin end_ 0.

(** The loop of [count_outer_commas]. *)
Fixpoint count_loop (in_str : list ascii) (fuel : nat) (i end_ level count : Z) : Z :=
  match fuel with
  | O => count
  | S fuel' =>
      if i <=? end_ then
        let c := char_at in_str i in
        if Ascii.eqb c "(" then count_loop in_str fuel' (i + 1) end_ (level + 1) count
        else if Ascii.eqb c ")" then count_loop in_str fuel' (i + 1) end_ (level - 1) count
        else if Ascii.eqb c "," then
          count_loop in_str fuel' (i + 1) end_ level (if level =? 0 then count + 1 else count)
        else count_loop in_str fuel' (i + 1) end_ level count
      else count
  end.

Definition count_outer_commas (in_str : list ascii) (begin end_ : Z) : Z :=
  count_loop in_str (Z.to_nat (end_ - begin + 1)) begin end_ 0 0.

(** The two searches of [strip_toplevel_parentheses]: the first ['('] from
    [begin] up, the first [')'] from [end] down. *)
Fixpoint find_open (in_str : list ascii) (fuel : nat) (i end_ : Z) : option Z :=
  match fuel with
  | O => None
  | S fuel' =>
      if i <=? end_ then
        if Ascii.eqb (char_at in_str i) "(" then Some i else find_open in_str fuel' (i + 1) end_
      else None
  end.

Fixpoint find_close (in_str : list ascii) (fuel : nat) (i begin : Z) : option Z :=
  match fuel with
  | O => None
  | S fuel' =>
      if begin <=? i then
        if Ascii.eqb (char_at in_str i) ")" then Some i else find_close in_str fuel' (i - 1) begin
      else None
  end.

Definition unbalanced_msg : string :=
  "Syntax error in NH tree: unbalanced parentheses between string indices. Aborting.".

(** [strip_toplevel_parentheses]: the output [pair], or the exit on
    unbalanced parentheses. *)
Definition strip_toplevel_parentheses (in_str : list ascii) (begin end_ : Z)
  : outcome (Z * Z) :=
  let fuel := Z.to_nat (end_ - begin + 1) in
  let '(p0, f0) :=
    match find_open in_str fuel begin end_ with
    | Some i => (i + 1, 1%nat)
    | None => (end_ + 1, 0%nat)
    end in
  let '(p1, f1) :=
    match find_close in_str fuel end_ begin with
    | Some i => (i - 1, 1%nat)
    | None => (-1, 0%nat)
    end in
  match (f0 + f1)%nat with
  | O => Ok (begin, end_)
  | 1%nat => Fatal unbalanced_msg
  | _ => Ok (p0, p1)
  end.

(** The loop of [index_toplevel_colon], from [end] down to [begin]. *)
Fixpoint colon_loop (in_str : list ascii) (fuel : nat) (i begin level : Z) : Z :=
  match fuel with
  | O => -1
  | S fuel' =>
      if begin <=? i then
        let c := char_at in_str i in
        if Ascii.eqb c ")" then colon_loop in_str fuel' (i - 1) begin (level + 1)
        else if Ascii.eqb c "(" then colon_loop in_str fuel' (i - 1) begin (level - 1)
        else if Ascii.eqb c ":" then
          (if level =? 0 then i else colon_loop in_str fuel' (i - 1) begin level)
        else colon_loop in_str fuel' (i - 1) begin level
      else -1
  end.

Definition index_toplevel_colon (in_str : list ascii) (begin end_ : Z) : Z :=
  colon_loop in_str (Z.to_nat (end_ - begin + 1)) end_ begin 0.

End Newick.

(** ** Node utilities and leaf arrays of [tree.c]

    Nodes are identifiers, with their neighbour arrays (parent first below
    the root), depths and subtree sizes as in [HeavyLight].  A [LeafArray]
    is its capacity [n] and its filled prefix [a[0..i)]. *)
Module TreeNodes.
Local Open Scope Z_scope.

Definition obind {A B : Type} (m : outcome A) (f : A -> outcome B) : outcome B :=
  match m with
  | Ok a => f a
  | Fatal msg => Fatal msg
  | NoTerm => NoTerm
  end.

Record LeafArray := mkLA { la_n : Z; la_a : list nat }.

Definition allocateLA (n : Z) : LeafArray := mkLA n [].

Definition too_many_msg : string := "Fatal error: adding too many nodes to LeafArray.".

Definition addLeafLA (la : LeafArray) (u : nat) : outcome LeafArray :=
  if la_n la =? Z.of_nat (length (la_a la)) then Fatal too_many_msg
  else Ok (mkLA (la_n la) (la_a la ++ [u])).

(** A [for] loop of [concatinateLA]: [addLeafLA] on each element in order. *)
Fixpoint addLeavesLA (la : LeafArray) (l : list nat) : outcome LeafArray :=
  match l with
  | [] => Ok la
  | u :: l' => obind (addLeafLA la u) (fun la' => addLeavesLA la' l')
  end.

Definition concatinateLA (la1 la2 : LeafArray) : outcome LeafArray :=
  obind (addLeavesLA (allocateLA (Z.of_nat (length (la_a la1)) + Z.of_nat (length (la_a la2))))
                     (la_a la1))
        (fun la => addLeavesLA la (la_a la2)).

Definition not_neighbours_msg : string := "Fatal error : nodes are not neighbours.".
Definition assert_msg : string := "Assertion failed: depth != 0.".
Definition root_msg : string := "ERROR: Root has more than 3 children.".
Definition internal_msg : string := "ERROR: internal node has more than 2 children.".

(** [get_leaf_indices]: [leaves[count++] = i] for each leaf [a_nodes[i]] in
    a [calloc]ed array of [nb_taxa] zeros; [None] is a write past its end. *)
Fixpoint set_nth (l : list nat) (k v : nat) : list nat :=
  match l, k with
  | [], _ => []
  | _ :: l', O => v :: l'
  | x :: l', S k' => x :: set_nth l' k' v
  end.

Fixpoint leaf_indices_loop (nneigh : nat -> nat) (nb_taxa : nat) (is : list nat)
    (count : nat) (leaves : list nat) : option (list nat) :=
  match is with
  | [] => Some leaves
  | i :: is' =>
      if Nat.eqb (nneigh i) 1 then
        if Nat.ltb count nb_taxa then
          leaf_indices_loop nneigh nb_taxa is' (S count) (set_nth leaves count i)
        else None
      else leaf_indices_loop nneigh nb_taxa is' count leaves
  end.

Definition get_leaf_indices (nneigh : nat -> nat) (nb_nodes nb_taxa : nat) : option (list nat) :=
  leaf_indices_loop nneigh nb_taxa (seq 0 nb_nodes) 0 (repeat 0%nat nb_taxa).

Section Nodes.
Variable neigh : nat -> list nat.
Variable depth : nat -> nat.
Variable subtreesize : nat -> Z.

Local Abbreviation nneigh := (HeavyLight.nneigh neigh).
Local Abbreviation neigh_at := (HeavyLight.neigh_at neigh).

(** The search loop of [dir_a_to_b]. *)
Fixpoint dir_loop (a b : nat) (fuel i : nat) : nat :=
  match fuel with
  | O => i
  | S fuel' =>
      if Nat.ltb i (nneigh a) then
        if Nat.eqb (neigh_at a i) b then i else dir_loop a b fuel' (S i)
      else i
  end.

Definition dir_a_to_b (a b : nat) : outcome nat :=
  let i := dir_loop a b (nneigh a) 0 in
  if Nat.ltb i (nneigh a) then Ok i else Fatal not_neighbours_msg.

Definition is_right_child (u : nat) : bool :=
  let p := neigh_at u 0 in
  let parentisroot := Nat.eqb (depth p) 0 in
  (parentisroot && Nat.eqb u (neigh_at p 1)) || (negb parentisroot && Nat.eqb u (neigh_at p 2)).

(** [get_sibling]; the failed [assert] is an exit. *)
Definition get_sibling (u : nat) : outcome nat :=
  if Nat.eqb (depth u) 0 then Fatal assert_msg
  else
    let parent := neigh_at u 0 in
    let child1 := neigh_at parent 1 in
    let child2 := if Nat.eqb (depth parent) 0 then neigh_at parent 0 else neigh_at parent 2 in
    if Nat.eqb child1 u then Ok child2 else Ok child1.

(** [get_other_sibling]; [None] is [NULL]. *)
Definition get_other_sibling (n sib : nat) : outcome (option nat) :=
  if Nat.eqb (depth n) 0 then Fatal assert_msg
  else
    let parent := neigh_at n 0 in
    if negb (Nat.eqb (depth parent) 0) || Nat.ltb (nneigh parent) 3 then Ok None
    else if negb (Nat.eqb (neigh_at parent 0) n) && negb (Nat.eqb (neigh_at parent 0) sib)
    then Ok (Some (neigh_at parent 0))
    else if negb (Nat.eqb (neigh_at parent 1) n) && negb (Nat.eqb (neigh_at parent 1) sib)
    then Ok (Some (neigh_at parent 1))
    else Ok (Some (neigh_at parent 2)).

(** [add_leaves_in_subtree]: the recursion depth is bounded by [fuel]. *)
Fixpoint add_leaves_in_subtree (fuel : nat) (u : nat) (la : LeafArray) : outcome LeafArray :=
  match fuel with
  | O => NoTerm
  | S fuel' =>
      if Nat.eqb (nneigh u) 1 then addLeafLA la u
      else if Nat.eqb (depth u) 0 then
        obind (add_leaves_in_subtree fuel' (neigh_at u 0) la)
              (add_leaves_in_subtree fuel' (neigh_at u 0))
      else
        obind (add_leaves_in_subtree fuel' (neigh_at u 1) la)
              (add_leaves_in_subtree fuel' (neigh_at u 2))
  end.

Definition get_leaves_in_subtree (fuel : nat) (u : nat) : outcome LeafArray :=
  add_leaves_in_subtree fuel u (allocateLA (subtreesize u)).

Definition get_leaves_in_light_subtree (fuel : nat) (u : nat) : outcome LeafArray :=
  if Nat.eqb (nneigh u) 1 then Ok (allocateLA 0)
  else if Nat.eqb (depth u) 0 then
    let '(heavychild, lightchild) :=
      if subtreesize (neigh_at u 1) <=? subtreesize (neigh_at u 0)
      then (neigh_at u 0, neigh_at u 1) else (neigh_at u 1, neigh_at u 0) in
    obind (get_leaves_in_subtree fuel lightchild) (fun lightleaves =>
      if Nat.eqb (nneigh u) 3 then
        let lightchild' :=
          if subtreesize (neigh_at u 2) <=? subtreesize heavychild
          then neigh_at u 2 else heavychild in
        obind (get_leaves_in_subtree fuel lightchild') (concatinateLA lightleaves)
      else if Nat.ltb 3 (nneigh u) then Fatal root_msg
      else Ok lightleaves)
  else
    let leftchild := neigh_at u 1 in
    let rightchild := neigh_at u 2 in
    if Nat.ltb 3 (nneigh u) then Fatal internal_msg
    else if subtreesize rightchild <=? subtreesize leftchild
    then get_leaves_in_subtree fuel rightchild
    else get_leaves_in_subtree fuel leftchild.

(** The second loop of [setup_heavy_light_subtrees] over
    [neigh[startind..nneigh)], skipping the heavy child. *)
Fixpoint light_loop (fuel : nat) (hc : option nat) (vs : list nat) (ll : LeafArray)
  : outcome LeafArray :=
  match vs with
  | [] => Ok ll
  | v :: vs' =>
      if match hc with Some h => Nat.eqb v h | None => false end
      then light_loop fuel hc vs' ll
      else obind (get_leaves_in_subtree fuel v) (fun lv =>
             obind (concatinateLA ll lv) (light_loop fuel hc vs'))
  end.

(** [setup_heavy_light_subtrees]: the new [heavychild] and [lightleaves]. *)
Definition setup_heavy_light_subtrees (fuel : nat) (u : nat)
  : outcome (option nat * LeafArray) :=
  if Nat.eqb (nneigh u) 1 then Ok (None, allocateLA 0)
  else
    let startind := if Nat.eqb (depth u) 0 then 0%nat else 1%nat in
    let hc := HeavyLight.heavychild neigh depth subtreesize u in
    obind (light_loop fuel hc (skipn startind (neigh u)) (allocateLA 0))
          (fun ll => Ok (hc, ll)).

End Nodes.
End TreeNodes.
Module BalancedFacts.
Import Balanced.

Inductive field := FLazy | FMin | FMax | FDiff | FInc | FExc.

Definition sameF (f : field) (r1 r2 : vars) : Prop :=
  match f with
  | FLazy => d_lazy r1 = d_lazy r2
  | FMin => d_min r1 = d_min r2
  | FMax => d_max r1 = d_max r2
  | FDiff => diff r1 = diff r2
  | FInc => include r1 = include r2
  | FExc => exclude r1 = exclude r2
  end.

Lemma sameF_refl f r : sameF f r r.
Proof. destruct f; reflexivity. Qed.

Lemma sameF_trans f r1 r2 r3 : sameF f r1 r2 -> sameF f r2 r3 -> sameF f r1 r3.
Proof. destruct f; simpl; congruence. Qed.

Lemma sameF_dec f r1 r2 : {sameF f r1 r2} + {~ sameF f r1 r2}.
Proof.
  destruct f; simpl; try apply Z.eq_dec; apply list_eq_dec; apply Nat.eq_dec.
Qed.

Lemma sameF_all r1 r2 : (forall f, sameF f r1 r2) -> r1 = r2.
Proof.
  intros H. destruct r1, r2.
  pose proof (H FLazy); pose proof (H FMin); pose proof (H FMax);
  pose proof (H FDiff); pose proof (H FInc); pose proof (H FExc); simpl in *.
  subst; reflexivity.
Qed.

Ltac fields_tac :=
  let f := fresh "f" in intros f; destruct f; simpl; try reflexivity.

Section Proofs.

Variable neigh : nat -> list nat.
Variable depth : nat -> nat.
Variable subtreesize : nat -> Z.

Local Abbreviation nneigh := (nneigh neigh).
Local Abbreviation neigh_at := (neigh_at neigh).
Local Abbreviation init := (init subtreesize).
Local Abbreviation path_from := (path_from neigh).
Local Abbreviation path_to_root := (path_to_root neigh depth).
Local Abbreviation children := (children neigh depth).
Local Abbreviation add_leaf := (add_leaf neigh depth).
Local Abbreviation reset_leaf := (reset_leaf neigh depth subtreesize).
Local Abbreviation reset_loop := (reset_loop neigh depth subtreesize).
Local Abbreviation add_all := (add_all neigh depth).
Local Abbreviation reset_all := (reset_all neigh depth subtreesize).
Local Abbreviation chain_ok := (chain_ok neigh depth).
Local Abbreviation leaf_ok := (leaf_ok neigh depth).

(** [s'] differs from [s] at most on the fields [P] allows. *)
Definition frame (P : nat -> field -> Prop) (s s' : store) : Prop :=
  forall v f, ~ P v f -> sameF f (s' v) (s v).

Lemma frame_refl P s : frame P s s.
Proof. intros v f _. apply sameF_refl. Qed.

Lemma frame_trans P s1 s2 s3 : frame P s1 s2 -> frame P s2 s3 -> frame P s1 s3.
Proof. intros H1 H2 v f Hn. eapply sameF_trans; [apply H2 | apply H1]; auto. Qed.

Lemma frame_upd (P : nat -> field -> Prop) s v r :
  (forall f, ~ P v f -> sameF f r (s v)) -> frame P s (upd s v r).
Proof.
  intros H w f Hn. unfold upd. destruct (Nat.eqb_spec w v).
  - subst. apply H; auto.
  - apply sameF_refl.
Qed.

Lemma frame_fold {A} P (g : store -> A -> store) (l : list A) :
  (forall x s, In x l -> frame P s (g s x)) ->
  forall s, frame P s (fold_left g l s).
Proof.
  induction l as [|a l IH]; intros H s; simpl.
  - apply frame_refl.
  - eapply frame_trans; [apply H; left; reflexivity|].
    apply IH. intros; apply H; right; auto.
Qed.

(** Every field [reset_leaf] writes gets its initial value. *)
Definition towards_init (s s' : store) : Prop :=
  forall v f, sameF f (s' v) (s v) \/ sameF f (s' v) (init v).

Lemma ti_refl s : towards_init s s.
Proof. intros v f. left. apply sameF_refl. Qed.

Lemma ti_trans s1 s2 s3 : towards_init s1 s2 -> towards_init s2 s3 -> towards_init s1 s3.
Proof.
  intros H1 H2 v f. destruct (H2 v f) as [A|A].
  - destruct (H1 v f) as [B|B]; [left|right]; eapply sameF_trans; eauto.
  - right; auto.
Qed.

Lemma ti_keep s s' v f :
  towards_init s s' -> sameF f (s v) (init v) -> sameF f (s' v) (init v).
Proof. intros H Hs. destruct (H v f) as [A|A]; auto. eapply sameF_trans; eauto. Qed.

Lemma ti_upd s v r :
  (forall f, sameF f r (s v) \/ sameF f r (init v)) -> towards_init s (upd s v r).
Proof.
  intros H w f. unfold upd. destruct (Nat.eqb_spec w v).
  - subst. apply H.
  - left. apply sameF_refl.
Qed.

Lemma ti_fold {A} (g : store -> A -> store) (l : list A) :
  (forall x s, In x l -> towards_init s (g s x)) ->
  forall s, towards_init s (fold_left g l s).
Proof.
  induction l as [|a l IH]; intros H s; simpl.
  - apply ti_refl.
  - eapply ti_trans; [apply H; left; reflexivity|].
    apply IH. intros; apply H; right; auto.
Qed.

(** The fields [add_leaf getset l] may write: everything but [include] on
    the root-to-leaf path, and [diff] and [include] of the children of the
    path nodes; [include] and [exclude] only when [getset] holds. *)
Definition fp (g : bool) (l : nat) (v : nat) (f : field) : Prop :=
  (In v (path_to_root l) /\
     (f = FLazy \/ f = FMin \/ f = FMax \/ f = FDiff \/ (g = true /\ f = FExc)))
  \/ ((f = FDiff \/ (g = true /\ f = FInc)) /\
      exists p, In p (path_to_root l) /\ In v (children p)).

Ltac fp_path H := exfalso; apply H; left; split; [assumption|]; tauto.
Ltac fp_child H p := exfalso; apply H; right; split; [tauto| exists p; split; assumption].

(** Peel the last update off a store built by a chain of updates. *)
Ltac frame_step :=
  match goal with
  | |- frame ?P ?s (upd ?s' ?v ?r) =>
      apply (frame_trans P s s' (upd s' v r)); [|apply frame_upd]
  | |- frame ?P ?s (fold_left ?g ?l ?s') =>
      apply (frame_trans P s s' (fold_left g l s')); [|apply frame_fold]
  end.

Ltac frame_fields H :=
  let f := fresh "f" in
  intros f H; destruct f; simpl; try reflexivity.

Lemma in_down_pairs path p c : In (p, c) (down_pairs path) -> In p path /\ In c path.
Proof.
  unfold down_pairs. rewrite <- in_rev. intros H. split.
  - apply in_combine_l in H. destruct path; simpl in *; auto.
  - apply in_combine_r in H. auto.
Qed.

Lemma off_path_child_frame g l p c cj s :
  In p (path_to_root l) -> In cj (children p) ->
  frame (fp g l) s (off_path_child g l p c s cj).
Proof.
  intros Hp Hc. unfold off_path_child. destruct (Nat.eqb cj c).
  - apply frame_refl.
  - apply frame_upd. intros f Hn. destruct g; destruct f; simpl; try reflexivity;
      fp_child Hn p.
Qed.

Lemma down_step_frame g l s p c :
  In p (path_to_root l) -> In c (path_to_root l) ->
  frame (fp g l) s (down_step neigh depth g l s (p, c)).
Proof.
  intros Hp Hc. unfold down_step. cbv beta iota zeta.
  frame_step; [|frame_fields Hn; fp_path Hn].
  frame_step; [|intros x s' Hx; apply off_path_child_frame; assumption].
  frame_step; [|frame_fields Hn; fp_path Hn].
  destruct g.
  - frame_step; [|frame_fields Hn; fp_path Hn].
    apply frame_upd; frame_fields Hn; fp_path Hn.
  - apply frame_upd; frame_fields Hn; fp_path Hn.
Qed.

Lemma leaf_in_path l : In l (path_to_root l).
Proof. unfold path_to_root, Balanced.path_to_root. destruct (depth l); simpl; auto. Qed.

Lemma leaf_step_frame g l s : frame (fp g l) s (leaf_step g l s).
Proof.
  pose proof (leaf_in_path l) as Hl. unfold leaf_step. cbv beta iota zeta.
  destruct g; repeat (frame_step; [|frame_fields Hn; fp_path Hn]); apply frame_refl.
Qed.

Lemma dminmax_node_frame g l s p :
  In p (path_to_root l) -> frame (fp g l) s (dminmax_node neigh depth s p).
Proof.
  intros Hp. unfold dminmax_node. cbv beta iota zeta.
  frame_step.
  - frame_step; [|frame_fields Hn; fp_path Hn].
    apply frame_upd; frame_fields Hn; fp_path Hn.
  - intros x s' Hx. unfold dminmax_child. cbv beta iota zeta.
    frame_step; [|frame_fields Hn; fp_path Hn].
    apply frame_upd; frame_fields Hn; fp_path Hn.
Qed.

Lemma dminmax_path_frame g l s :
  frame (fp g l) s (update_dminmax_on_path neigh depth (path_to_root l) s).
Proof.
  pose proof (leaf_in_path l) as Hl.
  unfold update_dminmax_on_path. remember (path_to_root l) as P eqn:HP.
  destruct P as [|x rest]; [apply frame_refl|].
  assert (Hx : In x (path_to_root l)) by (rewrite <- HP; left; auto).
  cbv beta iota zeta.
  frame_step.
  - frame_step; [|frame_fields Hn; fp_path Hn].
    apply frame_upd; frame_fields Hn; fp_path Hn.
  - intros y s' Hy. apply dminmax_node_frame. rewrite <- HP; right; exact Hy.
Qed.

Lemma add_leaf_spec g l s :
  nneigh l = 1%nat ->
  exists s', add_leaf g l s = Ok s' /\ frame (fp g l) s s'.
Proof.
  intros Hl. unfold add_leaf, Balanced.add_leaf, assert_is_leaf.
  change (Balanced.nneigh neigh l) with (nneigh l). rewrite Hl; simpl.
  eexists; split; [reflexivity|].
  eapply frame_trans; [|apply dminmax_path_frame].
  eapply frame_trans; [|apply leaf_step_frame].
  apply frame_fold. intros [p c] s' Hpc. apply in_down_pairs in Hpc.
  apply down_step_frame; tauto.
Qed.

Lemma frame_mono (P Q : nat -> field -> Prop) s s' :
  (forall v f, P v f -> Q v f) -> frame P s s' -> frame Q s s'.
Proof. intros HPQ H v f Hn. apply H. intros HP. apply Hn, HPQ, HP. Qed.

(** ** [reset_leaf] *)

Lemma reset_vars_ti g n r f :
  sameF f (reset_vars subtreesize g n r) r \/ sameF f (reset_vars subtreesize g n r) (init n).
Proof. destruct f, g; simpl; auto. Qed.

Lemma reset_child_ti g s c : towards_init s (reset_child g s c).
Proof. unfold reset_child. apply ti_upd. intros f. destruct f, g; simpl; auto. Qed.

Lemma reset_child_init g s c :
  sameF FDiff (reset_child g s c c) (init c) /\
  (g = true -> sameF FInc (reset_child g s c c) (init c)).
Proof.
  unfold reset_child, upd. rewrite Nat.eqb_refl. destruct g; simpl; split; auto; discriminate.
Qed.

Lemma reset_other_fold g pc cs : forall s,
  towards_init s (fold_left (reset_other_child g pc) cs s) /\
  forall c, In c cs -> pc <> Some c ->
    sameF FDiff (fold_left (reset_other_child g pc) cs s c) (init c) /\
    (g = true -> sameF FInc (fold_left (reset_other_child g pc) cs s c) (init c)).
Proof.
  induction cs as [|x cs IH]; intros s; simpl.
  - split; [apply ti_refl | tauto].
  - assert (Hx : towards_init s (reset_other_child g pc s x)).
    { unfold reset_other_child. destruct pc as [p|];
        [destruct (Nat.eqb x p); [apply ti_refl|]|]; apply reset_child_ti. }
    destruct (IH (reset_other_child g pc s x)) as [Hti Hin].
    split; [eapply ti_trans; eauto|].
    intros c [Hxc|Hc] Hpc.
    + subst x. assert (Hc1 : sameF FDiff (reset_other_child g pc s c c) (init c) /\
                    (g = true -> sameF FInc (reset_other_child g pc s c c) (init c))).
      { unfold reset_other_child. destruct pc as [p|].
        - destruct (Nat.eqb_spec c p); [subst; congruence|]. apply reset_child_init.
        - apply reset_child_init. }
      destruct Hc1 as [A B]. split.
      * exact (ti_keep _ _ c FDiff Hti A).
      * intros Hg. exact (ti_keep _ _ c FInc Hti (B Hg)).
    + apply Hin; auto.
Qed.

(** The fields one run of the [reset_leaf] loop sets back, from node [n] at
    depth [k] up to the root. *)
Definition fpc (g : bool) (k n : nat) (v : nat) (f : field) : Prop :=
  (In v (path_from k n) /\
     (f = FLazy \/ f = FMin \/ f = FMax \/ f = FDiff \/ (g = true /\ f = FExc)))
  \/ ((f = FDiff \/ (g = true /\ f = FInc)) /\
      exists p, In p (path_from k n) /\ In v (children p)).

Lemma chain_ok_unfold k n :
  chain_ok k n = true ->
  depth n = k /\ (forall c, In c (neigh n) -> c <> n) /\
  match k with
  | O => nneigh n <> 1%nat
  | S k' => (1 <= nneigh n)%nat /\ chain_ok k' (neigh_at n 0) = true
  end.
Proof.
  intros H. destruct k; simpl in H;
  apply andb_true_iff in H; destruct H as [H H3];
  apply andb_true_iff in H; destruct H as [H1 H2];
  apply Nat.eqb_eq in H1; apply negb_true_iff in H2;
  (split; [exact H1|split]);
  try (intros c Hc Heq; subst c;
       assert (E : existsb (Nat.eqb n) (neigh n) = true)
         by (apply existsb_exists; exists n; split; [exact Hc|apply Nat.eqb_refl]);
       congruence).
  - apply negb_true_iff in H3. apply Nat.eqb_neq in H3. exact H3.
  - rewrite andb_true_iff in H3. destruct H3 as [H3 H4]. split; auto.
    apply Nat.leb_le; exact H3.
Qed.

Lemma reset_vars_init g n r f :
  (f = FLazy \/ f = FMin \/ f = FMax \/ f = FDiff \/ (g = true /\ f = FExc)) ->
  sameF f (reset_vars subtreesize g n r) (init n).
Proof. intros H. destruct f; simpl; auto; destruct H as [H|[H|[H|[H|[H1 H]]]]]; try discriminate; subst; reflexivity. Qed.

Lemma upd_same s v r : upd s v r v = r.
Proof. unfold upd. rewrite Nat.eqb_refl. reflexivity. Qed.

Lemma reset_loop_S g fuel n pc s :
  reset_loop (S fuel) g n pc s =
  let st1 := upd s n (reset_vars subtreesize g n (s n)) in
  if negb (Nat.eqb (nneigh n) 1) then
    let st2 := fold_left (reset_other_child g pc) (tl (neigh n)) st1 in
    if Nat.eqb (depth n) 0 then Ok (reset_child g st2 (neigh_at n 0))
    else reset_loop fuel g (neigh_at n 0) (Some (neigh_at n 0)) st2
  else reset_loop fuel g (neigh_at n 0) (Some (neigh_at n 0)) st1.
Proof. reflexivity. Qed.

Lemma reset_loop_spec g k : forall n pc s,
  chain_ok k n = true -> (pc = None \/ pc = Some n) ->
  exists s', reset_loop (S k) g n pc s = Ok s' /\ towards_init s s' /\
             forall v f, fpc g k n v f -> sameF f (s' v) (init v).
Proof.
  induction k as [|k IH]; intros n pc s Hc Hpc;
    destruct (chain_ok_unfold _ _ Hc) as [Hd [Hself Hk]].
  - (* the root *)
    rewrite reset_loop_S. cbv zeta.
    assert (E : negb (Nat.eqb (nneigh n) 1) = true)
      by (apply negb_true_iff, Nat.eqb_neq; exact Hk).
    rewrite E, Hd. simpl Nat.eqb. cbv iota.
    set (st1 := upd s n (reset_vars subtreesize g n (s n))).
    destruct (reset_other_fold g pc (tl (neigh n)) st1) as [Hti Hin].
    set (st2 := fold_left (reset_other_child g pc) (tl (neigh n)) st1) in *.
    eexists; split; [reflexivity|]. split.
    + eapply ti_trans; [apply ti_upd; intros f; apply reset_vars_ti|].
      eapply ti_trans; [exact Hti|]. apply reset_child_ti.
    + intros v f [[Hv Hf]|[Hf [p [Hp Hvp]]]].
      * destruct Hv as [<-|[]]. apply (ti_keep st2); [apply reset_child_ti|].
        apply (ti_keep st1); [exact Hti|]. unfold st1. rewrite upd_same.
        apply reset_vars_init; exact Hf.
      * destruct Hp as [Hpn|[]]. subst p. unfold children, Balanced.children, startindex in Hvp.
        rewrite Hd in Hvp. simpl in Hvp. unfold neigh_at, Balanced.neigh_at.
        destruct (neigh n) as [|x xs] eqn:En; [destruct Hvp|]. simpl in Hvp |- *.
        destruct (reset_child_init g st2 x) as [A B].
        destruct Hvp as [<-|Hvp].
        -- destruct Hf as [ -> | [Hg ->]]; auto.
        -- assert (Hv : pc <> Some v).
           { destruct Hpc as [ -> | -> ]; [discriminate|]. intros Hinj; injection Hinj as Hinj.
             apply (Hself v); [try rewrite En; right; exact Hvp|symmetry; exact Hinj]. }
           try rewrite En in Hin. simpl in Hin. destruct (Hin v Hvp Hv) as [C D].
           destruct Hf as [ -> | [Hg ->]];
             (apply (ti_keep st2); [apply reset_child_ti|]);
             first [exact C | exact (D Hg)].
  - (* a node below the root *)
    destruct Hk as [Hn1 Hck].
    rewrite reset_loop_S. cbv zeta.
    set (st1 := upd s n (reset_vars subtreesize g n (s n))).
    assert (Hst1 : towards_init s st1) by (apply ti_upd; intros f; apply reset_vars_ti).
    assert (Hn : forall f, (f = FLazy \/ f = FMin \/ f = FMax \/ f = FDiff \/
                            (g = true /\ f = FExc)) -> sameF f (st1 n) (init n)).
    { intros f Hf. unfold st1. rewrite upd_same. apply reset_vars_init; exact Hf. }
    assert (Hch : children n = tl (neigh n)).
    { unfold children, Balanced.children, startindex. rewrite Hd. reflexivity. }
    destruct (Nat.eqb_spec (nneigh n) 1) as [E1|E1]; simpl negb; cbv iota.
    + destruct (IH (neigh_at n 0) (Some (neigh_at n 0)) st1 Hck (or_intror eq_refl))
        as [s' [R [Hti Hf]]].
      rewrite R. eexists; split; [reflexivity|]. split; [eapply ti_trans; eauto|].
      intros v f [[[<-|Hv] Hfl]|[Hfl [p [[<-|Hp] Hvp]]]].
      * apply (ti_keep st1); auto.
      * apply Hf. left; auto.
      * exfalso. rewrite Hch in Hvp. unfold nneigh, Balanced.nneigh in E1.
        destruct (neigh n) as [|x [|y ys]]; simpl in *; try discriminate; auto.
      * apply Hf. right. split; [exact Hfl|exists p; auto].
    + rewrite Hd. simpl Nat.eqb. cbv iota.
      destruct (reset_other_fold g (Some n) (tl (neigh n)) st1) as [Hti2 Hin2].
      destruct Hpc as [ -> | -> ];
      [ destruct (reset_other_fold g None (tl (neigh n)) st1) as [Hti2' Hin2'] | ];
      match goal with
      | |- context [fold_left (reset_other_child g ?pc0) (tl (neigh n)) st1] =>
          set (st2 := fold_left (reset_other_child g pc0) (tl (neigh n)) st1) in *
      end;
      destruct (IH (neigh_at n 0) (Some (neigh_at n 0)) st2 Hck (or_intror eq_refl))
        as [s' [R [Hti Hf]]];
      rewrite R; eexists; (split; [reflexivity|]);
      (split; [eapply ti_trans; [exact Hst1|]; eapply ti_trans; eauto|]);
      intros v f [[[<-|Hv] Hfl]|[Hfl [p [[<-|Hp] Hvp]]]];
      try (apply Hf; left; auto; fail);
      try (apply Hf; right; split; [exact Hfl|exists p; auto]; fail);
      try (apply (ti_keep st2); [auto|]; apply (ti_keep st1); auto; fail).
      * apply (ti_keep st2); auto. rewrite Hch in Hvp.
        assert (Hv : None <> Some v) by discriminate.
        destruct (Hin2' v Hvp Hv) as [A B]. destruct Hfl as [ -> | [Hg ->]]; auto.
      * apply (ti_keep st2); auto. rewrite Hch in Hvp.
        assert (Hv : Some n <> Some v).
        { intros Hinj; injection Hinj as Hinj. apply (Hself v).
          - destruct (neigh n); simpl in *; auto.
          - auto. }
        destruct (Hin2 v Hvp Hv) as [A B]. destruct Hfl as [ -> | [Hg ->]]; auto.
Qed.

Lemma reset_leaf_spec g l s :
  leaf_ok l = true ->
  exists s', reset_leaf g l s = Ok s' /\ towards_init s s' /\
             forall v f, fp g l v f -> sameF f (s' v) (init v).
Proof.
  intros Hl. unfold leaf_ok, Balanced.leaf_ok in Hl. apply andb_true_iff in Hl.
  destruct Hl as [H1 H2]. unfold reset_leaf, Balanced.reset_leaf, assert_is_leaf.
  fold (nneigh l). rewrite H1. cbv iota.
  destruct (reset_loop_spec g (depth l) l None s H2 (or_introl eq_refl)) as [s' [R [A B]]].
  exists s'. split; [exact R|]. split; [exact A|]. exact B.
Qed.

Lemma leaf_ok_nneigh l : leaf_ok l = true -> nneigh l = 1%nat.
Proof.
  unfold leaf_ok, Balanced.leaf_ok. rewrite andb_true_iff. intros [H _].
  apply Nat.eqb_eq; exact H.
Qed.

Lemma add_all_spec g S : forall s,
  forallb leaf_ok S = true ->
  exists sA, add_all g S s = Ok sA /\
             frame (fun v f => exists l, In l S /\ fp g l v f) s sA.
Proof.
  induction S as [|l S IH]; intros s H; simpl in H |- *.
  - exists s. split; [reflexivity|]. apply frame_refl.
  - apply andb_true_iff in H. destruct H as [Hl HS].
    destruct (add_leaf_spec g l s (leaf_ok_nneigh l Hl)) as [s1 [R1 F1]].
    change (Balanced.add_leaf neigh depth g l s) with (add_leaf g l s). rewrite R1.
    destruct (IH s1 HS) as [sA [R F]]. exists sA. split; [exact R|].
    eapply frame_trans.
    + eapply frame_mono; [|exact F1]. intros v f Hf. exists l; split; [left|]; auto.
    + eapply frame_mono; [|exact F]. intros v f [l' [Hin Hf]]. exists l'; split; [right|]; auto.
Qed.

Lemma reset_all_spec g S : forall s,
  forallb leaf_ok S = true ->
  exists sF, reset_all g S s = Ok sF /\ towards_init s sF /\
             forall l, In l S -> forall v f, fp g l v f -> sameF f (sF v) (init v).
Proof.
  induction S as [|l S IH]; intros s H; simpl in H |- *.
  - exists s. split; [reflexivity|]. split; [apply ti_refl|tauto].
  - apply andb_true_iff in H. destruct H as [Hl HS].
    destruct (reset_leaf_spec g l s Hl) as [s1 [R1 [T1 F1]]].
    change (Balanced.reset_leaf neigh depth subtreesize g l s) with (reset_leaf g l s).
    rewrite R1.
    destruct (IH s1 HS) as [sF [R [T F]]]. exists sF. split; [exact R|].
    split; [eapply ti_trans; eauto|].
    intros l' [<-|Hin] v f Hf.
    + eapply ti_keep; [exact T|]. apply F1; exact Hf.
    + apply (F l' Hin v f Hf).
Qed.

Lemma reset_loop_not_fatal fuel g n pc s m : reset_loop fuel g n pc s <> Fatal m.
Proof.
  revert n pc s. induction fuel as [|fuel IH]; intros n pc s; cbn [Balanced.reset_loop].
  - discriminate.
  - destruct (negb _); [destruct (Nat.eqb _ _)|]; try discriminate; apply IH.
Qed.

End Proofs.

(** C10: [add_leaf] and [reset_leaf] end the process with the diagnostic
    "leaf not given to add_leaf()" exactly when their argument is not a leaf
    (does not have exactly one neighbour); the abort happens in
    [assert_is_leaf], before any node is touched, and on a leaf neither of
    them aborts. *)
Theorem add_reset_leaf_require_leaf neigh depth subtreesize getset leaf st m :
  (add_leaf neigh depth getset leaf st = Fatal m <->
     m = leaf_msg /\ nneigh neigh leaf <> 1%nat) /\
  (reset_leaf neigh depth subtreesize getset leaf st = Fatal m <->
     m = leaf_msg /\ nneigh neigh leaf <> 1%nat).
Proof.
  unfold add_leaf, reset_leaf, assert_is_leaf.
  destruct (Nat.eqb_spec (nneigh neigh leaf) 1) as [E|E]; split; split.
  - discriminate.
  - intros [_ H]; contradiction.
  - intros H. exfalso. eapply reset_loop_not_fatal; exact H.
  - intros [_ H]; contradiction.
  - intros H; injection H as <-; auto.
  - intros [-> _]; reflexivity.
  - intros H; injection H as <-; auto.
  - intros [-> _]; reflexivity.
Qed.

(** C6: on any alternative tree whose leaves satisfy the shape conditions
    [leaf_ok], running [add_leaf] on a list of leaves from the initial state
    (d_lazy = d_max = subtreesize, d_min = 1, diff = 0, include and exclude
    empty) and then [reset_leaf] on the same leaves in any order succeeds
    and gives back the initial state at every node. *)
Theorem add_reset_roundtrip neigh depth subtreesize getset S S' :
  Permutation S S' ->
  forallb (leaf_ok neigh depth) S = true ->
  match add_all neigh depth getset S (init subtreesize) with
  | Ok sA =>
      match reset_all neigh depth subtreesize getset S' sA with
      | Ok sF => forall v, sF v = init subtreesize v
      | _ => False
      end
  | _ => False
  end.
Proof.
  intros HP HS.
  assert (HS' : forallb (leaf_ok neigh depth) S' = true).
  { apply forallb_forall. intros x Hx. rewrite forallb_forall in HS.
    apply HS. apply Permutation_in with S'; [apply Permutation_sym; exact HP|exact Hx]. }
  destruct (add_all_spec neigh depth subtreesize getset S (init subtreesize) HS)
    as [sA [RA FA]].
  rewrite RA.
  destruct (reset_all_spec neigh depth subtreesize getset S' sA HS') as [sF [RF [TF FF]]].
  rewrite RF. intros v. apply sameF_all. intros f.
  destruct (sameF_dec f (sF v) (init subtreesize v)) as [ok|nok]; [exact ok|].
  exfalso. destruct (TF v f) as [E|E]; [|contradiction].
  apply nok. eapply sameF_trans; [exact E|]. apply FA.
  intros [l [Hin Hf]]. apply nok. apply (FF l); [|exact Hf].
  apply Permutation_in with S; assumption.
Qed.

(** A rooted binary alternative tree: root 0 with children 1 and 2, node 1
    with leaf children 3 and 4. *)
Definition ex_neigh (v : nat) : list nat :=
  match v with
  | 0 => [1; 2] | 1 => [0; 3; 4] | 2 => [0] | 3 => [1] | 4 => [1] | _ => []
  end.
Definition ex_depth (v : nat) : nat :=
  match v with 0 => 0 | 1 | 2 => 1 | _ => 2 end.
Definition ex_size (v : nat) : Z :=
  match v with 0 => 3%Z | 1 => 2%Z | _ => 1%Z end.

Lemma add_reset_roundtrip_witness :
  Permutation [3; 2; 4] (rev [3; 2; 4]) /\
  forallb (leaf_ok ex_neigh ex_depth) [3; 2; 4] = true /\
  match add_all ex_neigh ex_depth true [3; 2; 4] (init ex_size) with
  | Ok sA =>
      match reset_all ex_neigh ex_depth ex_size true (rev [3; 2; 4]) sA with
      | Ok sF => forall v, sF v = init ex_size v
      | _ => False
      end
  | _ => False
  end.
Proof.
  split; [apply Permutation_rev|]. split; [vm_compute; reflexivity|].
  apply (add_reset_roundtrip ex_neigh ex_depth ex_size true [3; 2; 4] (rev [3; 2; 4])).
  - apply Permutation_rev.
  - vm_compute; reflexivity.
Defined.

End BalancedFacts.

(** * Proofs about the edge TI conversion *)
Module EdgeTIFacts.
Import EdgeTI.

Lemma fold_other a_nodes n : forall es e,
  ~ In e (nonroot_edges a_nodes) -> nodeTI_to_edgeTI a_nodes n es e = es e.
Proof.
  unfold nodeTI_to_edgeTI, nonroot_edges.
  induction a_nodes as [|u us IH]; intros es e He; simpl in *; [reflexivity|].
  unfold set_edge_TI at 2.
  destruct (negb (Nat.eqb (depth u) 0)) eqn:Hd; simpl in He.
  - rewrite IH by tauto. unfold upd. destruct (Nat.eqb_spec e (br0 u)); [|reflexivity].
    exfalso; apply He; left; auto.
  - rewrite IH by tauto. reflexivity.
Qed.

Lemma nodeTI_to_edgeTI_nonroot a_nodes n : forall es,
  NoDup (nonroot_edges a_nodes) ->
  forall u, In u a_nodes -> depth u <> 0%nat ->
     nodeTI_to_edgeTI a_nodes n es (br0 u) = Z.min (ti_min u) (n - ti_max u).
Proof.
  unfold nodeTI_to_edgeTI.
  induction a_nodes as [|x xs IH]; intros es Hnd u Hu Hd; [destruct Hu|].
  simpl. unfold nonroot_edges in Hnd. simpl in Hnd.
  destruct (Nat.eqb_spec (depth x) 0) as [Hx|Hx]; simpl in Hnd.
  - destruct Hu as [<-|Hu]; [contradiction|]. apply IH; auto.
  - inversion Hnd as [|? ? Hnin Hnd']; subst. destruct Hu as [<-|Hu].
    + change (fold_left (fun es0 u0 => set_edge_TI u0 n es0) xs (set_edge_TI x n es) (br0 x))
        with (nodeTI_to_edgeTI xs n (set_edge_TI x n es) (br0 x)).
      rewrite fold_other by exact Hnin. unfold set_edge_TI.
      destruct (Nat.eqb_spec (depth x) 0); [contradiction|]. simpl.
      unfold upd. rewrite Nat.eqb_refl. apply CInt.min_spec.
    + apply IH; auto.
Qed.

(** C3: the conversion writes [min(u.ti_min, n - u.ti_max)] (C's [min], which
    is [Z.min]) on the edge [br[0]] of every non-root node [u] of the node
    array, provided distinct non-root nodes have distinct edges above them
    as in a tree; every other edge, in particular no edge for the root, is
    left as it was. *)
Theorem nodeTI_to_edgeTI_spec a_nodes n es :
  NoDup (nonroot_edges a_nodes) ->
  (forall u, In u a_nodes -> depth u <> 0%nat ->
     nodeTI_to_edgeTI a_nodes n es (br0 u) = Z.min (ti_min u) (n - ti_max u)) /\
  (forall e, ~ In e (nonroot_edges a_nodes) -> nodeTI_to_edgeTI a_nodes n es e = es e).
Proof.
  intros Hnd. split; [apply nodeTI_to_edgeTI_nonroot; exact Hnd | apply fold_other].
Qed.

Lemma nodeTI_to_edgeTI_spec_witness :
  let nodes := [mkNode 0 0 0 0; mkNode 1 1 1 3; mkNode 1 2 0 1] in
  NoDup (nonroot_edges nodes) /\
  nodeTI_to_edgeTI nodes 4 (fun _ => 0%Z) 1 = Z.min 1 (4 - 3).
Proof.
  intros nodes. split.
  - vm_compute. repeat constructor; simpl; intuition discriminate.
  - apply (proj1 (nodeTI_to_edgeTI_spec nodes 4 (fun _ => 0%Z)
             ltac:(vm_compute; repeat constructor; simpl; intuition discriminate))
             (mkNode 1 1 1 3)); [simpl; tauto | discriminate].
Defined.

End EdgeTIFacts.

(** * Proofs about the leaf bijection *)
Module BijectionFacts.
Import Bijection.

Lemma skipn_cons_nth {A} (l : list A) : forall i x,
  nth_error l i = Some x -> skipn i l = x :: skipn (S i) l.
Proof.
  induction l as [|a l IH]; intros [|i] x H; simpl in *; try discriminate.
  - injection H as ->; reflexivity.
  - apply IH; exact H.
Qed.

Lemma bij_loop_combine a1 a2 (Hl : length a1 <= length a2) : forall k i,
  i + k = length a1 -> bij_loop a1 a2 i k = Some (combine (skipn i a1) (skipn i a2)).
Proof.
  induction k as [|k IH]; intros i Hik; simpl.
  - rewrite Nat.add_0_r in Hik. subst i. rewrite skipn_all. reflexivity.
  - destruct (nth_error a1 i) as [x|] eqn:E1.
    2: { apply nth_error_None in E1. lia. }
    destruct (nth_error a2 i) as [y|] eqn:E2.
    2: { apply nth_error_None in E2. lia. }
    rewrite IH by lia. rewrite (skipn_cons_nth a1 i x E1), (skipn_cons_nth a2 i y E2).
    reflexivity.
Qed.

(** C7 (as the code is): [set_leaf_bijection] performs no check.  When
    [tree1] has no more leaves than [tree2] it always returns normally and
    links the [i]-th leaf of [tree1]'s array with the [i]-th leaf of
    [tree2]'s, whatever their taxon names; it never aborts. *)
Theorem set_leaf_bijection_positional a1 a2 :
  length a1 <= length a2 ->
  set_leaf_bijection a1 a2 = Some (combine a1 a2).
Proof.
  intros Hl. unfold set_leaf_bijection. rewrite (bij_loop_combine a1 a2 Hl (length a1) 0);
  reflexivity.
Qed.

Lemma set_leaf_bijection_positional_witness :
  length [0; 1] <= length [2; 3] /\
  set_leaf_bijection [0; 1] [2; 3] = Some [(0, 2); (1, 3)].
Proof.
  split; [simpl; lia|]. apply (set_leaf_bijection_positional [0; 1] [2; 3]). simpl; lia.
Defined.

(** Taxon names of a reference tree with leaves 0 ("a"), 1 ("b") and an
    alternative tree with leaves 2 ("a"), 3 ("c"). *)
Definition ex_name (v : nat) : string :=
  match v with 0 | 2 => "a" | 1 => "b" | _ => "c" end.

(** C7, counterexample: the sorted leaf lists ["a"; "b"] and ["a"; "c"] differ,
    yet [set_leaf_bijection] returns normally, linking the "b" leaf to the
    "c" leaf; nothing aborts. *)
Lemma set_leaf_bijection_mismatch_counterexample :
  map ex_name [0; 1] <> map ex_name [2; 3] /\
  set_leaf_bijection [0; 1] [2; 3] = Some [(0, 2); (1, 3)].
Proof. split; [discriminate | reflexivity]. Qed.

End BijectionFacts.

(** * Heavy child selection *)
Module HeavyLightFacts.
Import HeavyLight.

(** A root with three neighbours 1, 2, 3 (subtree sizes 1, 1, 2); node 3 has
    the leaf children 4 and 5. *)
Definition fan_neigh (v : nat) : list nat :=
  match v with
  | 0 => [1; 2; 3] | 1 | 2 => [0] | 3 => [0; 4; 5] | 4 | 5 => [3] | _ => []
  end.
Definition fan_depth (v : nat) : nat :=
  match v with 0 => 0 | 1 | 2 | 3 => 1 | _ => 2 end.
Definition fan_size (v : nat) : Z :=
  match v with 0 => 4%Z | 3 => 2%Z | _ => 1%Z end.

(** C8, failing input: at the three-neighbour root the loop, stepping [i] by
    two, compares [neigh[0]] with [neigh[1]] only and never looks at
    [neigh[2]]: [heavychild] is node 1 (subtree size 1) although the child 3
    has subtree size 2. *)
Lemma heavychild_fan_root_counterexample :
  heavychild fan_neigh fan_depth fan_size 0 = Some 1 /\
  In 3 (children fan_neigh fan_depth 0) /\
  (fan_size 1 < fan_size 3)%Z.
Proof. vm_compute. split; [reflexivity|]. split; [right; right; left; reflexivity|reflexivity]. Qed.

End HeavyLightFacts.

(** * Proofs about the heavy path tree *)


(** * The heavy path decomposition ([heavy_paths.c]) and the rapid transfer index driver *)
Module HPTFacts.
Import HPT.
Local Open Scope Z_scope.

(** The skeleton of a Path: its kinds and alternative nodes, without the
    fields. *)
Inductive shp : Type :=
| SN (l r : shp)
| SL (v : tree) (c : shp)
| SL2 (v : tree) (c1 c2 : shp)
| SH (v : tree).

Fixpoint shape (p : path) : shp :=
  match p with
  | PT_node _ l r => SN (shape l) (shape r)
  | PT_leaf _ v c => SL v (shape c)
  | PT_leaf2 _ v c1 c2 => SL2 v (shape c1) (shape c2)
  | HPT_leaf _ v => SH v
  end.

(** The alternative nodes whose distance a Path's [*_path] values range
    over, and those its [*_subtree] values range over. *)
Fixpoint rng_s (s : shp) : list tree :=
  match s with
  | SN l r => rng_s l ++ rng_s r
  | SL v _ => [v]
  | SL2 v _ _ => [v]
  | SH v => [v]
  end.

Fixpoint pnd_s (s : shp) : list tree :=
  match s with
  | SN l r => pnd_s l ++ pnd_s r
  | SL _ c => rng_s c ++ pnd_s c
  | SL2 _ c1 c2 => (rng_s c1 ++ pnd_s c1) ++ (rng_s c2 ++ pnd_s c2)
  | SH _ => []
  end.

Fixpoint hl_s (s : shp) : list nat :=
  match s with
  | SN l r => hl_s l ++ hl_s r
  | SL _ c => hl_s c
  | SL2 _ c1 c2 => hl_s c1 ++ hl_s c2
  | SH v => leaves v
  end.

Definition is_SH (s : shp) : bool := match s with SH _ => true | _ => false end.

(** The nesting of the alternative tree that [add_leaf_HPT] relies on. *)
Fixpoint WF (s : shp) : Prop :=
  match s with
  | SN l r =>
      WF l /\ WF r /\ is_SH l = false /\
      (forall x, In x (hl_s r) -> forall v, In v (rng_s l) -> In x (leaves v)) /\
      (forall x, In x (hl_s r) -> forall v, In v (pnd_s l) -> ~ In x (leaves v)) /\
      (forall x, In x (hl_s l) -> forall v, In v (rng_s r ++ pnd_s r) -> ~ In x (leaves v))
  | SL v c => WF c /\ (forall x, In x (hl_s c) -> In x (leaves v))
  | SL2 v c1 c2 =>
      WF c1 /\ WF c2 /\ (exists a b c, v = Tri a b c) /\
      (forall x, In x (hl_s c1 ++ hl_s c2) -> In x (leaves v)) /\
      (forall x, In x (hl_s c1) -> forall w, In w (rng_s c2 ++ pnd_s c2) -> ~ In x (leaves w)) /\
      (forall x, In x (hl_s c2) -> forall w, In w (rng_s c1 ++ pnd_s c1) -> ~ In x (leaves w))
  | SH v => exists y, v = Leaf y
  end.

Definition rng (p : path) : list tree := rng_s (shape p).
Definition pnd (p : path) : list tree := pnd_s (shape p).

(** Which child heavy paths of a PT leaf with two of them the
    [d_max_subtree] of an HPT ranges over: [reset_leaf_HPT] recomputes it
    from one of them only.  [MF] selects everything below. *)
Inductive msk : Type :=
| MF
| MC (b1 b2 : bool) (m1 m2 : msk).

Definition mL (m : msk) : msk := match m with MF => MF | MC _ _ m1 _ => m1 end.
Definition mR (m : msk) : msk := match m with MF => MF | MC _ _ _ m2 => m2 end.
Definition mb1 (m : msk) : bool := match m with MF => true | MC b1 _ _ _ => b1 end.
Definition mb2 (m : msk) : bool := match m with MF => true | MC _ b2 _ _ => b2 end.

Fixpoint pndM (m : msk) (s : shp) : list tree :=
  match s with
  | SN l r => pndM (mL m) l ++ pndM (mR m) r
  | SL _ c => rng_s c ++ pndM (mL m) c
  | SL2 _ c1 c2 =>
      (if mb1 m then rng_s c1 ++ pndM (mL m) c1 else []) ++
      (if mb2 m then rng_s c2 ++ pndM (mR m) c2 else [])
  | SH _ => []
  end.

Fixpoint full (m : msk) : bool :=
  match m with MF => true | MC b1 b2 m1 m2 => b1 && b2 && full m1 && full m2 end.

(** The rooted transfer distance |L(v) sym-diff A|, as the two differences. *)
Definition mem (y : nat) (A : list nat) : bool := existsb (Nat.eqb y) A.

Definition tdist (A : list nat) (v : tree) : Z :=
  Z.of_nat (length (filter (fun y => negb (mem y A)) (leaves v)) +
            length (filter (fun y => negb (mem y (leaves v))) A)).

Definition is_min (A : list nat) (val : Z) (S : list tree) : Prop :=
  (forall v, In v S -> val <= tdist A v) /\ exists v, In v S /\ tdist A v = val.
Definition is_max (A : list nat) (val : Z) (S : list tree) : Prop :=
  (forall v, In v S -> tdist A v <= val) /\ exists v, In v S /\ tdist A v = val.

(** The values of a Path are the extreme distances, with the diffs of its
    ancestors ([ap], [as]) added; [d_max_subtree] ranges over the nodes
    the mask [m] selects. *)
Fixpoint INV (A : list nat) (p : path) (m : msk) (ap as_ : Z) {struct p} : Prop :=
  match p with
  | PT_node f l r =>
      is_min A (d_min_path f + diff_path f + ap) (rng p) /\
      is_max A (d_max_path f + diff_path f + ap) (rng p) /\
      is_min A (d_min_subtree f + diff_subtree f + as_) (pnd p) /\
      is_max A (d_max_subtree f + diff_subtree f + as_) (pndM m (shape p)) /\
      INV A l (mL m) (ap + diff_path f) (as_ + diff_subtree f) /\
      INV A r (mR m) (ap + diff_path f) (as_ + diff_subtree f)
  | PT_leaf f v c =>
      d_min_path f + diff_path f + ap = tdist A v /\
      d_max_path f + diff_path f + ap = tdist A v /\
      is_min A (d_min_subtree f + diff_subtree f + as_) (pnd p) /\
      is_max A (d_max_subtree f + diff_subtree f + as_) (pndM m (shape p)) /\
      diff_path (fields c) = 0 /\ diff_subtree (fields c) = 0 /\
      INV A c (mL m) (as_ + diff_subtree f) (as_ + diff_subtree f)
  | PT_leaf2 f v c1 c2 =>
      d_min_path f + diff_path f + ap = tdist A v /\
      d_max_path f + diff_path f + ap = tdist A v /\
      is_min A (d_min_subtree f + diff_subtree f + as_) (pnd p) /\
      is_max A (d_max_subtree f + diff_subtree f + as_) (pndM m (shape p)) /\
      diff_path (fields c1) = diff_subtree (fields c1) /\
      diff_path (fields c2) = diff_subtree (fields c2) /\
      INV A c1 (mL m) (as_ + diff_subtree f) (as_ + diff_subtree f) /\
      INV A c2 (mR m) (as_ + diff_subtree f) (as_ + diff_subtree f)
  | HPT_leaf f v =>
      d_min_path f + diff_path f + ap = tdist A v /\
      d_max_path f + diff_path f + ap = tdist A v
  end.

(** The mask after [add_leaf_HPT] of [x]: the recomputed nodes range over
    everything below them again. *)
Fixpoint madd (x : nat) (p : path) (m : msk) : msk :=
  match p with
  | PT_node _ l r =>
      if has_leaf x r then MC true true (mL m) (madd x r (mR m))
      else MC true true (madd x l (mL m)) (mR m)
  | PT_leaf _ _ c => MC true true (madd x c (mL m)) MF
  | PT_leaf2 _ _ c1 c2 =>
      if has_leaf x c1 then MC true true (madd x c1 (mL m)) (mR m)
      else MC true true (mL m) (madd x c2 (mR m))
  | HPT_leaf _ _ => m
  end.

Fixpoint madds (S : list nat) (p : path) (m : msk) : msk :=
  match S with
  | [] => m
  | x :: S' => madds S' (add_leaf_HPT x p) (madd x p m)
  end.

(** ** Skeleton lemmas *)

Lemma shape_with_fields p f : shape (with_fields p f) = shape p.
Proof. destruct p; reflexivity. Qed.

Lemma fields_with_fields p g : fields (with_fields p g) = g.
Proof. destruct p; reflexivity. Qed.

Lemma hpt_leaves_shape p : hpt_leaves p = hl_s (shape p).
Proof. induction p; simpl; congruence. Qed.

Lemma is_HPT_leaf_shape p : is_HPT_leaf p = is_SH (shape p).
Proof. destruct p; reflexivity. Qed.

Lemma pndM_full s : forall m, full m = true -> pndM m s = pnd_s s.
Proof.
  induction s as [l IHl r IHr|v c IHc|v c1 IH1 c2 IH2|v]; intros m Hm; cbn [pndM pnd_s].
  - assert (H1 : full (mL m) = true) by (destruct m; cbn in *; [reflexivity|];
      apply andb_true_iff in Hm as [Hm _]; apply andb_true_iff in Hm as [_ Hm]; exact Hm).
    assert (H2 : full (mR m) = true) by (destruct m; cbn in *; [reflexivity|];
      apply andb_true_iff in Hm as [_ Hm]; exact Hm).
    rewrite IHl, IHr by assumption. reflexivity.
  - assert (H1 : full (mL m) = true) by (destruct m; cbn in *; [reflexivity|];
      apply andb_true_iff in Hm as [Hm _]; apply andb_true_iff in Hm as [_ Hm]; exact Hm).
    rewrite IHc by assumption. reflexivity.
  - destruct m as [|b1 b2 m1 m2]; cbn [mb1 mb2 mL mR full] in *.
    + rewrite IH1, IH2 by reflexivity. reflexivity.
    + apply andb_true_iff in Hm as [Hm H2]. apply andb_true_iff in Hm as [Hm H1].
      apply andb_true_iff in Hm as [-> ->]. rewrite IH1, IH2 by assumption. reflexivity.
  - reflexivity.
Qed.

Lemma pndM_MF s : pndM MF s = pnd_s s.
Proof. apply pndM_full. reflexivity. Qed.

Lemma pndM_incl s : forall m v, In v (pndM m s) -> In v (pnd_s s).
Proof.
  induction s as [l IHl r IHr|u c IHc|u c1 IH1 c2 IH2|u]; intros m v; cbn [pndM pnd_s];
    rewrite ?in_app_iff.
  - intros [H|H]; [left; eapply IHl | right; eapply IHr]; eauto.
  - intros [H|H]; [left; exact H | right; eapply IHc; eauto].
  - destruct (mb1 m), (mb2 m); cbn [In app]; rewrite ?in_app_iff; intros H;
      intuition eauto.
  - intros [].
Qed.

Lemma full_madd x p : forall m, full m = true -> full (madd x p m) = true.
Proof.
  assert (FL : forall m, full m = true -> full (mL m) = true).
  { intros [|b1 b2 m1 m2] Hm; cbn in *; [reflexivity|].
    apply andb_true_iff in Hm as [Hm _]. apply andb_true_iff in Hm as [_ Hm]. exact Hm. }
  assert (FR : forall m, full m = true -> full (mR m) = true).
  { intros [|b1 b2 m1 m2] Hm; cbn in *; [reflexivity|]. apply andb_true_iff in Hm as [_ Hm]. exact Hm. }
  induction p as [f l IHl r IHr|f v c IHc|f v c1 IH1 c2 IH2|f v]; intros m Hm; cbn [madd].
  - destruct (has_leaf x r); cbn [full andb]; rewrite ?IHl, ?IHr, ?FL, ?FR; auto.
  - cbn [full andb]. rewrite IHc by auto. reflexivity.
  - destruct (has_leaf x c1); cbn [full andb]; rewrite ?IH1, ?IH2, ?FL, ?FR; auto.
  - exact Hm.
Qed.

(** The steps up keep the kind, the children, the diffs and the lists. *)
Definition same_bookkeeping (g f : pvars) : Prop :=
  diff_path g = diff_path f /\ diff_subtree g = diff_subtree f /\
  include_path g = include_path f /\ include_subtree g = include_subtree f /\
  exclude g = exclude f /\ exclude_path g = exclude_path f.

Lemma up_PT_node_eq f l r :
  exists g, up_PT_node f l r = PT_node g l r /\ same_bookkeeping g f.
Proof.
  unfold up_PT_node, same_bookkeeping.
  destruct (is_HPT_leaf l); [|destruct (is_HPT_leaf r)]; eexists; split; try reflexivity;
    simpl; auto 10.
Qed.

Lemma up_PT_leaf_eq f v c :
  exists g, up_PT_leaf f v c = PT_leaf g v c /\ same_bookkeeping g f.
Proof.
  unfold up_PT_leaf, same_bookkeeping.
  destruct (is_HPT_leaf c); eexists; split; try reflexivity; simpl; auto 10.
Qed.

Lemma up_PT_leaf2_eq f v c1 c2 :
  exists g, up_PT_leaf2 f v c1 c2 = PT_leaf2 g v c1 c2 /\ same_bookkeeping g f.
Proof.
  unfold up_PT_leaf2, same_bookkeeping. eexists; split; [reflexivity|]. simpl; auto 10.
Qed.

Ltac up_eq :=
  match goal with
  | |- context [up_PT_node ?a ?b ?c] => destruct (up_PT_node_eq a b c) as (?g & -> & ?Bg)
  | |- context [up_PT_leaf ?a ?b ?c] => destruct (up_PT_leaf_eq a b c) as (?g & -> & ?Bg)
  | |- context [up_PT_leaf2 ?a ?b ?c ?d] => destruct (up_PT_leaf2_eq a b c d) as (?g & -> & ?Bg)
  end.

Lemma shape_add x pp ps p : shape (add_leaf_rec x pp ps p) = shape p.
Proof.
  revert pp ps. induction p as [f l IHl r IHr|f v c IHc|f v c1 IH1 c2 IH2|f v]; intros pp ps;
    cbn [add_leaf_rec].
  - destruct (has_leaf x r); up_eq; simpl; rewrite ?IHr, ?IHl, shape_with_fields; reflexivity.
  - up_eq. simpl. rewrite IHc. reflexivity.
  - destruct (has_leaf x c1); up_eq; simpl; rewrite ?IH1, ?IH2, shape_with_fields; reflexivity.
  - reflexivity.
Qed.

Lemma shape_reset x p : shape (reset_leaf_rec x p) = shape p.
Proof.
  induction p as [f l IHl r IHr|f v c IHc|f v c1 IH1 c2 IH2|f v]; simpl.
  - destruct (has_leaf x r); unfold reset_PT_node; simpl;
      rewrite ?shape_with_fields, ?IHl, ?IHr; reflexivity.
  - rewrite IHc; reflexivity.
  - destruct (has_leaf x c1); simpl; rewrite ?shape_with_fields, ?IH1, ?IH2; reflexivity.
  - reflexivity.
Qed.

Lemma add_bookkeeping x pp ps p :
  diff_path (fields (add_leaf_rec x pp ps p)) = 0 /\
  diff_subtree (fields (add_leaf_rec x pp ps p)) = 0 /\
  include_path (fields (add_leaf_rec x pp ps p)) = include_path (fields p) /\
  include_subtree (fields (add_leaf_rec x pp ps p)) = include_subtree (fields p) /\
  exclude_path (fields (add_leaf_rec x pp ps p)) = exclude_path (fields p).
Proof.
  destruct p as [f l r|f v c|f v c1 c2|f v]; cbn [add_leaf_rec].
  - destruct (has_leaf x r); up_eq;
      unfold same_bookkeeping in Bg; simpl in *; intuition congruence.
  - up_eq. unfold same_bookkeeping in Bg; simpl in *; intuition congruence.
  - destruct (has_leaf x c1); up_eq;
      unfold same_bookkeeping in Bg; simpl in *; intuition congruence.
  - simpl; auto.
Qed.

Lemma rng_nonempty s : rng_s s <> [].
Proof. induction s; simpl; auto; try discriminate. destruct (rng_s s1); simpl; congruence. Qed.

Lemma pnd_nonempty s : WF s -> is_SH s = false -> pnd_s s <> [].
Proof.
  induction s as [l IHl r IHr|v c IHc|v c1 IH1 c2 IH2|v]; simpl; intros H Hs.
  - destruct H as (Hl & _ & Hsl & _). specialize (IHl Hl Hsl).
    destruct (pnd_s l); simpl; congruence.
  - pose proof (rng_nonempty c). destruct (rng_s c); simpl; congruence.
  - pose proof (rng_nonempty c1). destruct (rng_s c1); simpl; congruence.
  - discriminate.
Qed.

(** ** The distance *)

Lemma mem_In y A : mem y A = true <-> In y A.
Proof.
  unfold mem. rewrite existsb_exists. split.
  - intros (z & Hz & E). apply Nat.eqb_eq in E. subst. exact Hz.
  - intros H. exists y. split; [exact H | apply Nat.eqb_refl].
Qed.

Lemma mem_false y A : mem y A = false <-> ~ In y A.
Proof. rewrite <- mem_In. destruct (mem y A); split; congruence. Qed.

Lemma count_filter L A x : NoDup L -> ~ In x A ->
  length (filter (fun y => negb (mem y A)) L) =
  (length (filter (fun y => negb (mem y (x :: A))) L) + (if mem x L then 1 else 0))%nat.
Proof.
  intros HL HA. induction HL as [|y L Hy HL IH]; [reflexivity|].
  cbn [filter].
  change (mem y (x :: A)) with (Nat.eqb y x || mem y A).
  change (mem x (y :: L)) with (Nat.eqb x y || mem x L).
  destruct (Nat.eqb_spec y x) as [->|Hne].
  - rewrite Nat.eqb_refl.
    assert (Hm : mem x A = false) by (apply mem_false; exact HA).
    assert (HmL : mem x L = false) by (apply mem_false; exact Hy).
    rewrite Hm. rewrite HmL in IH. cbn [orb negb length]. lia.
  - rewrite (proj2 (Nat.eqb_neq x y)) by congruence. cbn [orb].
    destruct (mem y A); cbn [negb length]; rewrite IH; reflexivity.
Qed.

Lemma tdist_cons A x v : NoDup (leaves v) -> ~ In x A ->
  tdist (x :: A) v = tdist A v + (if mem x (leaves v) then -1 else 1).
Proof.
  intros HL HA. unfold tdist.
  rewrite (count_filter (leaves v) A x HL HA).
  cbn [filter]. destruct (mem x (leaves v)); simpl; lia.
Qed.

Lemma tdist_in A x v : NoDup (leaves v) -> ~ In x A -> In x (leaves v) ->
  tdist (x :: A) v = tdist A v - 1.
Proof.
  intros HL HA Hx. rewrite tdist_cons by assumption.
  rewrite (proj2 (mem_In x (leaves v)) Hx). lia.
Qed.

Lemma tdist_out A x v : NoDup (leaves v) -> ~ In x A -> ~ In x (leaves v) ->
  tdist (x :: A) v = tdist A v + 1.
Proof.
  intros HL HA Hx. rewrite tdist_cons by assumption.
  rewrite (proj2 (mem_false x (leaves v)) Hx). reflexivity.
Qed.

(** ** Extremes over a list of nodes *)

Lemma is_min_app A a b S1 S2 :
  is_min A a S1 -> is_min A b S2 -> is_min A (Z.min a b) (S1 ++ S2).
Proof.
  intros [H1 (v1 & Hv1 & E1)] [H2 (v2 & Hv2 & E2)]. split.
  - intros v Hv. apply in_app_or in Hv as [Hv|Hv];
      [specialize (H1 v Hv) | specialize (H2 v Hv)]; lia.
  - destruct (Z.le_ge_cases a b).
    + exists v1. split; [apply in_or_app; auto | lia].
    + exists v2. split; [apply in_or_app; auto | lia].
Qed.

Lemma is_max_app A a b S1 S2 :
  is_max A a S1 -> is_max A b S2 -> is_max A (Z.max a b) (S1 ++ S2).
Proof.
  intros [H1 (v1 & Hv1 & E1)] [H2 (v2 & Hv2 & E2)]. split.
  - intros v Hv. apply in_app_or in Hv as [Hv|Hv];
      [specialize (H1 v Hv) | specialize (H2 v Hv)]; lia.
  - destruct (Z.le_ge_cases a b).
    + exists v2. split; [apply in_or_app; auto | lia].
    + exists v1. split; [apply in_or_app; auto | lia].
Qed.

Lemma is_min_shift A B a d S :
  is_min A a S -> (forall v, In v S -> tdist B v = tdist A v + d) -> is_min B (a + d) S.
Proof.
  intros [H1 (v & Hv & E)] Hd. split.
  - intros w Hw. rewrite Hd by exact Hw. specialize (H1 w Hw). lia.
  - exists v. split; [exact Hv|]. rewrite Hd by exact Hv. lia.
Qed.

Lemma is_max_shift A B a d S :
  is_max A a S -> (forall v, In v S -> tdist B v = tdist A v + d) -> is_max B (a + d) S.
Proof.
  intros [H1 (v & Hv & E)] Hd. split.
  - intros w Hw. rewrite Hd by exact Hw. specialize (H1 w Hw). lia.
  - exists v. split; [exact Hv|]. rewrite Hd by exact Hv. lia.
Qed.

Lemma is_min_ext A a S S' :
  (forall v, In v S <-> In v S') -> is_min A a S -> is_min A a S'.
Proof.
  intros HS [H1 (v & Hv & E)]. split.
  - intros w Hw. apply H1, HS, Hw.
  - exists v. split; [apply HS, Hv | exact E].
Qed.

Lemma is_max_ext A a S S' :
  (forall v, In v S <-> In v S') -> is_max A a S -> is_max A a S'.
Proof.
  intros HS [H1 (v & Hv & E)]. split.
  - intros w Hw. apply H1, HS, Hw.
  - exists v. split; [apply HS, Hv | exact E].
Qed.

Lemma is_min_unique A a b S : is_min A a S -> is_min A b S -> a = b.
Proof.
  intros [Ha (va & Hva & Ea)] [Hb (vb & Hvb & Eb)].
  specialize (Ha vb Hvb). specialize (Hb va Hva). lia.
Qed.

Lemma is_max_unique A a b S : is_max A a S -> is_max A b S -> a = b.
Proof.
  intros [Ha (va & Hva & Ea)] [Hb (vb & Hvb & Eb)].
  specialize (Ha vb Hvb). specialize (Hb va Hva). lia.
Qed.

Lemma is_min_single A v : is_min A (tdist A v) [v].
Proof.
  split; [intros w [<-|[]]; lia | exists v; split; [left|]; reflexivity].
Qed.

Lemma is_max_single A v : is_max A (tdist A v) [v].
Proof.
  split; [intros w [<-|[]]; lia | exists v; split; [left|]; reflexivity].
Qed.

Lemma is_min_eq A a b S : a = b -> is_min A a S -> is_min A b S.
Proof. intros ->; exact (fun H => H). Qed.

Lemma is_max_eq A a b S : a = b -> is_max A a S -> is_max A b S.
Proof. intros ->; exact (fun H => H). Qed.

(** ** The value invariant *)

Lemma INV_with_fields A p m g ap as_ :
  d_min_path g = d_min_path (fields p) -> d_max_path g = d_max_path (fields p) ->
  d_min_subtree g = d_min_subtree (fields p) -> d_max_subtree g = d_max_subtree (fields p) ->
  (INV A (with_fields p g) m ap as_ <->
   INV A p m (ap + (diff_path g - diff_path (fields p)))
             (as_ + (diff_subtree g - diff_subtree (fields p)))).
Proof.
  destruct p as [f l r|f v c|f v c1 c2|f v]; cbn [with_fields fields INV rng pnd shape];
    intros E1 E2 E3 E4; rewrite ?E1, ?E2, ?E3, ?E4;
    set (ep := diff_path g - diff_path f); set (es := diff_subtree g - diff_subtree f);
    assert (Ep : diff_path g = diff_path f + ep) by (unfold ep; lia);
    assert (Es : diff_subtree g = diff_subtree f + es) by (unfold es; lia);
    rewrite ?Ep, ?Es; clearbody ep es;
    assert (Q1 : forall z, z + (diff_path f + ep) + ap = z + diff_path f + (ap + ep)) by (intros; lia);
    assert (Q2 : forall z, z + (diff_subtree f + es) + as_ = z + diff_subtree f + (as_ + es))
      by (intros; lia);
    rewrite ?Q1, ?Q2.
  - replace (ap + (diff_path f + ep)) with (ap + ep + diff_path f) by lia.
    replace (as_ + (diff_subtree f + es)) with (as_ + es + diff_subtree f) by lia.
    reflexivity.
  - replace (as_ + (diff_subtree f + es)) with (as_ + es + diff_subtree f) by lia.
    reflexivity.
  - replace (as_ + (diff_subtree f + es)) with (as_ + es + diff_subtree f) by lia.
    reflexivity.
  - reflexivity.
Qed.

Lemma INV_change_A A B p : forall m ap as_ a b,
  INV A p m ap as_ ->
  (forall v, In v (rng p) -> tdist B v = tdist A v + a) ->
  (forall v, In v (pnd p) -> tdist B v = tdist A v + b) ->
  INV B p m (ap + a) (as_ + b).
Proof.
  unfold rng, pnd.
  induction p as [f l IHl r IHr|f v c IHc|f v c1 IH1 c2 IH2|f v];
    intros m ap as_ a b H Ha Hb; cbn [INV shape rng_s pnd_s] in *.
  - destruct H as (H1 & H2 & H3 & H4 & H5 & H6).
    replace (d_min_path f + diff_path f + (ap + a)) with (d_min_path f + diff_path f + ap + a) by lia.
    replace (d_max_path f + diff_path f + (ap + a)) with (d_max_path f + diff_path f + ap + a) by lia.
    replace (d_min_subtree f + diff_subtree f + (as_ + b))
      with (d_min_subtree f + diff_subtree f + as_ + b) by lia.
    replace (d_max_subtree f + diff_subtree f + (as_ + b))
      with (d_max_subtree f + diff_subtree f + as_ + b) by lia.
    replace (ap + a + diff_path f) with (ap + diff_path f + a) by lia.
    replace (as_ + b + diff_subtree f) with (as_ + diff_subtree f + b) by lia.
    split; [eapply is_min_shift; eauto|].
    split; [eapply is_max_shift; eauto|].
    split; [eapply is_min_shift; eauto|].
    split; [eapply is_max_shift; [eauto|]; intros w Hw; apply Hb; exact (pndM_incl _ _ _ Hw)|].
    split; [apply IHl | apply IHr]; auto; intros w Hw; first [apply Ha | apply Hb];
      apply in_or_app; auto.
  - destruct H as (H1 & H2 & H3 & H4 & H5 & H6 & H7).
    split; [rewrite Ha by (left; reflexivity); lia|].
    split; [rewrite Ha by (left; reflexivity); lia|].
    replace (d_min_subtree f + diff_subtree f + (as_ + b))
      with (d_min_subtree f + diff_subtree f + as_ + b) by lia.
    replace (d_max_subtree f + diff_subtree f + (as_ + b))
      with (d_max_subtree f + diff_subtree f + as_ + b) by lia.
    split; [eapply is_min_shift; eauto|].
    split; [eapply is_max_shift; [eauto|]; intros w Hw; apply Hb;
            exact (pndM_incl (SL v (shape c)) _ _ Hw)|].
    split; [exact H5|]. split; [exact H6|].
    replace (as_ + b + diff_subtree f) with (as_ + diff_subtree f + b) by lia.
    apply IHc; auto; intros w Hw; apply Hb, in_or_app; auto.
  - destruct H as (H1 & H2 & H3 & H4 & H5 & H6 & H7 & H8).
    split; [rewrite Ha by (left; reflexivity); lia|].
    split; [rewrite Ha by (left; reflexivity); lia|].
    replace (d_min_subtree f + diff_subtree f + (as_ + b))
      with (d_min_subtree f + diff_subtree f + as_ + b) by lia.
    replace (d_max_subtree f + diff_subtree f + (as_ + b))
      with (d_max_subtree f + diff_subtree f + as_ + b) by lia.
    split; [eapply is_min_shift; eauto|].
    split; [eapply is_max_shift; [eauto|]; intros w Hw; apply Hb;
            exact (pndM_incl (SL2 v (shape c1) (shape c2)) _ _ Hw)|].
    split; [exact H5|]. split; [exact H6|].
    replace (as_ + b + diff_subtree f) with (as_ + diff_subtree f + b) by lia.
    split; [apply IH1 | apply IH2]; auto; intros w Hw; apply Hb; rewrite !in_app_iff;
      rewrite ?in_app_iff in Hw; tauto.
  - destruct H as (H1 & H2).
    split; rewrite Ha by (left; reflexivity); lia.
Qed.

Lemma INV_path A p m ap as_ : INV A p m ap as_ ->
  is_min A (d_min_path (fields p) + diff_path (fields p) + ap) (rng p) /\
  is_max A (d_max_path (fields p) + diff_path (fields p) + ap) (rng p).
Proof.
  destruct p as [f l r|f v c|f v c1 c2|f v]; cbn [INV fields rng shape rng_s].
  - tauto.
  - intros (H1 & H2 & _). rewrite H1, H2. split; [apply is_min_single | apply is_max_single].
  - intros (H1 & H2 & _). rewrite H1, H2. split; [apply is_min_single | apply is_max_single].
  - intros (H1 & H2). rewrite H1, H2. split; [apply is_min_single | apply is_max_single].
Qed.

Lemma INV_subtree A p m ap as_ : INV A p m ap as_ -> is_HPT_leaf p = false ->
  is_min A (d_min_subtree (fields p) + diff_subtree (fields p) + as_) (pnd p) /\
  is_max A (d_max_subtree (fields p) + diff_subtree (fields p) + as_) (pndM m (shape p)).
Proof.
  destruct p as [f l r|f v c|f v c1 c2|f v]; cbn [INV fields is_HPT_leaf];
    [tauto | tauto | tauto | discriminate].
Qed.

Lemma pnd_HPT_leaf p : is_HPT_leaf p = true -> pnd p = [].
Proof. unfold pnd; destruct p; cbn; intros H; [discriminate | discriminate | discriminate | reflexivity]. Qed.

Lemma pndM_HPT_leaf p m : is_HPT_leaf p = true -> pndM m (shape p) = [].
Proof. destruct p; cbn; intros H; [discriminate | discriminate | discriminate | reflexivity]. Qed.

(** The largest value a Path gives, over its range and the masked
    subtree range. *)
Lemma INV_max_top A p m ap as_ : INV A p m ap as_ ->
  (is_HPT_leaf p = true ->
   d_max_subtree (fields p) + diff_subtree (fields p) + as_ <=
   d_max_path (fields p) + diff_path (fields p) + ap) ->
  is_max A (Z.max (d_max_path (fields p) + diff_path (fields p) + ap)
                  (d_max_subtree (fields p) + diff_subtree (fields p) + as_))
         (rng p ++ pndM m (shape p)).
Proof.
  intros HI Hh. destruct (INV_path _ _ _ _ _ HI) as [_ X].
  destruct (is_HPT_leaf p) eqn:E.
  - rewrite (pndM_HPT_leaf p m E), app_nil_r, Z.max_l by (apply Hh; reflexivity). exact X.
  - apply is_max_app; [exact X | exact (proj2 (INV_subtree _ _ _ _ _ HI E))].
Qed.

Lemma INV_min_top A p m ap as_ : INV A p m ap as_ -> is_HPT_leaf p = false ->
  is_min A (Z.min (d_min_path (fields p) + diff_path (fields p) + ap)
                  (d_min_subtree (fields p) + diff_subtree (fields p) + as_))
         (rng p ++ pnd p).
Proof.
  intros HI E. destruct (INV_path _ _ _ _ _ HI) as [M _].
  apply is_min_app; [exact M | exact (proj1 (INV_subtree _ _ _ _ _ HI E))].
Qed.

Lemma up_PT_node_inv A f l r m ap as_ :
  diff_path f = 0 -> diff_subtree f = 0 -> is_HPT_leaf l = false ->
  INV A l (mL m) ap as_ -> INV A r (mR m) ap as_ -> INV A (up_PT_node f l r) m ap as_.
Proof.
  intros Hp Hs Hl HIl HIr.
  destruct (INV_path _ _ _ _ _ HIl) as [Ml Xl]. destruct (INV_path _ _ _ _ _ HIr) as [Mr Xr].
  destruct (INV_subtree _ _ _ _ _ HIl Hl) as [SMl SXl].
  unfold up_PT_node. rewrite Hl.
  destruct (is_HPT_leaf r) eqn:Hr.
  - cbn [INV fields set_dsubtree set_dpath d_min_path d_max_path d_min_subtree d_max_subtree
         diff_path diff_subtree].
    change (rng (PT_node _ l r)) with (rng l ++ rng r).
    change (pnd (PT_node _ l r)) with (pnd l ++ pnd r).
    cbn [shape pndM].
    rewrite (pnd_HPT_leaf r Hr), (pndM_HPT_leaf r _ Hr), !app_nil_r, Hp, Hs, !Z.add_0_r,
      !CInt.min_spec, !CInt.max_spec.
    split; [|split; [|split; [|split; [|split]]]]; auto.
    + replace (Z.min (d_min_path (fields l) + diff_path (fields l))
                     (d_min_path (fields r) + diff_path (fields r)) + ap)
        with (Z.min (d_min_path (fields l) + diff_path (fields l) + ap)
                    (d_min_path (fields r) + diff_path (fields r) + ap)) by lia.
      apply is_min_app; auto.
    + replace (Z.max (d_max_path (fields l) + diff_path (fields l))
                     (d_max_path (fields r) + diff_path (fields r)) + ap)
        with (Z.max (d_max_path (fields l) + diff_path (fields l) + ap)
                    (d_max_path (fields r) + diff_path (fields r) + ap)) by lia.
      apply is_max_app; auto.
  - destruct (INV_subtree _ _ _ _ _ HIr Hr) as [SMr SXr].
    cbn [INV fields set_dsubtree set_dpath d_min_path d_max_path d_min_subtree d_max_subtree
         diff_path diff_subtree].
    change (rng (PT_node _ l r)) with (rng l ++ rng r).
    change (pnd (PT_node _ l r)) with (pnd l ++ pnd r).
    cbn [shape pndM].
    rewrite Hp, Hs, !Z.add_0_r, !CInt.min_spec, !CInt.max_spec.
    split; [|split; [|split; [|split; [|split]]]]; auto.
    + replace (Z.min (d_min_path (fields l) + diff_path (fields l))
                     (d_min_path (fields r) + diff_path (fields r)) + ap)
        with (Z.min (d_min_path (fields l) + diff_path (fields l) + ap)
                    (d_min_path (fields r) + diff_path (fields r) + ap)) by lia.
      apply is_min_app; auto.
    + replace (Z.max (d_max_path (fields l) + diff_path (fields l))
                     (d_max_path (fields r) + diff_path (fields r)) + ap)
        with (Z.max (d_max_path (fields l) + diff_path (fields l) + ap)
                    (d_max_path (fields r) + diff_path (fields r) + ap)) by lia.
      apply is_max_app; auto.
    + replace (Z.min (d_min_subtree (fields l) + diff_subtree (fields l))
                     (d_min_subtree (fields r) + diff_subtree (fields r)) + as_)
        with (Z.min (d_min_subtree (fields l) + diff_subtree (fields l) + as_)
                    (d_min_subtree (fields r) + diff_subtree (fields r) + as_)) by lia.
      apply is_min_app; auto.
    + replace (Z.max (d_max_subtree (fields l) + diff_subtree (fields l))
                     (d_max_subtree (fields r) + diff_subtree (fields r)) + as_)
        with (Z.max (d_max_subtree (fields l) + diff_subtree (fields l) + as_)
                    (d_max_subtree (fields r) + diff_subtree (fields r) + as_)) by lia.
      apply is_max_app; auto.
Qed.

(** One round of the loop over the child heavy paths. *)
Lemma up_child_spec A c mc mn mx as_ S1 S2 :
  INV A c mc as_ as_ -> diff_path (fields c) = diff_subtree (fields c) ->
  is_min A (mn + as_) S1 -> is_max A (mx + as_) S2 ->
  is_min A (fst (up_child (mn, mx) c) + as_) (S1 ++ rng c ++ pnd c) /\
  is_max A (snd (up_child (mn, mx) c) + as_) (S2 ++ rng c ++ pndM mc (shape c)).
Proof.
  intros HI Hd M1 X1.
  destruct (INV_path _ _ _ _ _ HI) as [Mc Xc].
  unfold up_child. destruct (is_HPT_leaf c) eqn:Hc.
  - cbn [fst snd]. rewrite (pnd_HPT_leaf c Hc), (pndM_HPT_leaf c _ Hc), !app_nil_r,
      CInt.min_spec, CInt.max_spec.
    split.
    + replace (Z.min mn (d_min_path (fields c) + diff_path (fields c)) + as_)
        with (Z.min (mn + as_) (d_min_path (fields c) + diff_path (fields c) + as_)) by lia.
      apply is_min_app; assumption.
    + replace (Z.max mx (d_max_path (fields c) + diff_path (fields c)) + as_)
        with (Z.max (mx + as_) (d_max_path (fields c) + diff_path (fields c) + as_)) by lia.
      apply is_max_app; assumption.
  - destruct (INV_subtree _ _ _ _ _ HI Hc) as [Sc Tc].
    rewrite <- Hd in Sc, Tc. cbn [fst snd]. unfold CInt.min3, CInt.max3.
    rewrite !CInt.min_spec, !CInt.max_spec. split.
    + replace (Z.min (Z.min mn (d_min_path (fields c) + diff_path (fields c)))
                     (d_min_subtree (fields c) + diff_path (fields c)) + as_)
        with (Z.min (mn + as_) (Z.min (d_min_path (fields c) + diff_path (fields c) + as_)
                     (d_min_subtree (fields c) + diff_path (fields c) + as_))) by lia.
      apply is_min_app; [exact M1 | apply is_min_app; assumption].
    + replace (Z.max (Z.max mx (d_max_path (fields c) + diff_path (fields c)))
                     (d_max_subtree (fields c) + diff_path (fields c)) + as_)
        with (Z.max (mx + as_) (Z.max (d_max_path (fields c) + diff_path (fields c) + as_)
                     (d_max_subtree (fields c) + diff_path (fields c) + as_))) by lia.
      apply is_max_app; [exact X1 | apply is_max_app; assumption].
Qed.

Lemma up_PT_leaf_inv A f v c m ap as_ :
  diff_path f = 0 -> diff_subtree f = 0 ->
  d_min_path f + ap = tdist A v -> d_max_path f + ap = tdist A v ->
  diff_path (fields c) = 0 -> diff_subtree (fields c) = 0 ->
  INV A c m as_ as_ -> INV A (up_PT_leaf f v c) (MC true true m MF) ap as_.
Proof.
  intros Hp Hs Hm HM Hcp Hcs HI.
  destruct (INV_path _ _ _ _ _ HI) as [Mc Xc].
  rewrite Hcp, Z.add_0_r in Mc, Xc.
  unfold up_PT_leaf. destruct (is_HPT_leaf c) eqn:Hc.
  - cbn [INV fields set_dsubtree d_min_path d_max_path d_min_subtree d_max_subtree
         diff_path diff_subtree mL].
    change (pnd (PT_leaf _ v c)) with (rng c ++ pnd c). cbn [shape pndM mL].
    rewrite (pnd_HPT_leaf c Hc), (pndM_HPT_leaf c _ Hc), !app_nil_r, Hp, Hs, Hcp, Hcs,
      !Z.add_0_r, CInt.min_spec, CInt.max_spec, !Z.min_id, !Z.max_id.
    split; [|split; [|split; [|split; [|split; [|split]]]]]; auto.
  - destruct (INV_subtree _ _ _ _ _ HI Hc) as [SMc SXc].
    rewrite Hcs, Z.add_0_r in SMc, SXc.
    cbn [INV fields set_dsubtree d_min_path d_max_path d_min_subtree d_max_subtree
         diff_path diff_subtree mL].
    change (pnd (PT_leaf _ v c)) with (rng c ++ pnd c). cbn [shape pndM mL].
    unfold CInt.min3, CInt.max3.
    rewrite Hp, Hs, Hcp, Hcs, !Z.add_0_r, !CInt.min_spec, !CInt.max_spec, !Z.min_id, !Z.max_id.
    split; [|split; [|split; [|split; [|split; [|split]]]]]; auto.
    + replace (Z.min (d_min_path (fields c)) (d_min_subtree (fields c)) + as_)
        with (Z.min (d_min_path (fields c) + as_) (d_min_subtree (fields c) + as_)) by lia.
      apply is_min_app; auto.
    + replace (Z.max (d_max_path (fields c)) (d_max_subtree (fields c)) + as_)
        with (Z.max (d_max_path (fields c) + as_) (d_max_subtree (fields c) + as_)) by lia.
      apply is_max_app; auto.
Qed.

Lemma up_PT_leaf2_inv A f v c1 c2 m1 m2 ap as_ :
  diff_path f = 0 -> diff_subtree f = 0 ->
  d_min_path f + ap = tdist A v -> d_max_path f + ap = tdist A v ->
  diff_path (fields c1) = diff_subtree (fields c1) ->
  diff_path (fields c2) = diff_subtree (fields c2) ->
  INV A c1 m1 as_ as_ -> INV A c2 m2 as_ as_ ->
  INV A (up_PT_leaf2 f v c1 c2) (MC true true m1 m2) ap as_.
Proof.
  intros Hp Hs Hm HM Hd1 Hd2 HI1 HI2.
  destruct (INV_path _ _ _ _ _ HI1) as [M1 X1].
  destruct (up_child_spec A c1 m1 _ _ as_ _ _ HI1 Hd1 M1 X1) as [N1 Y1].
  destruct (up_child_spec A c2 m2 _ _ as_ _ _ HI2 Hd2 N1 Y1) as [N2 Y2].
  unfold up_PT_leaf2.
  cbn [INV fields set_dsubtree d_min_path d_max_path d_min_subtree d_max_subtree
       diff_path diff_subtree mL mR].
  change (pnd (PT_leaf2 _ v c1 c2)) with ((rng c1 ++ pnd c1) ++ (rng c2 ++ pnd c2)).
  cbn [shape pndM mL mR mb1 mb2].
  rewrite Hp, Hs, !Z.add_0_r.
  split; [exact Hm|]. split; [exact HM|].
  split; [|split; [|split; [exact Hd1|split; [exact Hd2|split; [exact HI1|exact HI2]]]]].
  - revert N2. apply is_min_ext. intros w. rewrite !in_app_iff. tauto.
  - revert Y2. apply is_max_ext. intros w. rewrite !in_app_iff. tauto.
Qed.

Lemma INV_offsets A p m ap1 as1 ap2 as2 :
  ap1 = ap2 -> as1 = as2 -> INV A p m ap1 as1 -> INV A p m ap2 as2.
Proof. intros -> ->; exact (fun H => H). Qed.

Lemma has_leaf_In x p : has_leaf x p = true <-> In x (hpt_leaves p).
Proof. exact (mem_In x (hpt_leaves p)). Qed.

(** No alternative leaf repeats below a node the Path ranges over. *)
Definition ND (p : path) : Prop := forall v, In v (rng p ++ pnd p) -> NoDup (leaves v).

(** [add_leaf_HPT] of a leaf [x] not yet added turns the values for the
    added set [A] into those for [x :: A]. *)
Lemma add_inv A x p : forall m pp ps ap as_,
  WF (shape p) -> ND p -> In x (hpt_leaves p) -> ~ In x A ->
  INV A p m (ap + pp) (as_ + ps) -> INV (x :: A) (add_leaf_rec x pp ps p) (madd x p m) ap as_.
Proof.
  unfold ND, rng, pnd.
  induction p as [f l IHl r IHr|f v c IHc|f v c1 IH1 c2 IH2|f v];
    intros m pp ps ap as_ HW HN Hx HA HI.
  - cbn [shape WF rng_s pnd_s] in HW, HN. cbn [hpt_leaves] in Hx.
    destruct HW as (Wl & Wr & Sl & W1 & W2 & W3).
    assert (Sl' : is_HPT_leaf l = false) by (rewrite is_HPT_leaf_shape; exact Sl).
    destruct HI as (_ & _ & _ & _ & HIl & HIr).
    rewrite !hpt_leaves_shape in Hx.
    cbn [add_leaf_rec madd]. destruct (has_leaf x r) eqn:Hr.
    + apply has_leaf_In in Hr. rewrite hpt_leaves_shape in Hr.
      apply up_PT_node_inv; [reflexivity | reflexivity | | |]; cbn [mL mR].
      * rewrite is_HPT_leaf_shape, shape_with_fields, <- is_HPT_leaf_shape. exact Sl'.
      * apply INV_with_fields; try reflexivity. cbn [set_sets set_diffs diff_path diff_subtree].
        eapply INV_offsets; [| |apply (INV_change_A A (x :: A) l _ _ _ (-1) 1 HIl)]; [lia|lia| |].
        -- intros w Hw. apply tdist_in;
             [apply HN; rewrite !in_app_iff; tauto | exact HA | apply (W1 x Hr w Hw)].
        -- intros w Hw. apply tdist_out;
             [apply HN; rewrite !in_app_iff; tauto | exact HA | apply (W2 x Hr w Hw)].
      * apply IHr; auto.
        -- intros w Hw. apply HN. repeat rewrite in_app_iff in Hw; repeat rewrite in_app_iff; tauto.
        -- rewrite hpt_leaves_shape. exact Hr.
        -- eapply INV_offsets; [| |exact HIr]; cbn [set_diffs diff_path diff_subtree]; lia.
    + assert (Hxl : In x (hl_s (shape l))).
      { apply in_app_or in Hx as [Hx|Hx]; [exact Hx|].
        rewrite <- hpt_leaves_shape in Hx. apply has_leaf_In in Hx. congruence. }
      apply up_PT_node_inv; [reflexivity | reflexivity | | |]; cbn [mL mR].
      * rewrite is_HPT_leaf_shape, shape_add, <- is_HPT_leaf_shape. exact Sl'.
      * apply IHl; auto.
        -- intros w Hw. apply HN. repeat rewrite in_app_iff in Hw; repeat rewrite in_app_iff; tauto.
        -- rewrite hpt_leaves_shape. exact Hxl.
        -- eapply INV_offsets; [| |exact HIl]; cbn [set_diffs diff_path diff_subtree]; lia.
      * apply INV_with_fields; try reflexivity. cbn [set_sets set_diffs diff_path diff_subtree].
        eapply INV_offsets; [| |apply (INV_change_A A (x :: A) r _ _ _ 1 1 HIr)]; [lia|lia| |].
        -- intros w Hw. apply tdist_out;
             [apply HN; rewrite !in_app_iff; tauto | exact HA
             | apply (W3 x Hxl w); apply in_or_app; left; exact Hw].
        -- intros w Hw. apply tdist_out;
             [apply HN; rewrite !in_app_iff; tauto | exact HA
             | apply (W3 x Hxl w); apply in_or_app; right; exact Hw].
  - cbn [shape WF rng_s pnd_s] in HW, HN. cbn [hpt_leaves] in Hx.
    destruct HW as (Wc & Wv).
    destruct HI as (Hm & HM & _ & _ & Hcp & Hcs & HIc).
    assert (Hxv : In x (leaves v)) by (apply Wv; rewrite <- hpt_leaves_shape; exact Hx).
    assert (Hnv : NoDup (leaves v)) by (apply HN; left; reflexivity).
    cbn [add_leaf_rec madd].
    destruct (add_bookkeeping x (diff_subtree f + ps) (diff_subtree f + ps) c) as (Bp & Bs & _).
    apply up_PT_leaf_inv; cbn [set_diffs set_dpath set_sets d_min_path d_max_path
                               diff_path diff_subtree]; auto.
    + rewrite tdist_in by assumption. lia.
    + rewrite tdist_in by assumption. lia.
    + apply IHc; auto.
      * intros w Hw. apply HN. right. exact Hw.
      * eapply INV_offsets; [| |exact HIc]; lia.
  - cbn [shape WF rng_s pnd_s] in HW, HN. cbn [hpt_leaves] in Hx.
    destruct HW as (W1 & W2 & _ & Wv & D12 & D21).
    destruct HI as (Hm & HM & _ & _ & Hd1 & Hd2 & HI1 & HI2).
    assert (Hxv : In x (leaves v)) by (apply Wv; rewrite <- !hpt_leaves_shape; exact Hx).
    assert (Hnv : NoDup (leaves v)) by (apply HN; left; reflexivity).
    assert (HN1 : forall w, In w (rng_s (shape c1) ++ pnd_s (shape c1)) -> NoDup (leaves w)).
    { intros w Hw. apply HN. apply in_cons. rewrite !in_app_iff in Hw. rewrite !in_app_iff. tauto. }
    assert (HN2 : forall w, In w (rng_s (shape c2) ++ pnd_s (shape c2)) -> NoDup (leaves w)).
    { intros w Hw. apply HN. apply in_cons. rewrite !in_app_iff in Hw. rewrite !in_app_iff. tauto. }
    cbn [add_leaf_rec madd]. destruct (has_leaf x c1) eqn:H1.
    + apply has_leaf_In in H1.
      destruct (add_bookkeeping x (diff_subtree f + ps) (diff_subtree f + ps) c1) as (Bp & Bs & _).
      apply up_PT_leaf2_inv; cbn [set_diffs set_dpath set_sets d_min_path d_max_path
                                  diff_path diff_subtree fields]; auto.
      * rewrite tdist_in by assumption. lia.
      * rewrite tdist_in by assumption. lia.
      * congruence.
      * rewrite fields_with_fields. cbn [set_sets set_diffs diff_path diff_subtree]. lia.
      * apply IH1; auto. eapply INV_offsets; [| |exact HI1]; lia.
      * apply INV_with_fields; rewrite ?fields_with_fields; try reflexivity.
        cbn [set_sets set_diffs diff_path diff_subtree].
        eapply INV_offsets; [| |apply (INV_change_A A (x :: A) c2 _ _ _ 1 1 HI2)]; [lia|lia| |].
        -- intros w Hw. apply tdist_out;
             [apply HN2; apply in_or_app; left; exact Hw | exact HA
             | apply (D12 x ltac:(rewrite <- hpt_leaves_shape; exact H1) w); apply in_or_app;
               left; exact Hw].
        -- intros w Hw. apply tdist_out;
             [apply HN2; apply in_or_app; right; exact Hw | exact HA
             | apply (D12 x ltac:(rewrite <- hpt_leaves_shape; exact H1) w); apply in_or_app;
               right; exact Hw].
    + assert (H2 : In x (hpt_leaves c2)).
      { apply in_app_or in Hx as [Hx|Hx]; [|exact Hx].
        apply has_leaf_In in Hx. congruence. }
      destruct (add_bookkeeping x (diff_subtree f + ps) (diff_subtree f + ps) c2) as (Bp & Bs & _).
      apply up_PT_leaf2_inv; cbn [set_diffs set_dpath set_sets d_min_path d_max_path
                                  diff_path diff_subtree fields]; auto.
      * rewrite tdist_in by assumption. lia.
      * rewrite tdist_in by assumption. lia.
      * rewrite fields_with_fields. cbn [set_sets set_diffs diff_path diff_subtree]. lia.
      * congruence.
      * apply INV_with_fields; rewrite ?fields_with_fields; try reflexivity.
        cbn [set_sets set_diffs diff_path diff_subtree].
        eapply INV_offsets; [| |apply (INV_change_A A (x :: A) c1 _ _ _ 1 1 HI1)]; [lia|lia| |].
        -- intros w Hw. apply tdist_out;
             [apply HN1; apply in_or_app; left; exact Hw | exact HA
             | apply (D21 x ltac:(rewrite <- hpt_leaves_shape; exact H2) w); apply in_or_app;
               left; exact Hw].
        -- intros w Hw. apply tdist_out;
             [apply HN1; apply in_or_app; right; exact Hw | exact HA
             | apply (D21 x ltac:(rewrite <- hpt_leaves_shape; exact H2) w); apply in_or_app;
               right; exact Hw].
      * apply IH2; auto. eapply INV_offsets; [| |exact HI2]; lia.
  - cbn [shape WF] in HW. destruct HW as [y ->].
    cbn [hpt_leaves leaves] in Hx. destruct Hx as [Hy|[]]. subst y.
    assert (Hnv : NoDup (leaves (Leaf x))) by (apply HN; left; reflexivity).
    destruct HI as (Hm & HM).
    cbn [add_leaf_rec INV set_diffs set_dpath set_sets d_min_path d_max_path diff_path].
    rewrite tdist_in by (auto; left; reflexivity). lia.
Qed.

(** ** [reset_leaf_HPT] after [add_leaf_HPT]

    [P0] is the HPT as [heavy_decomposition] builds it.  A Path none of
    whose HPT leaves is among the leaves [R] added and not yet reset holds
    the values it holds in [P0], except [d_max_subtree], which
    [reset_leaf_HPT] recomputes from the children as they are: at a PT leaf
    with two child heavy paths from one of them only. *)

Definition clean (R : list nat) (p : path) : Prop :=
  forall y, In y (hpt_leaves p) -> ~ In y R.

Definition vals (f g : pvars) : Prop :=
  d_min_path f = d_min_path g /\ d_max_path f = d_max_path g /\
  d_min_subtree f = d_min_subtree g /\ exclude f = exclude g.

Definition bk (f g : pvars) : Prop :=
  diff_path f = diff_path g /\ diff_subtree f = diff_subtree g /\
  include_path f = include_path g /\ include_subtree f = include_subtree g /\
  exclude_path f = exclude_path g.

(** The [d_max_subtree] a PT leaf with two child heavy paths holds. *)
Definition mrec2 (f g1 g2 : pvars) : Prop :=
  d_max_subtree f = CInt.max (CInt.max (d_max_path g1) (d_max_subtree g1))
                             (CInt.max (d_max_path g2) (d_max_subtree g2)) \/
  d_max_subtree f = CInt.max (d_max_path g1) (d_max_subtree g1) \/
  d_max_subtree f = CInt.max (d_max_path g2) (d_max_subtree g2).

(** The lists a child heavy path of such a PT leaf holds: leaves added
    below the other child. *)
Definition pend (R : list nat) (c c' : path) : Prop :=
  (forall y, In y (include_path (fields c)) \/ In y (include_subtree (fields c)) ->
             In y R /\ In y (hpt_leaves c')) /\
  (diff_path (fields c) = 0 \/ exists y, In y R /\ In y (hpt_leaves c')).

Fixpoint good (R : list nat) (p p0 : path) : Prop :=
  match p, p0 with
  | PT_node f l r, PT_node f0 l0 r0 =>
      (clean R p -> vals f f0 /\
                    d_max_subtree f = CInt.max (d_max_subtree (fields l)) (d_max_subtree (fields r)) /\
                    bk (fields l) (fields l0) /\ bk (fields r) (fields r0)) /\
      good R l l0 /\ good R r r0
  | PT_leaf f v c, PT_leaf f0 v0 c0 =>
      v = v0 /\
      (clean R p -> vals f f0 /\
                    d_max_subtree f = CInt.max (d_max_path (fields c)) (d_max_subtree (fields c))) /\
      diff_path (fields c) = 0 /\ diff_subtree (fields c) = 0 /\
      include_path (fields c) = include_path (fields c0) /\
      include_subtree (fields c) = include_subtree (fields c0) /\
      exclude_path (fields c) = exclude_path (fields c0) /\
      good R c c0
  | PT_leaf2 f v c1 c2, PT_leaf2 f0 v0 c10 c20 =>
      v = v0 /\
      (clean R p -> vals f f0 /\ mrec2 f (fields c1) (fields c2) /\
                    bk (fields c1) (fields c10) /\ bk (fields c2) (fields c20)) /\
      diff_path (fields c1) = diff_subtree (fields c1) /\
      diff_path (fields c2) = diff_subtree (fields c2) /\
      exclude_path (fields c1) = exclude_path (fields c10) /\
      exclude_path (fields c2) = exclude_path (fields c20) /\
      pend R c1 c2 /\ pend R c2 c1 /\
      good R c1 c10 /\ good R c2 c20
  | HPT_leaf f v, HPT_leaf f0 v0 =>
      v = v0 /\ d_min_subtree f = d_min_subtree f0 /\ d_max_subtree f = d_max_subtree f0 /\
      (clean R p -> vals f f0)
  | _, _ => False
  end.

(** The fields [heavy_decomposition] gives: no diffs, empty lists, and the
    values computed from the children. *)
Fixpoint init (p : path) : Prop :=
  diff_path (fields p) = 0 /\ diff_subtree (fields p) = 0 /\
  include_path (fields p) = [] /\ include_subtree (fields p) = [] /\
  exclude (fields p) = [] /\ exclude_path (fields p) = [] /\
  match p with
  | PT_node f l r =>
      d_min_path f = CInt.min (d_min_path (fields l)) (d_min_path (fields r)) /\
      d_max_path f = CInt.max (d_max_path (fields l)) (d_max_path (fields r)) /\
      d_min_subtree f = 1 /\
      d_max_subtree f = CInt.max (d_max_subtree (fields l)) (d_max_subtree (fields r)) /\
      init l /\ init r
  | PT_leaf f v c =>
      d_min_path f = subtreesize v /\ d_max_path f = subtreesize v /\
      d_min_subtree f = CInt.min (d_min_path (fields c)) (d_min_subtree (fields c)) /\
      d_max_subtree f = CInt.max (d_max_path (fields c)) (d_max_subtree (fields c)) /\
      init c
  | PT_leaf2 f v c1 c2 =>
      d_min_path f = subtreesize v /\ d_max_path f = subtreesize v /\
      d_min_subtree f = 1 /\
      d_max_subtree f = CInt.max (CInt.max (d_max_path (fields c1)) (d_max_subtree (fields c1)))
                                 (CInt.max (d_max_path (fields c2)) (d_max_subtree (fields c2))) /\
      init c1 /\ init c2
  | HPT_leaf f v =>
      d_min_path f = subtreesize v /\ d_max_path f = subtreesize v /\
      d_min_subtree f = 1 /\ d_max_subtree f = 1
  end.

Lemma vals_trans f g h : vals f g -> vals g h -> vals f h.
Proof. unfold vals. intuition congruence. Qed.

Lemma clean_app_l R p q : (forall y, In y (hpt_leaves q) -> In y (hpt_leaves p)) ->
  clean R p -> clean R q.
Proof. unfold clean. auto. Qed.

Lemma init_head p : init p ->
  diff_path (fields p) = 0 /\ diff_subtree (fields p) = 0 /\
  include_path (fields p) = [] /\ include_subtree (fields p) = [] /\
  exclude (fields p) = [] /\ exclude_path (fields p) = [].
Proof. destruct p; cbn [init]; tauto. Qed.

Lemma subtreesize_pos t : 1 <= subtreesize t.
Proof. induction t; cbn; lia. Qed.

Lemma init_dmp_pos p : init p -> 1 <= d_min_path (fields p).
Proof.
  induction p as [f l IHl r IHr|f v c IHc|f v c1 IH1 c2 IH2|f v]; cbn [init fields]; intros H.
  - destruct H as (_ & _ & _ & _ & _ & _ & E & _ & _ & _ & Il & Ir).
    rewrite E, CInt.min_spec. specialize (IHl Il). specialize (IHr Ir). lia.
  - destruct H as (_ & _ & _ & _ & _ & _ & E & _). rewrite E. apply subtreesize_pos.
  - destruct H as (_ & _ & _ & _ & _ & _ & E & _). rewrite E. apply subtreesize_pos.
  - destruct H as (_ & _ & _ & _ & _ & _ & E & _). rewrite E. apply subtreesize_pos.
Qed.

(** With nothing added, the smaller of a Path's two minima is [1]. *)
Lemma init_min1 p : init p -> CInt.min (d_min_path (fields p)) (d_min_subtree (fields p)) = 1.
Proof.
  induction p as [f l IHl r IHr|f v c IHc|f v c1 IH1 c2 IH2|f v]; intros H;
    pose proof (init_dmp_pos _ H) as Hp; rewrite CInt.min_spec; cbn [init fields] in H, Hp |- *.
  - destruct H as (_ & _ & _ & _ & _ & _ & _ & _ & E & _). rewrite E. apply Z.min_r. exact Hp.
  - destruct H as (_ & _ & _ & _ & _ & _ & _ & _ & E & _ & Ic). rewrite E.
    pose proof (IHc Ic) as Ec. rewrite CInt.min_spec in Ec |- *. rewrite Ec. apply Z.min_r.
    pose proof (init_dmp_pos c Ic). lia.
  - destruct H as (_ & _ & _ & _ & _ & _ & _ & _ & E & _). rewrite E. apply Z.min_r. exact Hp.
  - destruct H as (_ & _ & _ & _ & _ & _ & _ & _ & E & _). rewrite E. apply Z.min_r. exact Hp.
Qed.

Lemma pend_nil R c c' : init c -> pend R c c'.
Proof.
  intros HI. destruct (init_head c HI) as (Hp & _ & Hi & Hs & _).
  split; [rewrite Hi, Hs; intros y [[]|[]] | left; exact Hp].
Qed.

Lemma good_refl R p : init p -> good R p p.
Proof.
  induction p as [f l IHl r IHr|f v c IHc|f v c1 IH1 c2 IH2|f v]; intros HI.
  - cbn [init fields] in HI. cbn [good]. unfold vals, bk. intuition.
  - cbn [init fields] in HI. destruct HI as (_ & _ & _ & _ & _ & _ & _ & _ & _ & Ms & Ic).
    destruct (init_head c Ic) as (Hp & Hs & _).
    cbn [good]. unfold vals. intuition.
  - cbn [init fields] in HI. destruct HI as (_ & _ & _ & _ & _ & _ & _ & _ & _ & Ms & I1 & I2).
    destruct (init_head c1 I1) as (Hp1 & Hs1 & _). destruct (init_head c2 I2) as (Hp2 & Hs2 & _).
    cbn [good]. split; [reflexivity|]. split.
    + intros _. unfold vals, bk, mrec2. intuition.
    + split; [congruence|]. split; [congruence|]. split; [reflexivity|]. split; [reflexivity|].
      split; [exact (pend_nil _ _ _ I1)|]. split; [exact (pend_nil _ _ _ I2)|].
      exact (conj (IH1 I1) (IH2 I2)).
  - cbn [good]. unfold vals. intuition.
Qed.

Lemma pend_R_ext R R' c c' : (forall y, In y (hpt_leaves c') -> (In y R <-> In y R')) ->
  pend R c c' -> pend R' c c'.
Proof.
  intros H [P1 P2]. split.
  - intros y Hy. destruct (P1 y Hy) as [Ha Hb]. split; [apply H; auto | exact Hb].
  - destruct P2 as [P2|(y & Ha & Hb)]; [left; exact P2|right; exists y; split; [apply H; auto|exact Hb]].
Qed.

Lemma good_R_ext R R' p : forall p0,
  (forall y, In y (hpt_leaves p) -> (In y R <-> In y R')) ->
  good R p p0 -> good R' p p0.
Proof.
  assert (Hc : forall q, (forall y, In y (hpt_leaves q) -> (In y R <-> In y R')) ->
                 clean R' q -> clean R q).
  { unfold clean. intros q Hq Hcl y Hy HR. apply (Hcl y Hy). apply Hq; auto. }
  induction p as [f l IHl r IHr|f v c IHc|f v c1 IH1 c2 IH2|f v];
    intros [f0 l0 r0|f0 v0 c0|f0 v0 c10 c20|f0 v0] HR HG;
    cbn [good] in HG |- *; try contradiction.
  - destruct HG as (H1 & H2 & H3). split; [|split].
    + intros Hcl. apply H1. apply Hc; auto.
    + apply IHl; auto. intros y Hy. apply HR. simpl. apply in_or_app. auto.
    + apply IHr; auto. intros y Hy. apply HR. simpl. apply in_or_app. auto.
  - destruct HG as (H0 & H1 & H2 & H3 & H4 & H5 & H6 & H7).
    refine (conj H0 (conj _ (conj H2 (conj H3 (conj H4 (conj H5 (conj H6 _))))))).
    + intros Hcl. apply H1. apply Hc; auto.
    + apply IHc; auto.
  - destruct HG as (H0 & H1 & H2 & H3 & H4 & H5 & P1 & P2 & G1 & G2).
    assert (HR1 : forall y, In y (hpt_leaves c1) -> (In y R <-> In y R'))
      by (intros y Hy; apply HR; simpl; apply in_or_app; auto).
    assert (HR2 : forall y, In y (hpt_leaves c2) -> (In y R <-> In y R'))
      by (intros y Hy; apply HR; simpl; apply in_or_app; auto).
    refine (conj H0 (conj _ (conj H2 (conj H3 (conj H4 (conj H5 (conj _ (conj _ (conj _ _))))))))).
    + intros Hcl. apply H1. apply Hc; auto.
    + exact (pend_R_ext R R' c1 c2 HR2 P1).
    + exact (pend_R_ext R R' c2 c1 HR1 P2).
    + apply IH1; auto.
    + apply IH2; auto.
  - destruct HG as (H0 & H1 & H2 & H3).
    refine (conj H0 (conj H1 (conj H2 _))).
    intros Hcl. apply H3. apply Hc; auto.
Qed.

Lemma good_clean_vals R p p0 : good R p p0 -> clean R p -> vals (fields p) (fields p0).
Proof.
  destruct p as [f l r|f v c|f v c1 c2|f v]; destruct p0 as [f0 l0 r0|f0 v0 c0|f0 v0 c10 c20|f0 v0];
    cbn [good fields]; try contradiction; intuition.
Qed.

Lemma good_with_fields R p p0 g :
  vals g (fields p) -> d_max_subtree g = d_max_subtree (fields p) ->
  good R p p0 -> good R (with_fields p g) p0.
Proof.
  intros Hg HM. destruct p as [f l r|f v c|f v c1 c2|f v];
    destruct p0 as [f0 l0 r0|f0 v0 c0|f0 v0 c10 c20|f0 v0];
    cbn [good with_fields fields] in *; try contradiction.
  - intros (H1 & H2 & H3). split; [|split; assumption].
    intros Hcl. destruct (H1 Hcl) as (V & M & B). rewrite HM.
    split; [eapply vals_trans; eauto | exact (conj M B)].
  - intros (H0 & H1 & H2). split; [exact H0|]. split; [|exact H2].
    intros Hcl. destruct (H1 Hcl) as (V & M). rewrite HM. split; [eapply vals_trans; eauto | exact M].
  - intros (H0 & H1 & H2). split; [exact H0|]. split; [|exact H2].
    intros Hcl. destruct (H1 Hcl) as (V & M & B). unfold mrec2 in *. rewrite HM.
    split; [eapply vals_trans; eauto | exact (conj M B)].
  - intros (H0 & H1 & H2 & H3). unfold vals in Hg.
    split; [exact H0|]. split; [intuition congruence|]. split; [intuition congruence|].
    intros Hcl. eapply vals_trans; eauto.
Qed.

Lemma good_shape R p : forall p0, good R p p0 -> shape p = shape p0.
Proof.
  induction p as [f l IHl r IHr|f v c IHc|f v c1 IH1 c2 IH2|f v];
    intros [f0 l0 r0|f0 v0 c0|f0 v0 c10 c20|f0 v0] HG; cbn [good] in HG; try contradiction;
    cbn [shape].
  - destruct HG as (_ & Gl & Gr). rewrite (IHl _ Gl), (IHr _ Gr). reflexivity.
  - destruct HG as (-> & _ & _ & _ & _ & _ & _ & Gc). rewrite (IHc _ Gc). reflexivity.
  - destruct HG as (-> & _ & _ & _ & _ & _ & _ & _ & G1 & G2).
    rewrite (IH1 _ G1), (IH2 _ G2). reflexivity.
  - destruct HG as (-> & _). reflexivity.
Qed.

Lemma NoDup_app_disj (l1 l2 : list nat) x : NoDup (l1 ++ l2) -> In x l1 -> In x l2 -> False.
Proof.
  induction l1 as [|a l1 IH]; simpl; intros ND H1 H2; [exact H1|].
  inversion ND as [|? ? Ha ND']; subst. destruct H1 as [<-|H1].
  - apply Ha. apply in_or_app. right. exact H2.
  - exact (IH ND' H1 H2).
Qed.

Lemma hpt_leaves_add x pp ps p : hpt_leaves (add_leaf_rec x pp ps p) = hpt_leaves p.
Proof. rewrite !hpt_leaves_shape, shape_add. reflexivity. Qed.

Lemma hpt_leaves_reset x p : hpt_leaves (reset_leaf_rec x p) = hpt_leaves p.
Proof. rewrite !hpt_leaves_shape, shape_reset. reflexivity. Qed.

Lemma hpt_leaves_with_fields p g : hpt_leaves (with_fields p g) = hpt_leaves p.
Proof. destruct p; reflexivity. Qed.

Lemma not_clean x R p : In x (hpt_leaves p) -> clean (x :: R) p -> False.
Proof. intros Hx Hc. apply (Hc x Hx). left. reflexivity. Qed.

Lemma vals_sets f ip is_ ep a b : vals (set_sets (set_diffs f a b) ip is_ (exclude f) ep) f.
Proof. unfold vals. cbn. auto. Qed.

(** [add_leaf_HPT] keeps the invariant, with [x] among the added leaves. *)
Lemma good_add R x p : forall pp ps p0,
  NoDup (hpt_leaves p) -> In x (hpt_leaves p) ->
  good R p p0 -> good (x :: R) (add_leaf_rec x pp ps p) p0.
Proof.
  induction p as [f l IHl r IHr|f v c IHc|f v c1 IH1 c2 IH2|f v];
    intros pp ps p0 ND Hx HG;
    destruct p0 as [f0 l0 r0|f0 v0 c0|f0 v0 c10 c20|f0 v0]; cbn [good] in HG; try contradiction.
  - destruct HG as (_ & Gl & Gr). cbn [hpt_leaves] in ND, Hx.
    apply NoDup_app_remove_l in ND as NDr. apply NoDup_app_remove_r in ND as NDl.
    cbn [add_leaf_rec]. destruct (has_leaf x r) eqn:Hr.
    + apply has_leaf_In in Hr. up_eq.
      cbn [good]. split; [|split].
      * intros Hcl. exfalso. apply (not_clean x R (PT_node f l r) Hx).
        intros y Hy. apply Hcl. cbn [hpt_leaves].
        rewrite hpt_leaves_with_fields, hpt_leaves_add. exact Hy.
      * apply good_with_fields; [apply vals_sets | reflexivity |].
        apply (good_R_ext R); [|exact Gl]. intros y Hy. split; [intros H; right; exact H|].
        intros [<-|H]; [|exact H]. exfalso. exact (NoDup_app_disj _ _ _ ND Hy Hr).
      * apply IHr; auto.
    + assert (Hxl : In x (hpt_leaves l)).
      { apply in_app_or in Hx as [Hx|Hx]; [exact Hx|]. apply has_leaf_In in Hx. congruence. }
      up_eq.
      cbn [good]. split; [|split].
      * intros Hcl. exfalso. apply (not_clean x R (PT_node f l r) Hx).
        intros y Hy. apply Hcl. cbn [hpt_leaves].
        rewrite hpt_leaves_with_fields, hpt_leaves_add. exact Hy.
      * apply IHl; auto.
      * apply good_with_fields; [apply vals_sets | reflexivity |].
        apply (good_R_ext R); [|exact Gr]. intros y Hy. split; [intros H; right; exact H|].
        intros [<-|H]; [|exact H]. exfalso. apply has_leaf_In in Hy. congruence.
  - destruct HG as (Hv & _ & _ & _ & Lp & Ls & Le & Gc). cbn [hpt_leaves] in ND, Hx.
    cbn [add_leaf_rec]. up_eq.
    match goal with |- context [add_leaf_rec x ?a ?b c] =>
      destruct (add_bookkeeping x a b c) as (Bp & Bs & Bip & Bis & Bep) end.
    cbn [good]. split; [exact Hv|]. split.
    + intros Hcl. exfalso. apply (not_clean x R (PT_leaf f v c) Hx).
      intros y Hy. apply Hcl. cbn [hpt_leaves]. rewrite hpt_leaves_add. exact Hy.
    + split; [exact Bp|]. split; [exact Bs|]. split; [congruence|]. split; [congruence|].
      split; [congruence|]. apply IHc; auto.
  - destruct HG as (Hv & _ & D1 & D2 & E1 & E2 & P1 & P2 & G1 & G2). cbn [hpt_leaves] in ND, Hx.
    apply NoDup_app_remove_l in ND as ND2. apply NoDup_app_remove_r in ND as ND1.
    assert (Sub : forall c c' c'', hpt_leaves c'' = hpt_leaves c ->
              (forall y, In y (hpt_leaves c') -> ~ In y (hpt_leaves c)) ->
              In x (hpt_leaves c) -> pend R c' c ->
              pend (x :: R) (with_fields c' (set_sets (set_diffs (fields c')
                   (diff_path (fields c') + (diff_subtree f + ps + 1))
                   (diff_subtree (fields c') + (diff_subtree f + ps + 1)))
                   (include_path (fields c') ++ [x]) (include_subtree (fields c') ++ [x])
                   (exclude (fields c')) (exclude_path (fields c')))) c'').
    { intros c c' c'' Hl _ Hxc [Q1 Q2]. unfold pend. rewrite Hl, fields_with_fields. cbn [set_sets set_diffs
        include_path include_subtree diff_path]. split.
      - intros y Hy. rewrite !in_app_iff in Hy. cbn [In] in Hy.
        destruct Hy as [[Hy|[<-|[]]]|[Hy|[<-|[]]]].
        + destruct (Q1 y (or_introl Hy)) as [Ha Hb]. split; [right; exact Ha | exact Hb].
        + split; [left; reflexivity | exact Hxc].
        + destruct (Q1 y (or_intror Hy)) as [Ha Hb]. split; [right; exact Ha | exact Hb].
        + split; [left; reflexivity | exact Hxc].
      - right. exists x. split; [left; reflexivity | exact Hxc]. }
    assert (Own : forall c c' c'' pp', hpt_leaves c'' = hpt_leaves c' ->
              pend R c c' -> pend (x :: R) (add_leaf_rec x pp' pp' c) c'').
    { intros c c' c'' pp' Hl [Q1 Q2]. unfold pend. rewrite Hl. destruct (add_bookkeeping x pp' pp' c) as (Bp & _ & Bip & Bis & _).
      split; [|left; exact Bp]. rewrite Bip, Bis. intros y Hy.
      destruct (Q1 y Hy) as [Ha Hb]. split; [right; exact Ha | exact Hb]. }
    cbn [add_leaf_rec]. destruct (has_leaf x c1) eqn:H1.
    + apply has_leaf_In in H1. up_eq.
      destruct (add_bookkeeping x (diff_subtree f + ps) (diff_subtree f + ps) c1) as (Bp & Bs & _ & _ & Bep).
      cbn [good]. rewrite !fields_with_fields. cbn [set_sets set_diffs set_dpath diff_path
        diff_subtree exclude_path]. rewrite ?hpt_leaves_with_fields, ?hpt_leaves_add.
      split; [exact Hv|]. split.
      * intros Hcl. exfalso. apply (not_clean x R (PT_leaf2 f v c1 c2) Hx).
        intros y Hy. apply Hcl. cbn [hpt_leaves].
        rewrite hpt_leaves_with_fields, hpt_leaves_add. exact Hy.
      * split; [congruence|]. split; [lia|]. split; [congruence|]. split; [exact E2|].
        split; [|split; [|split]].
        -- apply (Own c1 c2). { apply hpt_leaves_with_fields. } exact P1.
        -- apply (Sub c1 c2); auto. { apply hpt_leaves_add. } intros y Hy Hy'. exact (NoDup_app_disj _ _ _ ND Hy' Hy).
        -- apply IH1; auto.
        -- apply good_with_fields; [apply vals_sets | reflexivity |].
           apply (good_R_ext R); [|exact G2]. intros y Hy. split; [intros H; right; exact H|].
           intros [<-|H]; [|exact H]. exfalso. exact (NoDup_app_disj _ _ _ ND H1 Hy).
    + assert (H2 : In x (hpt_leaves c2)).
      { apply in_app_or in Hx as [Hx|Hx]; [|exact Hx]. apply has_leaf_In in Hx. congruence. }
      up_eq.
      destruct (add_bookkeeping x (diff_subtree f + ps) (diff_subtree f + ps) c2) as (Bp & Bs & _ & _ & Bep).
      cbn [good]. rewrite !fields_with_fields. cbn [set_sets set_diffs set_dpath diff_path
        diff_subtree exclude_path]. rewrite ?hpt_leaves_with_fields, ?hpt_leaves_add.
      split; [exact Hv|]. split.
      * intros Hcl. exfalso. apply (not_clean x R (PT_leaf2 f v c1 c2) Hx).
        intros y Hy. apply Hcl. cbn [hpt_leaves].
        rewrite hpt_leaves_with_fields, hpt_leaves_add. exact Hy.
      * split; [lia|]. split; [congruence|]. split; [exact E1|]. split; [congruence|].
        split; [|split; [|split]].
        -- apply (Sub c2 c1); auto. { apply hpt_leaves_add. } intros y Hy Hy'. exact (NoDup_app_disj _ _ _ ND Hy Hy').
        -- apply (Own c2 c1). { apply hpt_leaves_with_fields. } exact P2.
        -- apply good_with_fields; [apply vals_sets | reflexivity |].
           apply (good_R_ext R); [|exact G1]. intros y Hy. split; [intros H; right; exact H|].
           intros [<-|H]; [|exact H]. exfalso. exact (NoDup_app_disj _ _ _ ND Hy H2).
        -- apply IH2; auto.
  - destruct HG as (Hv & Hs & HS & _). cbn [add_leaf_rec good].
    cbn [set_diffs set_dpath set_sets d_min_subtree d_max_subtree].
    split; [exact Hv|]. split; [exact Hs|]. split; [exact HS|].
    intros Hcl. exfalso. exact (not_clean x R (HPT_leaf f v) Hx Hcl).
Qed.

Lemma reset_bookkeeping x p :
  diff_path (fields (reset_leaf_rec x p)) = 0 /\
  diff_subtree (fields (reset_leaf_rec x p)) = 0 /\
  include_path (fields (reset_leaf_rec x p)) = include_path (fields p) /\
  include_subtree (fields (reset_leaf_rec x p)) = include_subtree (fields p) /\
  exclude_path (fields (reset_leaf_rec x p)) = exclude_path (fields p).
Proof.
  destruct p as [f l r|f v c|f v c1 c2|f v]; cbn [reset_leaf_rec];
    [destruct (has_leaf x r); unfold reset_PT_node| |destruct (has_leaf x c1)|]; cbn; auto.
Qed.

Lemma clean_nil p : clean [] p.
Proof. intros y _ []. Qed.

Lemma pvars_eq f g : vals f g -> d_max_subtree f = d_max_subtree g -> bk f g -> f = g.
Proof.
  destruct f, g; unfold vals, bk; cbn. intros (? & ? & ? & ?) ? (? & ? & ? & ? & ?).
  subst. reflexivity.
Qed.

Lemma remove_iff x R y : In y (remove Nat.eq_dec x R) <-> In y R /\ y <> x.
Proof.
  split.
  - intros H. split; [eapply in_remove; eauto|]. intros ->. eapply remove_In; eauto.
  - intros [H1 H2]. apply in_in_remove; auto.
Qed.

(** [reset_leaf_HPT] keeps the invariant, with [x] no longer added. *)
Lemma good_reset R x p : forall p0,
  init p0 -> NoDup (hpt_leaves p) -> In x (hpt_leaves p) ->
  good R p p0 -> good (remove Nat.eq_dec x R) (reset_leaf_rec x p) p0.
Proof.
  set (R' := remove Nat.eq_dec x R).
  assert (Ext : forall q q0, ~ In x (hpt_leaves q) -> good R q q0 -> good R' q q0).
  { intros q q0 Hq G. apply (good_R_ext R); [|exact G]. intros y Hy. unfold R'.
    rewrite remove_iff. split; [|tauto]. intros H. split; [exact H|]. intros ->. auto. }
  induction p as [f l IHl r IHr|f v c IHc|f v c1 IH1 c2 IH2|f v]; intros p0 HI ND Hx HG;
    destruct p0 as [f0 l0 r0|f0 v0 c0|f0 v0 c10 c20|f0 v0]; cbn [good] in HG; try contradiction.
  - destruct HG as (_ & Gl & Gr). cbn [hpt_leaves] in ND, Hx.
    cbn [init fields] in HI.
    destruct HI as (Ip & Is & Iip & Iis & Iex & Iep & Imp & IMp & Ims & IMs & Il & Ir).
    destruct (init_head l0 Il) as (Lp & Ls & Lip & Lis & Lex & Lep).
    destruct (init_head r0 Ir) as (Rp & Rs & Rip & Ris & Rex & Rep).
    cbn [reset_leaf_rec]. destruct (has_leaf x r) eqn:Hr.
    + apply has_leaf_In in Hr.
      assert (Gl' : good R' l l0).
      { apply Ext; [|exact Gl]. intros Hl. exact (NoDup_app_disj _ _ _ ND Hl Hr). }
      assert (Gr' : good R' (reset_leaf_rec x r) r0).
      { apply IHr; auto. eapply NoDup_app_remove_l; eauto. }
      unfold reset_PT_node. cbn [good fields with_fields].
      split; [|split].
      * intros Hcl.
        assert (Cl : clean R' l).
        { intros y Hy. apply Hcl. cbn [hpt_leaves]. rewrite hpt_leaves_with_fields.
          apply in_or_app. auto. }
        assert (Cr : clean R' (reset_leaf_rec x r)).
        { intros y Hy. apply Hcl. cbn [hpt_leaves]. rewrite !hpt_leaves_with_fields.
          apply in_or_app. auto. }
        destruct (good_clean_vals _ _ _ Gl' Cl) as (Vl1 & Vl2 & Vl3 & Vl4).
        destruct (good_clean_vals _ _ _ Gr' Cr) as (Vr1 & Vr2 & Vr3 & Vr4).
        unfold vals, bk; rewrite !fields_with_fields; cbn.
        rewrite Vl1, Vl2, Vr1, Vr2. intuition congruence.
      * apply good_with_fields; [unfold vals; cbn; intuition | reflexivity | exact Gl'].
      * apply good_with_fields; [unfold vals; cbn; intuition | reflexivity | exact Gr'].
    + assert (Hxl : In x (hpt_leaves l)).
      { apply in_app_or in Hx as [Hx|Hx]; [exact Hx|]. apply has_leaf_In in Hx. congruence. }
      assert (Gr' : good R' r r0).
      { apply Ext; [|exact Gr]. intros Hx'. apply has_leaf_In in Hx'. congruence. }
      assert (Gl' : good R' (reset_leaf_rec x l) l0).
      { apply IHl; auto. eapply NoDup_app_remove_r; eauto. }
      unfold reset_PT_node. cbn [good fields with_fields].
      split; [|split].
      * intros Hcl.
        assert (Cl : clean R' (reset_leaf_rec x l)).
        { intros y Hy. apply Hcl. cbn [hpt_leaves]. rewrite hpt_leaves_with_fields.
          apply in_or_app. auto. }
        assert (Cr : clean R' r).
        { intros y Hy. apply Hcl. cbn [hpt_leaves]. rewrite !hpt_leaves_with_fields.
          apply in_or_app. auto. }
        destruct (good_clean_vals _ _ _ Gl' Cl) as (Vl1 & Vl2 & Vl3 & Vl4).
        destruct (good_clean_vals _ _ _ Gr' Cr) as (Vr1 & Vr2 & Vr3 & Vr4).
        unfold vals, bk; rewrite !fields_with_fields; cbn.
        rewrite Vl1, Vl2, Vr1, Vr2. intuition congruence.
      * apply good_with_fields; [unfold vals; cbn; intuition | reflexivity | exact Gl'].
      * apply good_with_fields; [unfold vals; cbn; intuition | reflexivity | exact Gr'].
  - destruct HG as (Hv & _ & Hcp & Hcs & Lip & Lis & Lep & Gc). subst v0.
    cbn [hpt_leaves] in ND, Hx. cbn [init fields] in HI.
    destruct HI as (Ip & Is & Iip & Iis & Iex & Iep & Imp & IMp & Ims & IMs & Ic).
    assert (Gc' : good R' (reset_leaf_rec x c) c0) by (apply IHc; auto).
    destruct (reset_bookkeeping x c) as (Bp & Bs & Bip & Bis & Bep).
    cbn [reset_leaf_rec good].
    split; [reflexivity|]. split.
    + intros Hcl.
      assert (Cc : clean R' (reset_leaf_rec x c)) by exact Hcl.
      destruct (good_clean_vals _ _ _ Gc' Cc) as (V1 & V2 & V3 & V4).
      unfold vals; cbn. rewrite V1, V3. intuition congruence.
    + split; [exact Bp|]. split; [exact Bs|]. split; [congruence|]. split; [congruence|].
      split; [congruence|]. exact Gc'.
  - destruct HG as (Hv & _ & D1 & D2 & E1 & E2 & P1 & P2 & G1 & G2). subst v0.
    cbn [hpt_leaves] in ND, Hx. cbn [init fields] in HI.
    destruct HI as (Ip & Is & Iip & Iis & Iex & Iep & Imp & IMp & Ims & IMs & I1 & I2).
    destruct (init_head c10 I1) as (C1p & C1s & C1ip & C1is & C1ex & C1ep).
    destruct (init_head c20 I2) as (C2p & C2s & C2ip & C2is & C2ex & C2ep).
    (* the child holding [x] is reset, the other one cleared *)
    assert (Step : forall a b a0 b0, init a0 -> init b0 -> NoDup (hpt_leaves a ++ hpt_leaves b) ->
      In x (hpt_leaves a) -> exclude_path (fields a) = exclude_path (fields a0) ->
      exclude_path (fields b) = exclude_path (fields b0) ->
      pend R a b -> good R' (reset_leaf_rec x a) a0 -> good R b b0 ->
      let a' := reset_leaf_rec x a in
      let b' := with_fields b (set_sets (set_diffs (fields b) 0 0) [] [] (exclude (fields b))
                                        (exclude_path (fields b))) in
      (clean R' a' -> clean R' b' ->
         d_min_path (fields a') = d_min_path (fields a0) /\
         d_min_subtree (fields a') = d_min_subtree (fields a0) /\
         bk (fields a') (fields a0) /\ bk (fields b') (fields b0)) /\
      diff_path (fields a') = diff_subtree (fields a') /\
      diff_path (fields b') = diff_subtree (fields b') /\
      exclude_path (fields a') = exclude_path (fields a0) /\
      exclude_path (fields b') = exclude_path (fields b0) /\
      pend R' a' b' /\ pend R' b' a' /\ good R' a' a0 /\ good R' b' b0).
    { intros a b a0 b0 Ia Ib NDab Hxa Ea Eb [Q1 Q2] Ga Gb a' b'.
      destruct (init_head a0 Ia) as (Ap & As & Aip & Ais & Aex & Aep).
      destruct (init_head b0 Ib) as (Bp0 & Bs0 & Bip0 & Bis0 & Bex0 & Bep0).
      destruct (reset_bookkeeping x a) as (Bp & Bs & Bip & Bis & Bep).
      fold a' in Bp, Bs, Bip, Bis, Bep.
      assert (Hb : ~ In x (hpt_leaves b)) by (intros Hb; exact (NoDup_app_disj _ _ _ NDab Hxa Hb)).
      assert (QR : forall y, In y (include_path (fields a)) \/ In y (include_subtree (fields a)) ->
                   In y R' /\ In y (hpt_leaves b)).
      { intros y Hy. destruct (Q1 y Hy) as [HyR Hyb]. split; [|exact Hyb].
        unfold R'. apply remove_iff. split; [exact HyR|]. intros ->. exact (Hb Hyb). }
      unfold b'. rewrite !fields_with_fields. cbn [set_sets set_diffs diff_path diff_subtree
        include_path include_subtree exclude_path].
      split; [|split; [congruence|]; split; [reflexivity|]; split; [congruence|]; split; [exact Eb|]].
      - intros Ca Cb.
        assert (Va : vals (fields a') (fields a0)) by exact (good_clean_vals _ _ _ Ga Ca).
        assert (Na : forall y, ~ (In y (include_path (fields a)) \/ In y (include_subtree (fields a)))).
        { intros y Hy. destruct (QR y Hy) as [HyR Hyb]. apply (Cb y); [|exact HyR].
          unfold b'. rewrite hpt_leaves_with_fields. exact Hyb. }
        assert (Lp : include_path (fields a) = []).
        { destruct (include_path (fields a)) as [|y l]; [reflexivity|]. exfalso. apply (Na y). left. left. reflexivity. }
        assert (Ls : include_subtree (fields a) = []).
        { destruct (include_subtree (fields a)) as [|y l]; [reflexivity|]. exfalso. apply (Na y). right. left. reflexivity. }
        unfold vals in Va. unfold bk. cbn. intuition congruence.
      - split; [|split; [|split]].
        + split.
          * intros y Hy. rewrite Bip, Bis in Hy. destruct (QR y Hy) as [HyR Hyb].
            split; [exact HyR|]. unfold b'. rewrite hpt_leaves_with_fields. exact Hyb.
          * left. exact Bp.
        + unfold pend. rewrite fields_with_fields. cbn. split; [intros y [[]|[]]|left; reflexivity].
        + exact Ga.
        + apply good_with_fields; [unfold vals; cbn; intuition | reflexivity |].
          apply Ext; [exact Hb | exact Gb]. }
    cbn [reset_leaf_rec]. destruct (has_leaf x c1) eqn:Hc1.
    + apply has_leaf_In in Hc1.
      assert (G1' : good R' (reset_leaf_rec x c1) c10) by (apply IH1; auto; eapply NoDup_app_remove_r; eauto).
      destruct (Step c1 c2 c10 c20 I1 I2 ND Hc1 E1 E2 P1 G1' G2)
        as (S1 & S2 & S3 & S4 & S5 & S6 & S7 & S8 & S9).
      cbn [good]. split; [reflexivity|]. split; [|tauto].
      intros Hcl.
      assert (Ca : clean R' (reset_leaf_rec x c1)).
      { intros y Hy. apply Hcl. cbn [hpt_leaves]. apply in_or_app. auto. }
      assert (Cb : clean R' (with_fields c2 (set_sets (set_diffs (fields c2) 0 0) [] []
                   (exclude (fields c2)) (exclude_path (fields c2))))).
      { intros y Hy. apply Hcl. cbn [hpt_leaves]. apply in_or_app. auto. }
      destruct (S1 Ca Cb) as (M1 & M2 & B1 & B2).
      pose proof (init_min1 c10 I1) as Hm.
      split; [|split; [unfold mrec2; cbn; auto | split; assumption]].
      unfold vals. cbn. rewrite M1, M2. intuition congruence.
    + assert (Hc2 : In x (hpt_leaves c2)).
      { apply in_app_or in Hx as [Hx|Hx]; [|exact Hx]. apply has_leaf_In in Hx. congruence. }
      assert (G2' : good R' (reset_leaf_rec x c2) c20) by (apply IH2; auto; eapply NoDup_app_remove_l; eauto).
      assert (ND' : NoDup (hpt_leaves c2 ++ hpt_leaves c1)).
      { exact (Permutation_NoDup (Permutation_app_comm _ _) ND). }
      destruct (Step c2 c1 c20 c10 I2 I1 ND' Hc2 E2 E1 P2 G2' G1)
        as (S1 & S2 & S3 & S4 & S5 & S6 & S7 & S8 & S9).
      cbn [good]. split; [reflexivity|]. split; [|tauto].
      intros Hcl.
      assert (Ca : clean R' (reset_leaf_rec x c2)).
      { intros y Hy. apply Hcl. cbn [hpt_leaves]. apply in_or_app. auto. }
      assert (Cb : clean R' (with_fields c1 (set_sets (set_diffs (fields c1) 0 0) [] []
                   (exclude (fields c1)) (exclude_path (fields c1))))).
      { intros y Hy. apply Hcl. cbn [hpt_leaves]. apply in_or_app. auto. }
      destruct (S1 Ca Cb) as (M1 & M2 & B1 & B2).
      pose proof (init_min1 c20 I2) as Hm.
      split; [|split; [unfold mrec2; cbn; auto | split; assumption]].
      unfold vals. cbn. rewrite M1, M2. intuition congruence.
  - destruct HG as (Hv & Hs & HS & _). subst v0. cbn [init fields] in HI.
    destruct HI as (Ip & Is & Iip & Iis & Iex & Iep & Imp & IMp & Ims & IMs).
    cbn [reset_leaf_rec good]. cbn.
    split; [reflexivity|]. split; [exact Hs|]. split; [exact HS|].
    intros _. unfold vals; cbn. intuition congruence.
Qed.

Lemma leaves_nonempty v : leaves v <> [].
Proof.
  induction v as [y|l IHl r IHr|a IHa b IHb c IHc]; cbn; [discriminate| |];
    destruct (leaves l) || destruct (leaves a); cbn; congruence.
Qed.

Lemma tdist_nil_pos v : 1 <= tdist [] v.
Proof.
  unfold tdist. cbn [mem existsb]. cbn [negb].
  assert (F : forall l : list nat, filter (fun _ => true) l = l)
    by (induction l; cbn; congruence).
  rewrite F. cbn [filter length]. pose proof (leaves_nonempty v).
  destruct (leaves v); [congruence | cbn; lia].
Qed.

Lemma is_max_nil_pos a S : is_max [] a S -> 1 <= a.
Proof. intros [_ (w & _ & <-)]. apply tdist_nil_pos. Qed.

Lemma good_HPT R p p0 : good R p p0 -> init p0 -> clean R p -> is_HPT_leaf p = true ->
  d_max_subtree (fields p) = 1 /\ 1 <= d_max_path (fields p).
Proof.
  destruct p as [f l r|f v c|f v c1 c2|f v]; intros HG HI Hc E; try discriminate.
  destruct p0 as [f0 l0 r0|f0 v0 c0|f0 v0 c10 c20|f0 v0]; cbn [good] in HG; try contradiction.
  destruct HG as (-> & _ & HS & H3). destruct (H3 Hc) as (_ & V2 & _).
  cbn [init fields] in HI |- *. destruct HI as (_ & _ & _ & _ & _ & _ & _ & IMp & _ & IMs).
  split; [congruence|]. rewrite V2, IMp. apply subtreesize_pos.
Qed.

(** Whether a shape has no PT leaf with two child heavy paths. *)
Fixpoint nol2 (s : shp) : bool :=
  match s with
  | SN l r => nol2 l && nol2 r
  | SL _ c => nol2 c
  | SL2 _ _ _ => false
  | SH _ => true
  end.

(** With nothing added, the HPT satisfies the value invariant for a mask:
    its [d_max_subtree] values are the ones [reset_leaf_HPT] left; without
    PT leaves with two child heavy paths the mask selects everything. *)
Lemma good_INV p : forall p0,
  good [] p p0 -> init p0 -> WF (shape p0) -> INV [] p0 MF 0 0 ->
  bk (fields p) (fields p0) ->
  exists m, INV [] p m 0 0 /\ (nol2 (shape p) = true -> full m = true).
Proof.
  induction p as [f l IHl r IHr|f v c IHc|f v c1 IH1 c2 IH2|f v];
    intros [f0 l0 r0|f0 v0 c0|f0 v0 c10 c20|f0 v0] HG HI HW HV HB;
    cbn [good] in HG; try contradiction; cbn [init fields] in HI, HB.
  - destruct HG as (H1 & Gl & Gr). destruct (H1 (clean_nil _)) as (V & M & Bl & Br).
    destruct HI as (Ip & Is & _ & _ & _ & _ & _ & _ & _ & _ & Il & Ir).
    cbn [shape WF] in HW. destruct HW as (Wl & Wr & Sl & _).
    cbn [INV] in HV. destruct HV as (V1 & V2 & V3 & V4 & Vl & Vr).
    rewrite Ip, Is, Z.add_0_l in Vl, Vr.
    destruct (IHl l0 Gl Il Wl Vl Bl) as (ml & Ml & Fl). destruct (IHr r0 Gr Ir Wr Vr Br) as (mr & Mr & Fr).
    destruct V as (Vmp & VMp & Vms & _). destruct HB as (Bp & Bs & _).
    destruct (init_head l0 Il) as (L0p & L0s & _). destruct (init_head r0 Ir) as (R0p & R0s & _).
    destruct Bl as (Blp & Bls & _). destruct Br as (Brp & Brs & _).
    assert (El : shape l = shape l0) by exact (good_shape _ _ _ Gl).
    assert (Er : shape r = shape r0) by exact (good_shape _ _ _ Gr).
    assert (Hl : is_HPT_leaf l = false) by (rewrite is_HPT_leaf_shape, El; exact Sl).
    exists (MC true true ml mr). split.
    2: { cbn [shape nol2 full]. intros H. apply andb_true_iff in H as [Hn1 Hn2].
         rewrite (Fl Hn1), (Fr Hn2). reflexivity. }
    cbn [INV]. unfold rng, pnd in *. cbn [shape] in *.
    rewrite El, Er. rewrite Vmp, VMp, Vms, Bp, Bs, ?Ip, ?Is. rewrite Ip in V1, V2. rewrite Is in V3, V4.
    split; [exact V1|]. split; [exact V2|]. split; [exact V3|].
    split; [|rewrite Z.add_0_l; split; [exact Ml | exact Mr]].
    cbn [pndM mL mR]. rewrite <- El, <- Er. rewrite M, CInt.max_spec, !Z.add_0_r.
    pose proof (proj2 (INV_subtree _ _ _ _ _ Ml Hl)) as Xl.
    rewrite Bls, L0s, !Z.add_0_r in Xl.
    destruct (is_HPT_leaf r) eqn:Hr.
    + destruct (good_HPT _ _ _ Gr Ir (clean_nil _) Hr) as [Dr _].
      rewrite Dr, (pndM_HPT_leaf r mr Hr), app_nil_r.
      rewrite Z.max_l by exact (is_max_nil_pos _ _ Xl). exact Xl.
    + pose proof (proj2 (INV_subtree _ _ _ _ _ Mr Hr)) as Xr.
      rewrite Brs, R0s, !Z.add_0_r in Xr.
      apply is_max_app; assumption.
  - destruct HG as (-> & H1 & Hcp & Hcs & Lip & Lis & Lep & Gc).
    destruct (H1 (clean_nil _)) as (V & M).
    destruct HI as (Ip & Is & _ & _ & _ & _ & _ & _ & _ & _ & Ic).
    cbn [shape WF] in HW. destruct HW as (Wc & _).
    cbn [INV] in HV. destruct HV as (V1 & V2 & V3 & V4 & _ & _ & Vc).
    rewrite Is, Z.add_0_l in Vc.
    destruct (init_head c0 Ic) as (C0p & C0s & _).
    assert (Bc : bk (fields c) (fields c0)) by (unfold bk; intuition congruence).
    destruct (IHc c0 Gc Ic Wc Vc Bc) as (mc & Mc & Fc).
    destruct V as (Vmp & VMp & Vms & _). destruct HB as (Bp & Bs & _).
    assert (Ec : shape c = shape c0) by exact (good_shape _ _ _ Gc).
    exists (MC true true mc MF). split.
    2: { cbn [shape nol2 full]. intros H. rewrite (Fc H). reflexivity. }
    cbn [INV]. unfold pnd in *. cbn [shape] in *.
    rewrite Ec. rewrite Vmp, VMp, Vms, Bp, Bs, ?Ip, ?Is. rewrite Ip in V1, V2. rewrite Is in V3, V4.
    split; [exact V1|]. split; [exact V2|]. split; [exact V3|].
    split; [|split; [exact Hcp|]; split; [exact Hcs|]; rewrite Z.add_0_l; exact Mc].
    cbn [pndM mL]. rewrite <- Ec. rewrite !Z.add_0_r, M, CInt.max_spec.
    pose proof (INV_max_top _ _ _ _ _ Mc) as X. rewrite Hcp, Hcs, !Z.add_0_r in X.
    apply X. intros Hh. destruct (good_HPT _ _ _ Gc Ic (clean_nil _) Hh) as [D1 D2]. lia.
  - destruct HG as (Hv & H1 & D1 & D2 & E1 & E2 & P1 & P2 & G1 & G2). subst v0.
    destruct (H1 (clean_nil _)) as (V & M & B1 & B2).
    destruct HI as (Ip & Is & _ & _ & _ & _ & _ & _ & _ & _ & I1 & I2).
    cbn [shape WF] in HW. destruct HW as (W1 & W2 & _).
    cbn [INV] in HV. destruct HV as (V1 & V2 & V3 & V4 & _ & _ & Vc1 & Vc2).
    rewrite Is, Z.add_0_l in Vc1, Vc2.
    destruct (IH1 c10 G1 I1 W1 Vc1 B1) as (m1 & M1 & _). destruct (IH2 c20 G2 I2 W2 Vc2 B2) as (m2 & M2 & _).
    destruct (init_head c10 I1) as (C1p & C1s & _). destruct (init_head c20 I2) as (C2p & C2s & _).
    destruct B1 as (B1p & B1s & _). destruct B2 as (B2p & B2s & _).
    destruct V as (Vmp & VMp & Vms & _). destruct HB as (Bp & Bs & _).
    assert (E1' : shape c1 = shape c10) by exact (good_shape _ _ _ G1).
    assert (E2' : shape c2 = shape c20) by exact (good_shape _ _ _ G2).
    pose proof (INV_max_top _ _ _ _ _ M1) as X1. rewrite B1p, B1s, C1p, C1s, !Z.add_0_r in X1.
    pose proof (INV_max_top _ _ _ _ _ M2) as X2. rewrite B2p, B2s, C2p, C2s, !Z.add_0_r in X2.
    specialize (X1 ltac:(intros Hh; destruct (good_HPT _ _ _ G1 I1 (clean_nil _) Hh); lia)).
    specialize (X2 ltac:(intros Hh; destruct (good_HPT _ _ _ G2 I2 (clean_nil _) Hh); lia)).
    unfold rng in X1, X2.
    assert (Rest : forall b1 b2,
      is_max [] (d_max_subtree f) (pndM (MC b1 b2 m1 m2) (SL2 v (shape c1) (shape c2))) ->
      INV [] (PT_leaf2 f v c1 c2) (MC b1 b2 m1 m2) 0 0 /\
      (nol2 (shape (PT_leaf2 f v c1 c2)) = true -> full (MC b1 b2 m1 m2) = true)).
    { intros b1 b2 X. split; [|cbn [shape nol2]; discriminate]. cbn [INV]. unfold pnd in *. cbn [shape] in *.
      rewrite Vmp, VMp, Vms, Bp, Bs, ?Ip, ?Is, E1', E2'. rewrite Ip in V1, V2. rewrite Is in V3, V4.
      split; [exact V1|]. split; [exact V2|]. split; [exact V3|].
      split; [rewrite <- E1', <- E2', !Z.add_0_r; exact X|].
      split; [exact D1|]. split; [exact D2|]. rewrite Z.add_0_l. split; assumption. }
    unfold mrec2 in M. rewrite !CInt.max_spec in M.
    destruct M as [M|[M|M]].
    + exists (MC true true m1 m2). apply Rest. cbn [pndM mb1 mb2 mL mR].
      rewrite M. apply is_max_app; assumption.
    + exists (MC true false m1 m2). apply Rest. cbn [pndM mb1 mb2 mL mR].
      rewrite app_nil_r, M. exact X1.
    + exists (MC false true m1 m2). apply Rest. cbn [pndM mb1 mb2 mL mR app].
      rewrite M. exact X2.
  - destruct HG as (-> & _ & _ & H3). destruct (H3 (clean_nil _)) as (Vmp & VMp & _).
    destruct HI as (Ip & _). destruct HB as (Bp & _).
    cbn [INV] in HV |- *. exists MF. split; [|reflexivity]. rewrite Vmp, VMp, Bp, Ip. rewrite Ip in HV. exact HV.
Qed.

(** ** The Path built by [heavy_decomposition] *)

(** The next node of a heavy path, and the light subtrees off a node. *)
Definition internal (t : tree) : bool := match t with Leaf _ => false | _ => true end.
Definition hchild (t : tree) : tree :=
  match t with Leaf _ => t | Bin l r => heavychild l r | Tri a b _ => heavychild a b end.
Definition lights (t : tree) : list tree :=
  match t with Leaf _ => [] | Bin l r => [lightchild l r] | Tri a b c => [lightchild a b; c] end.

(** The node [j] steps down the heavy path from [t]. *)
Fixpoint hdown (j : nat) (t : tree) : tree :=
  match j with O => t | S j' => hdown j' (hchild t) end.

Lemma hdown_leaf j y : hdown j (Leaf y) = Leaf y.
Proof. induction j; [reflexivity | exact IHj]. Qed.

Lemma hdown_add a : forall b t, hdown (a + b) t = hdown b (hdown a t).
Proof. induction a as [|a IH]; intros b t; [reflexivity|]. cbn [Nat.add hdown]. apply IH. Qed.

Lemma light_heavy l r :
  (lightchild l r = l /\ heavychild l r = r) \/ (lightchild l r = r /\ heavychild l r = l).
Proof. unfold lightchild, heavychild. destruct (subtreesize l <? subtreesize r)%Z; auto. Qed.

Lemma hi_cons t : internal t = true ->
  heavypath_items t = (t, map heavy_decomposition (lights t)) :: heavypath_items (hchild t).
Proof. destruct t; cbn; [discriminate | reflexivity | reflexivity]. Qed.

Lemma hi_length_pos t : (1 <= length (heavypath_items t))%nat.
Proof. destruct t; cbn; lia. Qed.

Lemma hi_length_cons t : internal t = true ->
  length (heavypath_items t) = S (length (heavypath_items (hchild t))).
Proof. intros H. rewrite (hi_cons t H). reflexivity. Qed.

Lemma hi_length_leaf y : length (heavypath_items (Leaf y)) = 1%nat.
Proof. reflexivity. Qed.

Lemma items_skipn j : forall t, (j < length (heavypath_items t))%nat ->
  skipn j (heavypath_items t) = heavypath_items (hdown j t).
Proof.
  induction j as [|j IH]; intros t H; [reflexivity|].
  destruct (internal t) eqn:Ht; [|destruct t; [cbn in H; lia|discriminate|discriminate]].
  rewrite (hi_length_cons t Ht) in H. rewrite (hi_cons t Ht). cbn [skipn hdown]. apply IH. lia.
Qed.

Lemma items_length_hdown j t : (j < length (heavypath_items t))%nat ->
  length (heavypath_items (hdown j t)) = (length (heavypath_items t) - j)%nat.
Proof. intros H. rewrite <- items_skipn by exact H. apply length_skipn. Qed.

Lemma hdown_internal j : forall t, (S j < length (heavypath_items t))%nat -> internal (hdown j t) = true.
Proof.
  induction j as [|j IH]; intros t H.
  - destruct t; [cbn in H; lia | reflexivity | reflexivity].
  - destruct (internal t) eqn:Ht; [|destruct t; [cbn in H; lia|discriminate|discriminate]].
    rewrite (hi_length_cons t Ht) in H. cbn [hdown]. apply IH. lia.
Qed.

Lemma nodes_self t : In t (nodes t).
Proof. destruct t; cbn; auto. Qed.

Lemma nodes_trans t : forall u v, In u (nodes t) -> In v (nodes u) -> In v (nodes t).
Proof.
  induction t as [y|l IHl r IHr|a IHa b IHb c IHc]; cbn; intros u v Hu Hv.
  - destruct Hu as [<-|[]]. exact Hv.
  - destruct Hu as [<-|Hu]; [exact Hv|]. right. rewrite in_app_iff in Hu |- *.
    destruct Hu; eauto.
  - destruct Hu as [<-|Hu]; [exact Hv|]. right. rewrite !in_app_iff in Hu |- *.
    destruct Hu as [Hu|[Hu|Hu]]; eauto.
Qed.

Lemma nodes_leaves t : forall v, In v (nodes t) -> incl (leaves v) (leaves t).
Proof.
  induction t as [y|l IHl r IHr|a IHa b IHb c IHc]; cbn; intros v Hv.
  - destruct Hv as [<-|[]]. apply incl_refl.
  - destruct Hv as [<-|Hv]; [apply incl_refl|]. intros x Hx. rewrite in_app_iff in Hv |- *.
    destruct Hv as [Hv|Hv]; [left; exact (IHl v Hv x Hx) | right; exact (IHr v Hv x Hx)].
  - destruct Hv as [<-|Hv]; [apply incl_refl|]. intros x Hx. rewrite !in_app_iff in Hv |- *.
    destruct Hv as [Hv|[Hv|Hv]];
      [left; exact (IHa v Hv x Hx) | right; left; exact (IHb v Hv x Hx)
      | right; right; exact (IHc v Hv x Hx)].
Qed.

(** The nodes and the leaves of an internal node: itself, those of the
    next node on its heavy path and those of its light subtrees. *)
Lemma nodes_cons t : internal t = true -> forall v,
  In v (nodes t) <-> v = t \/ In v (nodes (hchild t)) \/ exists u, In u (lights t) /\ In v (nodes u).
Proof.
  destruct t as [y|l r|a b c]; intros H v; [discriminate| |]; cbn [nodes hchild lights In].
  - rewrite in_app_iff. destruct (light_heavy l r) as [[El Eh]|[El Eh]]; rewrite El, Eh;
      split; [intros [<-|[Hv|Hv]]| |intros [<-|[Hv|Hv]]|]; firstorder (subst; auto).
  - rewrite !in_app_iff. destruct (light_heavy a b) as [[El Eh]|[El Eh]]; rewrite El, Eh;
      split; [intros [<-|[Hv|[Hv|Hv]]]| |intros [<-|[Hv|[Hv|Hv]]]|]; firstorder (subst; auto).
Qed.

Lemma leaves_cons t : internal t = true -> forall x,
  In x (leaves t) <-> In x (leaves (hchild t)) \/ exists u, In u (lights t) /\ In x (leaves u).
Proof.
  destruct t as [y|l r|a b c]; intros H x; [discriminate| |]; cbn [leaves hchild lights In].
  - rewrite in_app_iff. destruct (light_heavy l r) as [[El Eh]|[El Eh]]; rewrite El, Eh;
      split; [intros [Hv|Hv]| |intros [Hv|Hv]|]; firstorder (subst; auto).
  - rewrite !in_app_iff. destruct (light_heavy a b) as [[El Eh]|[El Eh]]; rewrite El, Eh;
      split; [intros [Hv|[Hv|Hv]]| |intros [Hv|[Hv|Hv]]|]; firstorder (subst; auto).
Qed.

Lemma hchild_in t : In (hchild t) (nodes t).
Proof.
  destruct (internal t) eqn:H; [|destruct t; [apply nodes_self|discriminate|discriminate]].
  apply (nodes_cons t H). right. left. apply nodes_self.
Qed.

Lemma lights_in t u : In u (lights t) -> In u (nodes t).
Proof.
  intros Hu. destruct (internal t) eqn:H; [|destruct t; [destruct Hu|discriminate|discriminate]].
  apply (nodes_cons t H). right. right. exists u. split; [exact Hu | apply nodes_self].
Qed.

Lemma hdown_in j : forall t, In (hdown j t) (nodes t).
Proof.
  induction j as [|j IH]; intros t; [apply nodes_self|].
  cbn [hdown]. eapply nodes_trans; [apply hchild_in | apply IH].
Qed.

Lemma NoDup_sub t v : In v (nodes t) -> NoDup (leaves t) -> NoDup (leaves v).
Proof.
  revert v. induction t as [y|l IHl r IHr|a IHa b IHb c IHc]; cbn; intros v Hv ND.
  - destruct Hv as [<-|[]]. exact ND.
  - destruct Hv as [<-|Hv]; [exact ND|].
    apply in_app_or in Hv as [Hv|Hv];
      [apply IHl; [exact Hv | eapply NoDup_app_remove_r; eauto]
      |apply IHr; [exact Hv | eapply NoDup_app_remove_l; eauto]].
  - destruct Hv as [<-|Hv]; [exact ND|].
    apply NoDup_app_remove_l in ND as ND'. apply NoDup_app_remove_r in ND as NDa.
    rewrite !in_app_iff in Hv. destruct Hv as [Hv|[Hv|Hv]].
    + apply IHa; [exact Hv | exact NDa].
    + apply IHb; [exact Hv | eapply NoDup_app_remove_r; eauto].
    + apply IHc; [exact Hv | eapply NoDup_app_remove_l; eauto].
Qed.

(** The light subtrees of a node share no leaf with each other or with
    the next node on its heavy path. *)
Lemma lights_disj u t x : NoDup (leaves u) -> In t (lights u) -> In x (leaves t) ->
  In x (leaves (hchild u)) -> False.
Proof.
  destruct u as [y|l r|a b c]; cbn [lights hchild leaves In]; intros ND Ht Hx Hh; [destruct Ht| |].
  - destruct Ht as [<-|[]].
    destruct (light_heavy l r) as [[El Eh]|[El Eh]]; rewrite El in Hx; rewrite Eh in Hh.
    + exact (NoDup_app_disj _ _ _ ND Hx Hh).
    + exact (NoDup_app_disj _ _ _ ND Hh Hx).
  - apply NoDup_app_remove_l in ND as NDbc.
    destruct Ht as [<-|[<-|[]]].
    + destruct (light_heavy a b) as [[El Eh]|[El Eh]]; rewrite El in Hx; rewrite Eh in Hh.
      * apply (NoDup_app_disj _ _ _ ND Hx). apply in_or_app. left. exact Hh.
      * apply (NoDup_app_disj _ _ _ ND Hh). apply in_or_app. left. exact Hx.
    + destruct (light_heavy a b) as [[El Eh]|[El Eh]]; rewrite Eh in Hh.
      * exact (NoDup_app_disj _ _ _ NDbc Hh Hx).
      * apply (NoDup_app_disj _ _ _ ND Hh). apply in_or_app. right. exact Hx.
Qed.

Lemma tri_disj a b c x : NoDup (leaves (Tri a b c)) ->
  In x (leaves (lightchild a b)) -> In x (leaves c) -> False.
Proof.
  cbn [leaves]. intros ND H1 H2. apply NoDup_app_remove_l in ND as NDbc.
  destruct (light_heavy a b) as [[El _]|[El _]]; rewrite El in H1.
  - apply (NoDup_app_disj _ _ _ ND H1). apply in_or_app. right. exact H2.
  - exact (NoDup_app_disj _ _ _ NDbc H1 H2).
Qed.

Lemma subtreesize_leaves t : subtreesize t = Z.of_nat (length (leaves t)).
Proof. induction t; cbn; rewrite ?length_app; lia. Qed.

Lemma subtreesize_sub t : forall v, In v (nodes t) -> subtreesize v <= subtreesize t.
Proof.
  induction t as [y|l IHl r IHr|a IHa b IHb c IHc]; cbn; intros v Hv.
  - destruct Hv as [<-|[]]. cbn. lia.
  - destruct Hv as [<-|Hv]; [cbn; lia|].
    pose proof (subtreesize_pos l). pose proof (subtreesize_pos r).
    apply in_app_or in Hv as [Hv|Hv]; [specialize (IHl v Hv) | specialize (IHr v Hv)]; lia.
  - destruct Hv as [<-|Hv]; [cbn; lia|].
    pose proof (subtreesize_pos a). pose proof (subtreesize_pos b). pose proof (subtreesize_pos c).
    rewrite !in_app_iff in Hv.
    destruct Hv as [Hv|[Hv|Hv]]; [specialize (IHa v Hv) | specialize (IHb v Hv) | specialize (IHc v Hv)]; lia.
Qed.

Lemma tdist_nil v : tdist [] v = subtreesize v.
Proof.
  unfold tdist. rewrite subtreesize_leaves. cbn [filter length]. f_equal.
  rewrite Nat.add_0_r. f_equal. induction (leaves v) as [|y L IH]; [reflexivity|].
  cbn [filter]. change (negb (mem y [])) with true. cbn [length]. f_equal. exact IH.
Qed.

Lemma nodes_has_leaf t : exists y, In (Leaf y) (nodes t).
Proof.
  induction t as [y|l [y IHl] r _|a [y IHa] b _ c _]; [exists y; left; reflexivity| |];
    exists y; cbn; right; apply in_or_app; auto.
Qed.

(** The shape of a heavy path: the nodes on it, and the light subtrees off it. *)
Definition Fr (u v : tree) : Prop := v = u.
Definition Fp (u v : tree) : Prop := exists t, In t (lights u) /\ In v (nodes t).
Definition Fh (u : tree) (x : nat) : Prop :=
  (exists t, In t (lights u) /\ In x (leaves t)) \/ u = Leaf x.

Lemma chain_S (F : tree -> Prop) t n :
  (exists j, (j < S n)%nat /\ F (hdown j t)) <->
  F t \/ exists j, (j < n)%nat /\ F (hdown j (hchild t)).
Proof.
  split.
  - intros ([|j] & Hj & HF); [left; exact HF|]. right. exists j. split; [lia|exact HF].
  - intros [HF|(j & Hj & HF)]; [exists O; split; [lia|exact HF]|].
    exists (S j). split; [lia|exact HF].
Qed.

(** Induction along heavy paths: the next node of the heavy path and
    the light subtrees of an internal node are smaller. *)
Lemma tree_hind (P : tree -> Prop) :
  (forall y, P (Leaf y)) ->
  (forall t, internal t = true -> P (hchild t) -> (forall u, In u (lights t) -> P u) -> P t) ->
  forall t, P t.
Proof.
  intros HL HS. induction t as [y|l IHl r IHr|a IHa b IHb c IHc]; [apply HL| |];
    apply HS; try reflexivity; cbn [hchild lights].
  - destruct (light_heavy l r) as [[_ ->]|[_ ->]]; assumption.
  - intros u [<-|[]]. destruct (light_heavy l r) as [[-> _]|[-> _]]; assumption.
  - destruct (light_heavy a b) as [[_ ->]|[_ ->]]; assumption.
  - intros u [<-|[<-|[]]]; [destruct (light_heavy a b) as [[-> _]|[-> _]]|]; assumption.
Qed.

Lemma nodes_chain t : forall v, In v (nodes t) <->
  exists j, (j < length (heavypath_items t))%nat /\ (Fr (hdown j t) v \/ Fp (hdown j t) v).
Proof.
  induction t as [y|t Ht IHh _] using tree_hind; intros v.
  - cbn. unfold Fr, Fp. split.
    + intros [<-|[]]. exists O. split; [lia|]. left. reflexivity.
    + intros ([|j] & Hj & H); [|lia]. destruct H as [->|(u & [] & _)]. auto.
  - rewrite (hi_length_cons t Ht), (chain_S (fun u => Fr u v \/ Fp u v)), <- IHh, (nodes_cons t Ht).
    unfold Fr at 1, Fp at 1. tauto.
Qed.

Lemma leaves_chain t : forall x, In x (leaves t) <->
  exists j, (j < length (heavypath_items t))%nat /\ Fh (hdown j t) x.
Proof.
  induction t as [y|t Ht IHh _] using tree_hind; intros x.
  - cbn. unfold Fh. split.
    + intros [<-|[]]. exists O. split; [lia|]. right. reflexivity.
    + intros ([|j] & Hj & H); [|lia]. destruct H as [(u & [] & _)|E]. injection E as ->. auto.
  - rewrite (hi_length_cons t Ht), (chain_S (fun u => Fh u x)), <- IHh, (leaves_cons t Ht).
    unfold Fh at 1. destruct t; [discriminate| |]; split; intros H; intuition discriminate.
Qed.

Lemma Fh_leaves u x : Fh u x -> In x (leaves u).
Proof.
  intros [(t & Ht & H)| ->]; [|left; reflexivity].
  exact (nodes_leaves u t (lights_in u t Ht) x H).
Qed.

Lemma Fp_nodes u v : Fp u v -> In v (nodes u).
Proof. intros (t & Ht & H). eapply nodes_trans; [apply lights_in; exact Ht | exact H]. Qed.

(** Down the heavy path the leaf sets shrink. *)
Lemma hdown_mono w j j' : (j <= j')%nat -> incl (leaves (hdown j' w)) (leaves (hdown j w)).
Proof.
  intros H. replace j' with (j + (j' - j))%nat by lia. rewrite hdown_add.
  apply nodes_leaves, hdown_in.
Qed.

(** A light subtree off the heavy path shares no leaf with the heavy path
    below it. *)
Lemma chain_disj w j j' t x : NoDup (leaves w) -> (j < j')%nat -> In t (lights (hdown j w)) ->
  In x (leaves t) -> In x (leaves (hdown j' w)) -> False.
Proof.
  intros ND Hj Ht Hl Hh.
  replace j' with (j + S (j' - j - 1))%nat in Hh by lia.
  rewrite hdown_add in Hh. cbn [hdown] in Hh.
  apply (nodes_leaves (hchild (hdown j w)) _ (hdown_in _ _)) in Hh.
  assert (NDb : NoDup (leaves (hdown j w))) by (apply (NoDup_sub w); [apply hdown_in|exact ND]).
  exact (lights_disj _ _ _ NDb Ht Hl Hh).
Qed.

(** What a Path built from the first [k] nodes of the heavy path from [w]
    satisfies: its values are the extreme distances with nothing added,
    it ranges over those [k] nodes, subtree-ranges over the light subtrees
    off them, and holds their leaves. *)
Definition Props (p : path) (k : nat) (w : tree) : Prop :=
  WF (shape p) /\ init p /\ INV [] p MF 0 0 /\ NoDup (hpt_leaves p) /\
  (forall v, In v (rng p) <-> exists j, (j < k)%nat /\ Fr (hdown j w) v) /\
  (forall v, In v (pnd p) <-> exists j, (j < k)%nat /\ Fp (hdown j w) v) /\
  (forall x, In x (hpt_leaves p) <-> exists j, (j < k)%nat /\ Fh (hdown j w) x).

Definition Full (c : path) (t : tree) : Prop := Props c (length (heavypath_items t)) t.

Definition ItemsOK (w : tree) : Prop :=
  forall j t, (j < length (heavypath_items w))%nat -> In t (lights (hdown j w)) ->
    Full (heavy_decomposition t) t.

Lemma Full_nodes c t : Full c t -> forall v, In v (rng c ++ pnd c) <-> In v (nodes t).
Proof.
  intros (_ & _ & _ & _ & Hr & Hp & _) v. rewrite in_app_iff, Hr, Hp, nodes_chain.
  split.
  - intros [(j & Hj & H)|(j & Hj & H)]; exists j; auto.
  - intros (j & Hj & [H|H]); [left|right]; exists j; auto.
Qed.

Lemma Full_leaves c t : Full c t -> forall x, In x (hpt_leaves c) <-> In x (leaves t).
Proof. intros (_ & _ & _ & _ & _ & _ & Hh) x. rewrite Hh, leaves_chain. reflexivity. Qed.

Lemma ItemsOK_hdown w j0 : ItemsOK w -> (j0 < length (heavypath_items w))%nat -> ItemsOK (hdown j0 w).
Proof.
  intros H Hj0 j t Hj E. apply (H (j0 + j)%nat).
  - rewrite items_length_hdown in Hj by exact Hj0. lia.
  - rewrite hdown_add. exact E.
Qed.

Lemma INV0_path p : init p -> INV [] p MF 0 0 ->
  is_min [] (d_min_path (fields p)) (rng p) /\ is_max [] (d_max_path (fields p)) (rng p).
Proof.
  intros HI HV. destruct (init_head p HI) as (E1 & _).
  destruct (INV_path _ _ _ _ _ HV) as [H1 H2]. rewrite E1, !Z.add_0_r in H1, H2. auto.
Qed.

Lemma INV0_subtree p : init p -> INV [] p MF 0 0 -> is_HPT_leaf p = false ->
  is_min [] (d_min_subtree (fields p)) (pnd p) /\ is_max [] (d_max_subtree (fields p)) (pnd p).
Proof.
  intros HI HV Hh. destruct (init_head p HI) as (_ & E2 & _).
  destruct (INV_subtree _ _ _ _ _ HV Hh) as [H1 H2]. rewrite E2, !Z.add_0_r in H1, H2.
  rewrite pndM_MF in H2. auto.
Qed.

Lemma HPT_rng p : is_HPT_leaf p = true -> WF (shape p) -> forall v, In v (rng p) -> exists y, v = Leaf y.
Proof.
  destruct p as [f l r|f v c|f v c1 c2|f v]; cbn; try discriminate. intros _ (y & ->) w [<-|[]]. eauto.
Qed.

Lemma lt1 (P : nat -> Prop) : (exists j, (j < 1)%nat /\ P j) <-> P O.
Proof.
  split; [intros ([|j] & Hj & H); [exact H|lia] | intros H; exists O; split; [lia|exact H]].
Qed.

(** The extremes a child heavy path gives to the PT leaf above it. *)
Lemma child_top c : WF (shape c) -> init c -> INV [] c MF 0 0 ->
  is_min [] (CInt.min (d_min_path (fields c)) (d_min_subtree (fields c))) (rng c ++ pnd c) /\
  is_max [] (CInt.max (d_max_path (fields c)) (d_max_subtree (fields c))) (rng c ++ pnd c).
Proof.
  intros Wc Ic Vc. destruct (INV0_path c Ic Vc) as [Mc1 Mc2].
  rewrite CInt.min_spec, CInt.max_spec.
  destruct (is_HPT_leaf c) eqn:Hc.
  - rewrite (pnd_HPT_leaf c Hc), app_nil_r.
    destruct c as [f l r|f v c|f v c1 c2|f v]; try discriminate.
    cbn [init fields] in Ic, Mc1, Mc2 |- *. destruct Ic as (_ & _ & _ & _ & _ & _ & _ & _ & S1 & S2).
    rewrite S1, S2.
    pose proof Mc1 as [_ (w & Hw & E)]. destruct (HPT_rng _ Hc Wc w Hw) as (y & ->).
    rewrite tdist_nil in E. cbn in E. rewrite <- E in Mc1 |- *.
    pose proof Mc2 as [_ (w' & Hw' & E')]. destruct (HPT_rng _ Hc Wc w' Hw') as (y' & ->).
    rewrite tdist_nil in E'. cbn in E'. rewrite <- E' in Mc2 |- *.
    split; [exact Mc1 | exact Mc2].
  - destruct (INV0_subtree c Ic Vc Hc) as [S1 S2].
    split; [apply is_min_app | apply is_max_app]; assumption.
Qed.

Lemma child_bounds c w : Full c w -> subtreesize w <= INT_MAX ->
  d_min_path (fields c) <= INT_MAX /\ INT_MIN <= d_max_path (fields c).
Proof.
  intros Fc Hsz. pose proof (Full_nodes _ _ Fc) as Nc.
  destruct Fc as (Wc & Ic & Vc & _).
  destruct (INV0_path c Ic Vc) as [[_ (v & Hv & E)] [_ (v' & _ & E')]].
  split.
  - rewrite <- E, tdist_nil.
    assert (Hv' : In v (nodes w)) by (apply Nc; apply in_or_app; auto).
    pose proof (subtreesize_sub _ _ Hv'). lia.
  - rewrite <- E'. pose proof (tdist_nil_pos v'). unfold INT_MIN. lia.
Qed.

Lemma min3_INT_MAX x1 y1 x2 y2 : x1 <= INT_MAX ->
  CInt.min3 (CInt.min3 INT_MAX x1 y1) x2 y2 = CInt.min (CInt.min x1 y1) (CInt.min x2 y2).
Proof. intros H. unfold CInt.min3. rewrite !CInt.min_spec. lia. Qed.

Lemma max3_INT_MIN x1 y1 x2 y2 : INT_MIN <= x1 ->
  CInt.max3 (CInt.max3 INT_MIN x1 y1) x2 y2 = CInt.max (CInt.max x1 y1) (CInt.max x2 y2).
Proof. intros H. unfold CInt.max3. rewrite !CInt.max_spec. lia. Qed.

(** A single node of a heavy path: [heavypath_leaf]. *)
Lemma piece_props w : NoDup (leaves w) -> subtreesize w <= INT_MAX -> ItemsOK w ->
  Props (heavypath_leaf (fst (nth 0 (heavypath_items w) (dummy_item (Leaf 0))))
                        (snd (nth 0 (heavypath_items w) (dummy_item (Leaf 0))))) 1 w.
Proof.
  intros ND Hsz HI.
  assert (Hc : forall t, In t (lights w) ->
            Full (heavy_decomposition t) t /\ subtreesize t <= INT_MAX).
  { intros t Ht. split; [apply (HI O); [pose proof (hi_length_pos w); lia | exact Ht]|].
    pose proof (subtreesize_sub w t (lights_in w t Ht)). lia. }
  destruct w as [y|a b|a b c].
  - cbn [heavypath_items nth fst snd heavypath_leaf]. unfold Props.
    cbn [shape WF init fields INV set_dpath new_Path hpt_leaves is_HPT_leaf
         diff_path diff_subtree include_path include_subtree exclude exclude_path
         d_min_path d_max_path d_min_subtree d_max_subtree subtreesize].
    rewrite tdist_nil. cbn [subtreesize].
    split; [eauto|]. split; [repeat split; reflexivity|]. split; [split; reflexivity|].
    split; [constructor; [intros []|constructor]|]. split; [|split].
    + intros v. rewrite lt1. unfold rng, Fr. cbn [shape rng_s hdown].
      split; [intros [<-|[]]; reflexivity | intros ->; left; reflexivity].
    + intros v. rewrite lt1. unfold pnd, Fp. cbn [shape pnd_s hdown lights].
      split; [intros []|intros (t & [] & _)].
    + intros x. rewrite lt1. unfold Fh. cbn [hdown leaves lights].
      split; [intros [<-|[]]; right; reflexivity|].
      intros [(t & [] & _)|E]. injection E as ->. left. reflexivity.
  - rewrite (hi_cons (Bin a b) eq_refl). cbn [nth fst snd map lights].
    destruct (Hc (lightchild a b) (or_introl eq_refl)) as [Fc Hszc].
    destruct (child_bounds _ _ Fc Hszc) as [Bmin Bmax].
    set (c := heavy_decomposition (lightchild a b)) in *.
    pose proof (Full_nodes _ _ Fc) as Nc. pose proof (Full_leaves _ _ Fc) as Lc.
    destruct Fc as (Wc & Ic & Vc & NDc & _ & _ & _).
    assert (E3 : CInt.min3 INT_MAX (d_min_path (fields c)) (d_min_subtree (fields c)) =
                 CInt.min (d_min_path (fields c)) (d_min_subtree (fields c))).
    { unfold CInt.min3. rewrite !CInt.min_spec. f_equal. lia. }
    assert (E4 : CInt.max3 INT_MIN (d_max_path (fields c)) (d_max_subtree (fields c)) =
                 CInt.max (d_max_path (fields c)) (d_max_subtree (fields c))).
    { unfold CInt.max3. rewrite !CInt.max_spec. f_equal. lia. }
    unfold heavypath_leaf, dsubtree_of. cbn [fold_left fst snd]. rewrite E3, E4. unfold Props.
    destruct (init_head c Ic) as (Dc1 & Dc2 & _).
    destruct (child_top c Wc Ic Vc) as [T1 T2].
    split; [|split; [|split; [|split; [|split; [|split]]]]].
    + cbn [shape WF]. split; [exact Wc|]. intros x Hx. rewrite <- hpt_leaves_shape in Hx.
      apply Lc in Hx. exact (nodes_leaves _ _ (lights_in (Bin a b) _ (or_introl eq_refl)) x Hx).
    + cbn [init fields]. repeat split; auto.
    + cbn [INV fields mL]. rewrite tdist_nil. cbn [subtreesize].
      change (pnd (PT_leaf ?f ?v c)) with (rng c ++ pnd c).
      cbn [shape pndM mL]. rewrite pndM_MF.
      rewrite !Z.add_0_r. split; [reflexivity|]. split; [reflexivity|].
      split; [exact T1|]. split; [exact T2|]. split; [exact Dc1|]. split; [exact Dc2|]. exact Vc.
    + exact NDc.
    + intros v. rewrite lt1. change (rng (PT_leaf ?f ?u c)) with [u]. unfold Fr. cbn [hdown].
      split; [intros [<-|[]]; reflexivity | intros ->; left; reflexivity].
    + intros v. rewrite lt1. change (pnd (PT_leaf ?f ?u c)) with (rng c ++ pnd c). rewrite Nc.
      unfold Fp. cbn [hdown lights]. split; [intros Hq; exists (lightchild a b); split; [left; reflexivity | exact Hq]|].
      intros (t & [<-|[]] & Hq). exact Hq.
    + intros x. rewrite lt1. cbn [hpt_leaves]. rewrite Lc. unfold Fh. cbn [hdown lights].
      split; [intros Hq; left; exists (lightchild a b); split; [left; reflexivity | exact Hq]|].
      intros [(t & [<-|[]] & Hq)|E]; [exact Hq|discriminate].
  - rewrite (hi_cons (Tri a b c) eq_refl). cbn [nth fst snd map lights].
    destruct (Hc (lightchild a b) (or_introl eq_refl)) as [F1 Hsz1].
    destruct (Hc c (or_intror (or_introl eq_refl))) as [F2 Hsz2].
    destruct (child_bounds _ _ F1 Hsz1) as [Bmin Bmax].
    set (c1 := heavy_decomposition (lightchild a b)) in *.
    set (c2 := heavy_decomposition c) in *.
    pose proof (Full_nodes _ _ F1) as N1. pose proof (Full_leaves _ _ F1) as L1.
    pose proof (Full_nodes _ _ F2) as N2. pose proof (Full_leaves _ _ F2) as L2.
    destruct F1 as (W1 & I1 & V1 & ND1 & _ & _ & _).
    destruct F2 as (W2 & I2 & V2 & ND2 & _ & _ & _).
    unfold heavypath_leaf, dsubtree_of. cbn [fold_left fst snd].
    rewrite (min3_INT_MAX _ _ _ _ Bmin), (max3_INT_MIN _ _ _ _ Bmax). unfold Props.
    destruct (init_head c1 I1) as (D1p & D1s & _). destruct (init_head c2 I2) as (D2p & D2s & _).
    destruct (child_top c1 W1 I1 V1) as [T11 T12].
    destruct (child_top c2 W2 I2 V2) as [T21 T22].
    assert (In1 : forall x, In x (hpt_leaves c1) -> In x (leaves (Tri a b c))).
    { intros x Hx. apply L1 in Hx.
      exact (nodes_leaves _ _ (lights_in (Tri a b c) _ (or_introl eq_refl)) x Hx). }
    assert (In2 : forall x, In x (hpt_leaves c2) -> In x (leaves (Tri a b c))).
    { intros x Hx. apply L2 in Hx.
      exact (nodes_leaves _ _ (lights_in (Tri a b c) _ (or_intror (or_introl eq_refl))) x Hx). }
    assert (D12 : forall x, In x (hpt_leaves c1) -> In x (hpt_leaves c2) -> False).
    { intros x H1 H2. apply L1 in H1. apply L2 in H2. exact (tri_disj a b c x ND H1 H2). }
    split; [|split; [|split; [|split; [|split; [|split]]]]].
    + cbn [shape WF]. rewrite <- !hpt_leaves_shape.
      split; [exact W1|]. split; [exact W2|]. split; [eauto|].
      split; [intros x Hx; apply in_app_or in Hx as [Hx|Hx]; auto|]. split.
      * intros x Hx v Hv Hxv. apply L1 in Hx.
        change (rng_s (shape c2) ++ pnd_s (shape c2)) with (rng c2 ++ pnd c2) in Hv.
        apply N2 in Hv. exact (tri_disj a b c x ND Hx (nodes_leaves _ _ Hv x Hxv)).
      * intros x Hx v Hv Hxv. apply L2 in Hx.
        change (rng_s (shape c1) ++ pnd_s (shape c1)) with (rng c1 ++ pnd c1) in Hv.
        apply N1 in Hv. exact (tri_disj a b c x ND (nodes_leaves _ _ Hv x Hxv) Hx).
    + cbn [init fields]. rewrite (init_min1 c1 I1), (init_min1 c2 I2). repeat split; auto.
    + cbn [INV fields mL mR]. rewrite tdist_nil. cbn [subtreesize].
      change (pnd (PT_leaf2 ?f ?v c1 c2)) with ((rng c1 ++ pnd c1) ++ (rng c2 ++ pnd c2)).
      cbn [shape pndM mL mR mb1 mb2]. rewrite !pndM_MF.
      rewrite !Z.add_0_r. split; [reflexivity|]. split; [reflexivity|].
      split; [apply is_min_eq with (1 := eq_sym (CInt.min_spec _ _)); apply is_min_app; assumption|].
      split; [apply is_max_eq with (1 := eq_sym (CInt.max_spec _ _)); apply is_max_app; assumption|].
      split; [congruence|]. split; [congruence|]. split; assumption.
    + cbn [hpt_leaves]. apply NoDup_app; [exact ND1 | exact ND2 |]. intros x H1 H2. exact (D12 x H1 H2).
    + intros v. rewrite lt1. change (rng (PT_leaf2 ?f ?u c1 c2)) with [u]. unfold Fr. cbn [hdown].
      split; [intros [<-|[]]; reflexivity | intros ->; left; reflexivity].
    + intros v. rewrite lt1. change (pnd (PT_leaf2 ?f ?u c1 c2)) with ((rng c1 ++ pnd c1) ++ (rng c2 ++ pnd c2)).
      rewrite in_app_iff, N1, N2. unfold Fp. cbn [hdown lights].
      split; [intros [Hq|Hq]; [exists (lightchild a b) | exists c]; split; [cbn; auto | exact Hq | cbn; auto | exact Hq]|].
      intros (t & [<-|[<-|[]]] & Hq); auto.
    + intros x. rewrite lt1. cbn [hpt_leaves]. rewrite in_app_iff, L1, L2. unfold Fh. cbn [hdown lights].
      split; [intros [Hq|Hq]; left; [exists (lightchild a b) | exists c]; split; [cbn; auto | exact Hq | cbn; auto | exact Hq]|].
      intros [(t & [<-|[<-|[]]] & Hq)|E]; [auto|auto|discriminate].
Qed.

Lemma init_HPT p : init p -> is_HPT_leaf p = true ->
  d_min_subtree (fields p) = 1 /\ d_max_subtree (fields p) = 1.
Proof.
  destruct p as [f l r|f v c|f v c1 c2|f v]; intros HI E; try discriminate.
  cbn [init fields] in HI |- *. tauto.
Qed.

Lemma lights_nonempty t : internal t = true -> exists u, In u (lights t).
Proof. destruct t; cbn; intros H; [discriminate | eauto | eauto]. Qed.

Lemma range_app {A : Type} (F : tree -> A -> Prop) (G1 G2 : list A) k1 k2 w :
  (forall v, In v G1 <-> exists j, (j < k1)%nat /\ F (hdown j w) v) ->
  (forall v, In v G2 <-> exists j, (j < k2)%nat /\ F (hdown j (hdown k1 w)) v) ->
  forall v, In v (G1 ++ G2) <-> exists j, (j < k1 + k2)%nat /\ F (hdown j w) v.
Proof.
  intros H1 H2 v. rewrite in_app_iff, H1, H2. split.
  - intros [(j & Hj & HF)|(j & Hj & HF)]; [exists j; split; [lia|exact HF]|].
    exists (k1 + j)%nat. rewrite hdown_add. split; [lia|exact HF].
  - intros (j & Hj & HF). destruct (Nat.lt_ge_cases j k1) as [Hlt|Hge].
    + left. exists j. auto.
    + right. exists (j - k1)%nat. split; [lia|]. rewrite <- hdown_add.
      replace (k1 + (j - k1))%nat with j by lia. exact HF.
Qed.

(** Two consecutive stretches of a heavy path, put under one PT node. *)
Lemma node_props l r k1 k2 w :
  Props l k1 w -> Props r k2 (hdown k1 w) -> (1 <= k1)%nat ->
  (k1 < length (heavypath_items w))%nat -> NoDup (leaves w) ->
  Props (PT_node (mkP 0 0 (CInt.min (d_min_path (fields l)) (d_min_path (fields r))) 1
                      (CInt.max (d_max_path (fields l)) (d_max_path (fields r)))
                      (CInt.max (d_max_subtree (fields l)) (d_max_subtree (fields r)))
                      [] [] [] []) l r) (k1 + k2) w.
Proof.
  intros Pl Pr H1 Hk ND.
  destruct Pl as (Wl & Il & Vl & NDl & Rl & Ql & Hl).
  destruct Pr as (Wr & Ir & Vr & NDr & Rr & Qr & Hr).
  assert (Hw : internal w = true) by exact (hdown_internal O w ltac:(lia)).
  destruct (lights_nonempty w Hw) as (u & Hu).
  destruct (nodes_has_leaf u) as (y & Hy).
  assert (Ly : In (Leaf y) (pnd l)).
  { apply Ql. exists O. split; [lia|]. cbn [hdown]. exists u. auto. }
  assert (Hlf : is_HPT_leaf l = false).
  { destruct (is_HPT_leaf l) eqn:E; [|reflexivity]. rewrite (pnd_HPT_leaf l E) in Ly. destruct Ly. }
  assert (HLx : forall x, In x (hpt_leaves l) -> exists j t, (j < k1)%nat /\
                  In t (lights (hdown j w)) /\ In x (leaves t)).
  { intros x Hx. apply Hl in Hx as (j & Hj & [(t & Ht & H)|E]); [eauto 6|].
    pose proof (hdown_internal j w ltac:(lia)) as Hi. rewrite E in Hi. discriminate. }
  assert (HRx : forall x, In x (hpt_leaves r) -> exists j, (j < k2)%nat /\ In x (leaves (hdown (k1 + j) w))).
  { intros x Hx. apply Hr in Hx as (j & Hj & H). exists j. split; [exact Hj|].
    rewrite hdown_add. apply Fh_leaves. exact H. }
  assert (HRv : forall v, In v (rng r ++ pnd r) -> exists j, (j < k2)%nat /\ incl (leaves v) (leaves (hdown (k1 + j) w))).
  { intros v Hv. apply in_app_or in Hv as [Hv|Hv].
    - apply Rr in Hv as (j & Hj & H). exists j. split; [exact Hj|]. rewrite hdown_add, H.
      apply incl_refl.
    - apply Qr in Hv as (j & Hj & H). exists j. split; [exact Hj|]. rewrite hdown_add.
      apply nodes_leaves, Fp_nodes, H. }
  split; [|split; [|split; [|split; [|split; [|split]]]]].
  - cbn [shape WF]. rewrite <- !hpt_leaves_shape. rewrite <- is_HPT_leaf_shape.
    change (rng_s (shape l)) with (rng l). change (pnd_s (shape l)) with (pnd l).
    change (rng_s (shape r) ++ pnd_s (shape r)) with (rng r ++ pnd r).
    split; [exact Wl|]. split; [exact Wr|]. split; [exact Hlf|]. split; [|split].
    + intros x Hx v Hv. destruct (HRx x Hx) as (j' & Hj' & Hx').
      apply Rl in Hv as (j & Hj & ->). apply (hdown_mono w j (k1 + j')); [lia|exact Hx'].
    + intros x Hx v Hv Hxv. destruct (HRx x Hx) as (j' & Hj' & Hx').
      apply Ql in Hv as (j & Hj & (t & Ht & Hv)).
      apply (chain_disj w j (k1 + j') t x ND); [lia|exact Ht| |exact Hx'].
      exact (nodes_leaves _ _ Hv x Hxv).
    + intros x Hx v Hv Hxv. destruct (HLx x Hx) as (j & t & Hj & Ht & Hx').
      destruct (HRv v Hv) as (j' & Hj' & Hinc).
      exact (chain_disj w j (k1 + j') t x ND ltac:(lia) Ht Hx' (Hinc x Hxv)).
  - cbn [init fields diff_path diff_subtree include_path include_subtree exclude exclude_path
         d_min_path d_max_path d_min_subtree d_max_subtree].
    repeat split; auto.
  - cbn [INV fields diff_path diff_subtree d_min_path d_max_path d_min_subtree d_max_subtree mL mR].
    change (rng (PT_node ?f l r)) with (rng l ++ rng r).
    change (pnd (PT_node ?f l r)) with (pnd l ++ pnd r).
    cbn [shape pndM mL mR]. rewrite !pndM_MF.
    rewrite !Z.add_0_r.
    destruct (INV0_path l Il Vl) as [Ml1 Ml2]. destruct (INV0_path r Ir Vr) as [Mr1 Mr2].
    destruct (INV0_subtree l Il Vl Hlf) as [Ql1 Ql2].
    split; [rewrite CInt.min_spec; apply is_min_app; assumption|].
    split; [rewrite CInt.max_spec; apply is_max_app; assumption|].
    split; [|split; [|split; [exact Vl|exact Vr]]].
    + split; [intros v _; apply tdist_nil_pos|]. exists (Leaf y). split; [apply in_or_app; auto|].
      rewrite tdist_nil. reflexivity.
    + change (pnd_s (shape l) ++ pnd_s (shape r)) with (pnd l ++ pnd r).
      destruct (is_HPT_leaf r) eqn:Hrf.
      * destruct (init_HPT r Ir Hrf) as [_ S2]. rewrite (pnd_HPT_leaf r Hrf), app_nil_r, S2, CInt.max_spec.
        destruct Ql2 as [Q1 (v & Hv & E)]. pose proof (tdist_nil_pos v).
        rewrite Z.max_l by lia. split; [exact Q1|eauto].
      * rewrite CInt.max_spec. apply is_max_app; [exact Ql2|].
        exact (proj2 (INV0_subtree r Ir Vr Hrf)).
  - cbn [hpt_leaves]. apply NoDup_app; [exact NDl|exact NDr|].
    intros x Hx Hx'. destruct (HLx x Hx) as (j & t & Hj & Ht & Hxl).
    destruct (HRx x Hx') as (j' & Hj' & Hxr).
    exact (chain_disj w j (k1 + j') t x ND ltac:(lia) Ht Hxl Hxr).
  - exact (range_app Fr (rng l) (rng r) k1 k2 w Rl Rr).
  - exact (range_app Fp (pnd l) (pnd r) k1 k2 w Ql Qr).
  - exact (range_app Fh (hpt_leaves l) (hpt_leaves r) k1 k2 w Hl Hr).
Qed.

(** The halves [partition_heavypath] builds, as one function of the range. *)
Definition sub_path (fuel : nat) (hp : list (tree * list path)) (m : nat) : path :=
  if Nat.eqb m 1 then
    heavypath_leaf (fst (nth 0 hp (dummy_item (Leaf 0)))) (snd (nth 0 hp (dummy_item (Leaf 0))))
  else partition_heavypath fuel hp m.

Lemma partition_S_eq fuel hp k : exists L R,
  partition_heavypath (S fuel) hp k =
    PT_node (mkP 0 0 (CInt.min (d_min_path (fields L)) (d_min_path (fields R))) 1
                 (CInt.max (d_max_path (fields L)) (d_max_path (fields R)))
                 (CInt.max (d_max_subtree (fields L)) (d_max_subtree (fields R)))
                 [] [] [] []) L R /\
  L = sub_path fuel (firstn (Nat.div k 2) hp) (Nat.div k 2) /\
  R = sub_path fuel (skipn (Nat.div k 2) hp) (k - Nat.div k 2).
Proof.
  eexists _, _. split; [reflexivity|]. unfold sub_path. split.
  - destruct (Nat.eqb (Nat.div k 2) 1) eqn:E; [|reflexivity].
    apply Nat.eqb_eq in E. rewrite E. destruct hp; reflexivity.
  - destruct (Nat.eqb (k - Nat.div k 2) 1); [|reflexivity].
    rewrite nth_skipn, Nat.add_0_r. reflexivity.
Qed.

Lemma div2_bounds k : (2 <= k)%nat -> (1 <= Nat.div k 2 /\ Nat.div k 2 < k)%nat.
Proof.
  intros H. pose proof (Nat.div_mod k 2 ltac:(lia)). pose proof (Nat.mod_upper_bound k 2 ltac:(lia)).
  lia.
Qed.

Lemma partition_props fuel : forall k w, (2 <= k)%nat -> (k <= length (heavypath_items w))%nat ->
  (k <= fuel)%nat -> NoDup (leaves w) -> subtreesize w <= INT_MAX -> ItemsOK w ->
  Props (partition_heavypath fuel (firstn k (heavypath_items w)) k) k w.
Proof.
  induction fuel as [|fuel IH]; intros k w H2 Hk Hf ND Hsz HI; [lia|].
  assert (Seg : forall m u, (1 <= m)%nat -> (m <= length (heavypath_items u))%nat -> (m <= fuel)%nat ->
            NoDup (leaves u) -> subtreesize u <= INT_MAX -> ItemsOK u ->
            Props (sub_path fuel (firstn m (heavypath_items u)) m) m u).
  { intros m u Hm1 Hm Hmf NDu Hu HIu. unfold sub_path.
    destruct (Nat.eqb_spec m 1) as [->|Hne].
    - replace (nth 0 (firstn 1 (heavypath_items u)) (dummy_item (Leaf 0)))
        with (nth 0 (heavypath_items u) (dummy_item (Leaf 0)))
        by (destruct u; reflexivity).
      apply piece_props; assumption.
    - apply IH; auto. lia. }
  destruct (partition_S_eq fuel (firstn k (heavypath_items w)) k) as (L & R & -> & EL & ER).
  destruct (div2_bounds k H2) as [B1 B2].
  set (l1 := Nat.div k 2) in *.
  rewrite firstn_firstn, Nat.min_l in EL by lia.
  rewrite skipn_firstn_comm, items_skipn in ER by lia.
  assert (Hu : In (hdown l1 w) (nodes w)) by apply hdown_in.
  assert (PL : Props L l1 w) by (rewrite EL; apply Seg; auto; lia).
  assert (PR : Props R (k - l1) (hdown l1 w)).
  { rewrite ER. apply Seg.
    - lia.
    - rewrite items_length_hdown by lia. lia.
    - lia.
    - exact (NoDup_sub w _ Hu ND).
    - pose proof (subtreesize_sub w _ Hu). lia.
    - apply ItemsOK_hdown; [exact HI|lia]. }
  pose proof (node_props L R l1 (k - l1) w PL PR B1 ltac:(lia) ND) as HN.
  replace (l1 + (k - l1))%nat with k in HN by lia. exact HN.
Qed.

(** [heavy_decomposition] of a tree whose taxa are distinct. *)
Lemma decomp_full t : NoDup (leaves t) -> subtreesize t <= INT_MAX ->
  Full (heavy_decomposition t) t /\ ItemsOK t.
Proof.
  induction t as [y|t Ht IHh IHl] using tree_hind; intros ND Hsz.
  - split.
    + change (heavy_decomposition (Leaf y)) with
        (heavypath_leaf (fst (nth 0 (heavypath_items (Leaf y)) (dummy_item (Leaf 0))))
                        (snd (nth 0 (heavypath_items (Leaf y)) (dummy_item (Leaf 0))))).
      apply piece_props; auto. intros j u _ E. rewrite hdown_leaf in E. destruct E.
    + intros j u _ E. rewrite hdown_leaf in E. destruct E.
  - assert (Sub : forall u, In u (nodes t) -> NoDup (leaves u) /\ subtreesize u <= INT_MAX).
    { intros u Hu. split; [exact (NoDup_sub t u Hu ND)|]. pose proof (subtreesize_sub t u Hu). lia. }
    destruct (IHh (proj1 (Sub _ (hchild_in t))) (proj2 (Sub _ (hchild_in t)))) as [_ Hh].
    assert (HIt : ItemsOK t).
    { intros [|j] u Hj E.
      - cbn [hdown] in E. destruct (Sub u (lights_in t u E)) as [S1 S2].
        exact (proj1 (IHl u E S1 S2)).
      - cbn [hdown] in E. rewrite (hi_length_cons t Ht) in Hj.
        apply (Hh j); [lia | exact E]. }
    split; [|exact HIt].
    unfold Full, heavy_decomposition, path_of_heavypath.
    assert (Hlen : (2 <= length (heavypath_items t))%nat).
    { rewrite (hi_length_cons t Ht). pose proof (hi_length_pos (hchild t)). lia. }
    destruct (Nat.eqb_spec (length (heavypath_items t)) 1) as [E|_]; [lia|].
    pose proof (partition_props (length (heavypath_items t)) (length (heavypath_items t)) t) as P.
    rewrite firstn_all in P. apply P; auto.
Qed.


(** ** Sequences of [add_leaf_HPT] and [reset_leaf_HPT] *)

Definition adds (S : list nat) (p : path) : path :=
  fold_left (fun h x => add_leaf_HPT x h) S p.
Definition resets (S : list nat) (p : path) : path :=
  fold_left (fun h x => reset_leaf_HPT x h) S p.

Lemma adds_app S1 S2 p : adds (S1 ++ S2) p = adds S2 (adds S1 p).
Proof. unfold adds. apply fold_left_app. Qed.

Lemma resets_app S1 S2 p : resets (S1 ++ S2) p = resets S2 (resets S1 p).
Proof. unfold resets. apply fold_left_app. Qed.

Lemma shape_adds S : forall p, shape (adds S p) = shape p.
Proof.
  induction S as [|x S IH]; intros p; [reflexivity|]. cbn [adds fold_left].
  unfold adds in IH. rewrite IH. apply shape_add.
Qed.

Lemma shape_resets S : forall p, shape (resets S p) = shape p.
Proof.
  induction S as [|x S IH]; intros p; [reflexivity|]. cbn [resets fold_left].
  unfold resets in IH. rewrite IH. apply shape_reset.
Qed.

Lemma hpt_leaves_adds S p : hpt_leaves (adds S p) = hpt_leaves p.
Proof. rewrite !hpt_leaves_shape, shape_adds. reflexivity. Qed.

Lemma hpt_leaves_resets S p : hpt_leaves (resets S p) = hpt_leaves p.
Proof. rewrite !hpt_leaves_shape, shape_resets. reflexivity. Qed.

Lemma ND_shape p q : shape p = shape q -> ND p -> ND q.
Proof. unfold ND, rng, pnd. intros ->. exact (fun H => H). Qed.

Lemma good_adds S : forall R p p0, NoDup (hpt_leaves p) -> incl S (hpt_leaves p) ->
  good R p p0 -> good (rev S ++ R) (adds S p) p0.
Proof.
  induction S as [|x S IH]; intros R p p0 ND Hin G; [exact G|].
  cbn [adds fold_left rev]. rewrite <- app_assoc. cbn [app].
  apply IH.
  - unfold add_leaf_HPT. rewrite hpt_leaves_add. exact ND.
  - unfold add_leaf_HPT. rewrite hpt_leaves_add. intros y Hy. apply Hin. right. exact Hy.
  - apply good_add; [exact ND | apply Hin; left; reflexivity | exact G].
Qed.

Lemma good_resets S : forall R p p0, init p0 -> NoDup (hpt_leaves p) -> incl S (hpt_leaves p) ->
  good R p p0 -> good (fold_left (fun R x => remove Nat.eq_dec x R) S R) (resets S p) p0.
Proof.
  induction S as [|x S IH]; intros R p p0 HI ND Hin G; [exact G|].
  cbn [resets fold_left]. apply IH.
  - exact HI.
  - unfold reset_leaf_HPT. rewrite hpt_leaves_reset. exact ND.
  - unfold reset_leaf_HPT. rewrite hpt_leaves_reset. intros y Hy. apply Hin. right. exact Hy.
  - apply good_reset; [exact HI | exact ND | apply Hin; left; reflexivity | exact G].
Qed.

Lemma remove_all_iff S : forall R y,
  In y (fold_left (fun R x => remove Nat.eq_dec x R) S R) <-> In y R /\ ~ In y S.
Proof.
  induction S as [|x S IH]; intros R y; cbn [fold_left].
  - split; [intros H; split; [exact H|intros []] | intros [H _]; exact H].
  - rewrite IH, remove_iff. cbn [In]. split.
    + intros [[H1 H2] H3]. split; [exact H1|]. intros [E|E]; [congruence|auto].
    + intros [H1 H2]. split; [split; [exact H1|]|]; intros E; apply H2; auto.
Qed.

Lemma remove_all_nil S R : incl R S -> fold_left (fun R x => remove Nat.eq_dec x R) S R = [].
Proof.
  intros H. destruct (fold_left (fun R x => remove Nat.eq_dec x R) S R) as [|y l] eqn:E;
    [reflexivity|].
  exfalso. assert (Hy : In y (fold_left (fun R x => remove Nat.eq_dec x R) S R)) by (rewrite E; left; reflexivity).
  apply remove_all_iff in Hy as [H1 H2]. exact (H2 (H y H1)).
Qed.

Lemma bk_adds S : forall p p0, init p0 -> bk (fields p) (fields p0) -> bk (fields (adds S p)) (fields p0).
Proof.
  induction S as [|x S IH]; intros p p0 HI HB; [exact HB|].
  cbn [adds fold_left]. apply IH; [exact HI|].
  destruct (init_head p0 HI) as (E1 & E2 & _).
  destruct (add_bookkeeping x 0 0 p) as (B1 & B2 & B3 & B4 & B5).
  unfold bk in *. unfold add_leaf_HPT. intuition congruence.
Qed.

Lemma bk_resets S : forall p p0, init p0 -> bk (fields p) (fields p0) -> bk (fields (resets S p)) (fields p0).
Proof.
  induction S as [|x S IH]; intros p p0 HI HB; [exact HB|].
  cbn [resets fold_left]. apply IH; [exact HI|].
  destruct (init_head p0 HI) as (E1 & E2 & _).
  destruct (reset_bookkeeping x p) as (B1 & B2 & B3 & B4 & B5).
  unfold bk in *. unfold reset_leaf_HPT. intuition congruence.
Qed.

(** The HPTs the driver works on between two reference leaves: what
    resetting the added leaves leaves behind. *)
Definition settled (p0 h : path) : Prop := good [] h p0 /\ bk (fields h) (fields p0).

Lemma settled_refl p0 : init p0 -> settled p0 p0.
Proof. intros HI. split; [apply good_refl; exact HI | unfold bk; auto]. Qed.

Lemma settled_round p0 h S : init p0 -> NoDup (hpt_leaves p0) -> incl S (hpt_leaves p0) ->
  settled p0 h -> settled p0 (resets S (adds S h)).
Proof.
  intros HI ND Hin [G B].
  assert (Eh : hpt_leaves h = hpt_leaves p0).
  { rewrite !hpt_leaves_shape, (good_shape _ _ _ G). reflexivity. }
  assert (G1 : good (rev S ++ []) (adds S h) p0)
    by (apply good_adds; [rewrite Eh; exact ND | rewrite Eh; exact Hin | exact G]).
  assert (G2 := good_resets S (rev S ++ []) (adds S h) p0 HI
                  ltac:(rewrite hpt_leaves_adds, Eh; exact ND)
                  ltac:(rewrite hpt_leaves_adds, Eh; exact Hin) G1).
  rewrite remove_all_nil in G2.
  - split; [exact G2|]. apply bk_resets; [exact HI|]. apply bk_adds; [exact HI | exact B].
  - rewrite app_nil_r. intros y Hy. apply in_rev. exact Hy.
Qed.

Lemma settled_shape p0 h : settled p0 h -> shape h = shape p0.
Proof. intros [G _]. exact (good_shape _ _ _ G). Qed.

Lemma INV_adds S : forall A p m, WF (shape p) -> ND p -> incl S (hpt_leaves p) -> NoDup (S ++ A) ->
  INV A p m 0 0 -> INV (rev S ++ A) (adds S p) (madds S p m) 0 0.
Proof.
  induction S as [|x S IH]; intros A p m HW HN Hin HD HV; [exact HV|].
  cbn [adds fold_left rev madds]. rewrite <- app_assoc. cbn [app].
  inversion HD as [|? ? Hx HD']; subst.
  apply IH.
  - unfold add_leaf_HPT. rewrite shape_add. exact HW.
  - apply (ND_shape p); [symmetry; apply shape_add | exact HN].
  - unfold add_leaf_HPT. rewrite hpt_leaves_add. intros y Hy. apply Hin. right. exact Hy.
  - apply Permutation_NoDup with (x :: S ++ A); [apply Permutation_middle | exact HD].
  - apply add_inv; auto.
    + apply Hin. left. reflexivity.
    + intros H. apply Hx. apply in_or_app. right. exact H.
Qed.

Lemma full_madds S : forall p m, full m = true -> full (madds S p m) = true.
Proof.
  induction S as [|x S IH]; intros p m H; [exact H|]. cbn [madds]. apply IH. apply full_madd. exact H.
Qed.

(** ** The values read at the root *)

(** The minimum and the maximum of the distances over the nodes of [t]. *)
Fixpoint minD (A : list nat) (t : tree) : Z :=
  match t with
  | Leaf _ => tdist A t
  | Bin l r => Z.min (tdist A t) (Z.min (minD A l) (minD A r))
  | Tri a b c => Z.min (tdist A t) (Z.min (minD A a) (Z.min (minD A b) (minD A c)))
  end.

Fixpoint maxD (A : list nat) (t : tree) : Z :=
  match t with
  | Leaf _ => tdist A t
  | Bin l r => Z.max (tdist A t) (Z.max (maxD A l) (maxD A r))
  | Tri a b c => Z.max (tdist A t) (Z.max (maxD A a) (Z.max (maxD A b) (maxD A c)))
  end.

Lemma minD_spec A t : is_min A (minD A t) (nodes t).
Proof.
  induction t as [y|l IHl r IHr|a IHa b IHb c IHc]; [apply is_min_single| |].
  - change (nodes (Bin l r)) with ([Bin l r] ++ (nodes l ++ nodes r)).
    apply is_min_app; [apply is_min_single | apply is_min_app; assumption].
  - change (nodes (Tri a b c)) with ([Tri a b c] ++ (nodes a ++ nodes b ++ nodes c)).
    apply is_min_app; [apply is_min_single | apply is_min_app; [|apply is_min_app]; assumption].
Qed.

Lemma maxD_spec A t : is_max A (maxD A t) (nodes t).
Proof.
  induction t as [y|l IHl r IHr|a IHa b IHb c IHc]; [apply is_max_single| |].
  - change (nodes (Bin l r)) with ([Bin l r] ++ (nodes l ++ nodes r)).
    apply is_max_app; [apply is_max_single | apply is_max_app; assumption].
  - change (nodes (Tri a b c)) with ([Tri a b c] ++ (nodes a ++ nodes b ++ nodes c)).
    apply is_max_app; [apply is_max_single | apply is_max_app; [|apply is_max_app]; assumption].
Qed.

(** At the root of an HPT, [get_ti_min] is the least distance over all the
    nodes; [get_ti_max] is the largest over the nodes the mask selects,
    which is the largest over all the nodes when the mask is full. *)
Lemma values_at A p m t : INV A p m 0 0 -> is_HPT_leaf p = false ->
  (forall v, In v (rng p ++ pnd p) <-> In v (nodes t)) ->
  get_ti_min p = minD A t /\ is_max A (get_ti_max p) (rng p ++ pndM m (shape p)) /\
  (full m = true -> get_ti_max p = maxD A t).
Proof.
  intros HV Hh Hn.
  destruct (INV_path _ _ _ _ _ HV) as [M1 M2]. destruct (INV_subtree _ _ _ _ _ HV Hh) as [M3 M4].
  rewrite !Z.add_0_r in M1, M2, M3, M4.
  assert (X : is_max A (get_ti_max p) (rng p ++ pndM m (shape p))).
  { unfold get_ti_max. rewrite Hh, CInt.max_spec. apply is_max_app; assumption. }
  split; [|split; [exact X|]].
  - apply (is_min_unique A _ _ (nodes t)); [|apply minD_spec].
    unfold get_ti_min. rewrite CInt.min_spec. apply (is_min_ext A _ (rng p ++ pnd p)); [exact Hn|].
    apply is_min_app; assumption.
  - intros Hf. apply (is_max_unique A _ _ (nodes t)); [|apply maxD_spec].
    apply (is_max_ext A _ (rng p ++ pnd p)); [exact Hn|].
    unfold pnd. rewrite <- (pndM_full (shape p) m Hf). exact X.
Qed.

Lemma Permutation_filter_length (f : nat -> bool) l l' :
  Permutation l l' -> length (filter f l) = length (filter f l').
Proof.
  induction 1 as [|x l l' _ IH|x y l|l l' l'' _ IH1 _ IH2]; cbn; auto.
  - destruct (f x); cbn; auto.
  - destruct (f x), (f y); reflexivity.
  - congruence.
Qed.

Lemma tdist_same A B v : NoDup A -> NoDup B -> (forall y, In y A <-> In y B) ->
  tdist A v = tdist B v.
Proof.
  intros NA NB HAB. unfold tdist.
  assert (Hm : forall y, mem y A = mem y B).
  { intros y. destruct (mem y A) eqn:E1, (mem y B) eqn:E2; auto.
    - apply mem_In, HAB in E1. apply mem_false in E2. contradiction.
    - apply mem_In, HAB in E2. apply mem_false in E1. contradiction. }
  rewrite (filter_ext (fun y => negb (mem y A)) (fun y => negb (mem y B))) by (intros y; rewrite Hm; reflexivity).
  rewrite (Permutation_filter_length _ A B) by (apply NoDup_Permutation; auto).
  reflexivity.
Qed.

Lemma is_max_same A B a S : NoDup A -> NoDup B -> (forall y, In y A <-> In y B) ->
  is_max A a S -> is_max B a S.
Proof.
  intros NA NB H [H1 (v & Hv & E)]. split.
  - intros w Hw. rewrite <- (tdist_same A B) by assumption. apply H1, Hw.
  - exists v. split; [exact Hv|]. rewrite <- (tdist_same A B) by assumption. exact E.
Qed.

Lemma minD_same A B t : NoDup A -> NoDup B -> (forall y, In y A <-> In y B) -> minD A t = minD B t.
Proof.
  intros NA NB H. induction t as [y|l IHl r IHr|a IHa b IHb c IHc]; cbn [minD];
    rewrite ?IHl, ?IHr, ?IHa, ?IHb, ?IHc, (tdist_same A B); auto.
Qed.

Lemma maxD_same A B t : NoDup A -> NoDup B -> (forall y, In y A <-> In y B) -> maxD A t = maxD B t.
Proof.
  intros NA NB H. induction t as [y|l IHl r IHr|a IHa b IHb c IHc]; cbn [maxD];
    rewrite ?IHl, ?IHr, ?IHa, ?IHb, ?IHc, (tdist_same A B); auto.
Qed.

(** The HPT of an alternative tree with distinct taxa. *)
Lemma P0_facts alt : NoDup (leaves alt) -> subtreesize alt <= INT_MAX ->
  let P0 := heavy_decomposition alt in
  WF (shape P0) /\ init P0 /\ INV [] P0 MF 0 0 /\ NoDup (hpt_leaves P0) /\ ND P0 /\
  (forall v, In v (rng P0 ++ pnd P0) <-> In v (nodes alt)) /\
  (forall x, In x (hpt_leaves P0) <-> In x (leaves alt)).
Proof.
  intros ND Hsz P0. destruct (decomp_full alt ND Hsz) as [F _].
  pose proof (Full_nodes _ _ F) as Hn. pose proof (Full_leaves _ _ F) as Hl.
  destruct F as (W & I & V & D & _).
  refine (conj W (conj I (conj V (conj D (conj _ (conj Hn Hl)))))).
  intros v Hv. apply (NoDup_sub alt); [apply Hn; exact Hv | exact ND].
Qed.

Lemma P0_not_HPT_leaf t : internal t = true -> NoDup (leaves t) -> subtreesize t <= INT_MAX ->
  is_HPT_leaf (heavy_decomposition t) = false.
Proof.
  intros Ht ND Hsz. destruct (decomp_full _ ND Hsz) as [(_ & _ & _ & _ & _ & Hp & _) _].
  destruct (lights_nonempty t Ht) as (u & Hu).
  destruct (nodes_has_leaf u) as (y & Hy).
  assert (H : In (Leaf y) (pnd (heavy_decomposition t))).
  { apply Hp. exists O. split; [pose proof (hi_length_cons t Ht); pose proof (hi_length_pos (hchild t)); lia|].
    exists u. cbn [hdown]. auto. }
  destruct (is_HPT_leaf (heavy_decomposition t)) eqn:E; [|reflexivity].
  rewrite (pnd_HPT_leaf _ E) in H. destruct H.
Qed.

(** ** Bounds on the distances *)

Lemma filter_split_length (f : nat -> bool) l :
  (length (filter f l) + length (filter (fun x => negb (f x)) l))%nat = length l.
Proof. induction l as [|x l IH]; cbn; [reflexivity|]. destruct (f x); cbn; lia. Qed.

Lemma leaf_in_nodes x t : In x (leaves t) -> In (Leaf x) (nodes t).
Proof.
  induction t as [y|l IHl r IHr|a IHa b IHb c IHc]; cbn; intros H.
  - destruct H as [<-|[]]. left. reflexivity.
  - right. apply in_app_or in H as [H|H]; apply in_or_app; auto.
  - right. apply in_app_or in H as [H|H]; apply in_or_app; [left; auto|right].
    apply in_app_or in H as [H|H]; apply in_or_app; auto.
Qed.

Lemma tdist_nonneg A v : 0 <= tdist A v.
Proof. unfold tdist. lia. Qed.

(** A distance to a node of [alt] is at most the number of taxa. *)
Lemma tdist_le A alt v : NoDup A -> incl A (leaves alt) -> NoDup (leaves alt) ->
  In v (nodes alt) -> tdist A v <= Z.of_nat (length (leaves alt)).
Proof.
  intros NA HA NU Hv. unfold tdist.
  set (l1 := filter (fun y => negb (mem y A)) (leaves v)).
  set (l2 := filter (fun y => negb (mem y (leaves v))) A).
  assert (ND : NoDup (l1 ++ l2)).
  { apply NoDup_app.
    - apply NoDup_filter. apply (NoDup_sub alt); assumption.
    - apply NoDup_filter. exact NA.
    - intros y Hy1 Hy2. unfold l1, l2 in *. apply filter_In in Hy1 as [_ Hy1].
      apply filter_In in Hy2 as [Hy2 _]. apply mem_In in Hy2. rewrite Hy2 in Hy1. discriminate. }
  assert (Inc : incl (l1 ++ l2) (leaves alt)).
  { intros y Hy. apply in_app_or in Hy as [Hy|Hy]; unfold l1, l2 in Hy; apply filter_In in Hy as [Hy _].
    - apply (nodes_leaves alt v Hv). exact Hy.
    - apply HA. exact Hy. }
  pose proof (NoDup_incl_length ND Inc) as Hlen. rewrite length_app in Hlen. lia.
Qed.

(** The distance to the root of [alt] is [n - |A|]. *)
Lemma tdist_root A alt : NoDup A -> incl A (leaves alt) -> NoDup (leaves alt) ->
  tdist A alt = Z.of_nat (length (leaves alt)) - Z.of_nat (length A).
Proof.
  intros NA HA NU. unfold tdist.
  assert (E2 : filter (fun y => negb (mem y (leaves alt))) A = []).
  { destruct (filter (fun y => negb (mem y (leaves alt))) A) as [|y l] eqn:E; [reflexivity|].
    exfalso. assert (Hy : In y (filter (fun y => negb (mem y (leaves alt))) A)) by (rewrite E; left; reflexivity).
    apply filter_In in Hy as [Hy Hm]. apply HA, mem_In in Hy. rewrite Hy in Hm. discriminate. }
  rewrite E2. cbn [length].
  pose proof (filter_split_length (fun y => mem y A) (leaves alt)) as Hs.
  assert (Hp : length (filter (fun y => mem y A) (leaves alt)) = length A).
  { apply Permutation_length. apply NoDup_Permutation.
    - apply NoDup_filter. exact NU.
    - exact NA.
    - intros y. rewrite filter_In, mem_In. split; [tauto|]. intros Hy. split; [apply HA|]; exact Hy. }
  lia.
Qed.


(** ** The transfer sets ([get_transfer_set_HPT])

    *** The subtree values read at HPT leaves

    [get_ti_max_mod] reads [d_max_subtree] at an HPT leaf too, where it is
    left at the [1] of [new_Path]; with the diffs added above, it is never
    larger than one plus the number of added leaves other than the leaf's
    own taxon. *)

Fixpoint HG (A : list nat) (p : path) (as_ : Z) : Prop :=
  match p with
  | PT_node f l r => HG A l (as_ + diff_subtree f) /\ HG A r (as_ + diff_subtree f)
  | PT_leaf f _ c => HG A c (as_ + diff_subtree f)
  | PT_leaf2 f _ c1 c2 => HG A c1 (as_ + diff_subtree f) /\ HG A c2 (as_ + diff_subtree f)
  | HPT_leaf f v =>
      d_max_subtree f = 1 /\
      diff_subtree f + as_ <= Z.of_nat (length (filter (fun z => negb (mem z (leaves v))) A))
  end.

Lemma HG_offset A p a b : a = b -> HG A p a -> HG A p b.
Proof. intros ->; exact (fun H => H). Qed.

Lemma count_cons_out A x v : ~ In x (leaves v) ->
  length (filter (fun z => negb (mem z (leaves v))) (x :: A)) =
  S (length (filter (fun z => negb (mem z (leaves v))) A)).
Proof.
  intros Hx. cbn [filter]. apply mem_false in Hx. rewrite Hx. reflexivity.
Qed.

Lemma HG_shift A x p : forall o, ~ In x (hpt_leaves p) -> HG A p o -> HG (x :: A) p (o + 1).
Proof.
  induction p as [f l IHl r IHr|f v c IHc|f v c1 IH1 c2 IH2|f v]; intros o Hx HG0;
    cbn [HG hpt_leaves] in *.
  - destruct HG0 as [Gl Gr].
    split; eapply HG_offset; [| apply IHl; [intros H; apply Hx, in_or_app; auto | exact Gl]
                            | | apply IHr; [intros H; apply Hx, in_or_app; auto | exact Gr]]; lia.
  - eapply HG_offset; [|apply IHc; [exact Hx | exact HG0]]. lia.
  - destruct HG0 as [G1 G2].
    split; eapply HG_offset; [| apply IH1; [intros H; apply Hx, in_or_app; auto | exact G1]
                            | | apply IH2; [intros H; apply Hx, in_or_app; auto | exact G2]]; lia.
  - destruct HG0 as [E B]. split; [exact E|]. rewrite count_cons_out by exact Hx. lia.
Qed.

Lemma HG_with_fields A x p g o o' : ~ In x (hpt_leaves p) -> HG A p o ->
  d_max_subtree g = d_max_subtree (fields p) ->
  diff_subtree g + o' = diff_subtree (fields p) + o + 1 ->
  HG (x :: A) (with_fields p g) o'.
Proof.
  intros Hx HG0 Em Es.
  destruct p as [f l r|f v c|f v c1 c2|f v]; cbn [HG with_fields fields hpt_leaves] in *.
  - destruct HG0 as [Gl Gr].
    split; eapply HG_offset; [| apply HG_shift; [intros H; apply Hx, in_or_app; auto | exact Gl]
                            | | apply HG_shift; [intros H; apply Hx, in_or_app; auto | exact Gr]]; lia.
  - eapply HG_offset; [|apply HG_shift; [exact Hx | exact HG0]]. lia.
  - destruct HG0 as [G1 G2].
    split; eapply HG_offset; [| apply HG_shift; [intros H; apply Hx, in_or_app; auto | exact G1]
                            | | apply HG_shift; [intros H; apply Hx, in_or_app; auto | exact G2]]; lia.
  - destruct HG0 as [E B]. split; [congruence|]. rewrite count_cons_out by exact Hx. lia.
Qed.

Lemma HG_add A x p : forall pp ps as_, as_ <= 0 -> NoDup (hpt_leaves p) -> In x (hpt_leaves p) ->
  HG A p (as_ + ps) -> HG (x :: A) (add_leaf_rec x pp ps p) as_.
Proof.
  induction p as [f l IHl r IHr|f v c IHc|f v c1 IH1 c2 IH2|f v]; intros pp ps as_ Has ND Hx HG0.
  - cbn [HG] in HG0. destruct HG0 as [Gl Gr]. cbn [hpt_leaves] in ND, Hx.
    cbn [add_leaf_rec]. destruct (has_leaf x r) eqn:Hr.
    + apply has_leaf_In in Hr.
      up_eq. destruct Bg as (_ & Eg & _). cbn [HG]. rewrite Eg. cbn [diff_subtree set_diffs]. split.
      * apply HG_with_fields with (o := as_ + ps + diff_subtree f); [| exact Gl | reflexivity |].
        -- intros H. exact (NoDup_app_disj _ _ _ ND H Hr).
        -- cbn [set_sets set_diffs diff_subtree]. lia.
      * apply IHr; [lia | eapply NoDup_app_remove_l; exact ND | exact Hr |].
        eapply HG_offset; [|exact Gr]. cbn [set_diffs diff_subtree]. lia.
    + assert (Hxl : In x (hpt_leaves l)).
      { apply in_app_or in Hx as [Hx|Hx]; [exact Hx|]. apply has_leaf_In in Hx. congruence. }
      up_eq. destruct Bg as (_ & Eg & _). cbn [HG]. rewrite Eg. cbn [diff_subtree set_diffs]. split.
      * apply IHl; [lia | eapply NoDup_app_remove_r; exact ND | exact Hxl |].
        eapply HG_offset; [|exact Gl]. cbn [set_diffs diff_subtree]. lia.
      * apply HG_with_fields with (o := as_ + ps + diff_subtree f); [| exact Gr | reflexivity |].
        -- intros H. exact (NoDup_app_disj _ _ _ ND Hxl H).
        -- cbn [set_sets set_diffs diff_subtree]. lia.
  - cbn [HG] in HG0. cbn [hpt_leaves] in ND, Hx. cbn [add_leaf_rec].
    up_eq. destruct Bg as (_ & Eg & _). cbn [HG]. rewrite Eg. cbn [diff_subtree set_diffs].
    apply IHc; [lia | exact ND | exact Hx |].
    eapply HG_offset; [|exact HG0]. cbn [set_sets set_diffs diff_subtree]. lia.
  - cbn [HG] in HG0. destruct HG0 as [G1 G2]. cbn [hpt_leaves] in ND, Hx.
    cbn [add_leaf_rec]. destruct (has_leaf x c1) eqn:H1.
    + apply has_leaf_In in H1.
      up_eq. destruct Bg as (_ & Eg & _). cbn [HG]. rewrite Eg. cbn [diff_subtree set_diffs]. split.
      * apply IH1; [lia | eapply NoDup_app_remove_r; exact ND | exact H1 |].
        eapply HG_offset; [|exact G1]. cbn [set_sets set_diffs diff_subtree]. lia.
      * apply HG_with_fields with (o := as_ + ps + diff_subtree f); [| exact G2 | reflexivity |].
        -- intros H. exact (NoDup_app_disj _ _ _ ND H1 H).
        -- cbn [set_sets set_diffs diff_subtree]. lia.
    + assert (H2 : In x (hpt_leaves c2)).
      { apply in_app_or in Hx as [Hx|Hx]; [|exact Hx]. apply has_leaf_In in Hx. congruence. }
      up_eq. destruct Bg as (_ & Eg & _). cbn [HG]. rewrite Eg. cbn [diff_subtree set_diffs]. split.
      * apply HG_with_fields with (o := as_ + ps + diff_subtree f); [| exact G1 | reflexivity |].
        -- intros H. exact (NoDup_app_disj _ _ _ ND H H2).
        -- cbn [set_sets set_diffs diff_subtree]. lia.
      * apply IH2; [lia | eapply NoDup_app_remove_l; exact ND | exact H2 |].
        eapply HG_offset; [|exact G2]. cbn [set_sets set_diffs diff_subtree]. lia.
  - cbn [HG] in HG0. destruct HG0 as [E _]. cbn [add_leaf_rec].
    cbn [HG set_diffs set_dpath set_sets d_max_subtree diff_subtree]. split; [exact E | lia].
Qed.

Lemma HG_adds S : forall A p, NoDup (hpt_leaves p) -> incl S (hpt_leaves p) ->
  HG A p 0 -> HG (rev S ++ A) (adds S p) 0.
Proof.
  induction S as [|x S IH]; intros A p ND Hin HG0; [exact HG0|].
  cbn [adds fold_left rev]. rewrite <- app_assoc. cbn [app].
  apply IH.
  - unfold add_leaf_HPT. rewrite hpt_leaves_add. exact ND.
  - unfold add_leaf_HPT. rewrite hpt_leaves_add. intros y Hy. apply Hin. right. exact Hy.
  - unfold add_leaf_HPT. apply HG_add; [lia | exact ND | apply Hin; left; reflexivity | exact HG0].
Qed.

(** With nothing added, every diff is [0] and every list empty, and the
    HPT leaves hold the [d_max_subtree] of [new_Path]. *)
Fixpoint zeroed (p : path) : Prop :=
  diff_path (fields p) = 0 /\ diff_subtree (fields p) = 0 /\
  include_path (fields p) = [] /\ include_subtree (fields p) = [] /\
  exclude (fields p) = [] /\ exclude_path (fields p) = [] /\
  match p with
  | PT_node _ l r => zeroed l /\ zeroed r
  | PT_leaf _ _ c => zeroed c
  | PT_leaf2 _ _ c1 c2 => zeroed c1 /\ zeroed c2
  | HPT_leaf f _ => d_max_subtree f = 1
  end.

Lemma zeroed_head p : zeroed p ->
  diff_path (fields p) = 0 /\ diff_subtree (fields p) = 0 /\
  include_path (fields p) = [] /\ include_subtree (fields p) = [] /\
  exclude (fields p) = [] /\ exclude_path (fields p) = [].
Proof. destruct p; cbn [zeroed]; tauto. Qed.

Lemma settled_zeroed h : forall p0, init p0 -> good [] h p0 -> bk (fields h) (fields p0) -> zeroed h.
Proof.
  induction h as [f l IHl r IHr|f v c IHc|f v c1 IH1 c2 IH2|f v];
    intros [f0 l0 r0|f0 v0 c0|f0 v0 c10 c20|f0 v0] HI HG HB;
    cbn [good] in HG; try contradiction; cbn [zeroed fields];
    pose proof (init_head _ HI) as H0; cbn [fields] in H0; destruct H0 as (I1 & I2 & I3 & I4 & I5 & I6);
    destruct HB as (B1 & B2 & B3 & B4 & B5); cbn [fields] in B1, B2, B3, B4, B5;
    cbn [init fields] in HI.
  - destruct HG as (H1 & Gl & Gr). destruct (H1 (clean_nil _)) as ((_ & _ & _ & Ex) & _ & Bl & Br).
    destruct HI as (_ & _ & _ & _ & _ & _ & _ & _ & _ & _ & Il & Ir).
    repeat split; try congruence; eauto.
  - destruct HG as (_ & H1 & Dp & Ds & Ip & Is & Ep & Gc). destruct (H1 (clean_nil _)) as ((_ & _ & _ & Ex) & _).
    destruct HI as (_ & _ & _ & _ & _ & _ & _ & _ & _ & _ & Ic).
    destruct (init_head c0 Ic) as (C1 & C2 & C3 & C4 & _ & C6).
    repeat split; try congruence. apply (IHc c0 Ic Gc). unfold bk. repeat split; congruence.
  - destruct HG as (_ & H1 & _ & _ & _ & _ & _ & _ & G1 & G2).
    destruct (H1 (clean_nil _)) as ((_ & _ & _ & Ex) & _ & Bc1 & Bc2).
    destruct HI as (_ & _ & _ & _ & _ & _ & _ & _ & _ & _ & Ic1 & Ic2).
    repeat split; try congruence; eauto.
  - destruct HG as (_ & _ & Ms & H1). destruct (H1 (clean_nil _)) as (_ & _ & _ & Ex).
    destruct HI as (_ & _ & _ & _ & _ & _ & _ & _ & _ & Ms0).
    repeat split; congruence.
Qed.

Lemma HG_zeroed p : zeroed p -> HG [] p 0.
Proof.
  induction p as [f l IHl r IHr|f v c IHc|f v c1 IH1 c2 IH2|f v]; cbn [zeroed HG fields];
    intros (_ & Es & _ & _ & _ & _ & H); rewrite ?Es.
  - destruct H. split; [apply IHl | apply IHr]; assumption.
  - apply IHc. exact H.
  - destruct H. split; [apply IH1 | apply IH2]; assumption.
  - split; [exact H | cbn; lia].
Qed.

(** *** The lists of added leaves

    [ES l P]: [l] lists, once each, the taxa with [P]. *)
Definition ES (l : list nat) (P : nat -> Prop) : Prop := NoDup l /\ forall z, In z l <-> P z.

Fixpoint LI (A : list nat) (p : path) : Prop :=
  match p with
  | PT_node f l r =>
      exclude f = [] /\
      include_path (fields l) = [] /\
      ES (include_subtree (fields l)) (fun z => In z A /\ In z (hpt_leaves r)) /\
      ES (exclude_path (fields l)) (fun z => In z A /\ In z (hpt_leaves r)) /\
      ES (include_path (fields r)) (fun z => In z A /\ In z (hpt_leaves l)) /\
      ES (include_subtree (fields r)) (fun z => In z A /\ In z (hpt_leaves l)) /\
      exclude_path (fields r) = [] /\
      LI A l /\ LI A r
  | PT_leaf f v c =>
      ES (exclude f) (fun z => In z A /\ In z (hpt_leaves c)) /\
      include_path (fields c) = [] /\ include_subtree (fields c) = [] /\
      exclude_path (fields c) = [] /\ LI A c
  | PT_leaf2 f v c1 c2 =>
      ES (exclude f) (fun z => In z A /\ In z (hpt_leaves c1 ++ hpt_leaves c2)) /\
      ES (include_path (fields c1)) (fun z => In z A /\ In z (hpt_leaves c2)) /\
      ES (include_subtree (fields c1)) (fun z => In z A /\ In z (hpt_leaves c2)) /\
      ES (include_path (fields c2)) (fun z => In z A /\ In z (hpt_leaves c1)) /\
      ES (include_subtree (fields c2)) (fun z => In z A /\ In z (hpt_leaves c1)) /\
      exclude_path (fields c1) = [] /\ exclude_path (fields c2) = [] /\
      LI A c1 /\ LI A c2
  | HPT_leaf f v => ES (exclude f) (fun z => In z A /\ In z (leaves v))
  end.

Lemma ES_ext l (P Q : nat -> Prop) : (forall z, P z <-> Q z) -> ES l P -> ES l Q.
Proof. intros H [N M]. split; [exact N|]. intros z. rewrite M. apply H. Qed.

Lemma ES_nil (P : nat -> Prop) : (forall z, ~ P z) -> ES [] P.
Proof. intros H. split; [constructor|]. intros z. split; [intros []|apply H]. Qed.

Lemma ES_add A h l x : ES l (fun z => In z A /\ In z h) -> ~ In x A -> In x h ->
  ES (l ++ [x]) (fun z => In z (x :: A) /\ In z h).
Proof.
  intros [N M] Hx Hh. split.
  - apply NoDup_app; [exact N | repeat constructor; intros [] |].
    intros a Ha [<-|[]]. apply M in Ha. tauto.
  - intros z. rewrite in_app_iff, M. cbn. split.
    + intros [[H1 H2]|[<-|[]]]; auto.
    + intros [[<-|H1] H2]; auto.
Qed.

Lemma ES_out A h l x : ES l (fun z => In z A /\ In z h) -> ~ In x h ->
  ES l (fun z => In z (x :: A) /\ In z h).
Proof.
  intros H Hx. revert H. apply ES_ext. intros z. cbn. split; [tauto|].
  intros [[<-|H1] H2]; tauto.
Qed.

Lemma ES_restrict (A B : list nat) h l : (forall z, In z h -> (In z A <-> In z B)) ->
  ES l (fun z => In z A /\ In z h) -> ES l (fun z => In z B /\ In z h).
Proof.
  intros H. apply ES_ext. intros z. split; intros [H1 H2]; split; auto; apply (H z H2); auto.
Qed.

Lemma LI_ext A B p : (forall z, In z (hpt_leaves p) -> (In z A <-> In z B)) -> LI A p -> LI B p.
Proof.
  induction p as [f l IHl r IHr|f v c IHc|f v c1 IH1 c2 IH2|f v]; intros H HL; cbn [LI hpt_leaves] in *.
  - destruct HL as (E & Lp & Ls & Le & Rp & Rs & Re & Hl & Hr).
    assert (Hl' : forall z, In z (hpt_leaves l) -> (In z A <-> In z B))
      by (intros z Hz; apply H, in_or_app; auto).
    assert (Hr' : forall z, In z (hpt_leaves r) -> (In z A <-> In z B))
      by (intros z Hz; apply H, in_or_app; auto).
    split; [exact E|]. split; [exact Lp|].
    split; [exact (ES_restrict A B _ _ Hr' Ls)|]. split; [exact (ES_restrict A B _ _ Hr' Le)|].
    split; [exact (ES_restrict A B _ _ Hl' Rp)|]. split; [exact (ES_restrict A B _ _ Hl' Rs)|].
    split; [exact Re|]. split; [apply IHl; auto | apply IHr; auto].
  - destruct HL as (E & Cp & Cs & Ce & Hc).
    split; [exact (ES_restrict A B _ _ H E)|]. split; [exact Cp|]. split; [exact Cs|].
    split; [exact Ce | apply IHc; auto].
  - destruct HL as (E & P1 & S1 & P2 & S2 & E1 & E2 & L1 & L2).
    assert (H1 : forall z, In z (hpt_leaves c1) -> (In z A <-> In z B))
      by (intros z Hz; apply H, in_or_app; auto).
    assert (H2 : forall z, In z (hpt_leaves c2) -> (In z A <-> In z B))
      by (intros z Hz; apply H, in_or_app; auto).
    split; [exact (ES_restrict A B _ _ H E)|].
    split; [exact (ES_restrict A B _ _ H2 P1)|]. split; [exact (ES_restrict A B _ _ H2 S1)|].
    split; [exact (ES_restrict A B _ _ H1 P2)|]. split; [exact (ES_restrict A B _ _ H1 S2)|].
    split; [exact E1|]. split; [exact E2|]. split; [apply IH1; auto | apply IH2; auto].
  - exact (ES_restrict A B _ _ H HL).
Qed.

Lemma LI_with_fields A p g : LI A p -> exclude g = exclude (fields p) -> LI A (with_fields p g).
Proof.
  destruct p as [f l r|f v c|f v c1 c2|f v]; cbn [LI with_fields fields]; intros HL E; rewrite E; exact HL.
Qed.

Lemma LI_cons_out A x p : ~ In x (hpt_leaves p) -> LI A p -> LI (x :: A) p.
Proof.
  intros Hx. apply LI_ext. intros z Hz. cbn. split; [auto|]. intros [<-|H]; [contradiction|exact H].
Qed.

(** [add_leaf_HPT] of a leaf not yet added keeps the lists right. *)
Lemma LI_add A x p : forall pp ps, NoDup (hpt_leaves p) -> In x (hpt_leaves p) -> ~ In x A ->
  LI A p -> LI (x :: A) (add_leaf_rec x pp ps p).
Proof.
  induction p as [f l IHl r IHr|f v c IHc|f v c1 IH1 c2 IH2|f v]; intros pp ps ND Hx HA HL.
  - cbn [LI] in HL. destruct HL as (E & Lp & Ls & Le & Rp & Rs & Re & Hl & Hr).
    cbn [hpt_leaves] in ND, Hx.
    cbn [add_leaf_rec]. destruct (has_leaf x r) eqn:Hrx.
    + apply has_leaf_In in Hrx.
      assert (Hnl : ~ In x (hpt_leaves l)) by (intros H; exact (NoDup_app_disj _ _ _ ND H Hrx)).
      up_eq. destruct Bg as (_ & _ & _ & _ & Eg & _).
      match goal with |- context [add_leaf_rec x ?a ?b r] =>
        destruct (add_bookkeeping x a b r) as (_ & _ & Bip & Bis & Bep) end.
      cbn [LI]. rewrite !fields_with_fields, hpt_leaves_add, hpt_leaves_with_fields, Bip, Bis, Bep, Eg.
      cbn [set_sets set_diffs include_path include_subtree exclude exclude_path].
      split; [exact E|]. split; [exact Lp|].
      split; [apply ES_add; assumption|]. split; [apply ES_add; assumption|].
      split; [apply ES_out; assumption|]. split; [apply ES_out; assumption|]. split; [exact Re|].
      split.
      * apply LI_with_fields; [|reflexivity]. apply LI_cons_out; assumption.
      * apply IHr; auto. eapply NoDup_app_remove_l; exact ND.
    + assert (Hxl : In x (hpt_leaves l)).
      { apply in_app_or in Hx as [Hx|Hx]; [exact Hx|]. apply has_leaf_In in Hx. congruence. }
      assert (Hnr : ~ In x (hpt_leaves r)) by (intros H; exact (NoDup_app_disj _ _ _ ND Hxl H)).
      up_eq. destruct Bg as (_ & _ & _ & _ & Eg & _).
      match goal with |- context [add_leaf_rec x ?a ?b l] =>
        destruct (add_bookkeeping x a b l) as (_ & _ & Bip & Bis & Bep) end.
      cbn [LI]. rewrite !fields_with_fields, hpt_leaves_add, hpt_leaves_with_fields, Bip, Bis, Bep, Eg.
      cbn [set_sets set_diffs include_path include_subtree exclude exclude_path].
      split; [exact E|]. split; [exact Lp|].
      split; [apply ES_out; assumption|]. split; [apply ES_out; assumption|].
      split; [apply ES_add; assumption|]. split; [apply ES_add; assumption|]. split; [exact Re|].
      split.
      * apply IHl; auto. eapply NoDup_app_remove_r; exact ND.
      * apply LI_with_fields; [|reflexivity]. apply LI_cons_out; assumption.
  - cbn [LI] in HL. destruct HL as (E & Cp & Cs & Ce & Hc). cbn [hpt_leaves] in ND, Hx.
    cbn [add_leaf_rec]. up_eq. destruct Bg as (_ & _ & _ & _ & Eg & _).
    match goal with |- context [add_leaf_rec x ?a ?b c] =>
      destruct (add_bookkeeping x a b c) as (_ & _ & Bip & Bis & Bep) end.
    cbn [LI]. rewrite hpt_leaves_add, Bip, Bis, Bep, Eg.
    cbn [set_sets set_diffs set_dpath exclude].
    split; [apply ES_add; assumption|]. split; [exact Cp|]. split; [exact Cs|].
    split; [exact Ce | apply IHc; auto].
  - cbn [LI] in HL. destruct HL as (E & P1 & S1 & P2 & S2 & E1 & E2 & L1 & L2).
    cbn [hpt_leaves] in ND, Hx.
    cbn [add_leaf_rec]. destruct (has_leaf x c1) eqn:H1x.
    + apply has_leaf_In in H1x.
      assert (Hn2 : ~ In x (hpt_leaves c2)) by (intros H; exact (NoDup_app_disj _ _ _ ND H1x H)).
      up_eq. destruct Bg as (_ & _ & _ & _ & Eg & _).
      match goal with |- context [add_leaf_rec x ?a ?b c1] =>
        destruct (add_bookkeeping x a b c1) as (_ & _ & Bip & Bis & Bep) end.
      cbn [LI]. rewrite !fields_with_fields, hpt_leaves_add, hpt_leaves_with_fields, Bip, Bis, Bep, Eg.
      cbn [set_sets set_diffs set_dpath include_path include_subtree exclude exclude_path].
      split; [apply ES_add; [assumption | assumption | apply in_or_app; auto]|].
      split; [apply ES_out; assumption|]. split; [apply ES_out; assumption|].
      split; [apply ES_add; assumption|]. split; [apply ES_add; assumption|].
      split; [exact E1|]. split; [exact E2|].
      split.
      * apply IH1; auto. eapply NoDup_app_remove_r; exact ND.
      * apply LI_with_fields; [|reflexivity]. apply LI_cons_out; assumption.
    + assert (H2x : In x (hpt_leaves c2)).
      { apply in_app_or in Hx as [Hx|Hx]; [|exact Hx]. apply has_leaf_In in Hx. congruence. }
      assert (Hn1 : ~ In x (hpt_leaves c1)) by (intros H; exact (NoDup_app_disj _ _ _ ND H H2x)).
      up_eq. destruct Bg as (_ & _ & _ & _ & Eg & _).
      match goal with |- context [add_leaf_rec x ?a ?b c2] =>
        destruct (add_bookkeeping x a b c2) as (_ & _ & Bip & Bis & Bep) end.
      cbn [LI]. rewrite !fields_with_fields, hpt_leaves_add, hpt_leaves_with_fields, Bip, Bis, Bep, Eg.
      cbn [set_sets set_diffs set_dpath include_path include_subtree exclude exclude_path].
      split; [apply ES_add; [assumption | assumption | apply in_or_app; auto]|].
      split; [apply ES_add; assumption|]. split; [apply ES_add; assumption|].
      split; [apply ES_out; assumption|]. split; [apply ES_out; assumption|].
      split; [exact E1|]. split; [exact E2|].
      split.
      * apply LI_with_fields; [|reflexivity]. apply LI_cons_out; assumption.
      * apply IH2; auto. eapply NoDup_app_remove_l; exact ND.
  - cbn [LI] in HL |- *. cbn [hpt_leaves] in Hx. cbn [add_leaf_rec].
    cbn [LI set_sets set_diffs set_dpath exclude]. apply ES_add; assumption.
Qed.

Lemma LI_adds S : forall A p, NoDup (hpt_leaves p) -> incl S (hpt_leaves p) -> NoDup (S ++ A) ->
  LI A p -> LI (rev S ++ A) (adds S p).
Proof.
  induction S as [|x S IH]; intros A p ND Hin HD HL; [exact HL|].
  cbn [adds fold_left rev]. rewrite <- app_assoc. cbn [app].
  inversion HD as [|? ? Hx HD']; subst.
  apply IH.
  - unfold add_leaf_HPT. rewrite hpt_leaves_add. exact ND.
  - unfold add_leaf_HPT. rewrite hpt_leaves_add. intros y Hy. apply Hin. right. exact Hy.
  - apply Permutation_NoDup with (x :: S ++ A); [apply Permutation_middle | exact HD].
  - unfold add_leaf_HPT. apply LI_add; auto.
    + apply Hin. left. reflexivity.
    + intros H. apply Hx. apply in_or_app. right. exact H.
Qed.

Lemma LI_zeroed p : zeroed p -> LI [] p.
Proof.
  assert (N : forall h, ES [] (fun z => In z [] /\ In z h)) by (intros h; apply ES_nil; intros z [[] _]).
  induction p as [f l IHl r IHr|f v c IHc|f v c1 IH1 c2 IH2|f v]; cbn [zeroed fields LI];
    intros (_ & _ & _ & _ & Ex & _ & H); rewrite Ex.
  - destruct H as [Zl Zr].
    destruct (zeroed_head l Zl) as (_ & _ & L1 & L2 & _ & L4).
    destruct (zeroed_head r Zr) as (_ & _ & R1 & R2 & _ & R4).
    rewrite L1, L2, L4, R1, R2, R4. repeat first [apply N | split]; auto.
  - destruct (zeroed_head c H) as (_ & _ & C1 & C2 & _ & C4).
    repeat first [apply N | split]; auto.
  - destruct H as [Z1 Z2].
    destruct (zeroed_head c1 Z1) as (_ & _ & L1 & L2 & _ & L4).
    destruct (zeroed_head c2 Z2) as (_ & _ & R1 & R2 & _ & R4).
    rewrite L1, L2, R1, R2. repeat first [apply N | split]; auto.
  - apply N.
Qed.

(** [add_nonexcluded_from_HPT_subtree] gives the leaves below not added. *)
Lemma ES_full A h e : NoDup h -> ES e (fun z => In z A /\ In z h) -> length e = length h ->
  forall z, In z h -> In z A.
Proof.
  intros NH [N M] Hl z Hz.
  assert (Hinc : incl e h) by (intros y Hy; apply M in Hy; tauto).
  assert (H : incl h e) by (apply NoDup_length_incl; [exact N | lia | exact Hinc]).
  apply H, M in Hz. tauto.
Qed.

Lemma nonex_eq n : add_nonexcluded_from_HPT_subtree n =
  if Nat.eqb (length (exclude (fields n))) (num_hpt_leaves n) then []
  else
    match n with
    | HPT_leaf _ v => leaves v
    | PT_node _ l r => add_nonexcluded_from_HPT_subtree l ++ add_nonexcluded_from_HPT_subtree r
    | PT_leaf _ _ c => add_nonexcluded_from_HPT_subtree c
    | PT_leaf2 _ _ c1 c2 =>
        add_nonexcluded_from_HPT_subtree c1 ++ add_nonexcluded_from_HPT_subtree c2
    end.
Proof. destruct n; reflexivity. Qed.

Lemma nonex_app A l r : NoDup (hpt_leaves l ++ hpt_leaves r) ->
  (NoDup (add_nonexcluded_from_HPT_subtree l) /\
   forall z, In z (add_nonexcluded_from_HPT_subtree l) <-> In z (hpt_leaves l) /\ ~ In z A) ->
  (NoDup (add_nonexcluded_from_HPT_subtree r) /\
   forall z, In z (add_nonexcluded_from_HPT_subtree r) <-> In z (hpt_leaves r) /\ ~ In z A) ->
  NoDup (add_nonexcluded_from_HPT_subtree l ++ add_nonexcluded_from_HPT_subtree r) /\
  forall z, In z (add_nonexcluded_from_HPT_subtree l ++ add_nonexcluded_from_HPT_subtree r) <->
            In z (hpt_leaves l ++ hpt_leaves r) /\ ~ In z A.
Proof.
  intros ND [N1 M1] [N2 M2]. split.
  - apply NoDup_app; [exact N1 | exact N2 |]. intros a Ha1 Ha2.
    apply M1 in Ha1. apply M2 in Ha2. exact (NoDup_app_disj _ _ _ ND (proj1 Ha1) (proj1 Ha2)).
  - intros z. rewrite in_app_iff, M1, M2, in_app_iff. tauto.
Qed.

Lemma nonex_all A h e : NoDup h -> ES e (fun z => In z A /\ In z h) -> length e = length h ->
  NoDup (@nil nat) /\ forall z, In z [] <-> In z h /\ ~ In z A.
Proof.
  intros ND E H0. split; [constructor|]. intros z. cbn. split; [intros []|].
  intros [Hz Hn]. apply Hn. exact (ES_full A _ _ ND E H0 z Hz).
Qed.

Lemma nonex_spec A q : WF (shape q) -> NoDup (hpt_leaves q) -> LI A q ->
  NoDup (add_nonexcluded_from_HPT_subtree q) /\
  forall z, In z (add_nonexcluded_from_HPT_subtree q) <-> In z (hpt_leaves q) /\ ~ In z A.
Proof.
  induction q as [f l IHl r IHr|f v c IHc|f v c1 IH1 c2 IH2|f v]; intros HW ND HL.
  - cbn [LI] in HL. destruct HL as (E & _ & _ & _ & _ & _ & _ & Hl & Hr).
    cbn [shape WF] in HW. destruct HW as (Wl & Wr & _).
    rewrite nonex_eq. cbn [fields]. rewrite E. unfold num_hpt_leaves. cbn [length hpt_leaves].
    cbn [hpt_leaves] in ND.
    destruct (Nat.eqb_spec 0 (length (hpt_leaves l ++ hpt_leaves r))) as [H0|H0].
    + symmetry in H0. apply length_zero_iff_nil in H0. rewrite H0.
      split; [constructor|]. intros z. cbn. tauto.
    + apply nonex_app; [exact ND | exact (IHl Wl (NoDup_app_remove_r _ _ ND) Hl)
                       | exact (IHr Wr (NoDup_app_remove_l _ _ ND) Hr)].
  - cbn [LI] in HL. destruct HL as (E & _ & _ & _ & Hc).
    cbn [shape WF] in HW. destruct HW as (Wc & _). cbn [hpt_leaves] in ND |- *.
    rewrite nonex_eq. cbn [fields]. unfold num_hpt_leaves. cbn [hpt_leaves].
    destruct (Nat.eqb_spec (length (exclude f)) (length (hpt_leaves c))) as [H0|H0].
    + exact (nonex_all A _ _ ND E H0).
    + exact (IHc Wc ND Hc).
  - cbn [LI] in HL. destruct HL as (E & _ & _ & _ & _ & _ & _ & L1 & L2).
    cbn [shape WF] in HW. destruct HW as (W1 & W2 & _). cbn [hpt_leaves] in ND |- *.
    rewrite nonex_eq. cbn [fields]. unfold num_hpt_leaves. cbn [hpt_leaves].
    destruct (Nat.eqb_spec (length (exclude f)) (length (hpt_leaves c1 ++ hpt_leaves c2))) as [H0|H0].
    + exact (nonex_all A _ _ ND E H0).
    + apply nonex_app; [exact ND | exact (IH1 W1 (NoDup_app_remove_r _ _ ND) L1)
                       | exact (IH2 W2 (NoDup_app_remove_l _ _ ND) L2)].
  - cbn [shape WF] in HW. destruct HW as [y ->]. cbn [LI leaves] in HL.
    rewrite nonex_eq. cbn [fields]. unfold num_hpt_leaves. cbn [hpt_leaves leaves length].
    destruct (Nat.eqb_spec (length (exclude f)) 1) as [H0|H0].
    + exact (nonex_all A [y] _ ltac:(repeat constructor; intros []) HL H0).
    + split; [repeat constructor; intros []|]. intros z. cbn. split.
      * intros [<-|[]]. split; [left; reflexivity|]. intros Hz. apply H0.
        destruct HL as [N M].
        assert (Hinc : incl (exclude f) [y]) by (intros w Hw; apply M in Hw; tauto).
        pose proof (NoDup_incl_length N Hinc) as Hle. cbn in Hle.
        assert (Hin : In y (exclude f)) by (apply M; split; [exact Hz | left; reflexivity]).
        destruct (exclude f) as [|a e]; [destruct Hin|]. cbn in Hle |- *. lia.
      * intros [[<-|[]] _]. left. reflexivity.
Qed.

(** *** The descent of [get_x_path]

    [chain q ctx n]: [ctx] lists the Paths from [q] down to [n], each with
    the way taken below it, as [x_descend] returns them. *)

Inductive chain : path -> list (path * dir) -> path -> Prop :=
| ch_here n : chain n [] n
| ch_right f l r ctx n : chain r ctx n -> chain (PT_node f l r) ((PT_node f l r, DRight) :: ctx) n
| ch_left f l r ctx n : chain l ctx n -> chain (PT_node f l r) ((PT_node f l r, DLeft) :: ctx) n
| ch_child f v c ctx n : chain c ctx n -> chain (PT_leaf f v c) ((PT_leaf f v c, DChild) :: ctx) n
| ch_child1 f v c1 c2 ctx n : chain c1 ctx n ->
    chain (PT_leaf2 f v c1 c2) ((PT_leaf2 f v c1 c2, DChild) :: ctx) n
| ch_child2 f v c1 c2 ctx n : chain c2 ctx n ->
    chain (PT_leaf2 f v c1 c2) ((PT_leaf2 f v c1 c2, DChild2) :: ctx) n.

(** Whether the descent went down to a child heavy path. *)
Fixpoint has_child (ctx : list (path * dir)) : bool :=
  match ctx with
  | [] => false
  | (_, DChild) :: _ => true
  | (_, DChild2) :: _ => true
  | _ :: ctx' => has_child ctx'
  end.

(** The entries after which [include_ancestral] stops adding right
    siblings. *)
Fixpoint kill (rctx : list (path * dir)) : bool :=
  match rctx with
  | [] => false
  | (PT_node _ _ _, DRight) :: rctx' => kill rctx'
  | (PT_node _ _ _, DLeft) :: rctx' => kill rctx'
  | _ :: _ => true
  end.

Definition entry_ok (e : path * dir) : Prop :=
  match e with
  | (PT_node _ _ _, DRight) | (PT_node _ _ _, DLeft) | (PT_leaf _ _ _, DChild)
  | (PT_leaf2 _ _ _ _, DChild) | (PT_leaf2 _ _ _ _, DChild2) => True
  | _ => False
  end.

Definition is_PT_node (p : path) : bool :=
  match p with PT_node _ _ _ => true | _ => false end.

Definition is_child_dir (d : dir) : bool :=
  match d with DChild | DChild2 => true | _ => false end.

(** The target is an extreme of the distances over [S]. *)
Definition ext (um : bool) (A : list nat) (t : Z) (S : list tree) : Prop :=
  forall w, In w S -> if um then tdist A w <= t else t <= tdist A w.

(** The nodes the value [get_ti_x_mod] reads at a Path ranges over: all
    of them for the min, those the mask selects for the max. *)
Definition cov (um : bool) (m : msk) (p : path) : list tree :=
  rng p ++ (if um then pndM m (shape p) else pnd p).

Lemma chain_entries q ctx n : chain q ctx n -> Forall entry_ok ctx.
Proof. induction 1; constructor; cbn; auto. Qed.

Lemma chain_in q ctx n : chain q ctx n -> forall w, In w (rng n) ->
  In w (if has_child ctx then pnd q else rng q).
Proof.
  induction 1 as [n|f l r ctx n H IH|f l r ctx n H IH|f v c ctx n H IH
                 |f v c1 c2 ctx n H IH|f v c1 c2 ctx n H IH]; intros w Hw;
    cbn [has_child]; unfold rng, pnd in *; cbn [shape rng_s pnd_s].
  - exact Hw.
  - specialize (IH w Hw). destruct (has_child ctx); apply in_or_app; right; exact IH.
  - specialize (IH w Hw). destruct (has_child ctx); apply in_or_app; left; exact IH.
  - specialize (IH w Hw). destruct (has_child ctx); apply in_or_app; [right|left]; exact IH.
  - specialize (IH w Hw). apply in_or_app; left. destruct (has_child ctx); apply in_or_app; auto.
  - specialize (IH w Hw). apply in_or_app; right. destruct (has_child ctx); apply in_or_app; auto.
Qed.

Lemma has_child_app l1 l2 : has_child (l1 ++ l2) = has_child l1 || has_child l2.
Proof.
  induction l1 as [|[p d] l1 IH]; [reflexivity|]. destruct d; cbn [app has_child]; auto.
Qed.

Lemma has_child_rev l : has_child (rev l) = has_child l.
Proof.
  induction l as [|[p d] l IH]; [reflexivity|]. cbn [rev]. rewrite has_child_app, IH.
  destruct d; cbn; rewrite ?orb_false_r, ?orb_true_r; reflexivity.
Qed.

Lemma ok_PT_leaf l : Forall entry_ok l -> existsb is_PT_leaf (map fst l) = has_child l.
Proof.
  induction 1 as [|[p d] l He _ IH]; [reflexivity|].
  destruct p, d; cbn in He |- *; try contradiction; auto.
Qed.

Lemma ok_kill l : Forall entry_ok l -> kill l = has_child l.
Proof.
  induction 1 as [|[p d] l He _ IH]; [reflexivity|].
  destruct p, d; cbn in He |- *; try contradiction; auto.
Qed.

Lemma existsb_rev {X : Type} (g : X -> bool) l : existsb g (rev l) = existsb g l.
Proof.
  induction l as [|x l IH]; [reflexivity|]. cbn [rev existsb]. rewrite existsb_app, IH.
  cbn. rewrite orb_false_r. apply orb_comm.
Qed.

Lemma chain_PT_leaf q ctx n : chain q ctx n ->
  existsb is_PT_leaf (rev (map fst ctx)) = has_child ctx.
Proof. intros H. rewrite existsb_rev. apply ok_PT_leaf, (chain_entries q ctx n H). Qed.

Lemma chain_kill q ctx n : chain q ctx n -> kill (rev ctx) = has_child ctx.
Proof.
  intros H. rewrite ok_kill, has_child_rev; [reflexivity|].
  apply Forall_rev, (chain_entries q ctx n H).
Qed.

(** The loops of the set functions, one entry further up. *)
Lemma split_noleaf ps : existsb is_PT_leaf ps = false -> split_in_PT false ps = (ps, []).
Proof.
  induction ps as [|p ps IH]; [reflexivity|]. cbn [existsb split_in_PT negb andb].
  intros H. apply orb_false_iff in H as [H1 H2]. rewrite H1, IH by exact H2. reflexivity.
Qed.

Lemma split_snoc ps a : split_in_PT false (ps ++ [a]) =
  if existsb is_PT_leaf ps then (fst (split_in_PT false ps), snd (split_in_PT false ps) ++ [a])
  else if is_PT_leaf a then (ps, [a]) else (ps ++ [a], []).
Proof.
  induction ps as [|p ps IH]; cbn [split_in_PT app existsb negb andb].
  - destruct (is_PT_leaf a); reflexivity.
  - destruct (is_PT_leaf p); cbn [orb]; [reflexivity|].
    rewrite IH. destruct (split_in_PT false ps) as [i o].
    destruct (existsb is_PT_leaf ps); [reflexivity|]. destruct (is_PT_leaf a); reflexivity.
Qed.

Lemma ms_snoc rc e : min_siblings (rc ++ [e]) =
  min_siblings rc ++ (if has_child rc then [] else min_siblings [e]).
Proof.
  induction rc as [|[[f l r|f v c|f v c1 c2|f v] []] rc IH]; cbn [app min_siblings has_child];
    rewrite ?IH; try reflexivity.
  all: destruct e as [[] []]; cbn; rewrite ?app_nil_r, ?app_assoc; reflexivity.
Qed.

Lemma ia_snoc rc e : forall b, include_ancestral b (rc ++ [e]) =
  include_ancestral b rc ++ include_ancestral (b && negb (kill rc)) [e].
Proof.
  induction rc as [|[[f l r|f v c|f v c1 c2|f v] []] rc IH]; intros b; cbn [app include_ancestral kill];
    rewrite ?IH, ?andb_false_l, ?andb_false_r; try reflexivity.
  - cbn [negb]. rewrite andb_true_r. reflexivity.
  - rewrite app_assoc. reflexivity.
  - rewrite app_assoc. reflexivity.
  - rewrite app_assoc. reflexivity.
  - rewrite app_assoc. reflexivity.
Qed.

(** *** The value read at a Path is the target exactly when the target is
    reached below it *)

Lemma flen_le {X : Type} (g : X -> bool) l : (length (filter g l) <= length l)%nat.
Proof. induction l as [|x l IH]; cbn; [lia|]. destruct (g x); cbn; lia. Qed.

Lemma flen_lt {X : Type} (g : X -> bool) l x : In x l -> g x = false ->
  (length (filter g l) < length l)%nat.
Proof.
  induction l as [|y l IH]; intros Hx Hg; [destruct Hx|]. cbn.
  destruct Hx as [<-|Hx].
  - rewrite Hg. pose proof (flen_le g l). lia.
  - destruct (g y); cbn; [specialize (IH Hx Hg); lia | pose proof (flen_le g l); lia].
Qed.

Lemma tdist_leaf A y : tdist A (Leaf y) =
  Z.of_nat ((if mem y A then 0 else 1) + length (filter (fun z => negb (mem z [y])) A)).
Proof. unfold tdist. cbn [leaves filter]. destruct (mem y A); reflexivity. Qed.

Lemma mem_self y : mem y [y] = true.
Proof. apply mem_In. left. reflexivity. Qed.

(** At an HPT leaf, above the number of added leaves. *)
Lemma HPT_value um A t f y m ap as_ :
  (um = true -> Z.of_nat (length A) < t) -> INV A (HPT_leaf f (Leaf y)) m ap as_ ->
  (um = true -> HG A (HPT_leaf f (Leaf y)) as_) ->
  (get_ti_x_mod (HPT_leaf f (Leaf y)) ap as_ um = t <-> tdist A (Leaf y) = t).
Proof.
  intros Ht HV HG0. cbn [INV] in HV. destruct HV as [V1 V2].
  destruct um; unfold get_ti_x_mod, get_ti_max_mod, get_ti_min_mod; cbn [fields is_HPT_leaf].
  - destruct (HG0 eq_refl) as [E B]. cbn [leaves] in B. rewrite CInt.max_spec, E.
    specialize (Ht eq_refl). rewrite V2. rewrite tdist_leaf.
    destruct (mem y A) eqn:Hy.
    + apply mem_In in Hy.
      pose proof (flen_lt (fun z => negb (mem z [y])) A y Hy
                    ltac:(change (negb (mem y [y]) = false); rewrite mem_self; reflexivity)).
      split; intros; lia.
    + split; intros; lia.
  - rewrite V1. reflexivity.
Qed.

Definition is_x (um : bool) (A : list nat) (a : Z) (S : list tree) : Prop :=
  if um then is_max A a S else is_min A a S.

(** Away from the HPT leaves, the value is the extreme over the nodes it
    ranges over. *)
Lemma x_value um A c m ap as_ : INV A c m ap as_ -> is_HPT_leaf c = false ->
  is_x um A (get_ti_x_mod c ap as_ um) (cov um m c).
Proof.
  intros HV Hh. assert (Hr := INV_path _ _ _ _ _ HV). assert (Hs := INV_subtree _ _ _ _ _ HV Hh).
  unfold is_x, cov. destruct um; unfold get_ti_x_mod, get_ti_max_mod, get_ti_min_mod.
  - rewrite CInt.max_spec. apply is_max_app; tauto.
  - rewrite Hh, CInt.min_spec. apply is_min_app; tauto.
Qed.

Lemma is_x_target um A a t S : is_x um A a S -> ext um A t S ->
  (a = t <-> exists w, In w S /\ tdist A w = t).
Proof.
  unfold is_x, ext. destruct um; intros [H1 (v & Hv & E)] H2; split.
  - intros <-. exists v. auto.
  - intros (w & Hw & Ew). specialize (H1 w Hw). specialize (H2 v Hv). lia.
  - intros <-. exists v. auto.
  - intros (w & Hw & Ew). specialize (H1 w Hw). specialize (H2 v Hv). lia.
Qed.

Lemma is_x_sel um A t S : is_x um A t S -> ext um A t S /\ exists w, In w S /\ tdist A w = t.
Proof.
  unfold is_x, ext. destruct um; intros [H1 H2]; split; auto.
Qed.

Lemma cov_HPT um m f y : cov um m (HPT_leaf f (Leaf y)) = [Leaf y].
Proof. unfold cov, rng, pnd. destruct um; reflexivity. Qed.

Lemma faithful um A t c m ap as_ :
  (um = true -> Z.of_nat (length A) < t) -> WF (shape c) -> INV A c m ap as_ ->
  (um = true -> HG A c as_) -> ext um A t (cov um m c) ->
  (get_ti_x_mod c ap as_ um = t <-> exists w, In w (cov um m c) /\ tdist A w = t).
Proof.
  intros Ht HW HV HG0 He.
  destruct (is_HPT_leaf c) eqn:Hh.
  - destruct c as [f l r|f v c'|f v c1 c2|f v]; try discriminate.
    cbn [shape WF] in HW. destruct HW as [y ->].
    rewrite (HPT_value um A t f y m ap as_ Ht HV HG0), cov_HPT. split.
    + intros E. exists (Leaf y). split; [left; reflexivity | exact E].
    + intros (w & [<-|[]] & E). exact E.
  - apply (is_x_target um); [apply x_value; assumption | exact He].
Qed.

(** A value at the target: the target is the extreme below, and reached. *)
Lemma faithful_sel um A t c m ap as_ :
  (um = true -> Z.of_nat (length A) < t) -> WF (shape c) -> INV A c m ap as_ ->
  (um = true -> HG A c as_) -> get_ti_x_mod c ap as_ um = t ->
  ext um A t (cov um m c) /\ exists w, In w (cov um m c) /\ tdist A w = t.
Proof.
  intros Ht HW HV HG0 E.
  destruct (is_HPT_leaf c) eqn:Hh.
  - destruct c as [f l r|f v c'|f v c1 c2|f v]; try discriminate.
    cbn [shape WF] in HW. destruct HW as [y ->].
    apply (HPT_value um A t f y m ap as_ Ht HV HG0) in E. rewrite cov_HPT. split.
    + intros w [<-|[]]. destruct um; lia.
    + exists (Leaf y). split; [left; reflexivity | exact E].
  - apply (is_x_sel um). rewrite <- E. apply x_value; assumption.
Qed.

Lemma ext_sub um A t S S' : incl S' S -> ext um A t S -> ext um A t S'.
Proof. intros H He w Hw. apply He, H, Hw. Qed.

Lemma cov_node um m f l r w : In w (cov um m (PT_node f l r)) <->
  In w (cov um (mL m) l) \/ In w (cov um (mR m) r).
Proof.
  unfold cov, rng, pnd. cbn [shape rng_s pnd_s pndM].
  destruct um; rewrite !in_app_iff; tauto.
Qed.

Lemma cov_leaf um m f v c w : In w (cov um m (PT_leaf f v c)) <-> w = v \/ In w (cov um (mL m) c).
Proof.
  unfold cov, rng, pnd. cbn [shape rng_s pnd_s pndM]. rewrite !in_app_iff. cbn [In].
  destruct um; rewrite ?in_app_iff; intuition congruence.
Qed.

Lemma cov_leaf2 um m f v c1 c2 w : In w (cov um m (PT_leaf2 f v c1 c2)) <->
  w = v \/ ((um = false \/ mb1 m = true) /\ In w (cov um (mL m) c1)) \/
  ((um = false \/ mb2 m = true) /\ In w (cov um (mR m) c2)).
Proof.
  unfold cov, rng, pnd. cbn [shape rng_s pnd_s pndM]. cbn [In app].
  destruct um, (mb1 m), (mb2 m); rewrite ?in_app_iff; cbn [In];
    intuition (try congruence; try discriminate).
Qed.

(** [x_descend] stops at a PT leaf or an HPT leaf whose node is at the
    target distance. *)
Lemma descend um A t (Ht : um = true -> Z.of_nat (length A) < t) :
  forall p m ap as_ accp accs, WF (shape p) -> INV A p m ap as_ -> (um = true -> HG A p as_) ->
  ext um A t (cov um m p) -> (exists w, In w (cov um m p) /\ tdist A w = t) ->
  accp = ap + diff_path (fields p) -> accs = as_ + diff_subtree (fields p) ->
  chain p (fst (x_descend um t p accp accs)) (snd (x_descend um t p accp accs)) /\
  is_PT_node (snd (x_descend um t p accp accs)) = false /\
  exists w, rng (snd (x_descend um t p accp accs)) = [w] /\ tdist A w = t.
Proof.
  induction p as [f l IHl r IHr|f v c IHc|f v c1 IH1 c2 IH2|f v];
    intros m ap as_ accp accs HW HV HG0 He Hx Ep Es;
    cbn [fields] in Ep, Es; cbn [x_descend].
  - cbn [shape WF] in HW. destruct HW as (Wl & Wr & _).
    cbn [INV] in HV. destruct HV as (_ & _ & _ & _ & Vl & Vr).
    assert (Gl : um = true -> HG A l (as_ + diff_subtree f)) by (intros E; apply (HG0 E)).
    assert (Gr : um = true -> HG A r (as_ + diff_subtree f)) by (intros E; apply (HG0 E)).
    subst accp accs.
    destruct (Z.eqb_spec (get_ti_x_mod r (ap + diff_path f) (as_ + diff_subtree f) um) t) as [Er|Er].
    + destruct (faithful_sel um A t r _ _ _ Ht Wr Vr Gr Er) as [Exr Hxr].
      destruct (IHr (mR m) (ap + diff_path f) (as_ + diff_subtree f) _ _ Wr Vr Gr Exr Hxr
                  eq_refl eq_refl) as (C & N & W).
      destruct (x_descend um t r _ _) as [ctx n]. cbn [fst snd] in *.
      split; [apply ch_right; exact C | split; assumption].
    + destruct (Z.eqb_spec (get_ti_x_mod l (ap + diff_path f) (as_ + diff_subtree f) um) t) as [El|El].
      * destruct (faithful_sel um A t l _ _ _ Ht Wl Vl Gl El) as [Exl Hxl].
        destruct (IHl (mL m) (ap + diff_path f) (as_ + diff_subtree f) _ _ Wl Vl Gl Exl Hxl
                    eq_refl eq_refl) as (C & N & W).
        destruct (x_descend um t l _ _) as [ctx n]. cbn [fst snd] in *.
        split; [apply ch_left; exact C | split; assumption].
      * exfalso. destruct Hx as (w & Hw & Ew). apply cov_node in Hw as [Hw|Hw].
        -- apply El. apply (faithful um A t l (mL m) _ _ Ht Wl Vl Gl).
           ++ apply (ext_sub _ _ _ _ _ (fun z H => proj2 (cov_node um m f l r z) (or_introl H)) He).
           ++ exists w. auto.
        -- apply Er. apply (faithful um A t r (mR m) _ _ Ht Wr Vr Gr).
           ++ apply (ext_sub _ _ _ _ _ (fun z H => proj2 (cov_node um m f l r z) (or_intror H)) He).
           ++ exists w. auto.
  - cbn [shape WF] in HW. destruct HW as (Wc & _).
    cbn [INV] in HV. destruct HV as (_ & _ & _ & _ & _ & _ & Vc).
    assert (Gc : um = true -> HG A c (as_ + diff_subtree f)) by (intros E; apply (HG0 E)).
    subst accp accs.
    destruct (Z.eqb_spec (get_ti_x_mod c (as_ + diff_subtree f) (as_ + diff_subtree f) um) t) as [Ec|Ec].
    + destruct (faithful_sel um A t c _ _ _ Ht Wc Vc Gc Ec) as [Exc Hxc].
      destruct (IHc (mL m) (as_ + diff_subtree f) (as_ + diff_subtree f)
                  (diff_path (fields c) + (as_ + diff_subtree f)) (diff_subtree (fields c) + (as_ + diff_subtree f))
                  Wc Vc Gc Exc Hxc
                  ltac:(lia) ltac:(lia)) as (C & N & W).
      destruct (x_descend um t c _ _) as [ctx n]. cbn [fst snd] in *.
      split; [apply ch_child; exact C | split; assumption].
    + cbn [fst snd]. split; [constructor | split; [reflexivity|]].
      exists v. split; [reflexivity|].
      destruct Hx as (w & Hw & Ew). apply cov_leaf in Hw as [<-|Hw]; [exact Ew|].
      exfalso. apply Ec. apply (faithful um A t c (mL m) _ _ Ht Wc Vc Gc).
      * apply (ext_sub _ _ _ _ _ (fun z H => proj2 (cov_leaf um m f v c z) (or_intror H)) He).
      * exists w. auto.
  - cbn [shape WF] in HW. destruct HW as (W1 & W2 & _).
    cbn [INV] in HV. destruct HV as (_ & _ & _ & _ & _ & _ & V1 & V2).
    assert (G1 : um = true -> HG A c1 (as_ + diff_subtree f)) by (intros E; apply (HG0 E)).
    assert (G2 : um = true -> HG A c2 (as_ + diff_subtree f)) by (intros E; apply (HG0 E)).
    subst accp accs.
    destruct (Z.eqb_spec (get_ti_x_mod c1 (as_ + diff_subtree f) (as_ + diff_subtree f) um) t) as [E1|E1].
    + destruct (faithful_sel um A t c1 _ _ _ Ht W1 V1 G1 E1) as [Ex1 Hx1].
      destruct (IH1 (mL m) (as_ + diff_subtree f) (as_ + diff_subtree f)
                  (diff_path (fields c1) + (as_ + diff_subtree f)) (diff_subtree (fields c1) + (as_ + diff_subtree f))
                  W1 V1 G1 Ex1 Hx1
                  ltac:(lia) ltac:(lia)) as (C & N & W).
      destruct (x_descend um t c1 _ _) as [ctx n]. cbn [fst snd] in *.
      split; [apply ch_child1; exact C | split; assumption].
    + destruct (Z.eqb_spec (get_ti_x_mod c2 (as_ + diff_subtree f) (as_ + diff_subtree f) um) t) as [E2|E2].
      * destruct (faithful_sel um A t c2 _ _ _ Ht W2 V2 G2 E2) as [Ex2 Hx2].
        destruct (IH2 (mR m) (as_ + diff_subtree f) (as_ + diff_subtree f)
                  (diff_path (fields c2) + (as_ + diff_subtree f)) (diff_subtree (fields c2) + (as_ + diff_subtree f))
                  W2 V2 G2 Ex2 Hx2
                    ltac:(lia) ltac:(lia)) as (C & N & W).
        destruct (x_descend um t c2 _ _) as [ctx n]. cbn [fst snd] in *.
        split; [apply ch_child2; exact C | split; assumption].
      * cbn [fst snd]. split; [constructor | split; [reflexivity|]].
        exists v. split; [reflexivity|].
        destruct Hx as (w & Hw & Ew). apply cov_leaf2 in Hw as [<-|[[Hm Hw]|[Hm Hw]]]; [exact Ew| |].
        -- exfalso. apply E1. apply (faithful um A t c1 (mL m) _ _ Ht W1 V1 G1).
           ++ apply (ext_sub _ _ _ _ _
                (fun z H => proj2 (cov_leaf2 um m f v c1 c2 z) (or_intror (or_introl (conj Hm H)))) He).
           ++ exists w. auto.
        -- exfalso. apply E2. apply (faithful um A t c2 (mR m) _ _ Ht W2 V2 G2).
           ++ apply (ext_sub _ _ _ _ _
                (fun z H => proj2 (cov_leaf2 um m f v c1 c2 z) (or_intror (or_intror (conj Hm H)))) He).
           ++ exists w. auto.
  - cbn [fst snd]. split; [constructor | split; [reflexivity|]].
    exists v. split; [reflexivity|].
    destruct Hx as (w & Hw & Ew). unfold cov, rng, pnd in Hw. cbn [shape rng_s pnd_s pndM app] in Hw.
    destruct um; destruct Hw as [<-|[]]; exact Ew.
Qed.

(** *** The sets, built from the top of the descent down *)

Definition child_of (a : path) (d : dir) : path :=
  match a, d with
  | PT_node _ l _, DLeft => l
  | PT_node _ _ r, _ => r
  | PT_leaf _ _ c, _ => c
  | PT_leaf2 _ _ c1 _, DChild => c1
  | PT_leaf2 _ _ _ c2, _ => c2
  | HPT_leaf _ _, _ => a
  end.

(** The list the descent reads at [q], below which it took [ctx]. *)
Definition own_min (q : path) (ctx : list (path * dir)) : list nat :=
  if has_child ctx then include_subtree (fields q) else include_path (fields q).

Definition own_max (q : path) (ctx : list (path * dir)) : list nat :=
  if has_child ctx then [] else exclude_path (fields q).

Fixpoint emin (ctx : list (path * dir)) (n : path) : list nat :=
  match ctx with
  | [] => add_nonexcluded_from_HPT_subtree n
  | (a, d) :: ctx' =>
      own_min (child_of a d) ctx' ++ emin ctx' n ++
      (if has_child ctx' then [] else min_siblings [(a, d)])
  end.

Fixpoint emax (ctx : list (path * dir)) (n : path) : list nat :=
  match ctx with
  | [] => exclude (fields n)
  | (a, d) :: ctx' =>
      own_max (child_of a d) ctx' ++ emax ctx' n ++
      include_ancestral (negb (has_child ctx')) [(a, d)]
  end.

Lemma gm_eq ctx n : get_min_transfer_set_for_node_HPT ctx n =
  include_path (fields n) ++
  flat_map (fun p => include_path (fields p)) (fst (split_in_PT false (rev (map fst ctx)))) ++
  flat_map (fun p => include_subtree (fields p)) (snd (split_in_PT false (rev (map fst ctx)))) ++
  add_nonexcluded_from_HPT_subtree n ++ min_siblings (rev ctx).
Proof.
  unfold get_min_transfer_set_for_node_HPT, path_to_root. cbn [split_in_PT negb andb].
  destruct (split_in_PT false _) as [i o]. cbn [flat_map fst snd]. rewrite <- app_assoc. reflexivity.
Qed.

Lemma gx_eq ctx n : get_max_transfer_set_for_node_HPT ctx n =
  exclude_path (fields n) ++
  flat_map (fun p => exclude_path (fields p)) (fst (split_in_PT false (rev (map fst ctx)))) ++
  exclude (fields n) ++ include_ancestral true (rev ctx).
Proof.
  unfold get_max_transfer_set_for_node_HPT, path_to_root. cbn [split_in_PT negb andb].
  destruct (split_in_PT false _) as [i o]. cbn [flat_map fst snd]. rewrite <- app_assoc. reflexivity.
Qed.

Lemma perm_ins3 {X : Type} (U1 U2 V M W : list X) :
  Permutation (U1 ++ U2 ++ (V ++ M) ++ W) (M ++ U1 ++ U2 ++ V ++ W).
Proof.
  replace (U1 ++ U2 ++ (V ++ M) ++ W) with ((U1 ++ U2 ++ V) ++ M ++ W)
    by (rewrite <- !app_assoc; reflexivity).
  rewrite (Permutation_app_swap_app (U1 ++ U2 ++ V) M W). rewrite <- !app_assoc. reflexivity.
Qed.

(** The code's sets are the sets built from the top down. *)
Lemma perm_mv {X : Type} (U1 V M W : list X) :
  Permutation (U1 ++ V ++ M ++ W) (M ++ U1 ++ V ++ W).
Proof.
  rewrite (app_assoc U1 V), (app_assoc U1 V W).
  apply Permutation_app_swap_app.
Qed.

Lemma has_child_cons a d ctx : has_child ((a, d) :: ctx) = is_child_dir d || has_child ctx.
Proof. destruct d; reflexivity. Qed.

Lemma gm_step a d ctx n Y :
  existsb is_PT_leaf (rev (map fst ctx)) = has_child ctx ->
  is_PT_leaf a = is_child_dir d ->
  Permutation (get_min_transfer_set_for_node_HPT ctx n) Y ->
  Permutation (get_min_transfer_set_for_node_HPT ((a, d) :: ctx) n)
    ((if has_child ((a, d) :: ctx) then include_subtree (fields a) else include_path (fields a)) ++
     Y ++ (if has_child ctx then [] else min_siblings [(a, d)])).
Proof.
  intros H1 H2 IH. rewrite gm_eq in *. cbn [map rev]. rewrite split_snoc, ms_snoc, H1, has_child_rev.
  rewrite has_child_cons.
  destruct (has_child ctx) eqn:Hc.
  - cbn [fst snd]. rewrite flat_map_app. cbn [flat_map]. rewrite !app_nil_r, orb_true_r.
    rewrite perm_ins3. apply Permutation_app_head. exact IH.
  - rewrite (split_noleaf _ H1) in IH. cbn [fst snd flat_map app] in IH.
    cbn [fst snd]. rewrite H2, orb_false_r. destruct (is_child_dir d) eqn:Hd.
    + cbn [fst snd flat_map]. rewrite !app_nil_r.
      replace (min_siblings [(a, d)]) with (@nil nat) by (destruct a, d; try discriminate Hd; reflexivity).
      rewrite !app_nil_r.
      refine (Permutation_trans (perm_mv _ _ _ _) _); apply Permutation_app_head; exact IH.
    + cbn [fst snd]. rewrite flat_map_app; cbn [flat_map app]; rewrite !app_nil_r.
      rewrite !app_assoc; apply Permutation_app_tail; rewrite <- !app_assoc.
      refine (Permutation_trans (perm_mv _ _ _ _) _); apply Permutation_app_head; exact IH.
Qed.

Lemma gx_step a d ctx n Y :
  existsb is_PT_leaf (rev (map fst ctx)) = has_child ctx ->
  kill (rev ctx) = has_child ctx ->
  is_PT_leaf a = is_child_dir d ->
  Permutation (get_max_transfer_set_for_node_HPT ctx n) Y ->
  Permutation (get_max_transfer_set_for_node_HPT ((a, d) :: ctx) n)
    ((if has_child ((a, d) :: ctx) then [] else exclude_path (fields a)) ++
     Y ++ include_ancestral (negb (has_child ctx)) [(a, d)]).
Proof.
  intros H1 H0 H2 IH. rewrite gx_eq in *. cbn [map rev]. rewrite split_snoc, ia_snoc, H1, H0.
  rewrite has_child_cons.
  destruct (has_child ctx) eqn:Hc.
  - cbn [fst snd negb andb]. rewrite orb_true_r.
    cbn [app]. rewrite !app_assoc. apply Permutation_app_tail. rewrite <- !app_assoc. exact IH.
  - rewrite (split_noleaf _ H1) in IH. cbn [fst snd] in IH.
    cbn [fst snd negb andb]. rewrite H2, orb_false_r. destruct (is_child_dir d) eqn:Hd.
    + cbn [app]. rewrite !app_assoc. apply Permutation_app_tail. rewrite <- !app_assoc. exact IH.
    + cbn [fst snd]. rewrite flat_map_app; cbn [flat_map app]; rewrite !app_nil_r.
      rewrite !app_assoc; apply Permutation_app_tail; rewrite <- !app_assoc.
      refine (Permutation_trans (perm_mv _ _ _ _) _); apply Permutation_app_head; exact IH.
Qed.

Lemma gm_perm q ctx n : chain q ctx n ->
  Permutation (get_min_transfer_set_for_node_HPT ctx n) (own_min q ctx ++ emin ctx n).
Proof.
  intros H. induction H as [n|f l r ctx n H IH|f l r ctx n H IH|f v c ctx n H IH
                           |f v c1 c2 ctx n H IH|f v c1 c2 ctx n H IH].
  1: rewrite gm_eq; unfold own_min; cbn; rewrite !app_nil_r; reflexivity.
  all: refine (Permutation_trans (gm_step _ _ _ _ _ (chain_PT_leaf _ _ _ H) _ IH) _);
    [reflexivity | rewrite <- app_assoc; reflexivity].
Qed.

Lemma gx_perm q ctx n : chain q ctx n ->
  Permutation (get_max_transfer_set_for_node_HPT ctx n) (own_max q ctx ++ emax ctx n).
Proof.
  intros H. induction H as [n|f l r ctx n H IH|f l r ctx n H IH|f v c ctx n H IH
                           |f v c1 c2 ctx n H IH|f v c1 c2 ctx n H IH].
  1: rewrite gx_eq; unfold own_max; cbn; rewrite !app_nil_r; reflexivity.
  all: refine (Permutation_trans (gx_step _ _ _ _ _ (chain_PT_leaf _ _ _ H) (chain_kill _ _ _ H) _ IH) _);
    [reflexivity | rewrite <- app_assoc; reflexivity].
Qed.

Lemma ES3 l1 l2 l3 (P1 P2 P3 Q : nat -> Prop) : ES l1 P1 -> ES l2 P2 -> ES l3 P3 ->
  (forall z, P1 z -> P2 z -> False) -> (forall z, P1 z -> P3 z -> False) ->
  (forall z, P2 z -> P3 z -> False) -> (forall z, P1 z \/ P2 z \/ P3 z <-> Q z) ->
  ES (l1 ++ l2 ++ l3) Q.
Proof.
  intros [N1 M1] [N2 M2] [N3 M3] D12 D13 D23 HQ. split.
  - apply NoDup_app; [exact N1 | apply NoDup_app; [exact N2 | exact N3 |] |].
    + intros z H2 H3. apply (D23 z); [apply M2 | apply M3]; assumption.
    + intros z H1 H23. apply in_app_or in H23 as [H2|H3];
        [apply (D12 z) | apply (D13 z)]; [apply M1 | apply M2 | apply M1 | apply M3]; assumption.
  - intros z. rewrite !in_app_iff, M1, M2, M3. apply HQ.
Qed.

Lemma ES_False : ES [] (fun _ => False).
Proof. apply ES_nil. intros z H. exact H. Qed.

Lemma chain_w q ctx n w : chain q ctx n -> rng n = [w] ->
  In w (if has_child ctx then pnd q else rng q).
Proof. intros H Hr. apply (chain_in _ _ _ H). rewrite Hr. left. reflexivity. Qed.

Lemma chain_w_in q ctx n w : chain q ctx n -> rng n = [w] -> In w (rng q ++ pnd q).
Proof.
  intros H Hr. pose proof (chain_w _ _ _ _ H Hr) as Hw. apply in_or_app. destruct (has_child ctx); auto.
Qed.

Lemma stop_leaves n w : WF (shape n) -> is_PT_node n = false -> rng n = [w] ->
  forall z, In z (hpt_leaves n) -> In z (leaves w).
Proof.
  intros HW Hn Hr. destruct n as [f l r|f v c|f v c1 c2|f v]; [discriminate| | |];
    unfold rng in Hr; cbn [shape rng_s] in Hr; injection Hr as <-.
  - cbn [shape WF] in HW. cbn [hpt_leaves]. intros z Hz. rewrite hpt_leaves_shape in Hz. apply HW, Hz.
  - cbn [shape WF] in HW. destruct HW as (_ & _ & _ & H & _). cbn [hpt_leaves]. intros z Hz.
    rewrite !hpt_leaves_shape in Hz. apply H, Hz.
  - cbn [hpt_leaves]. auto.
Qed.

(** The set built for the min side is [A] sym-diff [L(w)], [w] the node
    the descent stops at. *)
Lemma emin_spec A w q ctx n : chain q ctx n -> WF (shape q) -> NoDup (hpt_leaves q) -> LI A q ->
  is_PT_node n = false -> rng n = [w] ->
  ES (emin ctx n) (fun z => In z (hpt_leaves q) /\ (In z A <-> ~ In z (leaves w))).
Proof.
  intros H. induction H as [n|f l r ctx n H IH|f l r ctx n H IH|f v c ctx n H IH
                           |f v c1 c2 ctx n H IH|f v c1 c2 ctx n H IH]; intros HW ND HL Hn Hr.
  - cbn [emin]. destruct (nonex_spec A n HW ND HL) as [N M]. split; [exact N|].
    intros z. rewrite M. pose proof (stop_leaves n w HW Hn Hr z). tauto.
  - cbn [shape WF] in HW. destruct HW as (Wl & Wr & _ & _ & _ & W6).
    cbn [hpt_leaves] in ND |- *. cbn [LI] in HL. destruct HL as (_ & _ & _ & _ & Rp & Rs & _ & Ll & Lr).
    specialize (IH Wr (NoDup_app_remove_l _ _ ND) Lr Hn Hr).
    pose proof (chain_w _ _ _ _ H Hr) as Hw.
    assert (Out : forall z, In z (hpt_leaves l) -> ~ In z (leaves w)).
    { intros z Hz. rewrite hpt_leaves_shape in Hz. apply (W6 z Hz w).
      unfold rng, pnd in Hw. apply in_or_app. destruct (has_child ctx); auto. }
    cbn [emin child_of]. unfold own_min.
    eapply (ES3 _ _ _ (fun z => In z A /\ In z (hpt_leaves l)) _ (fun _ => False)).
    + destruct (has_child ctx); assumption.
    + exact IH.
    + destruct (has_child ctx); apply ES_False.
    + intros z [_ H1] [H2 _]. exact (NoDup_app_disj _ _ _ ND H1 H2).
    + intros z _ [].
    + intros z _ [].
    + intros z. rewrite in_app_iff. pose proof (Out z). tauto.
  - cbn [shape WF] in HW. destruct HW as (Wl & Wr & _ & W4 & W5 & _).
    cbn [hpt_leaves] in ND |- *. cbn [LI] in HL. destruct HL as (_ & Lp & Ls & _ & _ & _ & _ & Ll & Lr).
    specialize (IH Wl (NoDup_app_remove_r _ _ ND) Ll Hn Hr).
    pose proof (chain_w _ _ _ _ H Hr) as Hw.
    destruct (nonex_spec A r Wr (NoDup_app_remove_l _ _ ND) Lr) as [Nr Mr].
    cbn [emin child_of]. unfold own_min.
    destruct (has_child ctx).
    + assert (Out : forall z, In z (hpt_leaves r) -> ~ In z (leaves w)).
      { intros z Hz. rewrite hpt_leaves_shape in Hz. apply (W5 z Hz w). exact Hw. }
      eapply (ES3 _ _ _ (fun z => In z A /\ In z (hpt_leaves r)) _ (fun _ => False)).
      * exact Ls.
      * exact IH.
      * apply ES_False.
      * intros z [_ H1] [H2 _]. exact (NoDup_app_disj _ _ _ ND H2 H1).
      * intros z _ [].
      * intros z _ [].
      * intros z. rewrite in_app_iff. pose proof (Out z). tauto.
    + assert (Inn : forall z, In z (hpt_leaves r) -> In z (leaves w)).
      { intros z Hz. rewrite hpt_leaves_shape in Hz. apply (W4 z Hz w). exact Hw. }
      cbn [min_siblings]. rewrite Lp, app_nil_r.
      eapply (ES3 _ _ _ (fun _ => False) _ (fun z => In z (hpt_leaves r) /\ ~ In z A)).
      * apply ES_False.
      * exact IH.
      * split; [exact Nr | exact Mr].
      * intros z [].
      * intros z [].
      * intros z [H1 _] [H2 _]. exact (NoDup_app_disj _ _ _ ND H1 H2).
      * intros z. rewrite in_app_iff. pose proof (Inn z). tauto.
  - cbn [shape WF] in HW. destruct HW as (Wc & _).
    cbn [hpt_leaves] in ND |- *. cbn [LI] in HL. destruct HL as (_ & Cp & Cs & _ & Lc).
    specialize (IH Wc ND Lc Hn Hr).
    cbn [emin child_of]. unfold own_min.
    eapply (ES3 _ _ _ (fun _ => False) _ (fun _ => False)).
    + destruct (has_child ctx); [rewrite Cs | rewrite Cp]; apply ES_False.
    + exact IH.
    + destruct (has_child ctx); apply ES_False.
    + intros z [].
    + intros z [].
    + intros z _ [].
    + intros z. tauto.
  - cbn [shape WF] in HW. destruct HW as (W1 & W2 & _ & _ & _ & D21).
    cbn [hpt_leaves] in ND |- *. cbn [LI] in HL. destruct HL as (_ & P1 & S1 & _ & _ & _ & _ & L1 & L2).
    specialize (IH W1 (NoDup_app_remove_r _ _ ND) L1 Hn Hr).
    pose proof (chain_w_in _ _ _ _ H Hr) as Hw.
    assert (Out : forall z, In z (hpt_leaves c2) -> ~ In z (leaves w)).
    { intros z Hz. rewrite hpt_leaves_shape in Hz. exact (D21 z Hz w Hw). }
    cbn [emin child_of]. unfold own_min.
    eapply (ES3 _ _ _ (fun z => In z A /\ In z (hpt_leaves c2)) _ (fun _ => False)).
    + destruct (has_child ctx); assumption.
    + exact IH.
    + destruct (has_child ctx); apply ES_False.
    + intros z [_ H2] [H1 _]. exact (NoDup_app_disj _ _ _ ND H1 H2).
    + intros z _ [].
    + intros z _ [].
    + intros z. rewrite in_app_iff. pose proof (Out z). tauto.
  - cbn [shape WF] in HW. destruct HW as (W1 & W2 & _ & _ & D12 & _).
    cbn [hpt_leaves] in ND |- *. cbn [LI] in HL. destruct HL as (_ & _ & _ & P2 & S2 & _ & _ & L1 & L2).
    specialize (IH W2 (NoDup_app_remove_l _ _ ND) L2 Hn Hr).
    pose proof (chain_w_in _ _ _ _ H Hr) as Hw.
    assert (Out : forall z, In z (hpt_leaves c1) -> ~ In z (leaves w)).
    { intros z Hz. rewrite hpt_leaves_shape in Hz. exact (D12 z Hz w Hw). }
    cbn [emin child_of]. unfold own_min.
    eapply (ES3 _ _ _ (fun z => In z A /\ In z (hpt_leaves c1)) _ (fun _ => False)).
    + destruct (has_child ctx); assumption.
    + exact IH.
    + destruct (has_child ctx); apply ES_False.
    + intros z [_ H1] [H2 _]. exact (NoDup_app_disj _ _ _ ND H1 H2).
    + intros z _ [].
    + intros z _ [].
    + intros z. rewrite in_app_iff. pose proof (Out z). tauto.
Qed.

(** The set built for the max side is the taxa [z] with [z] in [A] iff [z]
    in [L(w)]. *)
Lemma emax_spec A w q ctx n : chain q ctx n -> WF (shape q) -> NoDup (hpt_leaves q) -> LI A q ->
  is_PT_node n = false -> rng n = [w] ->
  ES (emax ctx n) (fun z => In z (hpt_leaves q) /\ (In z A <-> In z (leaves w))).
Proof.
  intros H. induction H as [n|f l r ctx n H IH|f l r ctx n H IH|f v c ctx n H IH
                           |f v c1 c2 ctx n H IH|f v c1 c2 ctx n H IH]; intros HW ND HL Hn Hr.
  - cbn [emax]. pose proof (stop_leaves n w HW Hn Hr) as Hs.
    assert (E : ES (exclude (fields n)) (fun z => In z A /\ In z (hpt_leaves n))).
    { destruct n as [f l r|f v c|f v c1 c2|f v]; [discriminate| | |];
        cbn [LI fields hpt_leaves] in HL |- *; [apply HL | apply HL | exact HL]. }
    revert E. apply ES_ext. intros z. pose proof (Hs z). tauto.
  - cbn [shape WF] in HW. destruct HW as (Wl & Wr & _ & _ & _ & W6).
    cbn [hpt_leaves] in ND |- *. cbn [LI] in HL. destruct HL as (_ & _ & _ & _ & _ & _ & Re & Ll & Lr).
    specialize (IH Wr (NoDup_app_remove_l _ _ ND) Lr Hn Hr).
    pose proof (chain_w _ _ _ _ H Hr) as Hw.
    destruct (nonex_spec A l Wl (NoDup_app_remove_r _ _ ND) Ll) as [Nl Ml].
    assert (Out : forall z, In z (hpt_leaves l) -> ~ In z (leaves w)).
    { intros z Hz. rewrite hpt_leaves_shape in Hz. apply (W6 z Hz w).
      unfold rng, pnd in Hw. apply in_or_app. destruct (has_child ctx); auto. }
    cbn [emax child_of include_ancestral]. unfold own_max. rewrite Re, app_nil_r.
    eapply (ES3 _ _ _ (fun _ => False) _ (fun z => In z (hpt_leaves l) /\ ~ In z A)).
    + destruct (has_child ctx); apply ES_False.
    + exact IH.
    + split; [exact Nl | exact Ml].
    + intros z [].
    + intros z [].
    + intros z [H2 _] [H1 _]. exact (NoDup_app_disj _ _ _ ND H1 H2).
    + intros z. rewrite in_app_iff. pose proof (Out z). tauto.
  - cbn [shape WF] in HW. destruct HW as (Wl & Wr & _ & W4 & W5 & _).
    cbn [hpt_leaves] in ND |- *. cbn [LI] in HL. destruct HL as (_ & _ & _ & Le & _ & _ & _ & Ll & Lr).
    specialize (IH Wl (NoDup_app_remove_r _ _ ND) Ll Hn Hr).
    pose proof (chain_w _ _ _ _ H Hr) as Hw.
    destruct (nonex_spec A r Wr (NoDup_app_remove_l _ _ ND) Lr) as [Nr Mr].
    cbn [emax child_of]. unfold own_max.
    destruct (has_child ctx); cbn [negb include_ancestral]; rewrite app_nil_r.
    + assert (Out : forall z, In z (hpt_leaves r) -> ~ In z (leaves w)).
      { intros z Hz. rewrite hpt_leaves_shape in Hz. apply (W5 z Hz w). exact Hw. }
      eapply (ES3 _ _ _ (fun _ => False) _ (fun z => In z (hpt_leaves r) /\ ~ In z A)).
      * apply ES_False.
      * exact IH.
      * split; [exact Nr | exact Mr].
      * intros z [].
      * intros z [].
      * intros z [H1 _] [H2 _]. exact (NoDup_app_disj _ _ _ ND H1 H2).
      * intros z. rewrite in_app_iff. pose proof (Out z). tauto.
    + assert (Inn : forall z, In z (hpt_leaves r) -> In z (leaves w)).
      { intros z Hz. rewrite hpt_leaves_shape in Hz. apply (W4 z Hz w). exact Hw. }
      rewrite <- (app_nil_r (emax ctx n)).
      eapply (ES3 _ _ _ (fun z => In z A /\ In z (hpt_leaves r)) _ (fun _ => False)).
      * exact Le.
      * exact IH.
      * apply ES_False.
      * intros z [_ H2] [H1 _]. exact (NoDup_app_disj _ _ _ ND H1 H2).
      * intros z _ [].
      * intros z _ [].
      * intros z. rewrite in_app_iff. pose proof (Inn z). tauto.
  - cbn [shape WF] in HW. destruct HW as (Wc & _).
    cbn [hpt_leaves] in ND |- *. cbn [LI] in HL. destruct HL as (_ & _ & _ & Ce & Lc).
    specialize (IH Wc ND Lc Hn Hr).
    cbn [emax child_of include_ancestral]. unfold own_max.
    eapply (ES3 _ _ _ (fun _ => False) _ (fun _ => False)).
    + destruct (has_child ctx); [|rewrite Ce]; apply ES_False.
    + exact IH.
    + apply ES_False.
    + intros z [].
    + intros z [].
    + intros z _ [].
    + intros z. tauto.
  - cbn [shape WF] in HW. destruct HW as (W1 & W2 & _ & _ & _ & D21).
    cbn [hpt_leaves] in ND |- *. cbn [LI] in HL. destruct HL as (_ & _ & _ & _ & _ & E1 & _ & L1 & L2).
    specialize (IH W1 (NoDup_app_remove_r _ _ ND) L1 Hn Hr).
    pose proof (chain_w_in _ _ _ _ H Hr) as Hw.
    destruct (nonex_spec A c2 W2 (NoDup_app_remove_l _ _ ND) L2) as [N2 M2].
    assert (Out : forall z, In z (hpt_leaves c2) -> ~ In z (leaves w)).
    { intros z Hz. rewrite hpt_leaves_shape in Hz. exact (D21 z Hz w Hw). }
    cbn [emax child_of include_ancestral]. unfold own_max. rewrite app_nil_r.
    eapply (ES3 _ _ _ (fun _ => False) _ (fun z => In z (hpt_leaves c2) /\ ~ In z A)).
    + destruct (has_child ctx); [|rewrite E1]; apply ES_False.
    + exact IH.
    + split; [exact N2 | exact M2].
    + intros z [].
    + intros z [].
    + intros z [H1 _] [H2 _]. exact (NoDup_app_disj _ _ _ ND H1 H2).
    + intros z. rewrite in_app_iff. pose proof (Out z). tauto.
  - cbn [shape WF] in HW. destruct HW as (W1 & W2 & _ & _ & D12 & _).
    cbn [hpt_leaves] in ND |- *. cbn [LI] in HL. destruct HL as (_ & _ & _ & _ & _ & _ & E2 & L1 & L2).
    specialize (IH W2 (NoDup_app_remove_l _ _ ND) L2 Hn Hr).
    pose proof (chain_w_in _ _ _ _ H Hr) as Hw.
    destruct (nonex_spec A c1 W1 (NoDup_app_remove_r _ _ ND) L1) as [N1 M1].
    assert (Out : forall z, In z (hpt_leaves c1) -> ~ In z (leaves w)).
    { intros z Hz. rewrite hpt_leaves_shape in Hz. exact (D12 z Hz w Hw). }
    cbn [emax child_of include_ancestral]. unfold own_max. rewrite app_nil_r.
    eapply (ES3 _ _ _ (fun _ => False) _ (fun z => In z (hpt_leaves c1) /\ ~ In z A)).
    + destruct (has_child ctx); [|rewrite E2]; apply ES_False.
    + exact IH.
    + split; [exact N1 | exact M1].
    + intros z [].
    + intros z [].
    + intros z [H2 _] [H1 _]. exact (NoDup_app_disj _ _ _ ND H1 H2).
    + intros z. rewrite in_app_iff. pose proof (Out z). tauto.
Qed.

(** *** The sizes of the sets *)

Lemma negb_mem z A : negb (mem z A) = true <-> ~ In z A.
Proof. rewrite Bool.negb_true_iff. apply mem_false. Qed.

Lemma xor_iff z A B : xorb (mem z A) (mem z B) = true <-> (In z A <-> ~ In z B).
Proof.
  rewrite <- (mem_In z A), <- (mem_In z B).
  destruct (mem z A), (mem z B); cbn; intuition congruence.
Qed.

Lemma xnor_iff z A B : negb (xorb (mem z A) (mem z B)) = true <-> (In z A <-> In z B).
Proof.
  rewrite <- (mem_In z A), <- (mem_In z B).
  destruct (mem z A), (mem z B); cbn; intuition congruence.
Qed.

Lemma ES_filter_length (f : nat -> bool) U l : NoDup U ->
  ES l (fun z => In z U /\ f z = true) -> length l = length (filter f U).
Proof.
  intros NU [Nl Ml]. apply Permutation_length, NoDup_Permutation; [exact Nl | apply NoDup_filter, NU |].
  intros z. rewrite Ml, filter_In. reflexivity.
Qed.

(** [|L(w) sym-diff A|] counted over a universe holding both. *)
Lemma tdist_xor A w U : NoDup A -> NoDup (leaves w) -> NoDup U -> incl A U -> incl (leaves w) U ->
  tdist A w = Z.of_nat (length (filter (fun z => xorb (mem z A) (mem z (leaves w))) U)).
Proof.
  intros NA NW NU HA HW. unfold tdist. f_equal. rewrite <- length_app.
  apply Permutation_length, NoDup_Permutation.
  - apply NoDup_app; [apply NoDup_filter, NW | apply NoDup_filter, NA |].
    intros y H1 H2. apply filter_In in H1 as [_ H1]. apply filter_In in H2 as [H2 _].
    apply negb_mem in H1. exact (H1 H2).
  - apply NoDup_filter, NU.
  - intros z. rewrite in_app_iff, !filter_In, xor_iff, !negb_mem.
    pose proof (HA z). pose proof (HW z). destruct (in_dec Nat.eq_dec z A), (in_dec Nat.eq_dec z (leaves w)); tauto.
Qed.

Lemma get_x_path_eq h um : get_x_path h um =
  x_descend um (if um then get_ti_max h else get_ti_min h) h (diff_path (fields h)) (diff_subtree (fields h)).
Proof. reflexivity. Qed.

(** The transfer set read off an HPT whose values are those of the added
    set [A], [d_max_subtree] ranging over the nodes the mask [m] selects:
    the assertion holds, and the set has the size of the index. *)
Lemma transfer_core A h m alt nb :
  NoDup A -> incl A (leaves alt) -> NoDup (leaves alt) -> nb = Z.of_nat (length (leaves alt)) ->
  WF (shape h) -> INV A h m 0 0 -> LI A h -> HG A h 0 -> ND h -> NoDup (hpt_leaves h) ->
  is_HPT_leaf h = false ->
  (forall v, In v (rng h ++ pnd h) <-> In v (nodes alt)) ->
  (forall x, In x (hpt_leaves h) <-> In x (leaves alt)) ->
  include_path (fields h) = [] -> include_subtree (fields h) = [] -> exclude_path (fields h) = [] ->
  exists s, get_transfer_set_HPT h nb = Ok s /\ NoDup s /\
    Z.of_nat (length s) = CInt.min (get_ti_min h) (nb - get_ti_max h).
Proof.
  intros NA HA NU Enb HW HV HL HG0 NDh NH Hh Hn Hl Ip Is Ie.
  destruct (values_at A h m alt HV Hh Hn) as (Emin & Xmax & _).
  assert (HAU : incl A (hpt_leaves h)) by (intros z Hz; apply Hl, HA, Hz).
  assert (Hwl : forall w, In w (rng h ++ pnd h) -> NoDup (leaves w) /\ incl (leaves w) (hpt_leaves h)).
  { intros w Hw. split; [apply NDh, Hw|]. intros z Hz. apply Hl.
    apply (nodes_leaves alt w); [apply Hn, Hw | exact Hz]. }
  unfold get_transfer_set_HPT. rewrite !get_x_path_eq. rewrite CInt.min_spec.
  destruct (Z.leb_spec (get_ti_min h) (nb - get_ti_max h)) as [Hle|Hlt].
  - rewrite Emin in *.
    assert (Hext : ext false A (minD A alt) (cov false m h)).
    { intros w Hw. apply (proj1 (minD_spec A alt)), Hn, Hw. }
    assert (Hex : exists w, In w (cov false m h) /\ tdist A w = minD A alt).
    { destruct (proj2 (minD_spec A alt)) as (v & Hv & Hd). exists v. split; [apply Hn, Hv | exact Hd]. }
    pose proof (descend false A (minD A alt) ltac:(discriminate) h m 0 0 (diff_path (fields h))
                  (diff_subtree (fields h)) HW HV ltac:(discriminate) Hext Hex ltac:(lia) ltac:(lia)) as D.
    destruct (x_descend false (minD A alt) h _ _) as [ctx n] eqn:Ex. cbn [fst snd] in D.
    destruct D as (Hc & Hpn & w & Hr & Hd). cbv beta iota zeta.
    pose proof (gm_perm _ _ _ Hc) as P.
    replace (own_min h ctx) with (@nil nat) in P by (unfold own_min; destruct (has_child ctx); auto).
    cbn [app] in P.
    pose proof (emin_spec A w h ctx n Hc HW NH HL Hpn Hr) as E.
    destruct (Hwl w (chain_w_in _ _ _ _ Hc Hr)) as [NW IW].
    assert (Hlen : Z.of_nat (length (get_min_transfer_set_for_node_HPT ctx n)) = minD A alt).
    { rewrite (Permutation_length P), <- Hd, (tdist_xor A w (hpt_leaves h) NA NW NH HAU IW).
      f_equal. apply ES_filter_length; [exact NH|]. revert E. apply ES_ext.
      intros z. rewrite xor_iff. reflexivity. }
    rewrite Hlen, Z.eqb_refl. eexists. split; [reflexivity|]. split; [|lia].
    apply (Permutation_NoDup (Permutation_sym P)). apply E.
  - set (t := get_ti_max h) in *.
    assert (Ht : true = true -> Z.of_nat (length A) < t).
    { intros _. pose proof (proj1 (minD_spec A alt) alt (nodes_self alt)) as Hm.
      rewrite (tdist_root A alt NA HA NU) in Hm. lia. }
    destruct (is_x_sel true A t _ Xmax) as [Hext Hex].
    pose proof (descend true A t Ht h m 0 0 (diff_path (fields h)) (diff_subtree (fields h)) HW HV
                  (fun _ => HG0) Hext Hex ltac:(lia) ltac:(lia)) as D.
    destruct (x_descend true t h _ _) as [ctx n] eqn:Ex. cbn [fst snd] in D.
    destruct D as (Hc & Hpn & w & Hr & Hd). cbv beta iota zeta.
    pose proof (gx_perm _ _ _ Hc) as P.
    replace (own_max h ctx) with (@nil nat) in P by (unfold own_max; destruct (has_child ctx); auto).
    cbn [app] in P.
    pose proof (emax_spec A w h ctx n Hc HW NH HL Hpn Hr) as E.
    destruct (Hwl w (chain_w_in _ _ _ _ Hc Hr)) as [NW IW].
    assert (HU : length (hpt_leaves h) = length (leaves alt)).
    { apply Permutation_length, NoDup_Permutation; assumption. }
    assert (Hlen : Z.of_nat (length (get_max_transfer_set_for_node_HPT ctx n)) = nb - t).
    { rewrite (Permutation_length P), <- Hd, (tdist_xor A w (hpt_leaves h) NA NW NH HAU IW).
      rewrite (ES_filter_length (fun z => negb (xorb (mem z A) (mem z (leaves w)))) (hpt_leaves h)).
      - pose proof (filter_split_length (fun z => xorb (mem z A) (mem z (leaves w))) (hpt_leaves h)). lia.
      - exact NH.
      - revert E. apply ES_ext. intros z. rewrite xnor_iff. reflexivity. }
    rewrite Hlen, Z.eqb_refl. eexists. split; [reflexivity|]. split; [|lia].
    apply (Permutation_NoDup (Permutation_sym P)). apply E.
Qed.

(** The HPT of [alt] as the driver leaves it between two reference leaves,
    once the distinct taxa [Q] are added: the min value is the least
    distance, the max value a distance of some node (the largest one when
    no PT leaf has two child heavy paths), and the set has the size of the
    index. *)
Lemma transfer_adds alt h Q : NoDup (leaves alt) -> subtreesize alt <= INT_MAX ->
  is_HPT_leaf (heavy_decomposition alt) = false -> settled (heavy_decomposition alt) h ->
  NoDup Q -> incl Q (leaves alt) ->
  let h' := adds Q h in
  let nb := Z.of_nat (length (leaves alt)) in
  exists s, get_transfer_set_HPT h' nb = Ok s /\ NoDup s /\
    Z.of_nat (length s) = CInt.min (get_ti_min h') (nb - get_ti_max h') /\
    get_ti_min h' = minD Q alt /\
    (exists v, In v (nodes alt) /\ get_ti_max h' = tdist Q v) /\
    (nol2 (shape h) = true -> get_ti_max h' = maxD Q alt).
Proof.
  intros NU Hsz Hb [G B] NQ HQ h' nb.
  destruct (P0_facts alt NU Hsz) as (W & I & V & D & N & Hn & Hl).
  set (P0 := heavy_decomposition alt) in *.
  assert (Es : shape h = shape P0) by exact (good_shape _ _ _ G).
  destruct (good_INV h P0 G I W V B) as (m & Vh & Fm).
  assert (Wh : WF (shape h)) by (rewrite Es; exact W).
  assert (Nh : ND h) by exact (ND_shape P0 h (eq_sym Es) N).
  assert (Lh : hpt_leaves h = hpt_leaves P0) by (rewrite !hpt_leaves_shape, Es; reflexivity).
  assert (Z0 : zeroed h) by exact (settled_zeroed h P0 I G B).
  assert (Hin : incl Q (hpt_leaves h)) by (intros y Hy; rewrite Lh; apply Hl, HQ, Hy).
  assert (NQ' : NoDup (Q ++ [])) by (rewrite app_nil_r; exact NQ).
  rewrite <- Lh in D.
  pose proof (INV_adds Q [] h m Wh Nh Hin NQ' Vh) as HV.
  pose proof (LI_adds Q [] h D Hin NQ' (LI_zeroed h Z0)) as HL.
  pose proof (HG_adds Q [] h D Hin (HG_zeroed h Z0)) as HG0.
  rewrite app_nil_r in HV, HL, HG0.
  destruct (init_head P0 I) as (_ & _ & Ip & Is & _ & Ie).
  destruct (bk_adds Q h P0 I B) as (_ & _ & Ip' & Is' & Ie').
  assert (NR : NoDup (rev Q)) by (apply NoDup_rev, NQ).
  assert (HR : incl (rev Q) (leaves alt)) by (intros y Hy; apply HQ, in_rev, Hy).
  assert (Hb' : is_HPT_leaf h' = false)
    by (unfold h'; rewrite is_HPT_leaf_shape, shape_adds, Es, <- is_HPT_leaf_shape; exact Hb).
  assert (Hn' : forall v, In v (rng h' ++ pnd h') <-> In v (nodes alt))
    by (unfold h', rng, pnd; rewrite shape_adds, Es; exact Hn).
  destruct (values_at _ _ _ _ HV Hb' Hn') as (E1 & X2 & E2).
  assert (HQR : forall y, In y (rev Q) <-> In y Q) by (intros y; rewrite <- in_rev; reflexivity).
  rewrite (minD_same (rev Q) Q) in E1 by assumption.
  destruct (transfer_core (rev Q) h' (madds Q h m) alt nb NR HR NU eq_refl
              ltac:(unfold h'; rewrite shape_adds; exact Wh) HV HL HG0
              (ND_shape h _ (eq_sym (shape_adds Q h)) Nh)
              ltac:(unfold h'; rewrite hpt_leaves_adds; exact D) Hb' Hn'
              ltac:(unfold h'; rewrite hpt_leaves_adds, Lh; exact Hl)
              ltac:(unfold h'; congruence) ltac:(unfold h'; congruence) ltac:(unfold h'; congruence)) as (s & Es' & Ns & Ls).
  exists s. split; [exact Es'|]. split; [exact Ns|]. split; [exact Ls|]. split; [exact E1|]. split.
  - destruct X2 as [_ (v & Hv & Ev)]. exists v. split.
    + apply Hn'. apply in_app_or in Hv as [Hv|Hv]; apply in_or_app; [left; exact Hv|].
      right. exact (pndM_incl _ _ _ Hv).
    + unfold h'. rewrite <- Ev. apply (tdist_same (rev Q) Q); assumption.
  - intros Hno. unfold h'. rewrite (E2 (full_madds Q h m (Fm Hno))). apply (maxD_same (rev Q) Q); assumption.
Qed.


(** ** The HPTs the driver reaches *)

(** An alternative tree without a node of three children. *)
Fixpoint tri_free (t : tree) : bool :=
  match t with
  | Leaf _ => true
  | Bin l r => tri_free l && tri_free r
  | Tri _ _ _ => false
  end.

(** The HPTs the driver holds between two reference leaves: the
    decomposition of [alt], and what adding a list of taxa and resetting
    the same list leaves behind. *)
Inductive reach (alt : tree) : path -> Prop :=
| reach_init : reach alt (heavy_decomposition alt)
| reach_round h S : reach alt h -> incl S (leaves alt) -> reach alt (resets S (adds S h)).

(** What the pair [(ti_min, ti_max)] stored at a reference node with taxa
    [A] is: the least distance [|A sym-diff L(v)|] over the nodes [v] of
    [alt]; a distance to some node of [alt], the largest one when [alt] has
    no node of three children. *)
Definition ti_ok (A : list nat) (alt : tree) (x : Z * Z) : Prop :=
  fst x = minD A alt /\ (exists v, In v (nodes alt) /\ snd x = tdist A v) /\
  (tri_free alt = true -> snd x = maxD A alt).

Lemma tri_free_nodes t : tri_free t = true -> forall a b c, ~ In (Tri a b c) (nodes t).
Proof.
  induction t as [y|l IHl r IHr|a IHa b IHb c IHc]; cbn [tri_free nodes]; intros H a0 b0 c0 Hin.
  - destruct Hin as [E|[]]; discriminate.
  - apply andb_prop in H as [H1 H2]. destruct Hin as [E|Hin]; [discriminate|].
    apply in_app_or in Hin as [Hin|Hin]; [eapply IHl | eapply IHr]; eauto.
  - discriminate.
Qed.

Lemma nol2_tri s : WF s -> nol2 s = false ->
  exists a b c, In (Tri a b c) (rng_s s ++ pnd_s s).
Proof.
  induction s as [l IHl r IHr|v c IHc|v c1 _ c2 _|v]; cbn [WF nol2 rng_s pnd_s]; intros HW Hn.
  - destruct HW as (W1 & W2 & _). apply andb_false_iff in Hn as [Hn|Hn].
    + destruct (IHl W1 Hn) as (a & b & c & Hin). exists a, b, c.
      rewrite !in_app_iff in *. tauto.
    + destruct (IHr W2 Hn) as (a & b & c & Hin). exists a, b, c.
      rewrite !in_app_iff in *. tauto.
  - destruct HW as (W & _). destruct (IHc W Hn) as (a & b & d & Hin). exists a, b, d.
    right. exact Hin.
  - destruct HW as (_ & _ & (a & b & c & ->) & _). exists a, b, c. left. reflexivity.
  - discriminate.
Qed.

(** Without a node of three children in [alt], its decomposition has no PT
    leaf with two child heavy paths. *)
Lemma tri_free_nol2 alt : NoDup (leaves alt) -> subtreesize alt <= INT_MAX ->
  tri_free alt = true -> nol2 (shape (heavy_decomposition alt)) = true.
Proof.
  intros ND Hsz Ht. destruct (P0_facts alt ND Hsz) as (W & _ & _ & _ & _ & Hn & _).
  destruct (nol2 (shape (heavy_decomposition alt))) eqn:E; [reflexivity|].
  destruct (nol2_tri _ W E) as (a & b & c & Hin).
  exfalso. apply (tri_free_nodes alt Ht a b c). apply Hn. exact Hin.
Qed.

Lemma reach_settled alt : NoDup (leaves alt) -> subtreesize alt <= INT_MAX ->
  forall h, reach alt h -> settled (heavy_decomposition alt) h.
Proof.
  intros ND Hsz. destruct (P0_facts alt ND Hsz) as (_ & I & _ & D & _ & _ & Hl).
  induction 1 as [|h S _ IH HS].
  - apply settled_refl. exact I.
  - apply settled_round; auto. intros y Hy. apply Hl. apply HS. exact Hy.
Qed.

(** At a reachable HPT with the distinct taxa [Q] of [alt] added, the root
    values are what [ti_ok] says, and the transfer set has the size the
    driver checks. *)
Lemma reach_values alt h Q : NoDup (leaves alt) -> subtreesize alt <= INT_MAX ->
  is_HPT_leaf (heavy_decomposition alt) = false -> reach alt h ->
  NoDup Q -> incl Q (leaves alt) ->
  let h' := adds Q h in let nb := Z.of_nat (length (leaves alt)) in
  ti_ok Q alt (get_ti_min h', get_ti_max h') /\
  exists s, get_transfer_set_HPT h' nb = Ok s /\ NoDup s /\
    Z.of_nat (length s) = CInt.min (get_ti_min h') (nb - get_ti_max h').
Proof.
  intros ND Hsz Hb Hr NQ HQ h' nb.
  destruct (transfer_adds alt h Q ND Hsz Hb (reach_settled alt ND Hsz h Hr) NQ HQ)
    as (s & Es & Ns & Ls & E1 & E2 & E3).
  split; [|exists s; auto].
  split; [exact E1|]. split; [exact E2|].
  intros Ht. apply E3. rewrite (settled_shape _ _ (reach_settled alt ND Hsz h Hr)).
  apply tri_free_nol2; assumption.
Qed.

Lemma ti_ok_same A B alt x : NoDup A -> NoDup B -> (forall y, In y A <-> In y B) ->
  ti_ok A alt x -> ti_ok B alt x.
Proof.
  intros NA NB H (E1 & (v & Hv & E2) & E3). split; [|split].
  - rewrite E1. apply minD_same; assumption.
  - exists v. split; [exact Hv|]. rewrite E2. apply tdist_same; assumption.
  - intros Ht. rewrite (E3 Ht). apply maxD_same; assumption.
Qed.

(** ** The driver *)

(** Parents of a reference node, by [neigh[0]]: [x] and its first [k]
    ancestors. *)
Section RefTree.
Variable rneigh : nat -> list nat.
Variable rdepth : nat -> nat.
Variable rheavychild : nat -> nat.
Variable lightleaves : nat -> list nat.
Variable other : nat -> nat.

Fixpoint up_path (k x : nat) : list nat :=
  match k with
  | O => [x]
  | S k' => x :: up_path k' (rneigh_at rneigh x 0)
  end.

(** [L(u)]: the taxa (the [other] of the reference leaves) below [u]. *)
Definition ref_taxa (ref_leaves : list nat) (u : nat) : list nat :=
  map other (filter (fun x => mem u (up_path (rdepth x) x)) ref_leaves).

(** [u] reaches [x] by heavy-child steps from internal nodes. *)
Inductive hpath : nat -> nat -> Prop :=
| hp_refl u : hpath u u
| hp_step u x : rnneigh rneigh u <> 1%nat -> hpath (rheavychild u) x -> hpath u x.

(** The list of leaves the two loops hand to the HPT, starting at [u]. *)
Fixpoint walk (fuel u : nat) : list nat :=
  match fuel with
  | O => []
  | S f => leaves_at rneigh lightleaves other u ++
           (if heads_up rneigh rdepth rheavychild u then walk f (rneigh_at rneigh u 0) else [])
  end.

Fixpoint hdesc (fuel u : nat) : nat :=
  match fuel with
  | O => u
  | S f => if Nat.eqb (rnneigh rneigh u) 1 then u else hdesc f (rheavychild u)
  end.

Lemma hpath_hdesc fuel : forall u, hpath u (hdesc fuel u).
Proof.
  induction fuel as [|f IH]; intros u; cbn [hdesc]; [apply hp_refl|].
  destruct (Nat.eqb_spec (rnneigh rneigh u) 1); [apply hp_refl|].
  apply hp_step; [assumption | apply IH].
Qed.

Section Run.
Variable L : nat -> list nat.
Variable a_nodes : list nat.
Variable alt : tree.
Variable nb_taxa : Z.

Hypothesis HL_nd : forall u, In u a_nodes -> NoDup (L u).
Hypothesis HL_sub : forall u, In u a_nodes -> incl (L u) (leaves alt).
Hypothesis HL_one : forall u, In u a_nodes -> rnneigh rneigh u = 1%nat ->
  forall y, In y (L u) <-> y = other u.
Hypothesis HL_int : forall u, In u a_nodes -> rnneigh rneigh u <> 1%nat ->
  In (rheavychild u) a_nodes /\ rdepth (rheavychild u) = S (rdepth u) /\
  rneigh_at rneigh (rheavychild u) 0 = u /\
  NoDup (L (rheavychild u) ++ map other (lightleaves u)) /\
  (forall y, In y (L u) <-> In y (L (rheavychild u) ++ map other (lightleaves u))).
Hypothesis HL_par : forall u, In u a_nodes -> rdepth u <> 0%nat ->
  In (rneigh_at rneigh u 0) a_nodes /\ rnneigh rneigh (rneigh_at rneigh u 0) <> 1%nat.
Hypothesis H_alt_nd : NoDup (leaves alt).
Hypothesis H_alt_sz : subtreesize alt <= INT_MAX.
Hypothesis H_alt_bin : is_HPT_leaf (heavy_decomposition alt) = false.

Definition correct (u : nat) (x : Z * Z) : Prop := ti_ok (L u) alt x.

Lemma heads_up_parent u : In u a_nodes -> heads_up rneigh rdepth rheavychild u = true ->
  In (rneigh_at rneigh u 0) a_nodes /\ rnneigh rneigh (rneigh_at rneigh u 0) <> 1%nat /\
  rheavychild (rneigh_at rneigh u 0) = u /\ rdepth u = S (rdepth (rneigh_at rneigh u 0)).
Proof.
  intros Hu Hh. unfold heads_up in Hh. apply andb_prop in Hh as [H1 H2].
  apply Nat.eqb_eq in H2. destruct (Nat.eqb_spec (rdepth u) 0) as [|Hd]; [discriminate|].
  destruct (HL_par u Hu Hd) as [Hp Hpi].
  destruct (HL_int _ Hp Hpi) as (_ & Hd' & _ & _ & _).
  refine (conj Hp (conj Hpi (conj (eq_sym H2) _))). rewrite H2 at 1. exact Hd'.
Qed.

Lemma hpath_up v u : hpath v u -> In v a_nodes -> v <> u ->
  heads_up rneigh rdepth rheavychild u = true /\ hpath v (rneigh_at rneigh u 0).
Proof.
  induction 1 as [w|w x Hw Hp IH]; intros Hv Hne; [contradiction|].
  destruct (HL_int w Hv Hw) as (Hh & Hd & Hpar & _ & _).
  destruct (Nat.eq_dec (rheavychild w) x) as [<-|Hne'].
  - split.
    + unfold heads_up. rewrite Hd, Hpar, Nat.eqb_refl. reflexivity.
    + rewrite Hpar. apply hp_refl.
  - destruct (IH Hh Hne') as [Hu Hp']. split; [exact Hu|]. apply hp_step; assumption.
Qed.

Lemma leaves_at_int u : rnneigh rneigh u <> 1%nat ->
  leaves_at rneigh lightleaves other u = map other (lightleaves u).
Proof. intros H. unfold leaves_at. destruct (Nat.eqb_spec (rnneigh rneigh u) 1); congruence. Qed.

Lemma leaves_at_leaf u : rnneigh rneigh u = 1%nat ->
  leaves_at rneigh lightleaves other u = [other u].
Proof. intros H. unfold leaves_at. rewrite H. reflexivity. Qed.

Lemma reset_loop_eq fuel : forall u hpt, (S (rdepth u) <= fuel)%nat -> In u a_nodes ->
  reset_heavy_path_loop rneigh rdepth rheavychild lightleaves other fuel u hpt =
  Ok (resets (walk fuel u) hpt).
Proof.
  induction fuel as [|f IH]; intros u hpt Hf Hu; [lia|].
  cbn [reset_heavy_path_loop walk].
  destruct (heads_up rneigh rdepth rheavychild u) eqn:Hh.
  - destruct (heads_up_parent u Hu Hh) as (Hp & _ & _ & Hd).
    rewrite IH by (try exact Hp; lia). rewrite resets_app. reflexivity.
  - rewrite app_nil_r. reflexivity.
Qed.

Lemma values_adds Q u h : reach alt h -> NoDup Q -> (forall y, In y Q <-> In y (L u)) ->
  In u a_nodes -> correct u (get_ti_min (adds Q h), get_ti_max (adds Q h)).
Proof.
  intros Hr HD HS Hu.
  assert (Hin : incl Q (leaves alt)) by (intros y Hy; apply (HL_sub u Hu), HS, Hy).
  destruct (reach_values alt h Q H_alt_nd H_alt_sz H_alt_bin Hr HD Hin) as [Hok _].
  apply (ti_ok_same Q); auto.
Qed.

Lemma add_loop_eq fuel : forall u Q tis h, (S (rdepth u) <= fuel)%nat -> In u a_nodes ->
  reach alt h ->
  NoDup (Q ++ leaves_at rneigh lightleaves other u) ->
  (forall y, In y (Q ++ leaves_at rneigh lightleaves other u) <-> In y (L u)) ->
  exists tis',
    add_heavy_path_loop rneigh rdepth rheavychild lightleaves other fuel false nb_taxa u
      (adds Q h) tis = Ok (adds (Q ++ walk fuel u) h, tis') /\
    (forall v, correct v (tis v) -> correct v (tis' v)) /\
    (forall v, In v a_nodes -> hpath v u -> correct v (tis' v)) /\
    NoDup (Q ++ walk fuel u) /\ incl (Q ++ walk fuel u) (leaves alt).
Proof.
  induction fuel as [|f IH]; intros u Q tis h Hf Hu Hr HD HS; [lia|].
  cbn [add_heavy_path_loop walk].
  change (fold_left (fun h x => add_leaf_HPT x h) (leaves_at rneigh lightleaves other u) (adds Q h))
    with (adds (leaves_at rneigh lightleaves other u) (adds Q h)).
  rewrite <- adds_app.
  pose proof (values_adds _ u h Hr HD HS Hu) as Hc.
  set (la := leaves_at rneigh lightleaves other u) in *.
  set (tis1 := upd_ti tis u (get_ti_min (adds (Q ++ la) h), get_ti_max (adds (Q ++ la) h))).
  assert (Pres : forall v, correct v (tis v) -> correct v (tis1 v)).
  { intros v Hv. unfold tis1, upd_ti. destruct (Nat.eqb_spec v u) as [->|]; auto. }
  assert (Here : correct u (tis1 u)).
  { unfold tis1, upd_ti. rewrite Nat.eqb_refl. exact Hc. }
  destruct (heads_up rneigh rdepth rheavychild u) eqn:Hh.
  - destruct (heads_up_parent u Hu Hh) as (Hp & Hpi & Hhc & Hd).
    set (p := rneigh_at rneigh u 0) in *.
    destruct (HL_int p Hp Hpi) as (_ & _ & _ & HD2 & HS2). rewrite Hhc in HD2, HS2.
    assert (Hlp : leaves_at rneigh lightleaves other p = map other (lightleaves p))
      by (apply leaves_at_int; exact Hpi).
    destruct (IH p (Q ++ la) tis1 h) as (tis' & E & P1 & P2 & P3 & P4).
    + lia.
    + exact Hp.
    + exact Hr.
    + rewrite Hlp. apply NoDup_app; [exact HD | eapply NoDup_app_remove_l; exact HD2 |].
      intros y Hy1 Hy2. apply (NoDup_app_disj (L u) (map other (lightleaves p)) y HD2);
        [apply HS; exact Hy1 | exact Hy2].
    + intros y. rewrite Hlp, HS2, !in_app_iff, <- HS, in_app_iff. reflexivity.
    + exists tis'. rewrite <- app_assoc in E, P3, P4. split; [exact E|].
      split; [intros v Hv; apply P1, Pres, Hv|].
      split; [|split; assumption].
      intros v Hv Hvu. destruct (Nat.eq_dec v u) as [->|Hne].
      * apply P1, Here.
      * destruct (hpath_up v u Hvu Hv Hne) as [_ Hvp]. apply P2; assumption.
  - exists tis1. rewrite app_nil_r. split; [reflexivity|].
    split; [exact Pres|]. split; [|split; [exact HD|]].
    + intros v Hv Hvu. destruct (Nat.eq_dec v u) as [->|Hne]; [exact Here|].
      destruct (hpath_up v u Hvu Hv Hne) as [Hh' _]. congruence.
    + intros y Hy. apply (HL_sub u Hu). apply HS. exact Hy.
Qed.

(** With the taxon count of [alt], the run that also computes the transfer
    sets passes every check and gives the run that does not. *)
Lemma add_loop_same fuel : nb_taxa = Z.of_nat (length (leaves alt)) ->
  forall u Q tis h, (S (rdepth u) <= fuel)%nat -> In u a_nodes -> reach alt h ->
  NoDup (Q ++ leaves_at rneigh lightleaves other u) ->
  (forall y, In y (Q ++ leaves_at rneigh lightleaves other u) <-> In y (L u)) ->
  add_heavy_path_loop rneigh rdepth rheavychild lightleaves other fuel true nb_taxa u (adds Q h) tis =
  add_heavy_path_loop rneigh rdepth rheavychild lightleaves other fuel false nb_taxa u (adds Q h) tis.
Proof.
  intros Hnb. induction fuel as [|f IH]; intros u Q tis h Hf Hu Hr HD HS; [lia|].
  cbn [add_heavy_path_loop].
  change (fold_left (fun h x => add_leaf_HPT x h) (leaves_at rneigh lightleaves other u) (adds Q h))
    with (adds (leaves_at rneigh lightleaves other u) (adds Q h)).
  rewrite <- adds_app.
  set (la := leaves_at rneigh lightleaves other u) in *.
  assert (Hin : incl (Q ++ la) (leaves alt)) by (intros y Hy; apply (HL_sub u Hu), HS, Hy).
  destruct (reach_values alt h (Q ++ la) H_alt_nd H_alt_sz H_alt_bin Hr HD Hin) as (_ & s & Es & _ & Ls).
  rewrite <- Hnb in Es, Ls. rewrite Es, Ls, Z.eqb_refl. cbv beta iota.
  destruct (heads_up rneigh rdepth rheavychild u) eqn:Hh; [|reflexivity].
  destruct (heads_up_parent u Hu Hh) as (Hp & Hpi & Hhc & Hd).
  set (p := rneigh_at rneigh u 0) in *.
  destruct (HL_int p Hp Hpi) as (_ & _ & _ & HD2 & HS2). rewrite Hhc in HD2, HS2.
  assert (Hlp : leaves_at rneigh lightleaves other p = map other (lightleaves p))
    by (apply leaves_at_int; exact Hpi).
  apply IH.
  - lia.
  - exact Hp.
  - exact Hr.
  - rewrite Hlp. apply NoDup_app; [exact HD | eapply NoDup_app_remove_l; exact HD2 |].
    intros y Hy1 Hy2. apply (NoDup_app_disj (L u) (map other (lightleaves p)) y HD2);
      [apply HS; exact Hy1 | exact Hy2].
  - intros y. rewrite Hlp, HS2, !in_app_iff, <- HS, in_app_iff. reflexivity.
Qed.

Variable ref_leaves : list nat.
Hypothesis HL_leaf : forall x, In x ref_leaves ->
  In x a_nodes /\ rnneigh rneigh x = 1%nat /\ rdepth x <> 0%nat.

Lemma leaf_start x : In x ref_leaves ->
  NoDup ([] ++ leaves_at rneigh lightleaves other x) /\
  (forall y, In y ([] ++ leaves_at rneigh lightleaves other x) <-> In y (L x)).
Proof.
  intros Hx. destruct (HL_leaf x Hx) as (Hx' & Hl1 & _).
  rewrite leaves_at_leaf by exact Hl1. split; [repeat constructor; intros []|].
  intros y. rewrite (HL_one x Hx' Hl1). cbn.
  split; [intros [<-|[]]; reflexivity | intros ->; left; reflexivity].
Qed.

Lemma fold_run ls : forall tis h, reach alt h -> incl ls ref_leaves ->
  exists h' tis',
    fold_left (ref_leaf_step rneigh rdepth rheavychild lightleaves other false nb_taxa) ls
      (Ok (h, tis)) = Ok (h', tis') /\
    (forall v, correct v (tis v) -> correct v (tis' v)) /\
    (forall v x, In x ls -> In v a_nodes -> hpath v x -> correct v (tis' v)).
Proof.
  induction ls as [|x ls IH]; intros tis h Hr Hls.
  - exists h, tis. split; [reflexivity|]. split; [auto|]. intros v x [].
  - assert (Hx0 : In x ref_leaves) by (apply Hls; left; reflexivity).
    destruct (HL_leaf x Hx0) as (Hx & Hl1 & Hd).
    destruct (leaf_start x Hx0) as [HD HS].
    destruct (add_loop_eq (S (rdepth x)) x [] tis h ltac:(lia) Hx Hr HD HS)
      as (tis1 & E & P1 & P2 & P3 & P4).
    cbn [fold_left]. unfold ref_leaf_step at 2.
    change (adds [] h) with h in E. rewrite E.
    rewrite reset_loop_eq by (try exact Hx; lia).
    assert (Hr' : reach alt (resets (walk (S (rdepth x)) x) (adds ([] ++ walk (S (rdepth x)) x) h)))
      by (apply reach_round; [exact Hr | exact P4]).
    destruct (IH tis1 _ Hr') as (h' & tis' & E' & Q1 & Q2);
      [intros y Hy; apply Hls; right; exact Hy|].
    exists h', tis'. split; [exact E'|]. split; [intros v Hv; apply Q1, P1, Hv|].
    intros v y [<-|Hy] Hv Hp.
    + apply Q1, P2; assumption.
    + apply (Q2 v y); assumption.
Qed.

Lemma fold_same ls : nb_taxa = Z.of_nat (length (leaves alt)) ->
  forall tis h, reach alt h -> incl ls ref_leaves ->
  fold_left (ref_leaf_step rneigh rdepth rheavychild lightleaves other true nb_taxa) ls (Ok (h, tis)) =
  fold_left (ref_leaf_step rneigh rdepth rheavychild lightleaves other false nb_taxa) ls (Ok (h, tis)).
Proof.
  intros Hnb. induction ls as [|x ls IH]; intros tis h Hr Hls; [reflexivity|].
  assert (Hx0 : In x ref_leaves) by (apply Hls; left; reflexivity).
  destruct (HL_leaf x Hx0) as (Hx & Hl1 & Hd).
  destruct (leaf_start x Hx0) as [HD HS].
  pose proof (add_loop_same (S (rdepth x)) Hnb x [] tis h ltac:(lia) Hx Hr HD HS) as Es.
  destruct (add_loop_eq (S (rdepth x)) x [] tis h ltac:(lia) Hx Hr HD HS)
    as (tis1 & E & _ & _ & _ & P4).
  change (adds [] h) with h in E, Es.
  cbn [fold_left]. unfold ref_leaf_step at 2 4. rewrite Es, E.
  rewrite reset_loop_eq by (try exact Hx; lia).
  apply IH; [apply reach_round; [exact Hr | exact P4]|].
  intros y Hy. apply Hls. right. exact Hy.
Qed.

End Run.

(** The run that also computes the transfer sets, when it succeeds, gives
    the same result as the run that does not. *)
Lemma add_loop_getsets fuel : forall n u hpt tis r,
  add_heavy_path_loop rneigh rdepth rheavychild lightleaves other fuel true n u hpt tis = Ok r ->
  add_heavy_path_loop rneigh rdepth rheavychild lightleaves other fuel false n u hpt tis = Ok r.
Proof.
  induction fuel as [|f IH]; intros n u hpt tis r H; [discriminate|].
  cbn [add_heavy_path_loop] in *.
  destruct (get_transfer_set_HPT _ _); try discriminate.
  match type of H with context [if ?c then _ else _] => destruct c end; try discriminate.
  destruct (heads_up rneigh rdepth rheavychild u); [apply IH; exact H | exact H].
Qed.

Lemma fold_getsets n ls : forall st r,
  fold_left (ref_leaf_step rneigh rdepth rheavychild lightleaves other true n) ls st = Ok r ->
  (forall st', st = Ok st' -> fold_left (ref_leaf_step rneigh rdepth rheavychild lightleaves other false n) ls st = Ok r).
Proof.
  induction ls as [|x ls IH]; intros st r H st' Hst; [exact H|].
  cbn [fold_left] in *. subst st. destruct st' as [hpt tis].
  assert (Hstep : forall s, ref_leaf_step rneigh rdepth rheavychild lightleaves other true n (Ok (hpt, tis)) x = Ok s ->
                       ref_leaf_step rneigh rdepth rheavychild lightleaves other false n (Ok (hpt, tis)) x = Ok s).
  { intros s Hs. unfold ref_leaf_step in *.
    destruct (add_heavy_path_loop _ _ _ _ _ _ true _ _ _ _) as [[h1 t1]| |] eqn:Ea; try discriminate.
    rewrite (add_loop_getsets _ _ _ _ _ _ Ea). exact Hs. }
  destruct (ref_leaf_step rneigh rdepth rheavychild lightleaves other true n (Ok (hpt, tis)) x) as [s| |] eqn:Es.
  - rewrite (Hstep s eq_refl). apply (IH _ r H s eq_refl).
  - exfalso. clear -H. induction ls as [|y ls IH]; [discriminate|]. apply IH. exact H.
  - exfalso. clear -H. induction ls as [|y ls IH]; [discriminate|]. apply IH. exact H.
Qed.

End RefTree.

(** ** The transfer index of an edge, and the checks on the input *)

(** The value the computation stands for at a reference node with taxa [A]:
    the smallest distance to a node of [alt], or [n] minus the largest. *)
Definition ti_spec (A : list nat) (n : Z) (alt : tree) : Z :=
  Z.min (minD A alt) (n - maxD A alt).

Fixpoint nodupb (l : list nat) : bool :=
  match l with
  | [] => true
  | x :: l' => negb (mem x l') && nodupb l'
  end.

Definition same_set (A B : list nat) : bool :=
  forallb (fun y => mem y B) A && forallb (fun y => mem y A) B.

(** What the reference tree, once prepared, provides: the reference leaves
    are leaf nodes below the root; [L(u)] (computed from the parent links)
    are distinct taxa of [alt]; at an internal node the heavy child is a
    child and [L(u)] is [L(heavychild)] plus the [other] of [lightleaves];
    a leaf's taxon is its [other]; every non-root node descends by heavy
    children to a reference leaf; the edges above the non-root nodes are
    distinct. *)
Section Check.
Variable rneigh : nat -> list nat.
Variable rdepth : nat -> nat.
Variable rheavychild : nat -> nat.
Variable lightleaves : nat -> list nat.
Variable other : nat -> nat.
Variable ref_leaves a_nodes : list nat.
Variable br0 : nat -> nat.
Variable alt : tree.

Definition leaf_ok (x : nat) : bool :=
  mem x a_nodes && Nat.eqb (rnneigh rneigh x) 1 && negb (Nat.eqb (rdepth x) 0).

Definition node_ok (u : nat) : bool :=
  let L := ref_taxa rneigh rdepth other ref_leaves in
  nodupb (L u) && forallb (fun y => mem y (leaves alt)) (L u) &&
  (if Nat.eqb (rnneigh rneigh u) 1 then same_set (L u) [other u]
   else mem (rheavychild u) a_nodes && Nat.eqb (rdepth (rheavychild u)) (S (rdepth u)) &&
        Nat.eqb (rneigh_at rneigh (rheavychild u) 0) u &&
        nodupb (L (rheavychild u) ++ map other (lightleaves u)) &&
        same_set (L u) (L (rheavychild u) ++ map other (lightleaves u))) &&
  (if Nat.eqb (rdepth u) 0 then true
   else mem (rneigh_at rneigh u 0) a_nodes &&
        negb (Nat.eqb (rnneigh rneigh (rneigh_at rneigh u 0)) 1) &&
        mem (hdesc rneigh rheavychild (length a_nodes) u) ref_leaves).

Definition inputs_ok : bool :=
  forallb leaf_ok ref_leaves && forallb node_ok a_nodes &&
  nodupb (leaves alt) && (subtreesize alt <=? INT_MAX) && internal alt &&
  nodupb (map br0 (filter (fun u => negb (Nat.eqb (rdepth u) 0)) a_nodes)).

End Check.

(** The transfer index as the claim words it: the smallest distance to an
    internal node of [alt], clipped to [n/2]. *)
Fixpoint internal_nodes (t : tree) : list tree :=
  match t with
  | Leaf _ => []
  | Bin l r => t :: internal_nodes l ++ internal_nodes r
  | Tri a b c => t :: internal_nodes a ++ internal_nodes b ++ internal_nodes c
  end.

Definition claimed_ti (A : list nat) (n : Z) (alt : tree) : Z :=
  Z.min (fold_right Z.min n (map (tdist A) (internal_nodes alt))) (n / 2).

(** The number of nodes of the heavy path a PT covers. *)
Fixpoint pt_len (p : path) : nat :=
  match p with
  | PT_node _ l r => (pt_len l + pt_len r)%nat
  | PT_leaf _ _ _ => 1%nat
  | PT_leaf2 _ _ _ _ => 1%nat
  | HPT_leaf _ _ => 1%nat
  end.

(** A reference tree with three taxa: root [0] with children [1] (taxon 0)
    and [2]; node [2] with children [3] (taxon 1) and [4] (taxon 2).  Edge
    [u] is the edge above node [u]. *)
Module Ex3.
Definition rneigh (u : nat) : list nat :=
  match u with
  | 0 => [1; 2] | 1 => [0] | 2 => [0; 3; 4] | 3 => [2] | 4 => [2] | _ => []
  end%nat.
Definition rdepth (u : nat) : nat :=
  match u with 0 => 0 | 1 => 1 | 2 => 1 | 3 => 2 | 4 => 2 | _ => 0 end%nat.
Definition rheavychild (u : nat) : nat :=
  match u with 0 => 2 | 2 => 3 | _ => 0 end%nat.
Definition lightleaves (u : nat) : list nat :=
  match u with 0 => [1] | 2 => [4] | _ => [] end%nat.
Definition other (u : nat) : nat :=
  match u with 1 => 0 | 3 => 1 | 4 => 2 | _ => 0 end%nat.
Definition ref_leaves : list nat := [1; 3; 4]%nat.
Definition a_nodes : list nat := [0; 1; 2; 3; 4]%nat.
Definition a_edges : list nat := [1; 2; 3; 4]%nat.
Definition br0 (u : nat) : nat := u.
Definition alt : tree := Bin (Bin (Leaf 0) (Leaf 1)) (Leaf 2).
(** The same taxa below one node of three children. *)
Definition alt3 : tree := Tri (Leaf 0) (Leaf 1) (Leaf 2).
Definition ti0 : tistore := fun _ => (0, 0).
End Ex3.

Lemma nodupb_NoDup l : nodupb l = true -> NoDup l.
Proof.
  induction l as [|x l IH]; cbn; intros H; [constructor|].
  apply andb_prop in H as [H1 H2]. constructor; [|auto].
  apply mem_false. destruct (mem x l); [discriminate | reflexivity].
Qed.

Lemma same_set_iff A B : same_set A B = true -> forall y, In y A <-> In y B.
Proof.
  unfold same_set. intros H. apply andb_prop in H as [H1 H2].
  rewrite forallb_forall in H1, H2. intros y. split; intros Hy.
  - apply mem_In. apply H1. exact Hy.
  - apply mem_In. apply H2. exact Hy.
Qed.

Lemma forallb_mem_incl A B : forallb (fun y => mem y B) A = true -> incl A B.
Proof. rewrite forallb_forall. intros H y Hy. apply mem_In. apply H. exact Hy. Qed.

Lemma mem_true y A : mem y A = true -> In y A.
Proof. apply mem_In. Qed.

Ltac andb_split :=
  repeat match goal with
  | H : (_ && _)%bool = true |- _ => apply andb_prop in H as [? ?]
  end.

(** The checks give the hypotheses of the driver lemmas. *)
Lemma inputs_ok_hyps rneigh rdepth rheavychild lightleaves other ref_leaves a_nodes br0 alt :
  inputs_ok rneigh rdepth rheavychild lightleaves other ref_leaves a_nodes br0 alt = true ->
  let L := ref_taxa rneigh rdepth other ref_leaves in
  (forall u, In u a_nodes -> NoDup (L u)) /\
  (forall u, In u a_nodes -> incl (L u) (leaves alt)) /\
  (forall u, In u a_nodes -> rnneigh rneigh u = 1%nat -> forall y, In y (L u) <-> y = other u) /\
  (forall u, In u a_nodes -> rnneigh rneigh u <> 1%nat ->
     In (rheavychild u) a_nodes /\ rdepth (rheavychild u) = S (rdepth u) /\
     rneigh_at rneigh (rheavychild u) 0 = u /\
     NoDup (L (rheavychild u) ++ map other (lightleaves u)) /\
     (forall y, In y (L u) <-> In y (L (rheavychild u) ++ map other (lightleaves u)))) /\
  (forall u, In u a_nodes -> rdepth u <> 0%nat ->
     In (rneigh_at rneigh u 0) a_nodes /\ rnneigh rneigh (rneigh_at rneigh u 0) <> 1%nat /\
     exists x, In x ref_leaves /\ hpath rneigh rheavychild u x) /\
  NoDup (leaves alt) /\ subtreesize alt <= INT_MAX /\
  is_HPT_leaf (heavy_decomposition alt) = false /\
  (forall x, In x ref_leaves -> In x a_nodes /\ rnneigh rneigh x = 1%nat /\ rdepth x <> 0%nat) /\
  NoDup (map br0 (filter (fun u => negb (Nat.eqb (rdepth u) 0)) a_nodes)).
Proof.
  intros H. unfold inputs_ok in H.
  apply andb_prop in H as [H Hnr]. apply andb_prop in H as [H Hbin].
  apply andb_prop in H as [H Hsz]. apply andb_prop in H as [H Hal].
  apply andb_prop in H as [Hlf Hnd].
  rewrite forallb_forall in Hlf, Hnd.
  assert (HN : forall u, In u a_nodes -> node_ok rneigh rdepth rheavychild lightleaves other ref_leaves a_nodes alt u = true)
    by exact Hnd.
  clear Hnd.
  assert (HN' : forall u, In u a_nodes ->
    nodupb (ref_taxa rneigh rdepth other ref_leaves u) = true /\
    forallb (fun y => mem y (leaves alt)) (ref_taxa rneigh rdepth other ref_leaves u) = true /\
    (if Nat.eqb (rnneigh rneigh u) 1
     then same_set (ref_taxa rneigh rdepth other ref_leaves u) [other u]
     else mem (rheavychild u) a_nodes && Nat.eqb (rdepth (rheavychild u)) (S (rdepth u)) &&
          Nat.eqb (rneigh_at rneigh (rheavychild u) 0) u &&
          nodupb (ref_taxa rneigh rdepth other ref_leaves (rheavychild u) ++ map other (lightleaves u)) &&
          same_set (ref_taxa rneigh rdepth other ref_leaves u)
                   (ref_taxa rneigh rdepth other ref_leaves (rheavychild u) ++ map other (lightleaves u))) = true /\
    (if Nat.eqb (rdepth u) 0 then true
     else mem (rneigh_at rneigh u 0) a_nodes &&
          negb (Nat.eqb (rnneigh rneigh (rneigh_at rneigh u 0)) 1) &&
          mem (hdesc rneigh rheavychild (length a_nodes) u) ref_leaves) = true).
  { intros u Hu. specialize (HN u Hu). unfold node_ok in HN.
    apply andb_prop in HN as [HN HD]. apply andb_prop in HN as [HN HC].
    apply andb_prop in HN as [HA HB]. auto. }
  clear HN.
  split; [|split; [|split; [|split; [|split; [|split; [|split; [|split; [|split]]]]]]]].
  - intros u Hu. destruct (HN' u Hu) as (HA & _ & _ & _). apply nodupb_NoDup. exact HA.
  - intros u Hu. destruct (HN' u Hu) as (_ & HB & _ & _). apply forallb_mem_incl. exact HB.
  - intros u Hu H1 y. destruct (HN' u Hu) as (_ & _ & HC & _).
    rewrite H1, Nat.eqb_refl in HC. rewrite (same_set_iff _ _ HC y). cbn. intuition.
  - intros u Hu H1. destruct (HN' u Hu) as (_ & _ & HC & _).
    apply Nat.eqb_neq in H1. rewrite H1 in HC.
    apply andb_prop in HC as [HC H5]. apply andb_prop in HC as [HC H4].
    apply andb_prop in HC as [HC H3]. apply andb_prop in HC as [H0 H2].
    repeat split.
    + apply mem_true. exact H0.
    + apply Nat.eqb_eq. exact H2.
    + apply Nat.eqb_eq. exact H3.
    + apply nodupb_NoDup. exact H4.
    + intros Hy. apply (same_set_iff _ _ H5 y). exact Hy.
    + intros Hy. apply (same_set_iff _ _ H5 y). exact Hy.
  - intros u Hu H1. destruct (HN' u Hu) as (_ & _ & _ & HD).
    apply Nat.eqb_neq in H1. rewrite H1 in HD.
    apply andb_prop in HD as [HD H3]. apply andb_prop in HD as [H0 H2].
    split; [apply mem_true; exact H0|]. split.
    + apply Nat.eqb_neq. destruct (Nat.eqb (rnneigh rneigh (rneigh_at rneigh u 0)) 1); [discriminate | reflexivity].
    + eexists. split; [apply mem_true; exact H3 | apply hpath_hdesc].
  - apply nodupb_NoDup. exact Hal.
  - apply Z.leb_le. exact Hsz.
  - apply P0_not_HPT_leaf; [exact Hbin | apply nodupb_NoDup; exact Hal | apply Z.leb_le; exact Hsz].
  - intros x Hx. specialize (Hlf x Hx). unfold leaf_ok in Hlf.
    apply andb_prop in Hlf as [Hl H3]. apply andb_prop in Hl as [H1 H2].
    split; [apply mem_true; exact H1|]. split; [apply Nat.eqb_eq; exact H2|].
    apply Nat.eqb_neq. destruct (Nat.eqb (rdepth x) 0); [discriminate H3 | reflexivity].
  - apply nodupb_NoDup. exact Hnr.
Qed.

Lemma nonroot_edges_map rdepth br0 (tis : tistore) l :
  EdgeTI.nonroot_edges (map (fun u => EdgeTI.mkNode (rdepth u) (br0 u) (fst (tis u)) (snd (tis u))) l) =
  map br0 (filter (fun u => negb (Nat.eqb (rdepth u) 0)) l).
Proof.
  unfold EdgeTI.nonroot_edges. induction l as [|x l IH]; [reflexivity|].
  cbn. destruct (negb (Nat.eqb (rdepth x) 0)); cbn; rewrite IH; reflexivity.
Qed.

Lemma compute_getsets rneigh rdepth rheavychild lightleaves other ref_leaves a_nodes a_edges br0 alt ti0 res :
  compute_transfer_indices_fast rneigh rdepth rheavychild lightleaves other
    ref_leaves a_nodes a_edges br0 alt true ti0 = Ok res ->
  compute_transfer_indices_fast rneigh rdepth rheavychild lightleaves other
    ref_leaves a_nodes a_edges br0 alt false ti0 = Ok res.
Proof.
  unfold compute_transfer_indices_fast. intros H.
  destruct (fold_left (ref_leaf_step rneigh rdepth rheavychild lightleaves other true _) _ _)
    as [[h t]| |] eqn:E; try discriminate.
  rewrite (fold_getsets _ _ _ _ _ _ _ _ _ E _ eq_refl). exact H.
Qed.

(** The result of a run: the array holds, on the edge above each non-root
    node [u], [min(ti_min, n - ti_max)] for a pair that [ti_ok (L u) alt]
    describes, and [0] on any other edge. *)
Lemma run_spec rneigh rdepth rheavychild lightleaves other ref_leaves a_nodes a_edges br0 alt ti0 :
  inputs_ok rneigh rdepth rheavychild lightleaves other ref_leaves a_nodes br0 alt = true ->
  let n := Z.of_nat (length ref_leaves) in
  let L := ref_taxa rneigh rdepth other ref_leaves in
  (exists res, compute_transfer_indices_fast rneigh rdepth rheavychild lightleaves other
                 ref_leaves a_nodes a_edges br0 alt false ti0 = Ok res) /\
  (forall getsets res,
     compute_transfer_indices_fast rneigh rdepth rheavychild lightleaves other
       ref_leaves a_nodes a_edges br0 alt getsets ti0 = Ok res ->
     exists (es : nat -> Z) (tis : tistore), res = map es a_edges /\
       (forall u, In u a_nodes -> rdepth u <> 0%nat ->
          ti_ok (L u) alt (tis u) /\ es (br0 u) = Z.min (fst (tis u)) (n - snd (tis u))) /\
       (forall e, ~ In e (map br0 (filter (fun u => negb (Nat.eqb (rdepth u) 0)) a_nodes)) ->
          es e = 0)).
Proof.
  intros Hok n L.
  destruct (inputs_ok_hyps _ _ _ _ _ _ _ _ _ Hok)
    as (H1 & H2 & H3 & H4 & H5 & H6 & H7 & H8 & H9 & H10).
  fold L in H1, H2, H3, H4.
  assert (H5' : forall u, In u a_nodes -> rdepth u <> 0%nat ->
            In (rneigh_at rneigh u 0) a_nodes /\ rnneigh rneigh (rneigh_at rneigh u 0) <> 1%nat)
    by (intros u Hu Hd; destruct (H5 u Hu Hd) as (? & ? & _); split; assumption).
  destruct (fold_run rneigh rdepth rheavychild lightleaves other L a_nodes alt n
              H1 H2 H3 H4 H5' H6 H7 H8 ref_leaves H9 ref_leaves ti0 (heavy_decomposition alt)
              (reach_init alt) (incl_refl _))
    as (h' & tis & E & _ & Hcov).
  set (es := EdgeTI.nodeTI_to_edgeTI
               (map (fun u => EdgeTI.mkNode (rdepth u) (br0 u) (fst (tis u)) (snd (tis u))) a_nodes)
               n (fun _ => 0)).
  assert (Hrun : compute_transfer_indices_fast rneigh rdepth rheavychild lightleaves other
                   ref_leaves a_nodes a_edges br0 alt false ti0 = Ok (map es a_edges)).
  { unfold compute_transfer_indices_fast. fold n. rewrite E. reflexivity. }
  split; [exists (map es a_edges); exact Hrun|].
  intros getsets res Hres.
  assert (Hres' : compute_transfer_indices_fast rneigh rdepth rheavychild lightleaves other
                    ref_leaves a_nodes a_edges br0 alt false ti0 = Ok res)
    by (destruct getsets; [apply compute_getsets; exact Hres | exact Hres]).
  rewrite Hrun in Hres'. injection Hres' as <-.
  exists es, tis. split; [reflexivity|]. split.
  - intros u Hu Hd. split.
    + destruct (H5 u Hu Hd) as (_ & _ & x & Hx & Hp). exact (Hcov u x Hx Hu Hp).
    + unfold es.
      rewrite EdgeTIFacts.nodeTI_to_edgeTI_nonroot with
        (u := EdgeTI.mkNode (rdepth u) (br0 u) (fst (tis u)) (snd (tis u))).
      * reflexivity.
      * rewrite nonroot_edges_map. exact H10.
      * apply in_map_iff. exists u. split; [reflexivity | exact Hu].
      * exact Hd.
  - intros e He. unfold es. rewrite EdgeTIFacts.fold_other; [reflexivity|].
    rewrite nonroot_edges_map. exact He.
Qed.

(** [0 <= min(ti_min, n - ti_max) <= n/2] for a pair [ti_ok] describes,
    [n] the number of taxa. *)
Lemma ti_ok_range A alt x : NoDup A -> incl A (leaves alt) -> NoDup (leaves alt) ->
  ti_ok A alt x ->
  0 <= Z.min (fst x) (Z.of_nat (length (leaves alt)) - snd x) <= Z.of_nat (length (leaves alt)) / 2.
Proof.
  intros NA HA NU (E1 & (v & Hv & E2) & _). set (n := Z.of_nat (length (leaves alt))).
  destruct (minD_spec A alt) as [Hmn [v1 [Hv1 Em]]].
  pose proof (Hmn v Hv) as Mv. pose proof (tdist_nonneg A v1).
  pose proof (tdist_le A alt v NA HA NU Hv). fold n in H0.
  assert (Hn : n = 2 * (n / 2) + n mod 2) by (apply Z.div_mod; lia).
  pose proof (Z.mod_pos_bound n 2 ltac:(lia)).
  rewrite E1, E2. lia.
Qed.

(** At a reference leaf [x], [minD] is [0]. *)
Lemma minD_taxon A alt x : NoDup A -> (forall y, In y A <-> y = x) -> In x (leaves alt) ->
  minD A alt = 0.
Proof.
  intros NA HA Hx. destruct (minD_spec A alt) as [Hmn [v [_ E]]].
  pose proof (Hmn (Leaf x) (leaf_in_nodes x alt Hx)) as H0.
  rewrite (tdist_same A [x]) in H0.
  - unfold tdist in H0. cbn in H0. rewrite Nat.eqb_refl in H0. cbn in H0.
    pose proof (tdist_nonneg A v). lia.
  - exact NA.
  - repeat constructor. intros [].
  - intros y. rewrite HA. cbn. intuition.
Qed.

(** ** The claims on the computed transfer indices *)

(** C1 (amended): on every input the checks accept where [alt] is a binary
    tree (no node of three children), the run without transfer sets
    succeeds, and every successful run (with or without the sets) returns
    an array of one entry per edge of [a_edges] whose entry on the edge
    above a non-root reference node [u] is [min(minD, n - maxD)]: the
    smallest distance [|L(u) sym-diff L(v)|] over ALL nodes [v] of [alt],
    leaves included, or [n] minus the largest, [n] the number of reference
    leaves. *)
Theorem transfer_index_spec rneigh rdepth rheavychild lightleaves other
    ref_leaves a_nodes a_edges br0 alt ti0 :
  inputs_ok rneigh rdepth rheavychild lightleaves other ref_leaves a_nodes br0 alt = true ->
  tri_free alt = true ->
  let n := Z.of_nat (length ref_leaves) in
  let L := ref_taxa rneigh rdepth other ref_leaves in
  (exists res, compute_transfer_indices_fast rneigh rdepth rheavychild lightleaves other
                 ref_leaves a_nodes a_edges br0 alt false ti0 = Ok res) /\
  (forall getsets res,
     compute_transfer_indices_fast rneigh rdepth rheavychild lightleaves other
       ref_leaves a_nodes a_edges br0 alt getsets ti0 = Ok res ->
     length res = length a_edges /\
     forall i u, In u a_nodes -> rdepth u <> 0%nat -> nth_error a_edges i = Some (br0 u) ->
       nth_error res i = Some (Z.min (minD (L u) alt) (n - maxD (L u) alt))).
Proof.
  intros Hok Ht n L.
  destruct (run_spec rneigh rdepth rheavychild lightleaves other ref_leaves a_nodes a_edges br0 alt ti0 Hok)
    as [Hex Hall].
  split; [exact Hex|].
  intros getsets res Hres. destruct (Hall getsets res Hres) as (es & tis & -> & Hu & _).
  split; [apply length_map|].
  intros i u Hin Hd Hi. rewrite nth_error_map, Hi. cbn.
  destruct (Hu u Hin Hd) as [(E1 & _ & E3) Ee]. rewrite Ee, E1, (E3 Ht). reflexivity.
Qed.

Lemma transfer_index_spec_witness :
  inputs_ok Ex3.rneigh Ex3.rdepth Ex3.rheavychild Ex3.lightleaves Ex3.other
    Ex3.ref_leaves Ex3.a_nodes Ex3.br0 Ex3.alt = true /\
  tri_free Ex3.alt = true /\
  let n := Z.of_nat (length Ex3.ref_leaves) in
  let L := ref_taxa Ex3.rneigh Ex3.rdepth Ex3.other Ex3.ref_leaves in
  (exists res, compute_transfer_indices_fast Ex3.rneigh Ex3.rdepth Ex3.rheavychild Ex3.lightleaves
                 Ex3.other Ex3.ref_leaves Ex3.a_nodes Ex3.a_edges Ex3.br0 Ex3.alt false Ex3.ti0 = Ok res) /\
  (forall getsets res,
     compute_transfer_indices_fast Ex3.rneigh Ex3.rdepth Ex3.rheavychild Ex3.lightleaves
       Ex3.other Ex3.ref_leaves Ex3.a_nodes Ex3.a_edges Ex3.br0 Ex3.alt getsets Ex3.ti0 = Ok res ->
     length res = length Ex3.a_edges /\
     forall i u, In u Ex3.a_nodes -> Ex3.rdepth u <> 0%nat -> nth_error Ex3.a_edges i = Some (Ex3.br0 u) ->
       nth_error res i = Some (Z.min (minD (L u) Ex3.alt) (n - maxD (L u) Ex3.alt))).
Proof.
  split; [vm_compute; reflexivity|]. split; [vm_compute; reflexivity|].
  apply (transfer_index_spec Ex3.rneigh Ex3.rdepth Ex3.rheavychild Ex3.lightleaves Ex3.other
           Ex3.ref_leaves Ex3.a_nodes Ex3.a_edges Ex3.br0 Ex3.alt Ex3.ti0);
    vm_compute; reflexivity.
Defined.

(** C1, counterexample: on the three-taxon example the computation gives
    [0] on every edge, while the minimum over the INTERNAL nodes of [alt],
    clipped to [n/2], is [1] on every edge (the edge above the reference
    leaf of taxon 0, say, is at distance 0 from the leaf [Leaf 0] of [alt],
    which the minimum over internal nodes leaves out). *)
Lemma transfer_index_internal_nodes_counterexample :
  inputs_ok Ex3.rneigh Ex3.rdepth Ex3.rheavychild Ex3.lightleaves Ex3.other
    Ex3.ref_leaves Ex3.a_nodes Ex3.br0 Ex3.alt = true /\
  compute_transfer_indices_fast Ex3.rneigh Ex3.rdepth Ex3.rheavychild Ex3.lightleaves
    Ex3.other Ex3.ref_leaves Ex3.a_nodes Ex3.a_edges Ex3.br0 Ex3.alt false Ex3.ti0 = Ok [0; 0; 0; 0] /\
  map (fun u => claimed_ti (ref_taxa Ex3.rneigh Ex3.rdepth Ex3.other Ex3.ref_leaves u) 3 Ex3.alt)
    Ex3.a_edges = [1; 1; 1; 1].
Proof. split; [|split]; vm_compute; reflexivity. Qed.

(** C4: on every input the checks accept, where [alt] has as many leaves as
    the reference tree ([n]), every entry of the array any successful run
    returns lies in [[0, n/2]]; [alt] may have nodes of three children. *)
Theorem transfer_index_range rneigh rdepth rheavychild lightleaves other
    ref_leaves a_nodes a_edges br0 alt ti0 :
  inputs_ok rneigh rdepth rheavychild lightleaves other ref_leaves a_nodes br0 alt = true ->
  length (leaves alt) = length ref_leaves ->
  forall getsets res,
    compute_transfer_indices_fast rneigh rdepth rheavychild lightleaves other
      ref_leaves a_nodes a_edges br0 alt getsets ti0 = Ok res ->
    forall z, In z res -> 0 <= z <= Z.of_nat (length ref_leaves) / 2.
Proof.
  intros Hok Hlen getsets res Hres z Hz.
  destruct (run_spec rneigh rdepth rheavychild lightleaves other ref_leaves a_nodes a_edges br0 alt ti0 Hok)
    as [_ Hall].
  destruct (Hall getsets res Hres) as (es & tis & -> & Hu & Ho).
  destruct (inputs_ok_hyps _ _ _ _ _ _ _ _ _ Hok) as (H1 & H2 & _ & _ & _ & H6 & _).
  apply in_map_iff in Hz as (e & <- & He).
  destruct (in_dec Nat.eq_dec e (map br0 (filter (fun u => negb (Nat.eqb (rdepth u) 0)) a_nodes)))
    as [Hin|Hout].
  - apply in_map_iff in Hin as (u & <- & Hu').
    apply filter_In in Hu' as [Hu' Hd]. apply negb_true_iff, Nat.eqb_neq in Hd.
    destruct (Hu u Hu' Hd) as [Hok' ->]. rewrite <- Hlen. apply (ti_ok_range (ref_taxa rneigh rdepth other ref_leaves u)); auto.
  - rewrite (Ho e Hout). split; [lia|]. apply Z.div_pos; lia.
Qed.

Lemma transfer_index_range_witness :
  inputs_ok Ex3.rneigh Ex3.rdepth Ex3.rheavychild Ex3.lightleaves Ex3.other
    Ex3.ref_leaves Ex3.a_nodes Ex3.br0 Ex3.alt3 = true /\
  length (leaves Ex3.alt3) = length Ex3.ref_leaves /\
  forall getsets res,
    compute_transfer_indices_fast Ex3.rneigh Ex3.rdepth Ex3.rheavychild Ex3.lightleaves
      Ex3.other Ex3.ref_leaves Ex3.a_nodes Ex3.a_edges Ex3.br0 Ex3.alt3 getsets Ex3.ti0 = Ok res ->
    forall z, In z res -> 0 <= z <= Z.of_nat (length Ex3.ref_leaves) / 2.
Proof.
  split; [vm_compute; reflexivity|]. split; [vm_compute; reflexivity|].
  apply (transfer_index_range Ex3.rneigh Ex3.rdepth Ex3.rheavychild Ex3.lightleaves Ex3.other
           Ex3.ref_leaves Ex3.a_nodes Ex3.a_edges Ex3.br0 Ex3.alt3 Ex3.ti0);
    vm_compute; reflexivity.
Defined.

(** C5 (amended): on every input the checks accept, where [alt] has [n]
    leaves, at a non-root reference leaf [u] the entry on the edge above [u]
    is [0] in every successful run, and the transfer set computed on the HPT
    that [add_heavy_path] builds first at [u] (any HPT the driver holds
    between two reference leaves, with the taxon of [u] added) is EMPTY
    whenever it is returned, not the singleton of the leaf; [alt] may have
    nodes of three children. *)
Theorem terminal_edge_spec rneigh rdepth rheavychild lightleaves other
    ref_leaves a_nodes a_edges br0 alt ti0 :
  inputs_ok rneigh rdepth rheavychild lightleaves other ref_leaves a_nodes br0 alt = true ->
  length (leaves alt) = length ref_leaves ->
  forall u, In u a_nodes -> rnneigh rneigh u = 1%nat -> rdepth u <> 0%nat ->
  (forall getsets res i,
     compute_transfer_indices_fast rneigh rdepth rheavychild lightleaves other
       ref_leaves a_nodes a_edges br0 alt getsets ti0 = Ok res ->
     nth_error a_edges i = Some (br0 u) -> nth_error res i = Some 0) /\
  (forall h s, reach alt h ->
     get_transfer_set_HPT
       (fold_left (fun h x => add_leaf_HPT x h) (leaves_at rneigh lightleaves other u) h)
       (Z.of_nat (length ref_leaves)) = Ok s -> s = []).
Proof.
  intros Hok Hlen u Hu Hl Hd.
  destruct (inputs_ok_hyps _ _ _ _ _ _ _ _ _ Hok) as (H1 & H2 & H3 & _ & _ & H6 & H7 & H8 & _).
  set (L := ref_taxa rneigh rdepth other ref_leaves) in *.
  assert (Hx : In (other u) (leaves alt)) by (apply (H2 u Hu), (H3 u Hu Hl); reflexivity).
  assert (HA : forall y, In y (L u) <-> y = other u) by exact (H3 u Hu Hl).
  assert (Hmin : minD (L u) alt = 0) by (apply (minD_taxon _ _ (other u)); auto).
  assert (Hz : forall x, ti_ok (L u) alt x -> Z.min (fst x) (Z.of_nat (length ref_leaves) - snd x) = 0).
  { intros x (E1 & (v & Hv & E2) & _). rewrite E1, E2, Hmin.
    pose proof (tdist_le (L u) alt v (H1 u Hu) (H2 u Hu) H6 Hv). lia. }
  split.
  - intros getsets res i Hres Hi.
    destruct (run_spec rneigh rdepth rheavychild lightleaves other ref_leaves a_nodes a_edges br0 alt ti0 Hok)
      as [_ Hall].
    destruct (Hall getsets res Hres) as (es & tis & -> & Hu' & _).
    rewrite nth_error_map, Hi. cbn. destruct (Hu' u Hu Hd) as [Hc ->]. rewrite (Hz _ Hc). reflexivity.
  - intros h s Hr Hs. rewrite (leaves_at_leaf _ _ _ u Hl) in Hs.
    change (fold_left (fun h x => add_leaf_HPT x h) [other u] h) with (adds [other u] h) in Hs.
    assert (Hin : incl [other u] (leaves alt)) by (intros y [<-|[]]; exact Hx).
    destruct (reach_values alt h [other u] H6 H7 H8 Hr ltac:(repeat constructor; intros []) Hin)
      as (Hc & s' & Es & _ & Ls).
    rewrite Hlen in Es, Ls. rewrite Hs in Es. injection Es as <-.
    assert (Hc' : ti_ok (L u) alt (get_ti_min (adds [other u] h), get_ti_max (adds [other u] h))).
    { apply (ti_ok_same [other u]); auto; [repeat constructor; intros [] |].
      intros y. rewrite HA. cbn. intuition. }
    pose proof (Hz _ Hc') as Z0. cbn [fst snd] in Z0. rewrite CInt.min_spec, Z0 in Ls.
    apply length_zero_iff_nil. lia.
Qed.

Lemma terminal_edge_spec_witness :
  inputs_ok Ex3.rneigh Ex3.rdepth Ex3.rheavychild Ex3.lightleaves Ex3.other
    Ex3.ref_leaves Ex3.a_nodes Ex3.br0 Ex3.alt3 = true /\
  length (leaves Ex3.alt3) = length Ex3.ref_leaves /\
  In 1%nat Ex3.a_nodes /\ rnneigh Ex3.rneigh 1 = 1%nat /\ Ex3.rdepth 1 <> 0%nat /\
  (forall getsets res i,
     compute_transfer_indices_fast Ex3.rneigh Ex3.rdepth Ex3.rheavychild Ex3.lightleaves
       Ex3.other Ex3.ref_leaves Ex3.a_nodes Ex3.a_edges Ex3.br0 Ex3.alt3 getsets Ex3.ti0 = Ok res ->
     nth_error Ex3.a_edges i = Some (Ex3.br0 1) -> nth_error res i = Some 0) /\
  (forall h s, reach Ex3.alt3 h ->
     get_transfer_set_HPT
       (fold_left (fun h x => add_leaf_HPT x h) (leaves_at Ex3.rneigh Ex3.lightleaves Ex3.other 1) h)
       (Z.of_nat (length Ex3.ref_leaves)) = Ok s -> s = []).
Proof.
  split; [vm_compute; reflexivity|]. split; [vm_compute; reflexivity|].
  split; [simpl; tauto|]. split; [vm_compute; reflexivity|]. split; [vm_compute; lia|].
  apply (terminal_edge_spec Ex3.rneigh Ex3.rdepth Ex3.rheavychild Ex3.lightleaves Ex3.other
           Ex3.ref_leaves Ex3.a_nodes Ex3.a_edges Ex3.br0 Ex3.alt3 Ex3.ti0);
    [vm_compute; reflexivity | vm_compute; reflexivity | simpl; tauto | vm_compute; reflexivity | vm_compute; lia].
Defined.

(** C5, counterexample: at the reference leaf [1] (taxon 0) of the example
    the set computed is [[]], not [[0]]. *)
Lemma terminal_edge_set_counterexample :
  leaves_at Ex3.rneigh Ex3.lightleaves Ex3.other 1 = [0%nat] /\
  get_transfer_set_HPT
    (fold_left (fun h x => add_leaf_HPT x h) (leaves_at Ex3.rneigh Ex3.lightleaves Ex3.other 1)
       (heavy_decomposition Ex3.alt)) 3 = Ok [].
Proof. split; vm_compute; reflexivity. Qed.

(** C9, counterexample: the heavy path of [Bin (Leaf 0) (Bin (Leaf 1) (Leaf 2))]
    has 3 nodes; its PT puts 1 node in the left half and 2 in the right,
    where [ceil(3/2) = 2] would put 2 on the left. *)
Lemma partition_heavypath_split_counterexample :
  let t := Bin (Leaf 0) (Bin (Leaf 1) (Leaf 2)) in
  length (get_heavypath t) = 3%nat /\
  match heavy_decomposition t with
  | PT_node _ l r => (pt_len l, pt_len r)
  | _ => (0%nat, 0%nat)
  end = (1%nat, 2%nat).
Proof. split; vm_compute; reflexivity. Qed.

(** C2: on every input the checks accept, where [alt] has as many leaves as
    the reference tree ([n]) and may have nodes of three children, the run
    that computes the transfer sets succeeds and returns the array of the
    run that does not, so at every reference node the check of the set's
    size against the [min(TI_min, n - TI_max)] stored for its edge passes;
    and at every HPT the driver builds (any distinct taxa [Q] of [alt] added
    to an HPT the driver holds between two reference leaves)
    [get_transfer_set_HPT] returns a set of distinct taxa whose size is
    exactly [TI_min] when the min side is chosen ([TI_min <= n - TI_max])
    and exactly [n - TI_max] otherwise; [TI_min] is [minD Q alt], and when
    [alt] is binary the size is [ti_spec Q n alt]. *)
Theorem transfer_set_size rneigh rdepth rheavychild lightleaves other
    ref_leaves a_nodes a_edges br0 alt ti0 :
  inputs_ok rneigh rdepth rheavychild lightleaves other ref_leaves a_nodes br0 alt = true ->
  length (leaves alt) = length ref_leaves ->
  let n := Z.of_nat (length ref_leaves) in
  (exists res,
     compute_transfer_indices_fast rneigh rdepth rheavychild lightleaves other
       ref_leaves a_nodes a_edges br0 alt true ti0 = Ok res /\
     compute_transfer_indices_fast rneigh rdepth rheavychild lightleaves other
       ref_leaves a_nodes a_edges br0 alt false ti0 = Ok res) /\
  (forall h Q, reach alt h -> NoDup Q -> incl Q (leaves alt) ->
     let h' := adds Q h in
     exists s, get_transfer_set_HPT h' n = Ok s /\ NoDup s /\
       Z.of_nat (length s) =
         (if get_ti_min h' <=? n - get_ti_max h' then get_ti_min h' else n - get_ti_max h') /\
       get_ti_min h' = minD Q alt /\
       (tri_free alt = true -> Z.of_nat (length s) = ti_spec Q n alt)).
Proof.
  intros Hok Hlen n.
  destruct (inputs_ok_hyps _ _ _ _ _ _ _ _ _ Hok)
    as (H1 & H2 & H3 & H4 & H5 & H6 & H7 & H8 & H9 & H10).
  set (L := ref_taxa rneigh rdepth other ref_leaves) in *.
  assert (H5' : forall u, In u a_nodes -> rdepth u <> 0%nat ->
            In (rneigh_at rneigh u 0) a_nodes /\ rnneigh rneigh (rneigh_at rneigh u 0) <> 1%nat)
    by (intros u Hu Hd; destruct (H5 u Hu Hd) as (? & ? & _); split; assumption).
  assert (Hnb : n = Z.of_nat (length (leaves alt))) by (unfold n; rewrite Hlen; reflexivity).
  split.
  - destruct (run_spec rneigh rdepth rheavychild lightleaves other ref_leaves a_nodes a_edges br0 alt ti0 Hok)
      as [[res Hres] _].
    exists res. split; [|exact Hres].
    rewrite <- Hres. unfold compute_transfer_indices_fast. cbv zeta. fold n.
    rewrite (fold_same rneigh rdepth rheavychild lightleaves other L a_nodes alt n
               H1 H2 H3 H4 H5' H6 H7 H8 ref_leaves H9 ref_leaves Hnb ti0 (heavy_decomposition alt)
               (reach_init alt) (incl_refl _)).
    reflexivity.
  - intros h Q Hr NQ HQ h'.
    destruct (reach_values alt h Q H6 H7 H8 Hr NQ HQ) as ((E1 & _ & E3) & s & Es & Ns & Ls).
    fold h' in E1, E3, Es, Ls. rewrite <- Hnb in Es, Ls. cbn [fst snd] in E1, E3.
    exists s. split; [exact Es|]. split; [exact Ns|]. split; [|split; [exact E1|]].
    + rewrite Ls, CInt.min_spec. destruct (Z.leb_spec (get_ti_min h') (n - get_ti_max h')); lia.
    + intros Ht. rewrite Ls, CInt.min_spec, E1, (E3 Ht). reflexivity.
Qed.

Lemma transfer_set_size_witness :
  inputs_ok Ex3.rneigh Ex3.rdepth Ex3.rheavychild Ex3.lightleaves Ex3.other
    Ex3.ref_leaves Ex3.a_nodes Ex3.br0 Ex3.alt3 = true /\
  length (leaves Ex3.alt3) = length Ex3.ref_leaves /\
  let n := Z.of_nat (length Ex3.ref_leaves) in
  (exists res,
     compute_transfer_indices_fast Ex3.rneigh Ex3.rdepth Ex3.rheavychild Ex3.lightleaves Ex3.other
       Ex3.ref_leaves Ex3.a_nodes Ex3.a_edges Ex3.br0 Ex3.alt3 true Ex3.ti0 = Ok res /\
     compute_transfer_indices_fast Ex3.rneigh Ex3.rdepth Ex3.rheavychild Ex3.lightleaves Ex3.other
       Ex3.ref_leaves Ex3.a_nodes Ex3.a_edges Ex3.br0 Ex3.alt3 false Ex3.ti0 = Ok res) /\
  (forall h Q, reach Ex3.alt3 h -> NoDup Q -> incl Q (leaves Ex3.alt3) ->
     let h' := adds Q h in
     exists s, get_transfer_set_HPT h' n = Ok s /\ NoDup s /\
       Z.of_nat (length s) =
         (if get_ti_min h' <=? n - get_ti_max h' then get_ti_min h' else n - get_ti_max h') /\
       get_ti_min h' = minD Q Ex3.alt3 /\
       (tri_free Ex3.alt3 = true -> Z.of_nat (length s) = ti_spec Q n Ex3.alt3)).
Proof.
  split; [vm_compute; reflexivity|]. split; [vm_compute; reflexivity|].
  apply (transfer_set_size Ex3.rneigh Ex3.rdepth Ex3.rheavychild Ex3.lightleaves Ex3.other
           Ex3.ref_leaves Ex3.a_nodes Ex3.a_edges Ex3.br0 Ex3.alt3 Ex3.ti0);
    vm_compute; reflexivity.
Defined.

End HPTFacts.




(** ** Leaf arrays and node utilities of [tree.c] *)
Module TreeNodesFacts.
Import TreeNodes.
Local Open Scope Z_scope.

Lemma subtreesize_leaves_Z (t : HPT.tree) : HPT.subtreesize t = Z.of_nat (length (HPT.leaves t)).
Proof.
  induction t as [x|l IHl r IHr|a IHa b IHb c IHc]; cbn [HPT.subtreesize HPT.leaves]; [reflexivity| |].
  - rewrite length_app, Nat2Z.inj_add. lia.
  - rewrite !length_app, !Nat2Z.inj_add. lia.
Qed.

Lemma addLeavesLA_ok l : forall la,
  Z.of_nat (length (la_a la) + length l) <= la_n la ->
  addLeavesLA la l = Ok (mkLA (la_n la) (la_a la ++ l)).
Proof.
  induction l as [|u l IH]; intros [n a] H; cbn [addLeavesLA la_a la_n] in *.
  - rewrite app_nil_r. reflexivity.
  - unfold addLeafLA. cbn [la_n la_a].
    destruct (Z.eqb_spec n (Z.of_nat (length a))) as [E|_]; [cbn [length] in H; lia|].
    cbn [obind]. rewrite IH; cbn [la_n la_a].
    + rewrite <- app_assoc. reflexivity.
    + rewrite length_app. cbn [length] in *. lia.
Qed.

Lemma addLeavesLA_fatal l : forall la,
  Z.of_nat (length (la_a la)) <= la_n la < Z.of_nat (length (la_a la) + length l) ->
  addLeavesLA la l = Fatal too_many_msg.
Proof.
  induction l as [|u l IH]; intros [n a] H; cbn [addLeavesLA la_a la_n length] in *; [lia|].
  unfold addLeafLA. cbn [la_n la_a].
  destruct (Z.eqb_spec n (Z.of_nat (length a))) as [E|NE]; [reflexivity|].
  cbn [obind]. apply IH. cbn [la_n la_a]. rewrite length_app. cbn [length] in *. lia.
Qed.

Section Shape.
Variable neigh : nat -> list nat.
Variable depth : nat -> nat.
Variable subtreesize : nat -> Z.

Local Abbreviation nneigh := (HeavyLight.nneigh neigh).
Local Abbreviation neigh_at := (HeavyLight.neigh_at neigh).

(** Node [u] roots a non-root binary subtree of shape [t] (a leaf [x] is the
    node [x]), with the subtree sizes [prepare_rapid_TI_doer] sets. *)
Inductive sub : nat -> HPT.tree -> Prop :=
| sub_leaf u : nneigh u = 1%nat -> subtreesize u = 1 -> sub u (HPT.Leaf u)
| sub_bin u p l r tl tr :
    neigh u = [p; l; r] -> depth u <> 0%nat ->
    subtreesize u = HPT.subtreesize (HPT.Bin tl tr) ->
    sub l tl -> sub r tr -> sub u (HPT.Bin tl tr).

Fixpoint height (t : HPT.tree) : nat :=
  match t with
  | HPT.Leaf _ => 0
  | HPT.Bin l r => S (Nat.max (height l) (height r))
  | HPT.Tri a b c => S (Nat.max (height a) (Nat.max (height b) (height c)))
  end.

Lemma sub_size u t : sub u t -> subtreesize u = HPT.subtreesize t.
Proof. destruct 1; assumption. Qed.

Lemma sub_not_leaf u l r : sub u (HPT.Bin l r) -> nneigh u = 3%nat.
Proof. inversion 1; subst. unfold HeavyLight.nneigh. match goal with H : neigh u = _ |- _ => rewrite H end. reflexivity. Qed.

Lemma add_leaves_ok u t : sub u t -> forall fuel la, (height t < fuel)%nat ->
  Z.of_nat (length (la_a la)) + HPT.subtreesize t <= la_n la ->
  add_leaves_in_subtree neigh depth fuel u la = Ok (mkLA (la_n la) (la_a la ++ HPT.leaves t)).
Proof.
  induction 1 as [u Hn Hs|u p l r tl tr Hng Hd Hs Hl IHl Hr IHr];
    intros [|fuel] [n a] Hf Hc; cbn [height] in Hf; try lia; cbn [la_n la_a] in *.
  - cbn [add_leaves_in_subtree]. rewrite Hn. cbn [Nat.eqb].
    unfold addLeafLA. cbn [la_n la_a HPT.leaves HPT.subtreesize] in *.
    destruct (Z.eqb_spec n (Z.of_nat (length a))); [lia|reflexivity].
  - cbn [add_leaves_in_subtree].
    assert (E3 : nneigh u = 3%nat) by (unfold HeavyLight.nneigh; rewrite Hng; reflexivity).
    rewrite E3. destruct (Nat.eqb_spec (depth u) 0) as [|_]; [contradiction|]. cbn [Nat.eqb].
    unfold HeavyLight.neigh_at. rewrite Hng. cbn [nth].
    cbn [HPT.subtreesize HPT.leaves] in *.
    pose proof (HPTFacts.subtreesize_pos tl). pose proof (HPTFacts.subtreesize_pos tr).
    rewrite IHl by (cbn [la_a la_n]; lia). cbn [obind].
    rewrite IHr; cbn [la_a la_n].
    + rewrite app_assoc. reflexivity.
    + lia.
    + rewrite length_app, Nat2Z.inj_add, <- subtreesize_leaves_Z. lia.
Qed.

Lemma add_leaves_fatal u t : sub u t -> forall fuel la, (height t < fuel)%nat ->
  Z.of_nat (length (la_a la)) <= la_n la < Z.of_nat (length (la_a la)) + HPT.subtreesize t ->
  add_leaves_in_subtree neigh depth fuel u la = Fatal too_many_msg.
Proof.
  induction 1 as [u Hn Hs|u p l r tl tr Hng Hd Hs Hl IHl Hr IHr];
    intros [|fuel] [n a] Hf Hc; cbn [height] in Hf; try lia; cbn [la_n la_a] in *.
  - cbn [add_leaves_in_subtree]. rewrite Hn. cbn [Nat.eqb].
    unfold addLeafLA. cbn [la_n la_a HPT.subtreesize] in *.
    destruct (Z.eqb_spec n (Z.of_nat (length a))); [reflexivity|lia].
  - cbn [add_leaves_in_subtree].
    assert (E3 : nneigh u = 3%nat) by (unfold HeavyLight.nneigh; rewrite Hng; reflexivity).
    rewrite E3. destruct (Nat.eqb_spec (depth u) 0) as [|_]; [contradiction|]. cbn [Nat.eqb].
    unfold HeavyLight.neigh_at. rewrite Hng. cbn [nth].
    cbn [HPT.subtreesize] in Hc.
    pose proof (HPTFacts.subtreesize_pos tl). pose proof (HPTFacts.subtreesize_pos tr).
    destruct (Z.le_gt_cases (Z.of_nat (length a) + HPT.subtreesize tl) n) as [Hle|Hgt].
    + rewrite (add_leaves_ok l tl Hl fuel (mkLA n a)) by (cbn [la_a la_n]; lia). cbn [obind].
      apply IHr; cbn [la_a la_n]; [lia|].
      rewrite length_app, Nat2Z.inj_add, <- subtreesize_leaves_Z. lia.
    + rewrite IHl by (cbn [la_a la_n]; lia). reflexivity.
Qed.

Lemma get_leaves_ok fuel u t : sub u t -> (height t < fuel)%nat ->
  get_leaves_in_subtree neigh depth subtreesize fuel u =
    Ok (mkLA (HPT.subtreesize t) (HPT.leaves t)).
Proof.
  intros Hs Hf. unfold get_leaves_in_subtree, allocateLA. rewrite (sub_size u t Hs).
  rewrite (add_leaves_ok u t Hs fuel); cbn [la_a la_n length]; [reflexivity| |]; lia.
Qed.

Lemma concat_ok la1 la2 :
  concatinateLA la1 la2 =
    Ok (mkLA (Z.of_nat (length (la_a la1)) + Z.of_nat (length (la_a la2))) (la_a la1 ++ la_a la2)).
Proof.
  unfold concatinateLA, allocateLA. rewrite addLeavesLA_ok by (cbn [la_a la_n length]; lia). cbn [obind la_a la_n app].
  rewrite addLeavesLA_ok; cbn [la_a la_n]; [reflexivity|]. lia.
Qed.

Lemma leaves_LA t : mkLA (Z.of_nat 0 + Z.of_nat (length (HPT.leaves t))) ([] ++ HPT.leaves t) =
  mkLA (HPT.subtreesize t) (HPT.leaves t).
Proof. rewrite subtreesize_leaves_Z. reflexivity. Qed.

Lemma hc_root u l r : depth u = 0%nat -> neigh u = [l; r] ->
  HeavyLight.heavychild neigh depth subtreesize u =
    Some (if subtreesize l <? subtreesize r then r else l).
Proof.
  intros Hd Hn. unfold HeavyLight.heavychild, HeavyLight.nneigh. rewrite Hd, Hn. cbn.
  unfold HeavyLight.nneigh, HeavyLight.neigh_at. rewrite Hn. cbn.
  destruct (subtreesize l <? subtreesize r); reflexivity.
Qed.

Lemma hc_nonroot u p l r : depth u <> 0%nat -> neigh u = [p; l; r] ->
  HeavyLight.heavychild neigh depth subtreesize u =
    Some (if subtreesize l <? subtreesize r then r else l).
Proof.
  intros Hd Hn. unfold HeavyLight.heavychild, HeavyLight.nneigh.
  destruct (Nat.eqb_spec (depth u) 0) as [|_]; [contradiction|]. rewrite Hn. cbn.
  unfold HeavyLight.nneigh, HeavyLight.neigh_at. rewrite Hn. cbn.
  destruct (subtreesize l <? subtreesize r); reflexivity.
Qed.

Lemma light_loop_two fuel h l r tl tr :
  l <> r -> (h = l \/ h = r) -> sub l tl -> sub r tr -> (height tl < fuel)%nat -> (height tr < fuel)%nat ->
  light_loop neigh depth subtreesize fuel (Some h) [l; r] (allocateLA 0) =
    Ok (if Nat.eqb h r then mkLA (HPT.subtreesize tl) (HPT.leaves tl)
        else mkLA (HPT.subtreesize tr) (HPT.leaves tr)).
Proof.
  intros Hlr Hh Hl Hr Hfl Hfr.
  pose proof (get_leaves_ok fuel l tl Hl Hfl) as Gl.
  pose proof (get_leaves_ok fuel r tr Hr Hfr) as Gr.
  assert (Elr : Nat.eqb l r = false) by (apply Nat.eqb_neq; exact Hlr).
  assert (Erl : Nat.eqb r l = false) by (apply Nat.eqb_neq; congruence).
  destruct Hh as [->| ->]; cbn [light_loop]; rewrite ?Nat.eqb_refl, ?Elr, ?Erl, ?Gl, ?Gr;
    cbn [obind]; rewrite concat_ok; cbn [obind light_loop la_a la_n allocateLA length];
    rewrite ?Nat.eqb_refl, ?Elr, ?Erl, leaves_LA; reflexivity.
Qed.

Lemma light_binary fuel u l r tl tr :
  (depth u = 0%nat /\ neigh u = [l; r]) \/ (depth u <> 0%nat /\ exists p, neigh u = [p; l; r]) ->
  l <> r -> sub l tl -> sub r tr -> (height tl < fuel)%nat -> (height tr < fuel)%nat ->
  let light := HPT.lightchild tl tr in
  let la := mkLA (HPT.subtreesize light) (HPT.leaves light) in
  get_leaves_in_light_subtree neigh depth subtreesize fuel u = Ok la /\
  setup_heavy_light_subtrees neigh depth subtreesize fuel u =
    Ok (Some (if HPT.subtreesize tl <? HPT.subtreesize tr then r else l), la).
Proof.
  intros Hsh Hlr Hl Hr Hfl Hfr light la.
  pose proof (get_leaves_ok fuel l tl Hl Hfl) as Gl.
  pose proof (get_leaves_ok fuel r tr Hr Hfr) as Gr.
  pose proof (sub_size l tl Hl) as Sl. pose proof (sub_size r tr Hr) as Sr.
  assert (Erl : Nat.eqb r l = false) by (apply Nat.eqb_neq; congruence).
  assert (Elr : Nat.eqb l r = false) by (apply Nat.eqb_neq; exact Hlr).
  assert (HC : HeavyLight.heavychild neigh depth subtreesize u =
                 Some (if subtreesize l <? subtreesize r then r else l))
    by (destruct Hsh as [[Hd Hn]|[Hd [p Hn]]]; [apply hc_root | eapply hc_nonroot]; eauto).
  assert (LL := light_loop_two fuel (if subtreesize l <? subtreesize r then r else l) l r tl tr
                  Hlr ltac:(destruct (subtreesize l <? subtreesize r); auto) Hl Hr Hfl Hfr).
  unfold la, light, HPT.lightchild. rewrite Sl, Sr in HC, LL.
  unfold get_leaves_in_light_subtree, setup_heavy_light_subtrees. rewrite HC.
  destruct Hsh as [[Hd Hn]|[Hd [p Hn]]].
  - unfold HeavyLight.nneigh, HeavyLight.neigh_at. rewrite Hd, Hn. cbn [length nth Nat.eqb skipn Nat.ltb Nat.leb].
    rewrite Sl, Sr. unfold HeavyLight.neigh_at in LL.
    destruct (Z.ltb_spec (HPT.subtreesize tl) (HPT.subtreesize tr)) as [Hlt|Hge].
    + destruct (Z.leb_spec (HPT.subtreesize tr) (HPT.subtreesize tl)) as [|_]; [lia|].
      rewrite Gl, LL, ?Nat.eqb_refl, ?Elr, ?Erl. split; reflexivity.
    + destruct (Z.leb_spec (HPT.subtreesize tr) (HPT.subtreesize tl)) as [_|]; [|lia].
      rewrite Gr, LL, ?Nat.eqb_refl, ?Elr, ?Erl. split; reflexivity.
  - assert (Hd' : Nat.eqb (depth u) 0 = false) by (apply Nat.eqb_neq; exact Hd).
    unfold HeavyLight.nneigh, HeavyLight.neigh_at. rewrite Hd', Hn. cbn [length nth Nat.eqb skipn Nat.ltb Nat.leb].
    rewrite Sl, Sr.
    destruct (Z.ltb_spec (HPT.subtreesize tl) (HPT.subtreesize tr)) as [Hlt|Hge].
    + destruct (Z.leb_spec (HPT.subtreesize tr) (HPT.subtreesize tl)) as [|_]; [lia|].
      rewrite Gl, LL, ?Nat.eqb_refl, ?Elr, ?Erl. split; reflexivity.
    + destruct (Z.leb_spec (HPT.subtreesize tr) (HPT.subtreesize tl)) as [_|]; [|lia].
      rewrite Gr, LL, ?Nat.eqb_refl, ?Elr, ?Erl. split; reflexivity.
Qed.

Lemma light_fan fuel u a b c ta tb tc :
  depth u = 0%nat -> neigh u = [a; b; c] ->
  sub a ta -> sub b tb -> sub c tc ->
  (height ta < fuel)%nat -> (height tb < fuel)%nat -> (height tc < fuel)%nat ->
  exists x y h, Permutation [x; y; h] [ta; tb; tc] /\
    HPT.subtreesize x <= HPT.subtreesize h /\ HPT.subtreesize y <= HPT.subtreesize h /\
    get_leaves_in_light_subtree neigh depth subtreesize fuel u =
      Ok (mkLA (HPT.subtreesize x + HPT.subtreesize y) (HPT.leaves x ++ HPT.leaves y)).
Proof.
  intros Hd Hn Ha Hb Hc Hfa Hfb Hfc.
  pose proof (get_leaves_ok fuel a ta Ha Hfa) as Ga.
  pose proof (get_leaves_ok fuel b tb Hb Hfb) as Gb.
  pose proof (get_leaves_ok fuel c tc Hc Hfc) as Gc.
  pose proof (sub_size a ta Ha) as Sa. pose proof (sub_size b tb Hb) as Sb.
  pose proof (sub_size c tc Hc) as Sc.
  unfold get_leaves_in_light_subtree, HeavyLight.nneigh, HeavyLight.neigh_at.
  rewrite Hd, Hn. cbn [length nth Nat.eqb]. rewrite Sa, Sb, Sc.
  destruct (Z.leb_spec (HPT.subtreesize tb) (HPT.subtreesize ta)).
  - rewrite Gb. cbn [obind]. rewrite Sa.
    destruct (Z.leb_spec (HPT.subtreesize tc) (HPT.subtreesize ta)).
    + rewrite Gc. cbn [obind]. rewrite concat_ok. cbn [la_a].
      exists tb, tc, ta. rewrite <- !subtreesize_leaves_Z.
      split; [apply Permutation_sym, (Permutation_cons_append [tb; tc] ta)|].
      split; [lia|]. split; [lia|reflexivity].
    + rewrite Ga. cbn [obind]. rewrite concat_ok. cbn [la_a].
      exists tb, ta, tc. rewrite <- !subtreesize_leaves_Z.
      split; [apply perm_swap|]. split; [lia|]. split; [lia|reflexivity].
  - rewrite Ga. cbn [obind]. rewrite Sb.
    destruct (Z.leb_spec (HPT.subtreesize tc) (HPT.subtreesize tb)).
    + rewrite Gc. cbn [obind]. rewrite concat_ok. cbn [la_a].
      exists ta, tc, tb. rewrite <- !subtreesize_leaves_Z.
      split; [apply perm_skip, perm_swap|]. split; [lia|]. split; [lia|reflexivity].
    + rewrite Gb. cbn [obind]. rewrite concat_ok. cbn [la_a].
      exists ta, tb, tc. rewrite <- !subtreesize_leaves_Z.
      split; [apply Permutation_refl|]. split; [lia|]. split; [lia|reflexivity].
Qed.

End Shape.

Lemma dir_loop_spec neigh a b : forall fuel i, (i + fuel = length (neigh a))%nat ->
  let k := dir_loop neigh a b fuel i in
  (i <= k <= length (neigh a))%nat /\
  (forall j, (i <= j < k)%nat -> nth_error (neigh a) j <> Some b) /\
  ((k < length (neigh a))%nat -> nth_error (neigh a) k = Some b).
Proof.
  induction fuel as [|fuel IH]; intros i Hi k; unfold k; cbn [dir_loop].
  - split; [lia|]. split; [intros j Hj; lia | lia].
  - unfold HeavyLight.nneigh, HeavyLight.neigh_at.
    assert (Hlt : (i < length (neigh a))%nat) by lia.
    destruct (Nat.ltb_spec i (length (neigh a))) as [_|]; [|lia].
    destruct (Nat.eqb_spec (nth i (neigh a) 0%nat) b) as [E|NE].
    + split; [lia|]. split; [intros j Hj; lia|].
      intros _. rewrite (nth_error_nth' _ 0%nat Hlt), E. reflexivity.
    + destruct (IH (S i) ltac:(lia)) as (H1 & H2 & H3).
      split; [lia|]. split; [|exact H3].
      intros j Hj. destruct (Nat.eq_dec j i) as [->|Hji]; [|apply H2; lia].
      rewrite (nth_error_nth' _ 0%nat Hlt). intros E. apply NE. congruence.
Qed.

Lemma set_nth_app P l v : set_nth (P ++ l) (length P) v = P ++ set_nth l 0 v.
Proof. induction P as [|x P IH]; [reflexivity|]. cbn [app length set_nth]. rewrite IH. reflexivity. Qed.

Lemma leaf_loop_spec (nneigh : nat -> nat) nb is : forall P, (length P <= nb)%nat ->
  leaf_indices_loop nneigh nb is (length P) (P ++ repeat 0%nat (nb - length P)) =
    let F := filter (fun i => Nat.eqb (nneigh i) 1) is in
    if Nat.leb (length P + length F) nb
    then Some (P ++ F ++ repeat 0%nat (nb - length P - length F)) else None.
Proof.
  induction is as [|i is IH]; intros P HP; cbn [leaf_indices_loop filter].
  - cbn [length app]. rewrite Nat.add_0_r, Nat.sub_0_r.
    destruct (Nat.leb_spec (length P) nb); [reflexivity|lia].
  - destruct (Nat.eqb (nneigh i) 1).
    + destruct (Nat.ltb_spec (length P) nb) as [Hlt|Hge].
      * replace (nb - length P)%nat with (S (nb - S (length P))) by lia.
        rewrite set_nth_app. cbn [repeat set_nth].
        replace (P ++ i :: repeat 0%nat (nb - S (length P))) with
          ((P ++ [i]) ++ repeat 0%nat (nb - length (P ++ [i]))) by
          (rewrite length_app, <- app_assoc; cbn [length app]; f_equal; f_equal; f_equal; lia).
        replace (S (length P)) with (length (P ++ [i])) by (rewrite length_app; cbn; lia).
        rewrite IH by (rewrite length_app; cbn; lia). cbv zeta.
        rewrite length_app. cbn [length].
        replace (length P + 1 + length (filter (fun i => Nat.eqb (nneigh i) 1) is))%nat
          with (length P + S (length (filter (fun i => Nat.eqb (nneigh i) 1) is)))%nat by lia.
        destruct (Nat.leb _ nb); [|reflexivity].
        rewrite <- app_assoc. cbn [app]. repeat f_equal; lia.
      * cbn [length]. destruct (Nat.leb_spec (length P + S (length (filter (fun i => Nat.eqb (nneigh i) 1) is))) nb);
          [lia|reflexivity].
    + apply IH. exact HP.
Qed.

(** A rooted alternative tree: root 0 with children 1 and 2, node 1 with
    the leaf children 3 and 4; node 5 is the root of a 3-fan with the
    children 6 (leaves 9 and 10), 7 and 8. *)
Definition ex_neigh (v : nat) : list nat :=
  match v with
  | 0 => [1; 2] | 1 => [0; 3; 4] | 2 => [0] | 3 | 4 => [1]
  | 5 => [6; 7; 8] | 6 => [5; 9; 10] | 7 | 8 => [5] | 9 | 10 => [6]
  | _ => []
  end%nat.
Definition ex_depth (v : nat) : nat :=
  match v with 0 | 5 => 0 | 1 | 2 | 6 | 7 | 8 => 1 | _ => 2 end%nat.
Definition ex_size (v : nat) : Z :=
  match v with 0%nat => 3 | 1%nat | 6%nat => 2 | 5%nat => 4 | _ => 1 end.

Ltac sub_tac :=
  repeat match goal with
  | |- sub _ _ _ _ (HPT.Leaf _) => apply sub_leaf; reflexivity
  | |- sub _ _ _ _ (HPT.Bin _ _) =>
      eapply sub_bin; [reflexivity | discriminate | reflexivity | | ]
  end.

(** [concatinateLA] never fails: the new array has exactly the room for the
    leaves of [la1] followed by those of [la2], and holds them in this
    order. *)
Theorem concatinateLA_spec la1 la2 :
  concatinateLA la1 la2 =
    Ok (mkLA (Z.of_nat (length (la_a la1)) + Z.of_nat (length (la_a la2)))
             (la_a la1 ++ la_a la2)).
Proof. apply concat_ok. Qed.

(** [addLeafLA] on a full array exits: starting from an array with room
    for fewer leaves than the list, adding them one by one stops with the
    "adding too many nodes" error, while with enough room it appends them
    in order. *)
Theorem addLeavesLA_capacity la l :
  (Z.of_nat (length (la_a la) + length l) <= la_n la ->
     addLeavesLA la l = Ok (mkLA (la_n la) (la_a la ++ l))) /\
  (Z.of_nat (length (la_a la)) <= la_n la < Z.of_nat (length (la_a la) + length l) ->
     addLeavesLA la l = Fatal too_many_msg).
Proof. split; [apply addLeavesLA_ok | apply addLeavesLA_fatal]. Qed.

(** [get_leaves_in_subtree] on a non-root node of a binary subtree (with
    the subtree sizes of [prepare_rapid_TI_doer]) succeeds and returns the
    leaves of the subtree from left to right, filling the array it
    allocates exactly. *)
Theorem get_leaves_in_subtree_spec neigh depth subtreesize fuel u t :
  sub neigh depth subtreesize u t -> (height t < fuel)%nat ->
  get_leaves_in_subtree neigh depth subtreesize fuel u =
    Ok (mkLA (HPT.subtreesize t) (HPT.leaves t)).
Proof. apply get_leaves_ok. Qed.

Lemma get_leaves_in_subtree_spec_witness :
  sub ex_neigh ex_depth ex_size 1 (HPT.Bin (HPT.Leaf 3) (HPT.Leaf 4)) /\
  get_leaves_in_subtree ex_neigh ex_depth ex_size 5 1 =
    Ok (mkLA (HPT.subtreesize (HPT.Bin (HPT.Leaf 3) (HPT.Leaf 4)))
             (HPT.leaves (HPT.Bin (HPT.Leaf 3) (HPT.Leaf 4)))).
Proof.
  split; [sub_tac|].
  apply (get_leaves_in_subtree_spec ex_neigh ex_depth ex_size 5 1); [sub_tac | vm_compute; lia].
Defined.

(** At a root with two children [neigh[0]] and [neigh[1]],
    [add_leaves_in_subtree] descends twice into [neigh[0]] and never into
    [neigh[1]]: [get_leaves_in_subtree] returns the leaves of [neigh[0]]
    twice when they fit in the array sized for the whole tree, and exits
    with "adding too many nodes" when [neigh[0]] has more leaves than
    [neigh[1]]. *)
Theorem get_leaves_in_subtree_root neigh depth subtreesize fuel u a b ta tb :
  neigh u = [a; b] -> depth u = 0%nat ->
  subtreesize u = HPT.subtreesize ta + HPT.subtreesize tb ->
  sub neigh depth subtreesize a ta -> sub neigh depth subtreesize b tb ->
  (height ta < fuel)%nat ->
  get_leaves_in_subtree neigh depth subtreesize (S fuel) u =
    if HPT.subtreesize ta <=? HPT.subtreesize tb
    then Ok (mkLA (subtreesize u) (HPT.leaves ta ++ HPT.leaves ta))
    else Fatal too_many_msg.
Proof.
  intros Hn Hd Hs Ha Hb Hf. unfold get_leaves_in_subtree, allocateLA.
  cbn [add_leaves_in_subtree].
  assert (E2 : HeavyLight.nneigh neigh u = 2%nat) by (unfold HeavyLight.nneigh; rewrite Hn; reflexivity).
  rewrite E2, Hd. cbn [Nat.eqb]. unfold HeavyLight.neigh_at at 1 2. rewrite Hn. cbn [nth].
  pose proof (HPTFacts.subtreesize_pos ta). pose proof (HPTFacts.subtreesize_pos tb).
  rewrite (add_leaves_ok neigh depth subtreesize a ta Ha fuel) by (cbn [la_a la_n length]; lia).
  cbn [obind la_n la_a app].
  destruct (Z.leb_spec (HPT.subtreesize ta) (HPT.subtreesize tb)).
  - rewrite (add_leaves_ok neigh depth subtreesize a ta Ha fuel); cbn [la_a la_n]; [reflexivity|lia|].
    rewrite <- subtreesize_leaves_Z. lia.
  - apply (add_leaves_fatal neigh depth subtreesize a ta Ha fuel); cbn [la_a la_n]; [lia|].
    rewrite <- subtreesize_leaves_Z. lia.
Qed.

Lemma get_leaves_in_subtree_root_witness :
  ex_neigh 0 = [1; 2]%nat /\ ex_depth 0 = 0%nat /\
  ex_size 0 = HPT.subtreesize (HPT.Bin (HPT.Leaf 3) (HPT.Leaf 4)) + HPT.subtreesize (HPT.Leaf 2) /\
  sub ex_neigh ex_depth ex_size 1 (HPT.Bin (HPT.Leaf 3) (HPT.Leaf 4)) /\
  sub ex_neigh ex_depth ex_size 2 (HPT.Leaf 2) /\
  get_leaves_in_subtree ex_neigh ex_depth ex_size 3 0 = Fatal too_many_msg.
Proof.
  split; [reflexivity|]. split; [reflexivity|]. split; [reflexivity|].
  split; [sub_tac|]. split; [sub_tac|].
  exact (get_leaves_in_subtree_root ex_neigh ex_depth ex_size 2 0 1 2
           (HPT.Bin (HPT.Leaf 3) (HPT.Leaf 4)) (HPT.Leaf 2)
           eq_refl eq_refl eq_refl ltac:(sub_tac) ltac:(sub_tac) ltac:(vm_compute; lia)).
Defined.

(** [get_leaves_in_light_subtree] and [setup_heavy_light_subtrees] agree on
    a binary node (a root with two children, or a non-root node with two
    children): both give the leaves of the light child (the right one when
    the two subtrees have the same size) in an array exactly full, and
    [setup_heavy_light_subtrees] makes the other child the heavy child. *)
Theorem light_leaves_binary neigh depth subtreesize fuel u l r tl tr :
  (depth u = 0%nat /\ neigh u = [l; r]) \/ (depth u <> 0%nat /\ exists p, neigh u = [p; l; r]) ->
  l <> r -> sub neigh depth subtreesize l tl -> sub neigh depth subtreesize r tr ->
  (height tl < fuel)%nat -> (height tr < fuel)%nat ->
  let light := HPT.lightchild tl tr in
  let la := mkLA (HPT.subtreesize light) (HPT.leaves light) in
  get_leaves_in_light_subtree neigh depth subtreesize fuel u = Ok la /\
  setup_heavy_light_subtrees neigh depth subtreesize fuel u =
    Ok (Some (if HPT.subtreesize tl <? HPT.subtreesize tr then r else l), la).
Proof. apply light_binary. Qed.

Lemma light_leaves_binary_witness :
  ((ex_depth 0 = 0%nat /\ ex_neigh 0 = [1; 2]%nat) \/
   (ex_depth 0 <> 0%nat /\ exists p, ex_neigh 0 = [p; 1; 2]%nat)) /\
  (1 <> 2)%nat /\
  sub ex_neigh ex_depth ex_size 1 (HPT.Bin (HPT.Leaf 3) (HPT.Leaf 4)) /\
  sub ex_neigh ex_depth ex_size 2 (HPT.Leaf 2) /\
  get_leaves_in_light_subtree ex_neigh ex_depth ex_size 2 0 = Ok (mkLA 1 [2%nat]) /\
  setup_heavy_light_subtrees ex_neigh ex_depth ex_size 2 0 = Ok (Some 1%nat, mkLA 1 [2%nat]).
Proof.
  split; [left; split; reflexivity|]. split; [discriminate|].
  split; [sub_tac|]. split; [sub_tac|].
  exact (light_leaves_binary ex_neigh ex_depth ex_size 2 0 1 2
           (HPT.Bin (HPT.Leaf 3) (HPT.Leaf 4)) (HPT.Leaf 2)
           ltac:(left; split; reflexivity) ltac:(discriminate) ltac:(sub_tac) ltac:(sub_tac)
           ltac:(vm_compute; lia) ltac:(vm_compute; lia)).
Defined.

(** At a root with three children (a pseudo-root), the light leaves are
    those of two of the children, one after the other, leaving out a child
    that is at least as large as each of them. *)
Theorem light_leaves_fan neigh depth subtreesize fuel u a b c ta tb tc :
  depth u = 0%nat -> neigh u = [a; b; c] ->
  sub neigh depth subtreesize a ta -> sub neigh depth subtreesize b tb ->
  sub neigh depth subtreesize c tc ->
  (height ta < fuel)%nat -> (height tb < fuel)%nat -> (height tc < fuel)%nat ->
  exists x y h, Permutation [x; y; h] [ta; tb; tc] /\
    HPT.subtreesize x <= HPT.subtreesize h /\ HPT.subtreesize y <= HPT.subtreesize h /\
    get_leaves_in_light_subtree neigh depth subtreesize fuel u =
      Ok (mkLA (HPT.subtreesize x + HPT.subtreesize y) (HPT.leaves x ++ HPT.leaves y)).
Proof. apply light_fan. Qed.

Lemma light_leaves_fan_witness :
  ex_depth 5 = 0%nat /\ ex_neigh 5 = [6; 7; 8]%nat /\
  sub ex_neigh ex_depth ex_size 6 (HPT.Bin (HPT.Leaf 9) (HPT.Leaf 10)) /\
  sub ex_neigh ex_depth ex_size 7 (HPT.Leaf 7) /\ sub ex_neigh ex_depth ex_size 8 (HPT.Leaf 8) /\
  exists x y h, Permutation [x; y; h]
      [HPT.Bin (HPT.Leaf 9) (HPT.Leaf 10); HPT.Leaf 7; HPT.Leaf 8] /\
    HPT.subtreesize x <= HPT.subtreesize h /\ HPT.subtreesize y <= HPT.subtreesize h /\
    get_leaves_in_light_subtree ex_neigh ex_depth ex_size 2 5 =
      Ok (mkLA (HPT.subtreesize x + HPT.subtreesize y) (HPT.leaves x ++ HPT.leaves y)).
Proof.
  split; [reflexivity|]. split; [reflexivity|].
  split; [sub_tac|]. split; [sub_tac|]. split; [sub_tac|].
  exact (light_leaves_fan ex_neigh ex_depth ex_size 2 5 6 7 8
           (HPT.Bin (HPT.Leaf 9) (HPT.Leaf 10)) (HPT.Leaf 7) (HPT.Leaf 8)
           eq_refl eq_refl ltac:(sub_tac) ltac:(sub_tac) ltac:(sub_tac)
           ltac:(vm_compute; lia) ltac:(vm_compute; lia) ltac:(vm_compute; lia)).
Defined.

(** For the two children [c1 = neigh[1]], [c2 = neigh[2]] of a non-root
    node, or [c1 = neigh[0]], [c2 = neigh[1]] of a root with two children,
    [get_sibling] maps each child to the other and [is_right_child] holds
    of [c2] only. *)
Theorem get_sibling_binary neigh depth p c1 c2 :
  c1 <> c2 -> depth c1 <> 0%nat -> depth c2 <> 0%nat ->
  HeavyLight.neigh_at neigh c1 0 = p -> HeavyLight.neigh_at neigh c2 0 = p ->
  (depth p = 0%nat /\ neigh p = [c1; c2]) \/ (depth p <> 0%nat /\ exists g, neigh p = [g; c1; c2]) ->
  get_sibling neigh depth c1 = Ok c2 /\ get_sibling neigh depth c2 = Ok c1 /\
  is_right_child neigh depth c1 = false /\ is_right_child neigh depth c2 = true.
Proof.
  intros H12 Hd1 Hd2 Hp1 Hp2 Hp.
  assert (E12 : Nat.eqb c1 c2 = false) by (apply Nat.eqb_neq; exact H12).
  assert (E21 : Nat.eqb c2 c1 = false) by (apply Nat.eqb_neq; congruence).
  apply Nat.eqb_neq in Hd1, Hd2.
  unfold get_sibling, is_right_child. cbv zeta. rewrite Hd1, Hd2, Hp1, Hp2.
  destruct Hp as [[Hd Hn]|[Hd [g Hn]]].
  - rewrite Hd. unfold HeavyLight.neigh_at. rewrite Hn. cbn [nth negb andb orb Nat.eqb].
    rewrite ?E21, ?E12, ?Nat.eqb_refl; cbn [negb andb orb]; repeat split.
  - apply Nat.eqb_neq in Hd. rewrite Hd. unfold HeavyLight.neigh_at. rewrite Hn.
    cbn [nth negb andb orb]. rewrite ?E21, ?E12, ?Nat.eqb_refl; cbn [negb andb orb]; repeat split.
Qed.

Lemma get_sibling_binary_witness :
  (3 <> 4)%nat /\ ex_depth 3 <> 0%nat /\ ex_depth 4 <> 0%nat /\
  HeavyLight.neigh_at ex_neigh 3 0 = 1%nat /\ HeavyLight.neigh_at ex_neigh 4 0 = 1%nat /\
  ((ex_depth 1 = 0%nat /\ ex_neigh 1 = [3; 4]%nat) \/
   (ex_depth 1 <> 0%nat /\ exists g, ex_neigh 1 = [g; 3; 4]%nat)) /\
  get_sibling ex_neigh ex_depth 3 = Ok 4%nat /\ get_sibling ex_neigh ex_depth 4 = Ok 3%nat /\
  is_right_child ex_neigh ex_depth 3 = false /\ is_right_child ex_neigh ex_depth 4 = true.
Proof.
  split; [discriminate|]. split; [discriminate|]. split; [discriminate|].
  split; [reflexivity|]. split; [reflexivity|].
  split; [right; split; [discriminate | exists 0%nat; reflexivity]|].
  exact (get_sibling_binary ex_neigh ex_depth 1 3 4 ltac:(discriminate) ltac:(discriminate)
           ltac:(discriminate) eq_refl eq_refl
           ltac:(right; split; [discriminate | exists 0%nat; reflexivity])).
Defined.

(** At a root with three distinct children [a], [b], [c], for each child
    [v], [get_sibling v] and [get_other_sibling v (get_sibling v)] give the
    two other children. *)
Theorem other_sibling_fan neigh depth p a b c v :
  depth p = 0%nat -> neigh p = [a; b; c] -> NoDup [a; b; c] -> In v [a; b; c] ->
  depth v <> 0%nat -> HeavyLight.neigh_at neigh v 0 = p ->
  exists s o, get_sibling neigh depth v = Ok s /\
    get_other_sibling neigh depth v s = Ok (Some o) /\ Permutation [v; s; o] [a; b; c].
Proof.
  intros Hd Hn ND Hv Hdv Hpv.
  apply NoDup_cons_iff in ND as [Ha ND1]. apply NoDup_cons_iff in ND1 as [Hb _].
  assert (Eab : Nat.eqb a b = false) by (apply Nat.eqb_neq; intros ->; apply Ha; left; reflexivity).
  assert (Eac : Nat.eqb a c = false) by (apply Nat.eqb_neq; intros ->; apply Ha; right; left; reflexivity).
  assert (Ebc : Nat.eqb b c = false) by (apply Nat.eqb_neq; intros ->; apply Hb; left; reflexivity).
  rewrite Nat.eqb_sym in Eab, Eac, Ebc.
  assert (Eba : Nat.eqb a b = false) by (rewrite Nat.eqb_sym; exact Eab).
  assert (Eca : Nat.eqb a c = false) by (rewrite Nat.eqb_sym; exact Eac).
  assert (Ecb : Nat.eqb b c = false) by (rewrite Nat.eqb_sym; exact Ebc).
  apply Nat.eqb_neq in Hdv.
  unfold get_sibling, get_other_sibling, HeavyLight.nneigh. cbv zeta. rewrite Hdv, Hpv, Hd, Hn.
  unfold HeavyLight.neigh_at. rewrite Hn. cbn [nth length negb orb andb Nat.eqb Nat.ltb Nat.leb].
  destruct Hv as [<-|[<-|[<-|[]]]]; rewrite ?Nat.eqb_refl, ?Eab, ?Eac, ?Ebc, ?Eba, ?Eca, ?Ecb;
    eexists; eexists; (split; [reflexivity|]);
    rewrite ?Nat.eqb_refl, ?Eab, ?Eac, ?Ebc, ?Eba, ?Eca, ?Ecb; cbn [negb andb];
    rewrite ?Nat.eqb_refl, ?Eab, ?Eac, ?Ebc, ?Eba, ?Eca, ?Ecb; cbn [negb andb];
    (split; [reflexivity|]).
  - apply Permutation_refl.
  - apply perm_swap.
  - apply Permutation_sym, (Permutation_rev [a; b; c]).
Qed.

Lemma other_sibling_fan_witness :
  ex_depth 5 = 0%nat /\ ex_neigh 5 = [6; 7; 8]%nat /\ NoDup [6; 7; 8]%nat /\ In 8%nat [6; 7; 8]%nat /\
  ex_depth 8 <> 0%nat /\ HeavyLight.neigh_at ex_neigh 8 0 = 5%nat /\
  exists s o, get_sibling ex_neigh ex_depth 8 = Ok s /\
    get_other_sibling ex_neigh ex_depth 8 s = Ok (Some o) /\ Permutation (8%nat :: [s; o]) [6; 7; 8]%nat.
Proof.
  assert (ND : NoDup [6; 7; 8]%nat) by (repeat constructor; cbn; lia).
  split; [reflexivity|]. split; [reflexivity|]. split; [exact ND|].
  split; [right; right; left; reflexivity|]. split; [discriminate|]. split; [reflexivity|].
  exact (other_sibling_fan ex_neigh ex_depth 5 6 7 8 8 eq_refl eq_refl ND
           ltac:(right; right; left; reflexivity) ltac:(discriminate) eq_refl).
Defined.

(** [dir_a_to_b a b] returns the first index of [b] in the neighbour array
    of [a] when [b] is a neighbour of [a], and exits with "nodes are not
    neighbours" otherwise. *)
Theorem dir_a_to_b_spec neigh a b :
  (In b (neigh a) -> exists i, dir_a_to_b neigh a b = Ok i /\
     nth_error (neigh a) i = Some b /\ forall j, (j < i)%nat -> nth_error (neigh a) j <> Some b) /\
  (~ In b (neigh a) -> dir_a_to_b neigh a b = Fatal not_neighbours_msg).
Proof.
  destruct (dir_loop_spec neigh a b (length (neigh a)) 0 eq_refl) as (H1 & H2 & H3).
  unfold dir_a_to_b. unfold HeavyLight.nneigh.
  destruct (Nat.ltb_spec (dir_loop neigh a b (length (neigh a)) 0) (length (neigh a))) as [Hlt|Hge].
  - split.
    + intros _. eexists. split; [reflexivity|]. split; [apply H3, Hlt|].
      intros j Hj. apply H2. lia.
    + intros Hn. exfalso. apply Hn. apply nth_error_In with (dir_loop neigh a b (length (neigh a)) 0).
      apply H3, Hlt.
  - split; [|reflexivity].
    intros Hin. exfalso. destruct (In_nth_error _ _ Hin) as [j Hj].
    assert (Hjl : (j < length (neigh a))%nat) by (apply nth_error_Some; congruence).
    apply (H2 j); [lia | exact Hj].
Qed.

(** [get_leaf_indices] lists, in increasing order, the indices of the
    nodes with one neighbour, followed by the zeros of [calloc] up to
    [nb_taxa] entries; with more leaves than [nb_taxa] it writes past the
    array ([None]). *)
Theorem get_leaf_indices_spec (nneigh : nat -> nat) nb_nodes nb_taxa :
  let L := filter (fun i => Nat.eqb (nneigh i) 1) (seq 0 nb_nodes) in
  get_leaf_indices nneigh nb_nodes nb_taxa =
    if Nat.leb (length L) nb_taxa then Some (L ++ repeat 0%nat (nb_taxa - length L)) else None.
Proof.
  intros L. unfold get_leaf_indices.
  pose proof (leaf_loop_spec nneigh nb_taxa (seq 0 nb_nodes) [] ltac:(cbn; lia)) as E.
  cbn [length app] in E. rewrite Nat.sub_0_r in E. rewrite E. cbv zeta. fold L.
  reflexivity.
Qed.

End TreeNodesFacts.



(** ** Parsing utilities of [tree.c] *)
Module NewickFacts.
Import Newick.
Local Open Scope Z_scope.

(** The nesting change of one character read left to right, and the nesting
    of [in_str[i..i+n)]. *)
Definition delta (c : ascii) : Z :=
  if Ascii.eqb c "(" then 1 else if Ascii.eqb c ")" then -1 else 0.

Fixpoint level_from (in_str : list ascii) (i : Z) (n : nat) : Z :=
  match n with
  | O => 0
  | S n' => delta (char_at in_str i) + level_from in_str (i + 1) n'
  end.

(** The nesting level at index [j] of a scan started at [begin]. *)
Definition level (in_str : list ascii) (begin j : Z) : Z :=
  level_from in_str begin (Z.to_nat (j - begin)).

(** The same, read right to left: a [')'] opens a level. *)
Definition rdelta (c : ascii) : Z :=
  if Ascii.eqb c ")" then 1 else if Ascii.eqb c "(" then -1 else 0.

Fixpoint rlevel_from (in_str : list ascii) (i : Z) (n : nat) : Z :=
  match n with
  | O => 0
  | S n' => rdelta (char_at in_str i) + rlevel_from in_str (i - 1) n'
  end.

(** The nesting level at index [j] of a scan started at [end], over
    [in_str(j..end]]. *)
Definition rlevel (in_str : list ascii) (end_ j : Z) : Z :=
  rlevel_from in_str end_ (Z.to_nat (end_ - j)).

Lemma level_self s i : level s i i = 0.
Proof. unfold level. rewrite Z.sub_diag. reflexivity. Qed.

Lemma level_step s i j : i < j -> level s i j = delta (char_at s i) + level s (i + 1) j.
Proof.
  intros H. unfold level. replace (Z.to_nat (j - i)) with (S (Z.to_nat (j - (i + 1)))) by lia.
  reflexivity.
Qed.

Lemma rlevel_self s i : rlevel s i i = 0.
Proof. unfold rlevel. rewrite Z.sub_diag. reflexivity. Qed.

Lemma rlevel_step s i j : j < i -> rlevel s i j = rdelta (char_at s i) + rlevel s (i - 1) j.
Proof.
  intros H. unfold rlevel. replace (Z.to_nat (i - j)) with (S (Z.to_nat (i - 1 - j))) by lia.
  reflexivity.
Qed.

Lemma delta_open c : Ascii.eqb c "(" = true -> delta c = 1.
Proof. intros E1. unfold delta. rewrite E1. reflexivity. Qed.

Lemma delta_close c : Ascii.eqb c "(" = false -> Ascii.eqb c ")" = true -> delta c = -1.
Proof. intros E1 E2. unfold delta. rewrite E1, E2. reflexivity. Qed.

Lemma delta_other c : Ascii.eqb c "(" = false -> Ascii.eqb c ")" = false -> delta c = 0.
Proof. intros E1 E2. unfold delta. rewrite E1, E2. reflexivity. Qed.

Lemma rdelta_other c : Ascii.eqb c ")" = false -> Ascii.eqb c "(" = false -> rdelta c = 0.
Proof. intros E1 E2. unfold rdelta. rewrite E1, E2. reflexivity. Qed.

(** The characters of [char_at]: each is one of the four cases of the
    [switch]. *)
Lemma ascii_cases (c : ascii) :
  (Ascii.eqb c "(" = true /\ c = "("%char) \/
  (Ascii.eqb c "(" = false /\ Ascii.eqb c ")" = true /\ c = ")"%char) \/
  (Ascii.eqb c "(" = false /\ Ascii.eqb c ")" = false /\ Ascii.eqb c "," = true /\ c = ","%char) \/
  (Ascii.eqb c "(" = false /\ Ascii.eqb c ")" = false /\ Ascii.eqb c "," = false /\ c <> ","%char).
Proof.
  destruct (Ascii.eqb_spec c "(") as [E|N1]; [left; auto|right].
  destruct (Ascii.eqb_spec c ")") as [E|N2]; [left; auto|right].
  destruct (Ascii.eqb_spec c ",") as [E|N3]; [left; auto|right; auto].
Qed.

Lemma ascii_cases_colon (c : ascii) :
  (Ascii.eqb c ")" = true /\ c = ")"%char) \/
  (Ascii.eqb c ")" = false /\ Ascii.eqb c "(" = true /\ c = "("%char) \/
  (Ascii.eqb c ")" = false /\ Ascii.eqb c "(" = false /\ Ascii.eqb c ":" = true /\ c = ":"%char) \/
  (Ascii.eqb c ")" = false /\ Ascii.eqb c "(" = false /\ Ascii.eqb c ":" = false /\ c <> ":"%char).
Proof.
  destruct (Ascii.eqb_spec c ")") as [E|N1]; [left; auto|right].
  destruct (Ascii.eqb_spec c "(") as [E|N2]; [left; auto|right].
  destruct (Ascii.eqb_spec c ":") as [E|N3]; [left; auto|right; auto].
Qed.

Lemma comma_loop_spec s e : forall fuel i lev, fuel = Z.to_nat (e - i + 1) ->
  let r := comma_loop s fuel i e lev in
  (r = -1 /\ forall j, i <= j <= e -> char_at s j = ","%char -> lev + level s i j <> 0) \/
  (i <= r <= e /\ char_at s r = ","%char /\ lev + level s i r = 0 /\
   forall j, i <= j < r -> char_at s j = ","%char -> lev + level s i j <> 0).
Proof.
  induction fuel as [|fuel IH]; intros i lev Hf r; unfold r; clear r; cbn [comma_loop].
  - left. split; [reflexivity|]. intros j Hj. lia.
  - destruct (Z.leb_spec i e) as [Hie|Hie]; [|lia].
    assert (Hf' : fuel = Z.to_nat (e - (i + 1) + 1)) by lia.
    destruct (ascii_cases (char_at s i)) as [(E1 & Ec)|[(E1 & E2 & Ec)|[(E1 & E2 & E3 & Ec)|(E1 & E2 & E3 & Nc)]]];
      rewrite ?E1, ?E2, ?E3.
    + destruct (IH (i + 1) (lev + 1) Hf') as [(IHr & IHj)|(IHr & IHc & IHl & IHj)].
      * left. split; [exact IHr|]. intros j Hj Hc.
        destruct (Z.eq_dec j i) as [->|Hji]; [rewrite Ec in Hc; discriminate|].
        rewrite level_step by lia. rewrite (delta_open _ E1). specialize (IHj j ltac:(lia) Hc). lia.
      * right. split; [lia|]. split; [exact IHc|]. split.
        { rewrite level_step by lia. rewrite (delta_open _ E1). lia. }
        intros j Hj Hc. destruct (Z.eq_dec j i) as [->|Hji]; [rewrite Ec in Hc; discriminate|].
        rewrite level_step by lia. rewrite (delta_open _ E1). specialize (IHj j ltac:(lia) Hc). lia.
    + destruct (IH (i + 1) (lev - 1) Hf') as [(IHr & IHj)|(IHr & IHc & IHl & IHj)].
      * left. split; [exact IHr|]. intros j Hj Hc.
        destruct (Z.eq_dec j i) as [->|Hji]; [rewrite Ec in Hc; discriminate|].
        rewrite level_step by lia. rewrite (delta_close _ E1 E2). specialize (IHj j ltac:(lia) Hc). lia.
      * right. split; [lia|]. split; [exact IHc|]. split.
        { rewrite level_step by lia. rewrite (delta_close _ E1 E2). lia. }
        intros j Hj Hc. destruct (Z.eq_dec j i) as [->|Hji]; [rewrite Ec in Hc; discriminate|].
        rewrite level_step by lia. rewrite (delta_close _ E1 E2). specialize (IHj j ltac:(lia) Hc). lia.
    + destruct (Z.eqb_spec lev 0) as [Hl0|Hl0].
      * right. split; [lia|]. split; [exact Ec|]. split; [rewrite level_self; lia|]. intros j Hj. lia.
      * destruct (IH (i + 1) lev Hf') as [(IHr & IHj)|(IHr & IHc & IHl & IHj)].
        -- left. split; [exact IHr|]. intros j Hj Hc.
           destruct (Z.eq_dec j i) as [->|Hji]; [rewrite level_self; lia|].
           rewrite level_step by lia. rewrite (delta_other _ E1 E2). specialize (IHj j ltac:(lia) Hc). lia.
        -- right. split; [lia|]. split; [exact IHc|]. split.
           { rewrite level_step by lia. rewrite (delta_other _ E1 E2). lia. }
           intros j Hj Hc. destruct (Z.eq_dec j i) as [->|Hji]; [rewrite level_self; lia|].
           rewrite level_step by lia. rewrite (delta_other _ E1 E2). specialize (IHj j ltac:(lia) Hc). lia.
    + destruct (IH (i + 1) lev Hf') as [(IHr & IHj)|(IHr & IHc & IHl & IHj)].
      * left. split; [exact IHr|]. intros j Hj Hc.
        destruct (Z.eq_dec j i) as [->|Hji]; [contradiction|].
        rewrite level_step by lia. rewrite (delta_other _ E1 E2). specialize (IHj j ltac:(lia) Hc). lia.
      * right. split; [lia|]. split; [exact IHc|]. split.
        { rewrite level_step by lia. rewrite (delta_other _ E1 E2). lia. }
        intros j Hj Hc. destruct (Z.eq_dec j i) as [->|Hji]; [contradiction|].
        rewrite level_step by lia. rewrite (delta_other _ E1 E2). specialize (IHj j ltac:(lia) Hc). lia.
Qed.

Lemma rdelta_close c : Ascii.eqb c ")" = true -> rdelta c = 1.
Proof. intros E1. unfold rdelta. rewrite E1. reflexivity. Qed.

Lemma rdelta_open c : Ascii.eqb c ")" = false -> Ascii.eqb c "(" = true -> rdelta c = -1.
Proof. intros E1 E2. unfold rdelta. rewrite E1, E2. reflexivity. Qed.

Lemma colon_loop_spec s b : forall fuel i lev, fuel = Z.to_nat (i - b + 1) ->
  let r := colon_loop s fuel i b lev in
  (r = -1 /\ forall j, b <= j <= i -> char_at s j = ":"%char -> lev + rlevel s i j <> 0) \/
  (b <= r <= i /\ char_at s r = ":"%char /\ lev + rlevel s i r = 0 /\
   forall j, r < j <= i -> char_at s j = ":"%char -> lev + rlevel s i j <> 0).
Proof.
  induction fuel as [|fuel IH]; intros i lev Hf r; unfold r; clear r; cbn [colon_loop].
  - left. split; [reflexivity|]. intros j Hj. lia.
  - destruct (Z.leb_spec b i) as [Hie|Hie]; [|lia].
    assert (Hf' : fuel = Z.to_nat (i - 1 - b + 1)) by lia.
    destruct (ascii_cases_colon (char_at s i)) as [(E1 & Ec)|[(E1 & E2 & Ec)|[(E1 & E2 & E3 & Ec)|(E1 & E2 & E3 & Nc)]]];
      rewrite ?E1, ?E2, ?E3.
    + destruct (IH (i - 1) (lev + 1) Hf') as [(IHr & IHj)|(IHr & IHc & IHl & IHj)].
      * left. split; [exact IHr|]. intros j Hj Hc.
        destruct (Z.eq_dec j i) as [->|Hji]; [rewrite Ec in Hc; discriminate|].
        rewrite rlevel_step by lia. rewrite (rdelta_close _ E1). specialize (IHj j ltac:(lia) Hc). lia.
      * right. split; [lia|]. split; [exact IHc|]. split.
        { rewrite rlevel_step by lia. rewrite (rdelta_close _ E1). lia. }
        intros j Hj Hc. destruct (Z.eq_dec j i) as [->|Hji]; [rewrite Ec in Hc; discriminate|].
        rewrite rlevel_step by lia. rewrite (rdelta_close _ E1). specialize (IHj j ltac:(lia) Hc). lia.
    + destruct (IH (i - 1) (lev - 1) Hf') as [(IHr & IHj)|(IHr & IHc & IHl & IHj)].
      * left. split; [exact IHr|]. intros j Hj Hc.
        destruct (Z.eq_dec j i) as [->|Hji]; [rewrite Ec in Hc; discriminate|].
        rewrite rlevel_step by lia. rewrite (rdelta_open _ E1 E2). specialize (IHj j ltac:(lia) Hc). lia.
      * right. split; [lia|]. split; [exact IHc|]. split.
        { rewrite rlevel_step by lia. rewrite (rdelta_open _ E1 E2). lia. }
        intros j Hj Hc. destruct (Z.eq_dec j i) as [->|Hji]; [rewrite Ec in Hc; discriminate|].
        rewrite rlevel_step by lia. rewrite (rdelta_open _ E1 E2). specialize (IHj j ltac:(lia) Hc). lia.
    + destruct (Z.eqb_spec lev 0) as [Hl0|Hl0].
      * right. split; [lia|]. split; [exact Ec|]. split; [rewrite rlevel_self; lia|]. intros j Hj. lia.
      * destruct (IH (i - 1) lev Hf') as [(IHr & IHj)|(IHr & IHc & IHl & IHj)].
        -- left. split; [exact IHr|]. intros j Hj Hc.
           destruct (Z.eq_dec j i) as [->|Hji]; [rewrite rlevel_self; lia|].
           rewrite rlevel_step by lia. rewrite (rdelta_other _ E1 E2). specialize (IHj j ltac:(lia) Hc). lia.
        -- right. split; [lia|]. split; [exact IHc|]. split.
           { rewrite rlevel_step by lia. rewrite (rdelta_other _ E1 E2). lia. }
           intros j Hj Hc. destruct (Z.eq_dec j i) as [->|Hji]; [rewrite rlevel_self; lia|].
           rewrite rlevel_step by lia. rewrite (rdelta_other _ E1 E2). specialize (IHj j ltac:(lia) Hc). lia.
    + destruct (IH (i - 1) lev Hf') as [(IHr & IHj)|(IHr & IHc & IHl & IHj)].
      * left. split; [exact IHr|]. intros j Hj Hc.
        destruct (Z.eq_dec j i) as [->|Hji]; [contradiction|].
        rewrite rlevel_step by lia. rewrite (rdelta_other _ E1 E2). specialize (IHj j ltac:(lia) Hc). lia.
      * right. split; [lia|]. split; [exact IHc|]. split.
        { rewrite rlevel_step by lia. rewrite (rdelta_other _ E1 E2). lia. }
        intros j Hj Hc. destruct (Z.eq_dec j i) as [->|Hji]; [contradiction|].
        rewrite rlevel_step by lia. rewrite (rdelta_other _ E1 E2). specialize (IHj j ltac:(lia) Hc). lia.
Qed.

Lemma char_at_nonneg s i c : char_at s i = c -> c <> Ascii.zero -> 0 <= i.
Proof. unfold char_at. destruct (Z.leb_spec 0 i) as [Hi|Hi]; [lia|]. intros <- Hz. contradiction. Qed.

Lemma count_loop_add s e fuel : forall i lev cnt,
  count_loop s fuel i e lev cnt = cnt + count_loop s fuel i e lev 0.
Proof.
  induction fuel as [|fuel IH]; intros i lev cnt; cbn [count_loop]; [lia|].
  destruct (i <=? e); [|lia].
  destruct (Ascii.eqb (char_at s i) "("); [apply IH|].
  destruct (Ascii.eqb (char_at s i) ")"); [apply IH|].
  destruct (Ascii.eqb (char_at s i) ","); [|apply IH].
  rewrite (IH _ _ (if lev =? 0 then cnt + 1 else cnt)), (IH _ _ (if lev =? 0 then 0 + 1 else 0)).
  destruct (lev =? 0); lia.
Qed.

Lemma count_comma s e : forall fuel i lev, fuel = Z.to_nat (e - i + 1) ->
  count_loop s fuel i e lev 0 =
    let r := comma_loop s fuel i e lev in
    if r =? -1 then 0 else 1 + count_loop s (Z.to_nat (e - (r + 1) + 1)) (r + 1) e 0 0.
Proof.
  induction fuel as [|fuel IH]; intros i lev Hf; cbn [count_loop comma_loop]; [reflexivity|].
  destruct (Z.leb_spec i e) as [Hie|Hie]; [|reflexivity].
  assert (Hf' : fuel = Z.to_nat (e - (i + 1) + 1)) by lia.
  destruct (Ascii.eqb (char_at s i) "("); [apply IH, Hf'|].
  destruct (Ascii.eqb (char_at s i) ")"); [apply IH, Hf'|].
  destruct (Ascii.eqb_spec (char_at s i) ",") as [Ec|_]; [|apply IH, Hf'].
  destruct (Z.eqb_spec lev 0) as [->|Hl]; [|apply IH, Hf'].
  cbv zeta. pose proof (char_at_nonneg s i _ Ec ltac:(discriminate)).
  destruct (Z.eqb_spec i (-1)) as [|_]; [lia|].
  rewrite count_loop_add. rewrite <- Hf'. reflexivity.
Qed.

Lemma find_open_spec s e : forall fuel i, fuel = Z.to_nat (e - i + 1) ->
  match find_open s fuel i e with
  | Some k => i <= k <= e /\ char_at s k = "("%char /\ forall j, i <= j < k -> char_at s j <> "("%char
  | None => forall j, i <= j <= e -> char_at s j <> "("%char
  end.
Proof.
  induction fuel as [|fuel IH]; intros i Hf; cbn [find_open]; [intros j Hj; lia|].
  destruct (Z.leb_spec i e) as [Hie|Hie]; [|lia].
  destruct (Ascii.eqb_spec (char_at s i) "(") as [E|N].
  - split; [lia|]. split; [exact E|]. intros j Hj. lia.
  - specialize (IH (i + 1) ltac:(lia)). destruct (find_open s fuel (i + 1) e) as [k|].
    + destruct IH as (H1 & H2 & H3). split; [lia|]. split; [exact H2|].
      intros j Hj. destruct (Z.eq_dec j i) as [->|]; [exact N | apply H3; lia].
    + intros j Hj. destruct (Z.eq_dec j i) as [->|]; [exact N | apply IH; lia].
Qed.

Lemma find_close_spec s b : forall fuel i, fuel = Z.to_nat (i - b + 1) ->
  match find_close s fuel i b with
  | Some k => b <= k <= i /\ char_at s k = ")"%char /\ forall j, k < j <= i -> char_at s j <> ")"%char
  | None => forall j, b <= j <= i -> char_at s j <> ")"%char
  end.
Proof.
  induction fuel as [|fuel IH]; intros i Hf; cbn [find_close]; [intros j Hj; lia|].
  destruct (Z.leb_spec b i) as [Hie|Hie]; [|lia].
  destruct (Ascii.eqb_spec (char_at s i) ")") as [E|N].
  - split; [lia|]. split; [exact E|]. intros j Hj. lia.
  - specialize (IH (i - 1) ltac:(lia)). destruct (find_close s fuel (i - 1) b) as [k|].
    + destruct IH as (H1 & H2 & H3). split; [lia|]. split; [exact H2|].
      intros j Hj. destruct (Z.eq_dec j i) as [->|]; [exact N | apply H3; lia].
    + intros j Hj. destruct (Z.eq_dec j i) as [->|]; [exact N | apply IH; lia].
Qed.

(** [index_next_toplevel_comma] returns the first comma of
    [in_str[begin..end]] at nesting level 0 (counting the parentheses from
    [begin]), and -1 when there is none. *)
Theorem index_next_toplevel_comma_spec s b e :
  let r := index_next_toplevel_comma s b e in
  (r = -1 /\ forall j, b <= j <= e -> char_at s j = ","%char -> level s b j <> 0) \/
  (b <= r <= e /\ char_at s r = ","%char /\ level s b r = 0 /\
   forall j, b <= j < r -> char_at s j = ","%char -> level s b j <> 0).
Proof.
  cbv zeta. unfold index_next_toplevel_comma.
  destruct (comma_loop_spec s e (Z.to_nat (e - b + 1)) b 0 eq_refl) as [(H1 & H2)|(H1 & H2 & H3 & H4)].
  - left. split; [exact H1|]. intros j Hj Hc. specialize (H2 j Hj Hc). lia.
  - right. split; [exact H1|]. split; [exact H2|]. split; [lia|].
    intros j Hj Hc. specialize (H4 j Hj Hc). lia.
Qed.

(** [count_outer_commas] agrees with [index_next_toplevel_comma]: the
    number of top-level commas is 0 when there is no next one, and one more
    than the number after the next one otherwise. *)
Theorem count_outer_commas_next s b e :
  count_outer_commas s b e =
    let r := index_next_toplevel_comma s b e in
    if r =? -1 then 0 else 1 + count_outer_commas s (r + 1) e.
Proof. unfold count_outer_commas, index_next_toplevel_comma. apply count_comma. reflexivity. Qed.

(** [strip_toplevel_parentheses] keeps [(begin, end)] when the range has
    no parenthesis, exits when it has an opening parenthesis and no closing
    one or the reverse, and otherwise returns the range strictly between the
    first ['('] and the last [')']. *)
Theorem strip_toplevel_parentheses_spec s b e :
  let op := exists j, b <= j <= e /\ char_at s j = "("%char in
  let cl := exists j, b <= j <= e /\ char_at s j = ")"%char in
  (~ op -> ~ cl -> strip_toplevel_parentheses s b e = Ok (b, e)) /\
  (op -> ~ cl -> strip_toplevel_parentheses s b e = Fatal unbalanced_msg) /\
  (~ op -> cl -> strip_toplevel_parentheses s b e = Fatal unbalanced_msg) /\
  (op -> cl -> exists p0 p1, strip_toplevel_parentheses s b e = Ok (p0, p1) /\
     b <= p0 - 1 <= e /\ char_at s (p0 - 1) = "("%char /\
     (forall j, b <= j < p0 - 1 -> char_at s j <> "("%char) /\
     b <= p1 + 1 <= e /\ char_at s (p1 + 1) = ")"%char /\
     (forall j, p1 + 1 < j <= e -> char_at s j <> ")"%char)).
Proof.
  intros op cl. unfold strip_toplevel_parentheses.
  pose proof (find_open_spec s e (Z.to_nat (e - b + 1)) b eq_refl) as Ho.
  pose proof (find_close_spec s b (Z.to_nat (e - b + 1)) e eq_refl) as Hc.
  destruct (find_open s (Z.to_nat (e - b + 1)) b e) as [k1|];
    destruct (find_close s (Z.to_nat (e - b + 1)) e b) as [k2|]; cbn [Nat.add].
  - destruct Ho as (O1 & O2 & O3). destruct Hc as (C1 & C2 & C3).
    assert (Op : op) by (exists k1; split; [lia | exact O2]).
    assert (Cl : cl) by (exists k2; split; [lia | exact C2]).
    split; [intros N; contradiction|]. split; [intros _ N; contradiction|].
    split; [intros N; contradiction|]. intros _ _. exists (k1 + 1), (k2 - 1).
    split; [reflexivity|]. replace (k1 + 1 - 1) with k1 by lia. replace (k2 - 1 + 1) with k2 by lia.
    split; [lia|]. split; [exact O2|]. split; [exact O3|]. split; [lia|]. split; [exact C2|]. exact C3.
  - destruct Ho as (O1 & O2 & O3).
    assert (Op : op) by (exists k1; split; [lia | exact O2]).
    assert (NCl : ~ cl) by (intros (j & Hj & Ej); apply (Hc j Hj Ej)).
    split; [intros N; contradiction|]. split; [intros _ _; reflexivity|].
    split; [intros N; contradiction|]. intros _ N; contradiction.
  - destruct Hc as (C1 & C2 & C3).
    assert (NOp : ~ op) by (intros (j & Hj & Ej); apply (Ho j Hj Ej)).
    assert (Cl : cl) by (exists k2; split; [lia | exact C2]).
    split; [intros _ N; contradiction|]. split; [intros N; contradiction|].
    split; [intros _ _; reflexivity|]. intros N; contradiction.
  - assert (NOp : ~ op) by (intros (j & Hj & Ej); apply (Ho j Hj Ej)).
    assert (NCl : ~ cl) by (intros (j & Hj & Ej); apply (Hc j Hj Ej)).
    split; [intros _ _; reflexivity|]. split; [intros N; contradiction|].
    split; [intros _ N; contradiction|]. intros N; contradiction.
Qed.

(** [index_toplevel_colon] scans from [end] down and returns the last
    colon of [in_str[begin..end]] at nesting level 0 (counting the
    parentheses after it), and -1 when there is none. *)
Theorem index_toplevel_colon_spec s b e :
  let r := index_toplevel_colon s b e in
  (r = -1 /\ forall j, b <= j <= e -> char_at s j = ":"%char -> rlevel s e j <> 0) \/
  (b <= r <= e /\ char_at s r = ":"%char /\ rlevel s e r = 0 /\
   forall j, r < j <= e -> char_at s j = ":"%char -> rlevel s e j <> 0).
Proof.
  cbv zeta. unfold index_toplevel_colon.
  destruct (colon_loop_spec s b (Z.to_nat (e - b + 1)) e 0 eq_refl) as [(H1 & H2)|(H1 & H2 & H3 & H4)].
  - left. split; [exact H1|]. intros j Hj Hc. specialize (H2 j Hj Hc). lia.
  - right. split; [exact H1|]. split; [exact H2|]. split; [lia|].
    intros j Hj Hc. specialize (H4 j Hj Hc). lia.
Qed.

End NewickFacts.

(** ** Further properties of the heavy path decomposition ([heavy_paths.c]) *)
Module HPTExtraFacts.
Import HPT HPTFacts.
Local Open Scope Z_scope.

Lemma minD_nil t : minD [] t = 1.
Proof.
  induction t as [y|l IHl r IHr|a IHa b IHb c IHc]; cbn [minD]; rewrite tdist_nil; cbn [subtreesize];
    [reflexivity| |].
  - rewrite IHl, IHr. pose proof (subtreesize_pos l). pose proof (subtreesize_pos r). lia.
  - rewrite IHa, IHb, IHc. pose proof (subtreesize_pos a). pose proof (subtreesize_pos b).
    pose proof (subtreesize_pos c). lia.
Qed.

Lemma maxD_nil t : maxD [] t = subtreesize t.
Proof.
  induction t as [y|l IHl r IHr|a IHa b IHb c IHc]; cbn [maxD]; rewrite tdist_nil; cbn [subtreesize];
    [reflexivity| |].
  - rewrite IHl, IHr. pose proof (subtreesize_pos l). pose proof (subtreesize_pos r). lia.
  - rewrite IHa, IHb, IHc. pose proof (subtreesize_pos a). pose proof (subtreesize_pos b).
    pose proof (subtreesize_pos c). lia.
Qed.

(** With nothing added and no PT leaf with two child heavy paths, an HPT
    related to the built one is the built one. *)
Lemma good_nil_eq p : forall p0, init p0 -> nol2 (shape p0) = true ->
  good [] p p0 -> bk (fields p) (fields p0) -> p = p0.
Proof.
  induction p as [f l IHl r IHr|f v c IHc|f v c1 _ c2 _|f v];
    intros [f0 l0 r0|f0 v0 c0|f0 v0 c10 c20|f0 v0] HI Hn HG HB;
    cbn [good] in HG; try contradiction; cbn [init fields shape nol2] in HI, HB, Hn.
  - destruct HG as (H1 & Gl & Gr). destruct (H1 (clean_nil _)) as (V & Ms & Bl & Br).
    destruct HI as (_ & _ & _ & _ & _ & _ & _ & _ & _ & M0 & Il & Ir).
    apply andb_prop in Hn as [Hn1 Hn2].
    rewrite <- (IHl l0 Il Hn1 Gl Bl), <- (IHr r0 Ir Hn2 Gr Br) in M0 |- *.
    rewrite (pvars_eq f f0 V ltac:(congruence) HB). reflexivity.
  - destruct HG as (Hv & H1 & Hcp & Hcs & Lip & Lis & Lep & Gc). subst v0.
    destruct (H1 (clean_nil _)) as (V & Ms).
    destruct HI as (_ & _ & _ & _ & _ & _ & _ & _ & _ & M0 & Ic).
    destruct (init_head c0 Ic) as (Cp & Cs & _).
    assert (Bc : bk (fields c) (fields c0)) by (unfold bk; intuition congruence).
    rewrite <- (IHc c0 Ic Hn Gc Bc) in M0 |- *.
    rewrite (pvars_eq f f0 V ltac:(congruence) HB). reflexivity.
  - discriminate.
  - destruct HG as (Hv & _ & Ms & H1). subst v0.
    rewrite (pvars_eq f f0 (H1 (clean_nil _)) Ms HB). reflexivity.
Qed.

(** The HPT of [alt] as the driver holds it, with the distinct taxa [A]
    added (in reverse): the invariants the descent relies on. *)
Lemma adds_state alt h Q : NoDup (leaves alt) -> subtreesize alt <= INT_MAX ->
  is_HPT_leaf (heavy_decomposition alt) = false -> settled (heavy_decomposition alt) h ->
  NoDup Q -> incl Q (leaves alt) ->
  let h' := adds Q h in
  exists m, WF (shape h') /\ INV (rev Q) h' m 0 0 /\ LI (rev Q) h' /\ HG (rev Q) h' 0 /\ ND h' /\
    NoDup (hpt_leaves h') /\ is_HPT_leaf h' = false /\
    (forall v, In v (rng h' ++ pnd h') <-> In v (nodes alt)) /\
    (forall x, In x (hpt_leaves h') <-> In x (leaves alt)) /\
    include_path (fields h') = [] /\ include_subtree (fields h') = [] /\ exclude_path (fields h') = [].
Proof.
  intros NU Hsz Hb [G B] NQ HQ h'.
  destruct (P0_facts alt NU Hsz) as (W & I & V & D & N & Hn & Hl).
  set (P0 := heavy_decomposition alt) in *.
  assert (Es : shape h = shape P0) by exact (good_shape _ _ _ G).
  destruct (good_INV h P0 G I W V B) as (m & Vh & _).
  assert (Wh : WF (shape h)) by (rewrite Es; exact W).
  assert (Nh : ND h) by exact (ND_shape P0 h (eq_sym Es) N).
  assert (Lh : hpt_leaves h = hpt_leaves P0) by (rewrite !hpt_leaves_shape, Es; reflexivity).
  assert (Z0 : zeroed h) by exact (settled_zeroed h P0 I G B).
  assert (Hin : incl Q (hpt_leaves h)) by (intros y Hy; rewrite Lh; apply Hl, HQ, Hy).
  assert (NQ' : NoDup (Q ++ [])) by (rewrite app_nil_r; exact NQ).
  rewrite <- Lh in D.
  pose proof (INV_adds Q [] h m Wh Nh Hin NQ' Vh) as HV.
  pose proof (LI_adds Q [] h D Hin NQ' (LI_zeroed h Z0)) as HL.
  pose proof (HG_adds Q [] h D Hin (HG_zeroed h Z0)) as HG0.
  rewrite app_nil_r in HV, HL, HG0.
  destruct (init_head P0 I) as (_ & _ & Ip & Is & _ & Ie).
  destruct (bk_adds Q h P0 I B) as (_ & _ & Ip' & Is' & Ie').
  exists (madds Q h m).
  split; [unfold h'; rewrite shape_adds; exact Wh|]. split; [exact HV|]. split; [exact HL|].
  split; [exact HG0|]. split; [exact (ND_shape h _ (eq_sym (shape_adds Q h)) Nh)|].
  split; [unfold h'; rewrite hpt_leaves_adds; exact D|].
  split; [unfold h'; rewrite is_HPT_leaf_shape, shape_adds, Es, <- is_HPT_leaf_shape; exact Hb|].
  split; [unfold h', rng, pnd; rewrite shape_adds, Es; exact Hn|].
  split; [unfold h'; rewrite hpt_leaves_adds, Lh; exact Hl|].
  unfold h'. split; [|split]; congruence.
Qed.

(** The transfer set read off an HPT whose values are those of the added
    set [A], with its elements: [A] xor [L(w)] for a node [w] at the
    distance [get_ti_min], or the complement of it for a node at the
    distance [get_ti_max]. *)
Lemma transfer_core_set A h m alt nb :
  NoDup A -> incl A (leaves alt) -> NoDup (leaves alt) -> nb = Z.of_nat (length (leaves alt)) ->
  WF (shape h) -> INV A h m 0 0 -> LI A h -> HG A h 0 -> ND h -> NoDup (hpt_leaves h) ->
  is_HPT_leaf h = false ->
  (forall v, In v (rng h ++ pnd h) <-> In v (nodes alt)) ->
  (forall x, In x (hpt_leaves h) <-> In x (leaves alt)) ->
  include_path (fields h) = [] -> include_subtree (fields h) = [] -> exclude_path (fields h) = [] ->
  exists s w, get_transfer_set_HPT h nb = Ok s /\ NoDup s /\ In w (nodes alt) /\
    if get_ti_min h <=? nb - get_ti_max h
    then tdist A w = get_ti_min h /\
         (forall z, In z s <-> In z (leaves alt) /\ (In z A <-> ~ In z (leaves w)))
    else tdist A w = get_ti_max h /\
         (forall z, In z s <-> In z (leaves alt) /\ (In z A <-> In z (leaves w))).
Proof.
  intros NA HA NU Enb HW HV HL HG0 NDh NH Hh Hn Hl Ip Is Ie.
  destruct (values_at A h m alt HV Hh Hn) as (Emin & Xmax & _).
  assert (HAU : incl A (hpt_leaves h)) by (intros z Hz; apply Hl, HA, Hz).
  assert (Hwl : forall w, In w (rng h ++ pnd h) -> NoDup (leaves w) /\ incl (leaves w) (hpt_leaves h)).
  { intros w Hw. split; [apply NDh, Hw|]. intros z Hz. apply Hl.
    apply (nodes_leaves alt w); [apply Hn, Hw | exact Hz]. }
  unfold get_transfer_set_HPT. rewrite !get_x_path_eq.
  destruct (Z.leb_spec (get_ti_min h) (nb - get_ti_max h)) as [Hle|Hlt].
  - rewrite Emin in *.
    assert (Hext : ext false A (minD A alt) (cov false m h)).
    { intros w Hw. apply (proj1 (minD_spec A alt)), Hn, Hw. }
    assert (Hex : exists w, In w (cov false m h) /\ tdist A w = minD A alt).
    { destruct (proj2 (minD_spec A alt)) as (v & Hv & Hd). exists v. split; [apply Hn, Hv | exact Hd]. }
    pose proof (descend false A (minD A alt) ltac:(discriminate) h m 0 0 (diff_path (fields h))
                  (diff_subtree (fields h)) HW HV ltac:(discriminate) Hext Hex ltac:(lia) ltac:(lia)) as D.
    destruct (x_descend false (minD A alt) h _ _) as [ctx n] eqn:Ex. cbn [fst snd] in D.
    destruct D as (Hc & Hpn & w & Hr & Hd). cbv beta iota zeta.
    pose proof (gm_perm _ _ _ Hc) as P.
    replace (own_min h ctx) with (@nil nat) in P by (unfold own_min; destruct (has_child ctx); auto).
    cbn [app] in P.
    pose proof (emin_spec A w h ctx n Hc HW NH HL Hpn Hr) as E.
    pose proof (chain_w_in _ _ _ _ Hc Hr) as Hwin.
    destruct (Hwl w Hwin) as [NW IW].
    assert (Hlen : Z.of_nat (length (get_min_transfer_set_for_node_HPT ctx n)) = minD A alt).
    { rewrite (Permutation_length P), <- Hd, (tdist_xor A w (hpt_leaves h) NA NW NH HAU IW).
      f_equal. apply ES_filter_length; [exact NH|]. revert E. apply ES_ext.
      intros z. rewrite xor_iff. reflexivity. }
    rewrite Hlen, Z.eqb_refl. eexists. exists w. split; [reflexivity|]. split.
    { apply (Permutation_NoDup (Permutation_sym P)). apply E. }
    split; [apply Hn, Hwin|]. split; [exact Hd|].
    intros z. split.
    + intros Hz. apply (Permutation_in _ P), (proj2 E) in Hz. destruct Hz as [Hz1 Hz2].
      split; [apply Hl, Hz1 | exact Hz2].
    + intros [Hz1 Hz2]. apply (Permutation_in _ (Permutation_sym P)), (proj2 E).
      split; [apply Hl, Hz1 | exact Hz2].
  - set (t := get_ti_max h) in *.
    assert (Ht : true = true -> Z.of_nat (length A) < t).
    { intros _. pose proof (proj1 (minD_spec A alt) alt (nodes_self alt)) as Hm.
      rewrite (tdist_root A alt NA HA NU) in Hm. lia. }
    destruct (is_x_sel true A t _ Xmax) as [Hext Hex].
    pose proof (descend true A t Ht h m 0 0 (diff_path (fields h)) (diff_subtree (fields h)) HW HV
                  (fun _ => HG0) Hext Hex ltac:(lia) ltac:(lia)) as D.
    destruct (x_descend true t h _ _) as [ctx n] eqn:Ex. cbn [fst snd] in D.
    destruct D as (Hc & Hpn & w & Hr & Hd). cbv beta iota zeta.
    pose proof (gx_perm _ _ _ Hc) as P.
    replace (own_max h ctx) with (@nil nat) in P by (unfold own_max; destruct (has_child ctx); auto).
    cbn [app] in P.
    pose proof (emax_spec A w h ctx n Hc HW NH HL Hpn Hr) as E.
    pose proof (chain_w_in _ _ _ _ Hc Hr) as Hwin.
    destruct (Hwl w Hwin) as [NW IW].
    assert (HU : length (hpt_leaves h) = length (leaves alt)).
    { apply Permutation_length, NoDup_Permutation; assumption. }
    assert (Hlen : Z.of_nat (length (get_max_transfer_set_for_node_HPT ctx n)) = nb - t).
    { rewrite (Permutation_length P), <- Hd, (tdist_xor A w (hpt_leaves h) NA NW NH HAU IW).
      rewrite (ES_filter_length (fun z => negb (xorb (mem z A) (mem z (leaves w)))) (hpt_leaves h)).
      - pose proof (filter_split_length (fun z => xorb (mem z A) (mem z (leaves w))) (hpt_leaves h)). lia.
      - exact NH.
      - revert E. apply ES_ext. intros z. rewrite xnor_iff. reflexivity. }
    rewrite Hlen, Z.eqb_refl. eexists. exists w. split; [reflexivity|]. split.
    { apply (Permutation_NoDup (Permutation_sym P)). apply E. }
    split; [apply Hn, Hwin|]. split; [exact Hd|].
    intros z. split.
    + intros Hz. apply (Permutation_in _ P), (proj2 E) in Hz. destruct Hz as [Hz1 Hz2].
      split; [apply Hl, Hz1 | exact Hz2].
    + intros [Hz1 Hz2]. apply (Permutation_in _ (Permutation_sym P)), (proj2 E).
      split; [apply Hl, Hz1 | exact Hz2].
Qed.

Definition ex_alt : tree := Bin (Bin (Leaf 0) (Leaf 1)) (Leaf 2).

(** A tree whose root has three children, the heavy one first. *)
Definition ex_tri : tree := Tri (Bin (Leaf 0) (Leaf 1)) (Bin (Leaf 2) (Leaf 3)) (Leaf 4).

Ltac nodup_tac := cbn; repeat constructor; cbn; intuition discriminate.
Ltac size_tac := cbn; unfold INT_MAX; lia.
Ltac incl_tac := intros ? ?; cbn in *; lia.

(** On the HPT just built from an alternative tree with distinct taxa and
    at least two leaves (its nodes may have two or three children),
    [get_ti_min] is 1 and [get_ti_max] is the number of leaves, and the HPT
    holds every leaf of the tree exactly once. *)
Theorem hpt_fresh_values t :
  internal t = true -> NoDup (leaves t) -> subtreesize t <= INT_MAX ->
  let P0 := heavy_decomposition t in
  get_ti_min P0 = 1 /\ get_ti_max P0 = subtreesize t /\
  Permutation (hpt_leaves P0) (leaves t).
Proof.
  intros Ht ND Hsz P0.
  destruct (P0_facts _ ND Hsz) as (_ & _ & V & D & _ & Hn & Hl).
  destruct (values_at [] P0 MF t V (P0_not_HPT_leaf t Ht ND Hsz) Hn) as (E1 & _ & E2).
  rewrite E1, (E2 eq_refl), minD_nil, maxD_nil. split; [reflexivity|]. split; [reflexivity|].
  apply NoDup_Permutation; [exact D | exact ND | exact Hl].
Qed.

Lemma hpt_fresh_values_witness :
  internal ex_tri = true /\ NoDup (leaves ex_tri) /\ subtreesize ex_tri <= INT_MAX /\
  get_ti_min (heavy_decomposition ex_tri) = 1 /\ get_ti_max (heavy_decomposition ex_tri) = 5 /\
  Permutation (hpt_leaves (heavy_decomposition ex_tri)) (leaves ex_tri).
Proof.
  split; [reflexivity|]. split; [unfold ex_tri; nodup_tac|]. split; [unfold ex_tri; size_tac|].
  exact (hpt_fresh_values ex_tri eq_refl ltac:(unfold ex_tri; nodup_tac) ltac:(unfold ex_tri; size_tac)).
Defined.

(** Adding leaves of an alternative tree without a node of three children
    to its HPT with [add_leaf_HPT] and then resetting them with
    [reset_leaf_HPT], in the same order, gives back the HPT as it was
    built. *)
Theorem hpt_add_reset_round_trip alt S :
  tri_free alt = true -> NoDup (leaves alt) -> subtreesize alt <= INT_MAX -> incl S (leaves alt) ->
  resets S (adds S (heavy_decomposition alt)) = heavy_decomposition alt.
Proof.
  intros Ht ND Hsz HS. destruct (P0_facts alt ND Hsz) as (_ & I & _ & _ & _ & _ & _).
  destruct (reach_settled alt ND Hsz _ (reach_round alt _ S (reach_init alt) HS)) as [G B].
  apply good_nil_eq; [exact I | apply tri_free_nol2; assumption | exact G | exact B].
Qed.

Lemma hpt_add_reset_round_trip_witness :
  tri_free ex_alt = true /\ NoDup (leaves ex_alt) /\ subtreesize ex_alt <= INT_MAX /\
  incl [2; 0]%nat (leaves ex_alt) /\
  resets [2; 0]%nat (adds [2; 0]%nat (heavy_decomposition ex_alt)) = heavy_decomposition ex_alt.
Proof.
  split; [reflexivity|]. split; [unfold ex_alt; nodup_tac|]. split; [unfold ex_alt; size_tac|].
  split; [unfold ex_alt; incl_tac|].
  exact (hpt_add_reset_round_trip ex_alt [2; 0]%nat eq_refl ltac:(unfold ex_alt; nodup_tac)
           ltac:(unfold ex_alt; size_tac) ltac:(unfold ex_alt; incl_tac)).
Defined.

(** At a node with three children the round trip does not give back the
    HPT: on [ex_tri], after leaf 4 is added and reset, adding the leaves 0
    and 1 gives [get_ti_max = 3], while the largest distance
    [|{0,1} xor L(v)|] over the nodes [v] is 4 (the node [(2,3)]), the
    value the freshly built HPT gives; [reset_leaf_HPT] at the PT leaf of
    the root rebuilds its [d_max_subtree] from the child heavy path of
    leaf 4 alone. *)
Theorem hpt_tri_reset_stale_max :
  get_ti_max (adds [0; 1]%nat (resets [4%nat] (adds [4%nat] (heavy_decomposition ex_tri)))) = 3 /\
  get_ti_max (adds [0; 1]%nat (heavy_decomposition ex_tri)) = 4 /\
  maxD [0; 1]%nat ex_tri = 4 /\ tdist [0; 1]%nat (Bin (Leaf 2) (Leaf 3)) = 4.
Proof. vm_compute. repeat split. Qed.

(** After the distinct leaves [Q] of an alternative tree with at least two
    leaves (its nodes may have two or three children) are added to its
    freshly built HPT, [get_ti_min] is the smallest and [get_ti_max] the
    largest transfer distance [|Q xor L(v)|] over all nodes [v] of the tree
    (leaves included). *)
Theorem hpt_values_after_adds t Q :
  internal t = true -> NoDup (leaves t) -> subtreesize t <= INT_MAX -> NoDup Q -> incl Q (leaves t) ->
  let h := adds Q (heavy_decomposition t) in
  (forall v, In v (nodes t) -> get_ti_min h <= tdist Q v) /\
  (exists v, In v (nodes t) /\ tdist Q v = get_ti_min h) /\
  (forall v, In v (nodes t) -> tdist Q v <= get_ti_max h) /\
  (exists v, In v (nodes t) /\ tdist Q v = get_ti_max h).
Proof.
  intros Ht ND Hsz NQ HQ h.
  destruct (P0_facts t ND Hsz) as (W & I & V & D & N & Hn & Hl).
  set (P0 := heavy_decomposition t) in *.
  assert (Hin : incl Q (hpt_leaves P0)) by (intros y Hy; apply Hl, HQ, Hy).
  assert (NQ' : NoDup (Q ++ [])) by (rewrite app_nil_r; exact NQ).
  pose proof (INV_adds Q [] P0 MF W N Hin NQ' V) as HV. rewrite app_nil_r in HV.
  assert (Hb : is_HPT_leaf h = false).
  { unfold h. rewrite is_HPT_leaf_shape, shape_adds, <- is_HPT_leaf_shape.
    exact (P0_not_HPT_leaf t Ht ND Hsz). }
  assert (Hn' : forall v, In v (rng h ++ pnd h) <-> In v (nodes t))
    by (unfold h, rng, pnd; rewrite shape_adds; exact Hn).
  destruct (values_at _ _ _ _ HV Hb Hn') as (E1 & _ & E2).
  assert (HQR : forall y, In y (rev Q) <-> In y Q) by (intros y; rewrite <- in_rev; reflexivity).
  unfold h in E1, E2 |- *.
  rewrite (E2 (full_madds Q P0 MF eq_refl)), (maxD_same (rev Q) Q) by auto using NoDup_rev.
  rewrite E1, (minD_same (rev Q) Q) by auto using NoDup_rev.
  destruct (minD_spec Q t) as [M1 [v1 [Hv1 Ev1]]]. destruct (maxD_spec Q t) as [X1 [v2 [Hv2 Ev2]]].
  split; [exact M1|]. split; [exists v1; auto|]. split; [exact X1 | exists v2; auto].
Qed.

Lemma hpt_values_after_adds_witness :
  internal ex_tri = true /\ NoDup (leaves ex_tri) /\ subtreesize ex_tri <= INT_MAX /\
  NoDup [0; 1]%nat /\ incl [0; 1]%nat (leaves ex_tri) /\
  let h := adds [0; 1]%nat (heavy_decomposition ex_tri) in
  (forall v, In v (nodes ex_tri) -> get_ti_min h <= tdist [0; 1]%nat v) /\
  (exists v, In v (nodes ex_tri) /\ tdist [0; 1]%nat v = get_ti_min h) /\
  (forall v, In v (nodes ex_tri) -> tdist [0; 1]%nat v <= get_ti_max h) /\
  (exists v, In v (nodes ex_tri) /\ tdist [0; 1]%nat v = get_ti_max h).
Proof.
  split; [reflexivity|]. split; [unfold ex_tri; nodup_tac|]. split; [unfold ex_tri; size_tac|].
  split; [nodup_tac|]. split; [unfold ex_tri; incl_tac|].
  exact (hpt_values_after_adds ex_tri [0; 1]%nat eq_refl
           ltac:(unfold ex_tri; nodup_tac) ltac:(unfold ex_tri; size_tac) ltac:(nodup_tac)
           ltac:(unfold ex_tri; incl_tac)).
Defined.

(** At every HPT the driver builds (distinct leaves [Q] of an alternative
    tree with at least two leaves, its nodes with two or three children,
    added to an HPT the driver holds between two reference leaves),
    [get_transfer_set_HPT] returns a set without repetition that is, for a
    node [w] of the tree: [Q xor L(w)] with [w] at the distance
    [get_ti_min] when the min side is chosen, and the leaves outside
    [Q xor L(w)] with [w] at the distance [get_ti_max] otherwise. *)
Theorem transfer_set_members alt h Q :
  internal alt = true -> NoDup (leaves alt) -> subtreesize alt <= INT_MAX -> reach alt h ->
  NoDup Q -> incl Q (leaves alt) ->
  let h' := adds Q h in
  let nb := Z.of_nat (length (leaves alt)) in
  exists s w, get_transfer_set_HPT h' nb = Ok s /\ NoDup s /\ In w (nodes alt) /\
    if get_ti_min h' <=? nb - get_ti_max h'
    then tdist Q w = get_ti_min h' /\
         (forall z, In z s <-> In z (leaves alt) /\ (In z Q <-> ~ In z (leaves w)))
    else tdist Q w = get_ti_max h' /\
         (forall z, In z s <-> In z (leaves alt) /\ (In z Q <-> In z (leaves w))).
Proof.
  intros Hi NU Hsz Hr NQ HQ h' nb.
  pose proof (P0_not_HPT_leaf alt Hi NU Hsz) as Hb.
  destruct (adds_state alt h Q NU Hsz Hb (reach_settled alt NU Hsz h Hr) NQ HQ)
    as (m & W & HV & HL & HG0 & N & D & Hb' & Hn & Hl & Ip & Is & Ie).
  fold h' in W, HV, HL, HG0, N, D, Hb', Hn, Hl, Ip, Is, Ie.
  assert (NR : NoDup (rev Q)) by (apply NoDup_rev, NQ).
  assert (HR : incl (rev Q) (leaves alt)) by (intros y Hy; apply HQ, in_rev, Hy).
  assert (HQR : forall y, In y (rev Q) <-> In y Q) by (intros y; rewrite <- in_rev; reflexivity).
  destruct (transfer_core_set (rev Q) h' m alt nb NR HR NU eq_refl W HV HL HG0 N D Hb' Hn Hl Ip Is Ie)
    as (s & w & Es & Ns & Hw & Hs).
  rewrite (tdist_same (rev Q) Q) in Hs by assumption.
  exists s, w. split; [exact Es|]. split; [exact Ns|]. split; [exact Hw|].
  destruct (get_ti_min h' <=? nb - get_ti_max h'); destruct Hs as [Hd Hz]; (split; [exact Hd|]);
    intros z; rewrite Hz, HQR; reflexivity.
Qed.

Lemma transfer_set_members_witness :
  internal ex_tri = true /\ NoDup (leaves ex_tri) /\ subtreesize ex_tri <= INT_MAX /\
  reach ex_tri (heavy_decomposition ex_tri) /\
  NoDup [0; 1]%nat /\ incl [0; 1]%nat (leaves ex_tri) /\
  let h' := adds [0; 1]%nat (heavy_decomposition ex_tri) in
  exists s w, get_transfer_set_HPT h' 5 = Ok s /\ NoDup s /\ In w (nodes ex_tri) /\
    if get_ti_min h' <=? 5 - get_ti_max h'
    then tdist [0; 1]%nat w = get_ti_min h' /\
         (forall z, In z s <-> In z (leaves ex_tri) /\ (In z [0; 1]%nat <-> ~ In z (leaves w)))
    else tdist [0; 1]%nat w = get_ti_max h' /\
         (forall z, In z s <-> In z (leaves ex_tri) /\ (In z [0; 1]%nat <-> In z (leaves w))).
Proof.
  split; [reflexivity|]. split; [unfold ex_tri; nodup_tac|]. split; [unfold ex_tri; size_tac|].
  split; [apply reach_init|]. split; [nodup_tac|]. split; [unfold ex_tri; incl_tac|].
  exact (transfer_set_members ex_tri (heavy_decomposition ex_tri) [0; 1]%nat eq_refl
           ltac:(unfold ex_tri; nodup_tac) ltac:(unfold ex_tri; size_tac) (reach_init ex_tri)
           ltac:(nodup_tac) ltac:(unfold ex_tri; incl_tac)).
Defined.

End HPTExtraFacts.
